(** * A shallow embedding of the propositional / first-order logic engine

    The development follows the layout of the Python sources:
    - [Py]            the fragment of the Python runtime the code relies on
                      (exceptions, indexing with negative indices, dicts);
    - [Propositions]  [propositions/syntax.py], [semantics.py], [proofs.py],
                      [deduction.py], [tautology.py];
    - [Predicates]    [predicates/syntax.py].
    Definitions come first, the lemmas and theorems about them afterwards.

    Strings are strings of 8-bit characters, and [isdigit] and [isalnum]
    are those of ASCII.  Python integers are [Z].  The interpreter's limit
    on the depth of recursion is not modelled: a definition that takes
    [fuel] is given enough of it for every call the code makes, and the
    theorems show that it does not run out. *)

From Stdlib Require Import String Ascii List NArith ZArith Bool Arith Lia.
From Stdlib Require Import DecimalString DecimalNat.
Import ListNotations.
Open Scope string_scope.

(* ================================================================== *)
(** * The Python runtime fragment *)
(* ================================================================== *)

Module Py.

(** Exceptions the sources can raise. *)
Inductive exn : Type :=
| AssertionError
| IndexError
| KeyError
| AttributeError
| TypeError
| RecursionError
| ForbiddenVariableError (variable_name : string).

(** A computation either returns a value or raises. *)
Inductive result (A : Type) : Type :=
| Ok (a : A)
| Raise (e : exn).
Arguments Ok {A} a.
Arguments Raise {A} e.

Definition bind {A B : Type} (c : result A) (k : A -> result B) : result B :=
  match c with
  | Ok a => k a
  | Raise e => Raise e
  end.

(** [assert b] *)
Definition assert (b : bool) : result unit :=
  if b then Ok tt else Raise AssertionError.

(** [l[i]] for a tuple or list [l] and an [int] [i]: a negative index counts
    from the end, anything out of range raises [IndexError]. *)
Definition getitem {A : Type} (l : list A) (i : Z) : result A :=
  let n := Z.of_nat (length l) in
  let j := if (i <? 0)%Z then (n + i)%Z else i in
  if (j <? 0)%Z then Raise IndexError
  else match nth_error l (Z.to_nat j) with
       | Some a => Ok a
       | None => Raise IndexError
       end.

(** [for x in l: body] where the body may raise; the loop state [s] is
    threaded. *)
Fixpoint for_each {A S : Type} (body : A -> S -> result S) (l : list A)
         (s : S) : result S :=
  match l with
  | [] => Ok s
  | x :: l' => bind (body x s) (fun s' => for_each body l' s')
  end.

(** [[f(x) for x in l]] where [f] may raise. *)
Fixpoint map_result {A B : Type} (f : A -> result B) (l : list A)
  : result (list B) :=
  match l with
  | [] => Ok []
  | x :: l' =>
      bind (f x) (fun y => bind (map_result f l') (fun ys => Ok (y :: ys)))
  end.

(** [len(l)] *)
Definition len {A : Type} (l : list A) : Z := Z.of_nat (List.length l).

(** [len(s)] *)
Definition str_len (s : string) : Z := Z.of_nat (String.length s).

(** [[char for char in s]] and [for char in s]: the characters of a string,
    each a string of length one. *)
Fixpoint characters (s : string) : list string :=
  match s with
  | EmptyString => []
  | String c s' => String c EmptyString :: characters s'
  end.

(** [s[i]] *)
Definition str_getitem (s : string) (i : Z) : result string :=
  getitem (characters s) i.

(** A bound of a slice over [n] items: a negative bound counts from the
    end, and bounds out of range are clipped. *)
Definition slice_bound (n i : Z) : Z :=
  if (i <? 0)%Z then Z.max (n + i) 0 else Z.min i n.

(** [s[start:stop]] *)
Definition slice (s : string) (start stop : Z) : string :=
  let a := slice_bound (str_len s) start in
  let b := slice_bound (str_len s) stop in
  substring (Z.to_nat a) (Z.to_nat (b - a)) s.

(** [s[start:]] *)
Definition slice_from (s : string) (start : Z) : string :=
  slice s start (str_len s).

(** [s[:stop]] *)
Definition slice_to (s : string) (stop : Z) : string := slice s 0 stop.

(** [s.find(c)] for a character [c]: the first position of [c], or [-1]. *)
Fixpoint find (s : string) (c : ascii) : Z :=
  match s with
  | EmptyString => (-1)%Z
  | String c' s' =>
      if Ascii.eqb c' c then 0%Z
      else let r := find s' c in if (r <? 0)%Z then (-1)%Z else (r + 1)%Z
  end.

(** [s.split(c)] for a character [c]. *)
Fixpoint split (s : string) (c : ascii) : list string :=
  match s with
  | EmptyString => [EmptyString]
  | String c' s' =>
      if Ascii.eqb c' c then EmptyString :: split s' c
      else match split s' c with
           | piece :: pieces => String c' piece :: pieces
           | [] => [String c' EmptyString]
           end
  end.

(** How the body of a [while] loop ends: the loop goes on, [break], or the
    function returns. *)
Inductive flow (S R : Type) : Type :=
| Next (s : S)
| Break (s : S)
| Return (r : R).
Arguments Next {S R} s.
Arguments Break {S R} s.
Arguments Return {S R} r.

(** [range(a, b)] *)
Definition range_from (a b : Z) : list Z :=
  map (fun k => (a + Z.of_nat k)%Z) (seq 0 (Z.to_nat (b - a))).

(** Characters are compared by code point. *)
Definition char_le (a b : ascii) : bool := (N_of_ascii a <=? N_of_ascii b)%N.

Definition between (lo c hi : ascii) : bool := char_le lo c && char_le c hi.

Definition is_digit_char (c : ascii) : bool := between "0" c "9".

Fixpoint all_chars (p : ascii -> bool) (s : string) : bool :=
  match s with
  | EmptyString => true
  | String c s' => p c && all_chars p s'
  end.

(** [s.isdigit()]: at least one character, all of them digits. *)
Definition isdigit (s : string) : bool :=
  match s with
  | EmptyString => false
  | _ => all_chars is_digit_char s
  end.

Definition is_alnum_char (c : ascii) : bool :=
  between "0" c "9" || between "a" c "z" || between "A" c "Z".

(** [s.isalnum()] *)
Definition isalnum (s : string) : bool :=
  match s with
  | EmptyString => false
  | _ => all_chars is_alnum_char s
  end.

(** Dictionaries keep insertion order; assigning to an existing key keeps
    its position. *)
Definition dict (V : Type) : Type := list (string * V).

Fixpoint dict_get {V : Type} (d : dict V) (k : string) : option V :=
  match d with
  | [] => None
  | (k', v) :: d' => if String.eqb k' k then Some v else dict_get d' k
  end.

(** [k in d] *)
Definition dict_mem {V : Type} (d : dict V) (k : string) : bool :=
  match dict_get d k with Some _ => true | None => false end.

(** [d[k]], raising [KeyError] for a missing key. *)
Definition dict_getitem {V : Type} (d : dict V) (k : string) : result V :=
  match dict_get d k with Some v => Ok v | None => Raise KeyError end.

(** [d[k] = v] *)
Fixpoint dict_set {V : Type} (d : dict V) (k : string) (v : V) : dict V :=
  match d with
  | [] => [(k, v)]
  | (k', v') :: d' =>
      if String.eqb k' k then (k', v) :: d' else (k', v') :: dict_set d' k v
  end.

Definition dict_keys {V : Type} (d : dict V) : list string := map fst d.

(** Sets of strings, as duplicate-free lists. *)
Definition str_mem (x : string) (s : list string) : bool :=
  existsb (String.eqb x) s.

Definition set_add (x : string) (s : list string) : list string :=
  if str_mem x s then s else s ++ [x].

(** [sorted(l)] on strings: insertion sort with the code-point order. *)
Fixpoint insert_sorted (x : string) (l : list string) : list string :=
  match l with
  | [] => [x]
  | y :: l' => if String.leb x y then x :: l else y :: insert_sorted x l'
  end.

Fixpoint sorted (l : list string) : list string :=
  match l with
  | [] => []
  | x :: l' => insert_sorted x (sorted l')
  end.

End Py.

Import Py.

Declare Scope py_scope.
Notation "x <- c ;; k" := (Py.bind c (fun x => k))
  (at level 61, c at next level, right associativity) : py_scope.
Notation "c ;;; k" := (Py.bind c (fun _ => k))
  (at level 61, right associativity) : py_scope.
Open Scope py_scope.

(* ================================================================== *)
(** * propositions/syntax.py *)
(* ================================================================== *)

Module Propositions.

(** [is_variable(s)]: [s[0]] raises [IndexError] on the empty string. *)
Definition is_variable (s : string) : result bool :=
  match s with
  | EmptyString => Raise IndexError
  | String c rest =>
      Ok (between "p" c "z" &&
          ((Nat.eqb (String.length s) 1) || isdigit rest))
  end.

Definition is_constant (s : string) : bool :=
  String.eqb s "T" || String.eqb s "F".

Definition is_unary (s : string) : bool := String.eqb s "~".

Definition is_binary (s : string) : bool :=
  existsb (String.eqb s) ["&"; "|"; "->"; "+"; "<->"; "-&"; "-|"].

(** A [Formula] object: its [root] and, by the shape the constructor
    accepted, no operand, [first], or [first] and [second]. *)
Inductive Formula : Type :=
| Leaf (root : string)
| Unary (root : string) (first : Formula)
| Binary (root : string) (first second : Formula).

Definition root (f : Formula) : string :=
  match f with
  | Leaf r | Unary r _ | Binary r _ _ => r
  end.

(** [Formula(root)], [Formula(root, first)], [Formula(root, first, second)]
    with the assertions of [__init__]. *)
Definition Formula_init (r : string) (first second : option Formula)
  : result Formula :=
  v <- is_variable r ;;
  if v || is_constant r then
    match first, second with
    | None, None => Ok (Leaf r)
    | _, _ => Raise AssertionError
    end
  else if is_unary r then
    match first, second with
    | Some a, None => Ok (Unary r a)
    | _, _ => Raise AssertionError
    end
  else
    match first, second with
    | Some a, Some b => if is_binary r then Ok (Binary r a b)
                        else Raise AssertionError
    | _, _ => Raise AssertionError
    end.

(** The class invariant [__init__] establishes. *)
Fixpoint wf (f : Formula) : bool :=
  match f with
  | Leaf r =>
      match is_variable r with
      | Ok v => v || is_constant r
      | Raise _ => false
      end
  | Unary r a => is_unary r && wf a
  | Binary r a b => is_binary r && wf a && wf b
  end.

(** [__repr__] *)
Fixpoint repr (f : Formula) : string :=
  match f with
  | Leaf r => r
  | Unary r a => r ++ repr a
  | Binary r a b => "(" ++ repr a ++ r ++ repr b ++ ")"
  end.

(** [__eq__]: equality of the string representations. *)
Definition Formula_eq (f g : Formula) : bool := String.eqb (repr f) (repr g).

(** [__ne__] *)
Definition Formula_ne (f g : Formula) : bool := negb (Formula_eq f g).

(** [formula in formulas] for a tuple or list of formulas. *)
Definition Formula_in (f : Formula) (l : list Formula) : bool :=
  existsb (fun g => Formula_eq g f) l.

(** [find_variables] *)
Fixpoint find_variables (f : Formula) (var_set : list string) : list string :=
  match f with
  | Leaf r =>
      if is_constant r then var_set
      else match is_variable r with
           | Ok true => set_add r var_set
           | _ => var_set
           end
  | Unary _ a => find_variables a var_set
  | Binary _ a b => find_variables b (find_variables a var_set)
  end.

Definition variables (f : Formula) : list string := find_variables f [].

(** [__find_operators] *)
Fixpoint find_operators (f : Formula) (op_set : list string) : list string :=
  match f with
  | Leaf r => if is_constant r then set_add r op_set else op_set
  | Unary r a => find_operators a (set_add r op_set)
  | Binary r a b => find_operators b (find_operators a (set_add r op_set))
  end.

Definition operators (f : Formula) : list string := find_operators f [].

(** [Formula.__parse_var]: the loop appends the digits that follow
    [my_list[index]].  It ends after at most [len(my_list)] rounds;
    running out of [fuel] is reported as [RecursionError]. *)
Fixpoint parse_var_loop (fuel : nat) (my_list : list string) (my_str : string)
         (index : Z) : result (string * Z) :=
  if (index <? len my_list)%Z then
    match fuel with
    | O => Raise RecursionError
    | S fuel' =>
        c <- getitem my_list index ;;
        if isdigit c
        then parse_var_loop fuel' my_list (my_str ++ c) (index + 1)%Z
        else Ok (my_str, index)
    end
  else Ok (my_str, index).

Definition parse_var (index : Z) (my_list : list string)
  : result (string * Z) :=
  my_str <- getitem my_list index ;;
  parse_var_loop (List.length my_list) my_list my_str (index + 1)%Z.

(** The local variables of [Formula.parse_prefix] that its [while] loop
    updates. *)
Record Scan : Type := mkScan {
  index : Z;
  open_number : Z;
  close_number : Z;
  operator_number : Z;
  index_close : Z;
  index_operator : Z;
  count_par : Z;
  to_return : string
}.

(** The [if]/[elif] chain of the loop of [parse_prefix]; [None] stands for
    [return None, "Not a valid operator"]. *)
Definition scan_branch (s : string) (to_parse : list string) (st : Scan)
  : result (option Scan) :=
  let i := index st in
  c <- getitem to_parse i ;;
  if String.eqb c "(" then
    Ok (Some (mkScan i (open_number st + 1) (close_number st)
                     (operator_number st) (index_close st) (index_operator st)
                     (count_par st + 1) (to_return st)))
  else if String.eqb c ")" then
    Ok (Some (mkScan i (open_number st) (close_number st + 1)
                     (operator_number st) i (index_operator st)
                     (count_par st - 1) (to_return st)))
  else if is_binary c then
    Ok (Some (mkScan i (open_number st) (close_number st)
                     (operator_number st + 1) (index_close st)
                     (if (count_par st =? 1)%Z then i else index_operator st)
                     (count_par st) (to_return st)))
  else if (i + 1 <? str_len s)%Z
          && (String.eqb (slice s i (i + 2)) "->"
              || String.eqb (slice s i (i + 2)) "-&"
              || String.eqb (slice s i (i + 2)) "-|") then
    Ok (Some (mkScan (i + 1) (open_number st) (close_number st)
                     (operator_number st + 1) (index_close st)
                     (if (count_par st =? 1)%Z then (i + 1)%Z
                      else index_operator st)
                     (count_par st) (to_return st)))
  else if (i + 2 <? str_len s)%Z && String.eqb (slice s i (i + 3)) "<->" then
    Ok (Some (mkScan (i + 1) (open_number st) (close_number st)
                     (operator_number st + 1) (index_close st)
                     (if (count_par st =? 1)%Z then (i + 1)%Z
                      else index_operator st)
                     (count_par st) (to_return st)))
  else
    dash <- (if (i + 1 <? str_len s)%Z then
               c0 <- str_getitem s i ;;
               if String.eqb c0 "-" then
                 c1 <- str_getitem s (i + 1) ;;
                 Ok (negb (String.eqb c1 ">") || negb (String.eqb c1 "&")
                     || negb (String.eqb c1 "|"))
               else Ok false
             else Ok false) ;;
    if dash then Ok None
    else
      less <- (if (i + 2 <? str_len s)%Z then
                 c0 <- str_getitem s i ;;
                 if String.eqb c0 "<" then
                   c1 <- str_getitem s (i + 1) ;;
                   if negb (String.eqb c1 "-") then Ok true
                   else c2 <- str_getitem s (i + 2) ;;
                        Ok (negb (String.eqb c2 ">"))
                 else Ok false
               else Ok false) ;;
      if less then Ok None else Ok (Some st).

(** One round of the loop: the chain, [index += 1], and the [break] once
    the parentheses are balanced. *)
Definition scan_step (s : string) (to_parse : list string) (st : Scan)
  : result (flow Scan string) :=
  branch <- scan_branch s to_parse st ;;
  match branch with
  | None => Ok (Return "Not a valid operator")
  | Some st1 =>
      let i := (index st1 + 1)%Z in
      if (open_number st1 =? close_number st1)%Z then
        Ok (Break (mkScan i (open_number st1) (close_number st1)
                          (operator_number st1) (index_close st1)
                          (index_operator st1) (count_par st1)
                          (slice_from s (index_close st1 + 1))))
      else
        Ok (Next (mkScan i (open_number st1) (close_number st1)
                         (operator_number st1) (index_close st1)
                         (index_operator st1) (count_par st1) (to_return st1)))
  end.

(** [while (index < len(s))]: every round advances [index], so [len(s)]
    rounds are enough; running out of [fuel] is reported as
    [RecursionError].  The result is the state after the loop, or the
    message returned from inside it. *)
Fixpoint scan_loop (fuel : nat) (s : string) (to_parse : list string)
         (st : Scan) : result (Scan + string) :=
  if (index st <? str_len s)%Z then
    match fuel with
    | O => Raise RecursionError
    | S fuel' =>
        step <- scan_step s to_parse st ;;
        match step with
        | Next st' => scan_loop fuel' s to_parse st'
        | Break st' => Ok (inl st')
        | Return msg => Ok (inr msg)
        end
    end
  else Ok (inl st).

(** [Formula.parse_prefix]: a pair of the formula, or [None], and the rest
    of the string, or the error message.  The recursive calls are on
    strictly shorter strings for a string that starts with a formula;
    running out of [fuel] is reported as [RecursionError]. *)
Fixpoint parse_prefix_rec (fuel : nat) (s : string)
  : result (option Formula * string) :=
  match fuel with
  | O => Raise RecursionError
  | S fuel' =>
      let to_parse := characters s in
      if (len to_parse =? 0)%Z then Ok (None, "Empty string")
      else if (len to_parse =? 1)%Z then
        c <- getitem to_parse 0%Z ;;
        v <- is_variable c ;;
        if v || is_constant c then
          f <- Formula_init c None None ;; Ok (Some f, "")
        else Ok (None, "Invalid variable")
      else
        c <- getitem to_parse 0%Z ;;
        if is_unary c then
          formula <- parse_prefix_rec fuel' (slice_from s 1) ;;
          match fst formula with
          | None => Ok (None, "Unary signe is alone")
          | Some a =>
              f <- Formula_init "~" (Some a) None ;; Ok (Some f, snd formula)
          end
        else
          v <- is_variable c ;;
          if v then
            my_var <- parse_var 0%Z to_parse ;;
            f <- Formula_init (fst my_var) None None ;;
            Ok (Some f, slice_from s (snd my_var))
          else if is_constant c then
            f <- Formula_init c None None ;; Ok (Some f, slice_from s 1)
          else
            scanned <- scan_loop (List.length to_parse) s to_parse
                                 (mkScan 0 0 0 0 0 0 0 "") ;;
            match scanned with
            | inr msg => Ok (None, msg)
            | inl st =>
                if negb (open_number st =? operator_number st)%Z
                   || negb (close_number st =? operator_number st)%Z
                then Ok (None, "Not same operator number than () number")
                else
                  let to_return :=
                    if negb (index_close st =? str_len s - 1)%Z
                    then slice_from s (index_close st + 1)
                    else to_return st in
                  let io := index_operator st in
                  let ic := index_close st in
                  let binary (r : string) (first second : string) :=
                    a <- parse_prefix_rec fuel' first ;;
                    b <- parse_prefix_rec fuel' second ;;
                    f <- Formula_init r (fst a) (fst b) ;;
                    Ok (Some f, to_return) in
                  op <- getitem to_parse io ;;
                  if String.eqb op ">" then
                    binary "->" (slice s 1 (io - 1)) (slice s (io + 1) ic)
                  else if String.eqb op "-" then
                    binary "<->" (slice s 1 (io - 1)) (slice s (io + 2) ic)
                  else
                    nand <- (if String.eqb op "&" then
                               prev <- getitem to_parse (io - 1)%Z ;;
                               Ok (String.eqb prev "-")
                             else Ok false) ;;
                    if nand then
                      binary "-&" (slice s 1 (io - 1)) (slice s (io + 1) ic)
                    else
                      nor <- (if String.eqb op "|" then
                                prev <- getitem to_parse (io - 1)%Z ;;
                                Ok (String.eqb prev "-")
                              else Ok false) ;;
                      if nor then
                        binary "-|" (slice s 1 (io - 1)) (slice s (io + 1) ic)
                      else
                        binary op (slice s 1 io) (slice s (io + 1) ic)
            end
  end.

(** A parse never calls itself more than [len(s)] deep. *)
Definition parse_prefix (s : string) : result (option Formula * string) :=
  parse_prefix_rec (S (String.length s)) s.

(** [Formula.is_formula] *)
Definition is_formula (s : string) : result bool :=
  formula_parse <- parse_prefix s ;;
  Ok (match fst formula_parse with
      | None => false
      | Some _ => String.eqb (snd formula_parse) ""
      end).

(** [Formula.parse]; the value is [parse_prefix(s)[0]], which may be
    [None]. *)
Definition parse (s : string) : result (option Formula) :=
  ok <- is_formula s ;; assert ok ;;;
  formula_parse <- parse_prefix s ;;
  Ok (fst formula_parse).

(** [substitute_variables]; the assertion on the keys comes first. *)
Fixpoint substitute_variables_rec (f : Formula) (m : dict Formula) : Formula :=
  match dict_get m (root f) with
  | Some g => g
  | None =>
      match f with
      | Leaf r => Leaf r
      | Unary r a => Unary r (substitute_variables_rec a m)
      | Binary r a b =>
          Binary r (substitute_variables_rec a m) (substitute_variables_rec b m)
      end
  end.

Definition assert_variable_keys {V : Type} (m : dict V) : result unit :=
  for_each (fun k _ => v <- is_variable k ;; assert v) (dict_keys m) tt.

Definition substitute_variables (f : Formula) (m : dict Formula)
  : result Formula :=
  assert_variable_keys m ;;;
  Ok (substitute_variables_rec f m).

(* ---------------------------------------------------------------- *)
(** ** propositions/proofs.py *)
(* ---------------------------------------------------------------- *)

Definition SpecializationMap : Type := dict Formula.

Record InferenceRule : Type := mkInferenceRule {
  assumptions : list Formula;
  conclusion : Formula
}.

(** Equality of tuples of formulas: same length, pairwise equal. *)
Fixpoint Formulas_eq (l1 l2 : list Formula) : bool :=
  match l1, l2 with
  | [], [] => true
  | f :: l1', g :: l2' => Formula_eq f g && Formulas_eq l1' l2'
  | _, _ => false
  end.

(** [InferenceRule.__eq__] *)
Definition InferenceRule_eq (r1 r2 : InferenceRule) : bool :=
  Formulas_eq (assumptions r1) (assumptions r2) &&
  Formula_eq (conclusion r1) (conclusion r2).

(** [rule in rules] for a (frozen) set of rules; equal rules print, hence
    hash, alike, so membership is the existence of an equal element. *)
Definition InferenceRule_in (r : InferenceRule) (rules : list InferenceRule)
  : bool :=
  existsb (fun r' => InferenceRule_eq r' r) rules.

(** [InferenceRule.variables] *)
Definition InferenceRule_variables (r : InferenceRule) : list string :=
  find_variables (conclusion r)
    (fold_left (fun s f => find_variables f s) (assumptions r) []).

(** [InferenceRule.specialize] *)
Definition specialize (r : InferenceRule) (m : SpecializationMap)
  : result InferenceRule :=
  assert_variable_keys m ;;;
  Ok (mkInferenceRule
        (map (fun a => substitute_variables_rec a m) (assumptions r))
        (substitute_variables_rec (conclusion r) m)).

(** The first loop of [merge_specialization_maps], over the items of the
    first map; [None] is the early [return None]. *)
Fixpoint merge_first (items : list (string * Formula))
         (m2 spe_map : SpecializationMap) : option SpecializationMap :=
  match items with
  | [] => Some spe_map
  | (var, v1) :: rest =>
      match dict_get m2 var with
      | Some v2 =>
          if Formula_eq v1 v2
          then merge_first rest m2 (dict_set spe_map var v1)
          else None
      | None => merge_first rest m2 (dict_set spe_map var v1)
      end
  end.

(** The second loop, over the items of the second map. *)
Fixpoint merge_second (items : list (string * Formula))
         (m1 spe_map : SpecializationMap) : SpecializationMap :=
  match items with
  | [] => spe_map
  | (var, v2) :: rest =>
      if dict_mem m1 var then merge_second rest m1 spe_map
      else merge_second rest m1 (dict_set spe_map var v2)
  end.

(** [merge_specialization_maps]; Python's [None] is [None] here. *)
Definition merge_specialization_maps (m1 m2 : option SpecializationMap)
  : result (option SpecializationMap) :=
  match m1 with Some m => assert_variable_keys m | None => Ok tt end ;;;
  match m2 with Some m => assert_variable_keys m | None => Ok tt end ;;;
  match m1, m2 with
  | Some a, Some b =>
      match merge_first a b [] with
      | Some spe_map => Ok (Some (merge_second b a spe_map))
      | None => Ok None
      end
  | _, _ => Ok None
  end.

(** [formula_specialization_map] *)
Fixpoint formula_specialization_map (general specialization : Formula)
  : result (option SpecializationMap) :=
  v <- is_variable (root general) ;;
  if v then Ok (Some [(root general, specialization)])
  else if is_constant (root general) &&
          String.eqb (root general) (root specialization) then Ok (Some [])
  else if negb (String.eqb (root general) (root specialization)) then Ok None
  else if is_unary (root general) then
    match general, specialization with
    | Unary _ g1, Unary _ s1 => formula_specialization_map g1 s1
    | _, _ => Raise AttributeError
    end
  else if is_binary (root general) then
    match general, specialization with
    | Binary _ g1 g2, Binary _ s1 s2 =>
        first <- formula_specialization_map g1 s1 ;;
        secd <- formula_specialization_map g2 s2 ;;
        merge_specialization_maps first secd
    | _, _ => Raise AttributeError
    end
  else Ok None.

(** The loop of [specialization_map] over the paired assumptions. *)
Fixpoint specialization_map_loop (gs ss : list Formula)
         (spe_map : option SpecializationMap)
  : result (option SpecializationMap) :=
  match gs, ss with
  | g :: gs', s :: ss' =>
      to_add <- formula_specialization_map g s ;;
      spe_map' <- merge_specialization_maps spe_map to_add ;;
      specialization_map_loop gs' ss' spe_map'
  | _, _ => Ok spe_map
  end.

(** [specialization_map] *)
Definition specialization_map (self specialization : InferenceRule)
  : result (option SpecializationMap) :=
  if negb (Nat.eqb (List.length (assumptions self))
                   (List.length (assumptions specialization)))
  then Ok None
  else
    spe_map <- specialization_map_loop (assumptions self)
                 (assumptions specialization) (Some []) ;;
    to_add <- formula_specialization_map (conclusion self)
                (conclusion specialization) ;;
    merge_specialization_maps spe_map to_add.

(** [is_specialization_of] *)
Definition is_specialization_of (self general : InferenceRule) : result bool :=
  m <- specialization_map general self ;;
  Ok (match m with Some _ => true | None => false end).

(** A [Proof.Line]: [__init__] accepts a bare formula, or a formula with
    both a rule and the indices of the justifying lines. *)
Inductive Line : Type :=
| AssumptionLine (formula : Formula)
| RuleLine (formula : Formula) (rule : InferenceRule) (assumptions : list Z).

Definition formula (l : Line) : Formula :=
  match l with
  | AssumptionLine f | RuleLine f _ _ => f
  end.

Definition is_assumption (l : Line) : bool :=
  match l with
  | AssumptionLine _ => true
  | RuleLine _ _ _ => false
  end.

Record Proof : Type := mkProof {
  statement : InferenceRule;
  rules : list InferenceRule;
  lines : list Line
}.

(** [rule_for_line]; Python's [None] is [None] here. *)
Definition rule_for_line (self : Proof) (line_number : Z)
  : result (option InferenceRule) :=
  assert (line_number <? len (lines self))%Z ;;;
  my_line <- getitem (lines self) line_number ;;
  match my_line with
  | AssumptionLine _ => Ok None
  | RuleLine f _ idxs =>
      assumpts <- map_result
                    (fun index => l <- getitem (lines self) index ;;
                                  Ok (formula l)) idxs ;;
      Ok (Some (mkInferenceRule assumpts f))
  end.

(** [is_line_valid] *)
Definition is_line_valid (self : Proof) (line_number : Z) : result bool :=
  assert (line_number <? len (lines self))%Z ;;;
  my_line <- getitem (lines self) line_number ;;
  match my_line with
  | AssumptionLine f => Ok (Formula_in f (assumptions (statement self)))
  | RuleLine f rule idxs =>
      if negb (InferenceRule_in rule (rules self)) then Ok false
      else if existsb (fun index => (index >=? line_number)%Z) idxs
      then Ok false
      else
        inf_rule <- rule_for_line self line_number ;;
        match inf_rule with
        | Some r => is_specialization_of r rule
        | None => Raise AttributeError
        end
  end.

(** [range(n)] *)
Definition range (n : nat) : list Z := map Z.of_nat (seq 0 n).

(** The loop of [is_valid]: [Ok false] is the early [return False]. *)
Fixpoint all_lines_valid (self : Proof) (indices : list Z) : result bool :=
  match indices with
  | [] => Ok true
  | index :: rest =>
      ok <- is_line_valid self index ;;
      if negb ok then Ok false else all_lines_valid self rest
  end.

(** [is_valid] *)
Definition is_valid (self : Proof) : result bool :=
  ok <- all_lines_valid self (range (List.length (lines self))) ;;
  if negb ok then Ok false
  else
    last <- getitem (lines self) (-1)%Z ;;
    if Formula_ne (formula last) (conclusion (statement self)) then Ok false
    else Ok true.

(** [frozenset] operations on the allowed rules. *)
Definition rules_union (s t : list InferenceRule) : list InferenceRule :=
  (s ++ filter (fun r => negb (InferenceRule_in r s)) t)%list.

Definition rules_difference (s t : list InferenceRule) : list InferenceRule :=
  filter (fun r => negb (InferenceRule_in r t)) s.

Definition rules_subset (s t : list InferenceRule) : bool :=
  forallb (fun r => InferenceRule_in r t) s.

(** [s == t] on sets of rules. *)
Definition rules_eq (s t : list InferenceRule) : bool :=
  rules_subset s t && rules_subset t s.

(** [prove_specialization] *)
Definition prove_specialization (proof : Proof) (specialization : InferenceRule)
  : result Proof :=
  v <- is_valid proof ;; assert v ;;;
  s <- is_specialization_of specialization (statement proof) ;; assert s ;;;
  my_map <- specialization_map (statement proof) specialization ;;
  match my_map with
  | None => Raise TypeError
  | Some my_map =>
      my_lines <- map_result
        (fun line =>
           match line with
           | AssumptionLine f =>
               g <- substitute_variables f my_map ;; Ok (AssumptionLine g)
           | RuleLine f rule idxs =>
               g <- substitute_variables f my_map ;; Ok (RuleLine g rule idxs)
           end) (lines proof) ;;
      Ok (mkProof specialization (rules proof) my_lines)
  end.

(** The search of [inline_proof_once] for the last derived line of the main
    proof, before [line_number], with the given formula. *)
Fixpoint find_proof_to_use (main_lines : list Line) (f : Formula)
         (line_number counter : Z) (proof_to_use : option Line) : option Line :=
  match main_lines with
  | [] => proof_to_use
  | proof_line :: rest =>
      find_proof_to_use rest f line_number (counter + 1)%Z
        (if Formula_eq (formula proof_line) f && negb (is_assumption proof_line)
            && (counter <? line_number)%Z
         then Some proof_line else proof_to_use)
  end.

(** The lines that replace line [line_number].  The test
    [line in main_proof.statement.assumptions] compares a [Line] with
    formulas, and [Formula.__eq__] answers [False] on anything that is not a
    [Formula]: the first branch of the source is never taken. *)
Definition inlined_line (main_proof : Proof) (line_number : Z) (line : Line)
  : Line :=
  match line with
  | AssumptionLine f =>
      match find_proof_to_use (lines main_proof) f line_number 0%Z None with
      | None => line
      | Some (RuleLine _ rule idxs) => RuleLine f rule idxs
      | Some (AssumptionLine _) => line
      end
  | RuleLine f rule idxs =>
      RuleLine f rule (map (fun a => (a + line_number)%Z) idxs)
  end.

(** One turn of the loop of [inline_proof_once] over the indices of the main
    proof; the state is [new_lines] and [add_lines]. *)
Definition inline_step (main_proof : Proof) (line_number : Z)
           (lemma_lines : list Line) (index : Z) (line : Line)
           (state : list Line * Z) : list Line * Z :=
  let (new_lines, add_lines) := state in
  let state1 :=
    if (index <? line_number)%Z then ((new_lines ++ [line])%list, add_lines)
    else state in
  let state2 :=
    if (index =? line_number)%Z then
      ((fst state1 ++ map (inlined_line main_proof line_number) lemma_lines)%list,
       (snd state1 + len lemma_lines)%Z)
    else state1 in
  if (line_number <? index)%Z then
    match line with
    | AssumptionLine _ => ((fst state2 ++ [line])%list, snd state2)
    | RuleLine f rule idxs =>
        ((fst state2 ++
          [RuleLine f rule
             (map (fun a => if (a >=? line_number)%Z
                            then (a + snd state2 - 1)%Z else a) idxs)])%list,
         snd state2)
    end
  else state2.

Fixpoint inline_loop (main_proof : Proof) (line_number : Z)
         (lemma_lines : list Line) (indexed : list (Z * Line))
         (state : list Line * Z) : list Line * Z :=
  match indexed with
  | [] => state
  | (index, line) :: rest =>
      inline_loop main_proof line_number lemma_lines rest
        (inline_step main_proof line_number lemma_lines index line state)
  end.

(** [inline_proof_once] *)
Definition inline_proof_once (main_proof : Proof) (line_number : Z)
           (lemma_proof : Proof) : result Proof :=
  line <- getitem (lines main_proof) line_number ;;
  assert (match line with
          | RuleLine _ rule _ => InferenceRule_eq rule (statement lemma_proof)
          | AssumptionLine _ => false
          end) ;;;
  v <- is_valid lemma_proof ;; assert v ;;;
  target <- rule_for_line main_proof line_number ;;
  match target with
  | None => Raise AttributeError
  | Some target =>
      lemma_lines <- prove_specialization lemma_proof target ;;
      let indexed :=
        combine (range (List.length (lines main_proof))) (lines main_proof) in
      let (new_lines, _) :=
        inline_loop main_proof line_number (lines lemma_lines) indexed ([], 0%Z)
      in
      Ok (mkProof (statement main_proof)
                  (rules_union (rules main_proof) (rules lemma_proof))
                  new_lines)
  end.

(** The [while] loop of [inline_proof].  Every turn decreases
    [len(main_proof.lines) - index] by one, so the number of lines of the
    given proof bounds the number of turns; running out of [fuel] is
    reported as [RecursionError]. *)
Fixpoint inline_proof_loop (fuel : nat) (main_proof lemma_proof : Proof)
         (index : Z) : result Proof :=
  if negb (index <? len (lines main_proof))%Z then Ok main_proof
  else
    match fuel with
    | O => Raise RecursionError
    | S fuel' =>
        inf_rule <- rule_for_line main_proof index ;;
        inlined <-
          match inf_rule with
          | Some r => is_specialization_of r (statement lemma_proof)
          | None => Ok false
          end ;;
        if inlined then
          working_proof <- inline_proof_once main_proof index lemma_proof ;;
          inline_proof_loop fuel'
            (mkProof (statement working_proof)
                     (rules_difference (rules working_proof)
                                       [statement lemma_proof])
                     (lines working_proof))
            lemma_proof (index + len (lines lemma_proof))%Z
        else inline_proof_loop fuel' main_proof lemma_proof (index + 1)%Z
    end.

(** [inline_proof] *)
Definition inline_proof (main_proof lemma_proof : Proof) : result Proof :=
  inline_proof_loop (List.length (lines main_proof)) main_proof lemma_proof 0%Z.

(* ---------------------------------------------------------------- *)
(** ** propositions/semantics.py *)
(* ---------------------------------------------------------------- *)

Definition Model : Type := dict bool.

(** [is_model]; the values of a [Model] are booleans by their type. *)
Fixpoint is_model_keys (keys : list string) : result bool :=
  match keys with
  | [] => Ok true
  | key :: rest =>
      v <- is_variable key ;;
      if negb v then Ok false else is_model_keys rest
  end.

Definition is_model (model : Model) : result bool :=
  is_model_keys (dict_keys model).

(** [variables(model)] *)
Definition model_variables (model : Model) : result (list string) :=
  m <- is_model model ;; assert m ;;; Ok (dict_keys model).

(** [s.issubset(t)] *)
Definition issubset (s t : list string) : bool :=
  forallb (fun x => str_mem x t) s.

(** [evaluate].  The assertions are those of every (recursive) call; [and]
    and [or] evaluate their second operand only when needed.  The last
    branches are not reached for a formula the constructor accepted. *)
Fixpoint evaluate (f : Formula) (model : Model) : result bool :=
  m <- is_model model ;; assert m ;;;
  keys <- model_variables model ;;
  assert (issubset (variables f) keys) ;;;
  v <- is_variable (repr f) ;;
  if v then dict_getitem model (root f)
  else if is_constant (repr f) then Ok (String.eqb (root f) "T")
  else if is_unary (root f) then
    match f with
    | Unary _ a => x <- evaluate a model ;; Ok (negb x)
    | _ => Raise AttributeError
    end
  else if is_binary (root f) then
    match f with
    | Binary r a b =>
        if String.eqb r "|" then
          x <- evaluate a model ;; if x then Ok true else evaluate b model
        else if String.eqb r "&" then
          x <- evaluate a model ;; if x then evaluate b model else Ok false
        else if String.eqb r "->" then
          x <- evaluate a model ;; y <- evaluate b model ;;
          Ok (negb x || y)
        else if String.eqb r "-|" then
          x <- evaluate a model ;;
          if x then Ok false else (y <- evaluate b model ;; Ok (negb y))
        else if String.eqb r "-&" then
          x <- evaluate a model ;;
          if x then (y <- evaluate b model ;; Ok (negb y)) else Ok true
        else if String.eqb r "+" then
          x <- evaluate a model ;; y <- evaluate b model ;;
          Ok ((negb x && y) || (x && negb y))
        else if String.eqb r "<->" then
          x <- evaluate a model ;; y <- evaluate b model ;;
          Ok ((x && y) || (negb x && negb y))
        else Raise AttributeError
    | _ => Raise AttributeError
    end
  else Raise AttributeError.

(** [itertools.product(pool, repeat=n)], by its documented equivalent:
    [result = [[]]], then [n] times
    [result = [x + [y] for x in result for y in pool]]. *)
Fixpoint product {A : Type} (pool : list A) (repeat : nat) : list (list A) :=
  match repeat with
  | O => [[]]
  | S n => flat_map (fun x => map (fun y => (x ++ [y])%list) pool) (product pool n)
  end.

(** The inner loop of [all_models]: [dict_combi[var] = combi[index]]. *)
Fixpoint fill_model (variables : list string) (combi : list bool)
         (index : Z) (dict_combi : Model) : result Model :=
  match variables with
  | [] => Ok dict_combi
  | var :: rest =>
      v <- getitem combi index ;;
      fill_model rest combi (index + 1)%Z (dict_set dict_combi var v)
  end.

(** [all_models] *)
Definition all_models (variables : list string) : result (list Model) :=
  for_each (fun v _ => b <- is_variable v ;; assert b) variables tt ;;;
  map_result (fun combi => fill_model variables combi 0%Z [])
             (product [false; true] (List.length variables)).

(** [truth_values] *)
Definition truth_values (f : Formula) (models : list Model)
  : result (list bool) :=
  map_result (evaluate f) models.

(** [is_tautology]: the models are enumerated over the set
    [formula.variables()]. *)
Definition is_tautology (f : Formula) : result bool :=
  models <- all_models (variables f) ;;
  truth_table <- truth_values f models ;;
  Ok (forallb (fun val => val) truth_table).

(** [__create_dnf__]: [forms[0]] raises on the empty list. *)
Fixpoint create_dnf (forms : list Formula) : result Formula :=
  match forms with
  | [] => Raise IndexError
  | [f] => Ok f
  | f :: rest => r <- create_dnf rest ;; Ok (Binary "&" f r)
  end.

(** [__create_cnf__] *)
Fixpoint create_cnf (forms : list Formula) : result Formula :=
  match forms with
  | [] => Raise IndexError
  | [f] => Ok f
  | f :: rest => r <- create_cnf rest ;; Ok (Binary "|" f r)
  end.

(** [synthesize_for_model]; after [assert is_model(model)] every key is a
    variable name, which [Formula(var)] requires. *)
Definition synthesize_for_model (model : Model) : result Formula :=
  m <- is_model model ;; assert m ;;;
  create_dnf
    (map (fun kv : string * bool =>
            let (var, val) := kv in
            if negb val then Unary "~" (Leaf var) else Leaf var) model).

(** The loop of [synthesize] over [values]. *)
Fixpoint synthesize_loop (options : list Model) (values : list bool)
         (index : Z) (forms : list Formula) (bool_flag : bool)
  : result (list Formula * bool) :=
  match values with
  | [] => Ok (forms, bool_flag)
  | val :: rest =>
      if val then
        option <- getitem options index ;;
        f <- synthesize_for_model option ;;
        synthesize_loop options rest (index + 1)%Z (forms ++ [f])%list false
      else synthesize_loop options rest (index + 1)%Z forms bool_flag
  end.

(** [synthesize]; [all_models] has asserted that [variables[0]] is a
    variable name. *)
Definition synthesize (variables : list string) (values : list bool)
  : result Formula :=
  assert (0 <? len variables)%Z ;;;
  options <- all_models variables ;;
  r <- synthesize_loop options values 0%Z [] true ;;
  let (forms, bool_flag) := r in
  if bool_flag then
    x <- getitem variables 0%Z ;;
    Ok (Binary "&" (Leaf x) (Unary "~" (Leaf x)))
  else create_cnf forms.

(** [is_satisfiable] *)
Definition is_satisfiable (f : Formula) : result bool :=
  models <- all_models (variables f) ;;
  truth_table <- truth_values f models ;;
  Ok (existsb (fun val => val) truth_table).

(** [is_contradiction] *)
Definition is_contradiction (f : Formula) : result bool :=
  s <- is_satisfiable f ;; Ok (negb s).

(** [evaluate_inference].  The keys of a model are strings and no string
    equals a [Formula] (or [None]): the tests [assump not in model] and
    [ccl not in model] always hold, so the truth values come from
    [evaluate].  [parse_prefix(...)[0]] may be [None], on which [evaluate]
    fails at [formula.variables()]. *)
Definition evaluate_inference (rule : InferenceRule) (model : Model)
  : result bool :=
  m <- is_model model ;; assert m ;;;
  false_flag <-
    for_each
      (fun assump false_flag =>
         p <- parse_prefix (repr assump) ;;
         match fst p with
         | Some assump =>
             to_check <- evaluate assump model ;;
             Ok (if negb to_check then true else false_flag)
         | None => Raise AttributeError
         end) (assumptions rule) false ;;
  parse_prefix (repr (conclusion rule)) ;;;
  ccl_to_check <- evaluate (conclusion rule) model ;;
  if negb ccl_to_check && negb false_flag then Ok false else Ok true.

(** The loop of [is_sound_inference] over the models: [Ok false] is the
    early [return False]. *)
Fixpoint holds_in_all (rule : InferenceRule) (models : list Model)
  : result bool :=
  match models with
  | [] => Ok true
  | model :: rest =>
      bool_flag <- evaluate_inference rule model ;;
      if negb bool_flag then Ok false else holds_in_all rule rest
  end.

(** [is_sound_inference]: the models are enumerated over the set
    [rule.variables()]. *)
Definition is_sound_inference (rule : InferenceRule) : result bool :=
  if (len (assumptions rule) =? 0)%Z then is_tautology (conclusion rule)
  else
    models <- all_models (InferenceRule_variables rule) ;;
    holds_in_all rule models.

(* ---------------------------------------------------------------- *)
(** ** propositions/axiomatic_systems.py *)
(* ---------------------------------------------------------------- *)

Definition implies (a b : Formula) : Formula := Binary "->" a b.
Definition negation (a : Formula) : Formula := Unary "~" a.

(** Modelled from the spec: [propositions/axiomatic_systems.py] is not among
    the sources.  The rules are the schemas the specification names: Modus
    Ponens, [p->p] ([I0]), the identity-lifting schema [q->(p->q)] ([I1]),
    the distribution schema ([D]), [~p->(p->q)] ([I2]), negation elimination
    ([N]), [p->(~q->~(p->q))] ([NI]), double negation ([NN]) and the
    case-split schema ([R]), over the schema variables [p], [q], [r]. *)
Definition MP : InferenceRule :=
  mkInferenceRule [Leaf "p"; implies (Leaf "p") (Leaf "q")] (Leaf "q").

Definition I0 : InferenceRule :=
  mkInferenceRule [] (implies (Leaf "p") (Leaf "p")).

Definition I1 : InferenceRule :=
  mkInferenceRule [] (implies (Leaf "q") (implies (Leaf "p") (Leaf "q"))).

Definition D : InferenceRule :=
  mkInferenceRule []
    (implies (implies (Leaf "p") (implies (Leaf "q") (Leaf "r")))
             (implies (implies (Leaf "p") (Leaf "q"))
                      (implies (Leaf "p") (Leaf "r")))).

Definition I2 : InferenceRule :=
  mkInferenceRule []
    (implies (negation (Leaf "p")) (implies (Leaf "p") (Leaf "q"))).

Definition N : InferenceRule :=
  mkInferenceRule []
    (implies (implies (negation (Leaf "q")) (negation (Leaf "p")))
             (implies (Leaf "p") (Leaf "q"))).

Definition NI : InferenceRule :=
  mkInferenceRule []
    (implies (Leaf "p")
             (implies (negation (Leaf "q"))
                      (negation (implies (Leaf "p") (Leaf "q"))))).

Definition NN : InferenceRule :=
  mkInferenceRule [] (implies (Leaf "p") (negation (negation (Leaf "p")))).

Definition R : InferenceRule :=
  mkInferenceRule []
    (implies (implies (Leaf "q") (Leaf "p"))
             (implies (implies (negation (Leaf "q")) (Leaf "p")) (Leaf "p"))).

Definition AXIOMATIC_SYSTEM : list InferenceRule :=
  [MP; I0; I1; D; I2; N; NI; NN; R].

(* ---------------------------------------------------------------- *)
(** ** propositions/deduction.py *)
(* ---------------------------------------------------------------- *)

(** [formula.first] and [formula.second]; a formula without the operand has
    no such attribute. *)
Definition first (f : Formula) : result Formula :=
  match f with
  | Unary _ a | Binary _ a _ => Ok a
  | Leaf _ => Raise AttributeError
  end.

Definition second (f : Formula) : result Formula :=
  match f with
  | Binary _ _ b => Ok b
  | _ => Raise AttributeError
  end.

(** [rule.specialize(m)] for [m] that may be [None]: iterating over [None]
    raises [TypeError]. *)
Definition specialize_opt (rule : InferenceRule) (m : option SpecializationMap)
  : result InferenceRule :=
  match m with
  | Some m => specialize rule m
  | None => Raise TypeError
  end.

(** [prove_corollary] *)
Definition prove_corollary (antecedent_proof : Proof) (consequent : Formula)
           (conditional : InferenceRule) : result Proof :=
  v <- is_valid antecedent_proof ;; assert v ;;;
  s <- is_specialization_of
         (mkInferenceRule []
            (implies (conclusion (statement antecedent_proof)) consequent))
         conditional ;;
  assert s ;;;
  let myLines := lines antecedent_proof in
  general <- second (conclusion conditional) ;;
  my_map <- formula_specialization_map general consequent ;;
  specialized <- specialize_opt conditional my_map ;;
  let myLines := (myLines ++ [RuleLine (conclusion specialized) conditional []])%list in
  let myLines :=
    (myLines ++ [RuleLine consequent MP
                   [(len (lines antecedent_proof) - 1)%Z;
                    len (lines antecedent_proof)]])%list in
  let rules := (rules antecedent_proof ++ [MP; conditional])%list in
  let my_state :=
    mkInferenceRule (assumptions (statement antecedent_proof)) consequent in
  Ok (mkProof my_state rules myLines).

(** [combine_proofs] *)
Definition combine_proofs (antecedent1_proof antecedent2_proof : Proof)
           (consequent : Formula) (double_conditional : InferenceRule)
  : result Proof :=
  v1 <- is_valid antecedent1_proof ;; assert v1 ;;;
  v2 <- is_valid antecedent2_proof ;; assert v2 ;;;
  assert (Formulas_eq (assumptions (statement antecedent1_proof))
                      (assumptions (statement antecedent2_proof))) ;;;
  assert (rules_eq (rules antecedent1_proof) (rules antecedent2_proof)) ;;;
  s <- is_specialization_of
         (mkInferenceRule []
            (implies (conclusion (statement antecedent1_proof))
               (implies (conclusion (statement antecedent2_proof)) consequent)))
         double_conditional ;;
  assert s ;;;
  let lines1 := lines antecedent1_proof in
  general1 <- first (conclusion double_conditional) ;;
  my_map_1 <- formula_specialization_map general1
                (conclusion (statement antecedent1_proof)) ;;
  inner <- second (conclusion double_conditional) ;;
  general2 <- second inner ;;
  my_map_2 <- formula_specialization_map general2 consequent ;;
  my_map <- merge_specialization_maps my_map_1 my_map_2 ;;
  specialized <- specialize_opt double_conditional my_map ;;
  let lines1 :=
    (lines1 ++ [RuleLine (conclusion specialized) double_conditional []])%list in
  let num := (len lines1 - 1)%Z in
  let lines2 :=
    (lines1 ++
     map (fun line =>
            match line with
            | RuleLine f rule idxs =>
                RuleLine f rule (map (fun ass => (ass + num + 1)%Z) idxs)
            | AssumptionLine _ => line
            end) (lines antecedent2_proof))%list in
  step1 <- second (conclusion specialized) ;;
  let lines3 := (lines2 ++ [RuleLine step1 MP [(num - 1)%Z; num]])%list in
  let num := (len lines3 - 1)%Z in
  step2 <- second step1 ;;
  let lines4 := (lines3 ++ [RuleLine step2 MP [(num - 1)%Z; num]])%list in
  let my_state :=
    mkInferenceRule (assumptions (statement antecedent1_proof)) consequent in
  let my_rules := rules_union (rules antecedent1_proof) (rules antecedent2_proof) in
  Ok (mkProof my_state (rules_union my_rules [double_conditional]) lines4).

(** One turn of the loop of [remove_assumption]; the state is [my_lines]
    and [proof_to_newProof]. *)
Definition remove_assumption_step (proof : Proof) (working_assumption : Formula)
           (index : Z) (line : Line) (state : list Line * list Z)
  : result (list Line * list Z) :=
  let (my_lines, proof_to_newProof) := state in
  let lifted f := implies working_assumption f in
  if Formula_eq (formula line) working_assumption then
    Ok (if negb (index =? 0)%Z
        then (my_lines ++ [RuleLine (lifted working_assumption) I0 []])%list
        else my_lines,
        (proof_to_newProof ++ [0%Z])%list)
  else
    let lift_directly :=
      let my_lines := (my_lines ++ [line])%list in
      let my_lines :=
        (my_lines ++ [RuleLine (implies (formula line) (lifted (formula line)))
                               I1 []])%list in
      let num := len my_lines in
      let my_lines :=
        (my_lines ++ [RuleLine (lifted (formula line)) MP
                               [(num - 2)%Z; (num - 1)%Z]])%list in
      Ok (my_lines, (proof_to_newProof ++ [num])%list) in
    match line with
    | AssumptionLine _ => lift_directly
    | RuleLine f _ [] => lift_directly
    | RuleLine f _ idxs =>
        idx0 <- getitem idxs 0%Z ;;
        cited <- getitem (lines proof) idx0 ;;
        let assumption_in_use := formula cited in
        let first_part := lifted f in
        let scd_part := implies (lifted assumption_in_use) first_part in
        let d_first := implies assumption_in_use f in
        let d_scd := lifted d_first in
        let my_lines :=
          (my_lines ++ [RuleLine (implies d_scd scd_part) D []])%list in
        let num := len my_lines in
        idx1 <- getitem idxs 1%Z ;;
        new1 <- getitem proof_to_newProof idx1 ;;
        let my_lines :=
          (my_lines ++ [RuleLine scd_part MP [new1; (num - 1)%Z]])%list in
        let num := len my_lines in
        new0 <- getitem proof_to_newProof idx0 ;;
        let my_lines :=
          (my_lines ++ [RuleLine first_part MP [new0; (num - 1)%Z]])%list in
        Ok (my_lines, (proof_to_newProof ++ [num])%list)
    end.

Fixpoint remove_assumption_loop (proof : Proof) (working_assumption : Formula)
         (indexed : list (Z * Line)) (state : list Line * list Z)
  : result (list Line * list Z) :=
  match indexed with
  | [] => Ok state
  | (index, line) :: rest =>
      state' <- remove_assumption_step proof working_assumption index line state ;;
      remove_assumption_loop proof working_assumption rest state'
  end.

(** [remove_assumption] *)
Definition remove_assumption (proof : Proof) : result Proof :=
  v <- is_valid proof ;; assert v ;;;
  assert (0 <? len (assumptions (statement proof)))%Z ;;;
  assert (forallb (fun rule => InferenceRule_eq rule MP
                               || Nat.eqb (List.length (assumptions rule)) 0)
                  (rules proof)) ;;;
  working_assumption <- getitem (assumptions (statement proof)) (-1)%Z ;;
  let my_assumptioons :=
    filter (fun ass => Formula_ne ass working_assumption)
           (assumptions (statement proof)) in
  let my_lines := [RuleLine (implies working_assumption working_assumption) I0 []] in
  state <- remove_assumption_loop proof working_assumption
             (combine (range (List.length (lines proof))) (lines proof))
             (my_lines, []) ;;
  let ccl := implies working_assumption (conclusion (statement proof)) in
  let rules := rules_union (rules proof) [I0; I1; MP; D] in
  Ok (mkProof (mkInferenceRule my_assumptioons ccl) rules (fst state)).

(** [proof_from_inconsistency] *)
Definition proof_from_inconsistency (proof_of_affirmation proof_of_negation : Proof)
           (conclusion_ : Formula) : result Proof :=
  v1 <- is_valid proof_of_affirmation ;; assert v1 ;;;
  v2 <- is_valid proof_of_negation ;; assert v2 ;;;
  assert (Formulas_eq (assumptions (statement proof_of_affirmation))
                      (assumptions (statement proof_of_negation))) ;;;
  assert (Formula_eq (negation (conclusion (statement proof_of_affirmation)))
                     (conclusion (statement proof_of_negation))) ;;;
  assert (rules_eq (rules proof_of_affirmation) (rules proof_of_negation)) ;;;
  combine_proofs proof_of_negation proof_of_affirmation conclusion_ I2.

(** [prove_by_contradiction].  The rules of the returned proof are the
    fixed set [{MP, I0, I1, D, N, NI}]; its assumptions are those of the
    given proof except, by position, the last one. *)
Definition prove_by_contradiction (proof : Proof) : result Proof :=
  v <- is_valid proof ;; assert v ;;;
  goal <- parse "~(p->p)" ;;
  assert (match goal with
          | Some g => Formula_eq (conclusion (statement proof)) g
          | None => false
          end) ;;;
  assert (0 <? len (assumptions (statement proof)))%Z ;;;
  last <- getitem (assumptions (statement proof)) (-1)%Z ;;
  assert (String.eqb (root last) "~") ;;;
  assert (forallb (fun rule => InferenceRule_eq rule MP
                               || Nat.eqb (List.length (assumptions rule)) 0)
                  (rules proof)) ;;;
  working_proof <- remove_assumption proof ;;
  consequent <- second (conclusion (statement working_proof)) ;;
  i0_in_use <- first consequent ;;
  last_assump <- getitem (assumptions (statement proof)) (-1)%Z ;;
  formula_ <- first last_assump ;;
  let first_part := implies i0_in_use formula_ in
  let scd_part := implies (conclusion (statement working_proof)) first_part in
  let my_lines := lines working_proof in
  let my_lines := (my_lines ++ [RuleLine scd_part N []])%list in
  let num := (len my_lines - 1)%Z in
  let my_lines := (my_lines ++ [RuleLine first_part MP [(num - 1)%Z; num]])%list in
  let my_lines := (my_lines ++ [RuleLine i0_in_use I0 []])%list in
  let num := (len my_lines - 1)%Z in
  let my_lines := (my_lines ++ [RuleLine formula_ MP [num; (num - 1)%Z]])%list in
  let my_rules := [MP; I0; I1; D; N; NI] in
  let assumps :=
    map snd
        (filter (fun ia : Z * Formula =>
                   negb (fst ia =? len (assumptions (statement proof)) - 1)%Z)
                (combine (range (List.length (assumptions (statement proof))))
                         (assumptions (statement proof)))) in
  Ok (mkProof (mkInferenceRule assumps formula_) my_rules my_lines).

(* ---------------------------------------------------------------- *)
(** ** propositions/tautology.py *)
(* ---------------------------------------------------------------- *)

(** [formulae_capturing_model] *)
Definition formulae_capturing_model (model : Model) : result (list Formula) :=
  m <- is_model model ;; assert m ;;;
  map_result (fun val =>
                b <- dict_getitem model val ;;
                Ok (if b then Leaf val else negation (Leaf val)))
             (sorted (dict_keys model)).

(** The number of nodes of a formula. *)
Fixpoint size (f : Formula) : nat :=
  match f with
  | Leaf _ => 1
  | Unary _ a => S (size a)
  | Binary _ a b => S (size a + size b)
  end.

(** [prove_in_model].  The recursive calls are on [formula.first],
    [formula.second] and [Formula('~', formula.first)], the latter only for
    a binary formula: each is smaller than the formula, so [size formula]
    calls can be nested at most; running out of [fuel] is reported as
    [RecursionError]. *)
Fixpoint prove_in_model_rec (fuel : nat) (f : Formula) (model : Model)
  : result Proof :=
  match fuel with
  | O => Raise RecursionError
  | S fuel' =>
      assert (issubset (operators f) ["->"; "~"]) ;;;
      m <- is_model model ;; assert m ;;;
      model_use <- formulae_capturing_model model ;;
      v <- is_variable (root f) ;;
      if v then
        if Formula_in f model_use
        then Ok (mkProof (mkInferenceRule model_use f) AXIOMATIC_SYSTEM
                         [AssumptionLine f])
        else Ok (mkProof (mkInferenceRule model_use (negation f))
                         AXIOMATIC_SYSTEM [AssumptionLine (negation f)])
      else
        unary_variable <-
          (if is_unary (root f)
           then a <- first f ;; is_variable (repr a)
           else Ok false) ;;
        if unary_variable then
          a <- first f ;;
          b <- dict_getitem model (repr a) ;;
          if b then
            Ok (mkProof (mkInferenceRule model_use (negation f)) AXIOMATIC_SYSTEM
                  [AssumptionLine a;
                   RuleLine (implies a (negation f)) NN [];
                   RuleLine (negation f) MP [0%Z; 1%Z]])
          else Ok (mkProof (mkInferenceRule model_use f) AXIOMATIC_SYSTEM
                           [AssumptionLine f])
        else if is_unary (root f) then
          a <- first f ;;
          my_proof <- prove_in_model_rec fuel' a model ;;
          e <- evaluate f model ;;
          if negb e then prove_corollary my_proof (negation f) NN
          else Ok my_proof
        else
          let falsified :=
            a <- first f ;;
            my_proof_left <- prove_in_model_rec fuel' a model ;;
            b <- second f ;;
            my_proof_right <- prove_in_model_rec fuel' b model ;;
            combine_proofs my_proof_left my_proof_right (negation f) NI in
          e <- evaluate f model ;;
          if e then
            a <- first f ;;
            ea <- evaluate a model ;;
            if negb ea then
              my_proof <- prove_in_model_rec fuel' (negation a) model ;;
              prove_corollary my_proof f I2
            else
              b <- second f ;;
              eb <- evaluate b model ;;
              if eb then
                my_proof <- prove_in_model_rec fuel' b model ;;
                prove_corollary my_proof f I1
              else falsified
          else falsified
  end.

Definition prove_in_model (f : Formula) (model : Model) : result Proof :=
  prove_in_model_rec (size f) f model.

(** [l[:-1]] *)
Definition all_but_last {A : Type} (l : list A) : list A := removelast l.

(** [reduce_assumption] *)
Definition reduce_assumption (proof_from_affirmation proof_from_negation : Proof)
  : result Proof :=
  v1 <- is_valid proof_from_affirmation ;; assert v1 ;;;
  v2 <- is_valid proof_from_negation ;; assert v2 ;;;
  assert (Formula_eq (conclusion (statement proof_from_affirmation))
                     (conclusion (statement proof_from_negation))) ;;;
  assert (0 <? len (assumptions (statement proof_from_affirmation)))%Z ;;;
  assert (0 <? len (assumptions (statement proof_from_negation)))%Z ;;;
  assert (Formulas_eq
            (all_but_last (assumptions (statement proof_from_affirmation)))
            (all_but_last (assumptions (statement proof_from_negation)))) ;;;
  last_aff <- getitem (assumptions (statement proof_from_affirmation)) (-1)%Z ;;
  last_neg <- getitem (assumptions (statement proof_from_negation)) (-1)%Z ;;
  assert (Formula_eq (negation last_aff) last_neg) ;;;
  assert (rules_eq (rules proof_from_affirmation) (rules proof_from_negation)) ;;;
  remove_affirmation <- remove_assumption proof_from_affirmation ;;
  remove_negation <- remove_assumption proof_from_negation ;;
  combine_proofs remove_affirmation remove_negation
                 (conclusion (statement proof_from_negation)) R.

(** [l[:n]] *)
Definition prefix {A : Type} (l : list A) (n : nat) : list A := firstn n l.

Fixpoint strings_eq (l1 l2 : list string) : bool :=
  match l1, l2 with
  | [], [] => true
  | x :: l1', y :: l2' => String.eqb x y && strings_eq l1' l2'
  | _, _ => false
  end.

(** [variables - model_variables] *)
Definition set_difference (s t : list string) : list string :=
  filter (fun x => negb (str_mem x t)) s.

(** The first variable, in sorted order, that the model does not assign. *)
Fixpoint first_unassigned (sorted_variables model_variables : list string)
  : option string :=
  match sorted_variables with
  | [] => None
  | var :: rest =>
      if negb (str_mem var model_variables) then Some var
      else first_unassigned rest model_variables
  end.

(** [prove_tautology].  Every recursive call assigns one more variable of
    the tautology, so the number of its variables bounds the depth; running
    out of [fuel] is reported as [RecursionError].  The loop [for var in
    sorted(variables)] returns at the first unassigned variable; falling out
    of it would return [None]. *)
Fixpoint prove_tautology_rec (fuel : nat) (tautology : Formula) (model : Model)
  : result Proof :=
  t <- is_tautology tautology ;; assert t ;;;
  assert (issubset (operators tautology) ["->"; "~"]) ;;;
  m <- is_model model ;; assert m ;;;
  assert (strings_eq (prefix (sorted (variables tautology)) (List.length model))
                     (sorted (dict_keys model))) ;;;
  let variables := variables tautology in
  let model_variables := dict_keys model in
  if Nat.eqb (List.length (set_difference variables model_variables)) 0
  then prove_in_model tautology model
  else
    match first_unassigned (sorted variables) (sorted model_variables) with
    | None => Raise TypeError
    | Some var =>
        match fuel with
        | O => Raise RecursionError
        | S fuel' =>
            let aff_model := dict_set model var true in
            let neg_model := dict_set model var false in
            affimation <- prove_tautology_rec fuel' tautology aff_model ;;
            negation <- prove_tautology_rec fuel' tautology neg_model ;;
            reduce_assumption affimation negation
        end
    end.

Definition prove_tautology (tautology : Formula) (model : Model) : result Proof :=
  prove_tautology_rec (List.length (variables tautology)) tautology model.

(** What [proof_or_counterexample] and [model_or_inconsistency] return: a
    proof or a model. *)
Inductive ProofOrModel : Type :=
| AProof (proof : Proof)
| AModel (model : Model).

(** The loop of [proof_or_counterexample]: the first model in which the
    formula does not hold. *)
Fixpoint first_counterexample (formula_ : Formula) (models : list Model)
  : result (option Model) :=
  match models with
  | [] => Ok None
  | model :: rest =>
      e <- evaluate formula_ model ;;
      if negb e then Ok (Some model) else first_counterexample formula_ rest
  end.

(** [proof_or_counterexample] *)
Definition proof_or_counterexample (formula_ : Formula) : result ProofOrModel :=
  assert (issubset (operators formula_) ["->"; "~"]) ;;;
  let variables := sorted (variables formula_) in
  models <- all_models variables ;;
  found <- first_counterexample formula_ models ;;
  match found with
  | Some model => Ok (AModel model)
  | None => p <- prove_tautology formula_ [] ;; Ok (AProof p)
  end.

(** [encode_as_formula], by recursion on [rule.assumptions]. *)
Fixpoint encode_assumptions (assumptions : list Formula) (conclusion : Formula)
  : Formula :=
  match assumptions with
  | [] => conclusion
  | a :: rest =>
      match rest with
      | [] => implies a conclusion
      | _ :: _ => implies a (encode_assumptions rest conclusion)
      end
  end.

Definition encode_as_formula (rule : InferenceRule) : Formula :=
  encode_assumptions (assumptions rule) (conclusion rule).

(** One turn of the loop of [prove_sound_inference]; the state is
    [my_formula] and [lines]. *)
Definition sound_inference_step (proof_t : Proof) (indexed : Z * Formula)
           (state : Formula * list Line) : result (Formula * list Line) :=
  let (index, ass) := indexed in
  let (my_formula, lines_) := state in
  my_formula <- second my_formula ;;
  let lines_ := (lines_ ++ [AssumptionLine ass])%list in
  let index_start := (len (lines proof_t) - 1 + 2 * index + 1)%Z in
  let index_end := (len (lines proof_t) - 1 + 2 * index)%Z in
  Ok (my_formula,
      (lines_ ++ [RuleLine my_formula MP [index_start; index_end]])%list).

(** [prove_sound_inference] *)
Definition prove_sound_inference (rule : InferenceRule) : result Proof :=
  s <- is_sound_inference rule ;; assert s ;;;
  for_each (fun formula_ _ =>
              assert (issubset (operators formula_) ["->"; "~"]))
           (assumptions rule ++ [conclusion rule])%list tt ;;;
  proof_t <- prove_tautology (encode_as_formula rule) [] ;;
  let my_formula := encode_as_formula rule in
  state <- for_each (sound_inference_step proof_t)
             (combine (range (List.length (assumptions rule))) (assumptions rule))
             (my_formula, lines proof_t) ;;
  Ok (mkProof rule AXIOMATIC_SYSTEM (snd state)).

(** [model_or_inconsistency]; [Formula.parse] returns a formula on
    ['~(p->p)']. *)
Definition model_or_inconsistency (formulae : list Formula)
  : result ProofOrModel :=
  for_each (fun formula_ _ =>
              assert (issubset (operators formula_) ["->"; "~"]))
           formulae tt ;;;
  goal <- parse "~(p->p)" ;;
  match goal with
  | None => Raise AttributeError
  | Some goal =>
      let rule := mkInferenceRule formulae goal in
      s <- is_sound_inference rule ;;
      if s then p <- prove_sound_inference rule ;; Ok (AProof p)
      else proof_or_counterexample (encode_as_formula rule)
  end.

(* ---------------------------------------------------------------- *)
(** ** propositions/syntax.py: [substitute_operators] *)
(* ---------------------------------------------------------------- *)

(** The assertions that open [substitute_operators]. *)
Definition assert_operator_keys (m : dict Formula) : result unit :=
  for_each
    (fun (kv : string * Formula) _ =>
       let (operator, g) := kv in
       assert (is_binary operator || is_unary operator || is_constant operator) ;;;
       assert (issubset (variables g) ["p"; "q"]))
    m tt.

(** [substitute_operators]; the formulas built with the root of the
    current formula satisfy the assertions of the constructor. *)
Fixpoint substitute_operators (f : Formula) (m : dict Formula) : result Formula :=
  assert_operator_keys m ;;;
  if is_constant (root f) && dict_mem m (root f) then dict_getitem m (root f)
  else if is_unary (root f) then
    match f with
    | Unary r a =>
        if dict_mem m r then
          g <- dict_getitem m r ;;
          p <- substitute_operators a m ;;
          substitute_variables g [("p", p)]
        else
          p <- substitute_operators a m ;; Ok (Unary r p)
    | _ => Raise AttributeError
    end
  else if is_binary (root f) then
    match f with
    | Binary r a b =>
        if dict_mem m r then
          g <- dict_getitem m r ;;
          p <- substitute_operators a m ;;
          q <- substitute_operators b m ;;
          substitute_variables g [("p", p); ("q", q)]
        else
          p <- substitute_operators a m ;;
          q <- substitute_operators b m ;;
          Ok (Binary r p q)
    | _ => Raise AttributeError
    end
  else Ok f.

End Propositions.

(* ================================================================== *)
(** * predicates/syntax.py *)
(* ================================================================== *)

Module Predicates.

(** [is_constant(s)]; [s[0]] raises [IndexError] on the empty string. *)
Definition is_constant (s : string) : result bool :=
  match s with
  | EmptyString => Raise IndexError
  | String c _ =>
      Ok (((between "0" c "9" || between "a" c "d") && isalnum s)
          || String.eqb s "_")
  end.

Definition is_variable (s : string) : result bool :=
  match s with
  | EmptyString => Raise IndexError
  | String c _ => Ok (between "u" c "z" && isalnum s)
  end.

Definition is_function (s : string) : result bool :=
  match s with
  | EmptyString => Raise IndexError
  | String c _ => Ok (between "f" c "t" && isalnum s)
  end.

(** A [Term] object: a constant or variable name, or a function name with
    its arguments. *)
#[warnings="-register-all"]
Inductive Term : Type :=
| TLeaf (root : string)
| TApp (root : string) (arguments : list Term).

Definition Term_root (t : Term) : string :=
  match t with
  | TLeaf r | TApp r _ => r
  end.

(** [term.arguments]; a constant or variable has no such attribute. *)
Definition Term_arguments (t : Term) : result (list Term) :=
  match t with
  | TApp _ args => Ok args
  | TLeaf _ => Raise AttributeError
  end.

(** [sep.join(l)] *)
Fixpoint join (sep : string) (l : list string) : string :=
  match l with
  | [] => ""
  | x :: rest =>
      match rest with
      | [] => x
      | _ => x ++ sep ++ join sep rest
      end
  end.

(** [Term.__repr__] *)
Fixpoint Term_repr (t : Term) : string :=
  match t with
  | TLeaf r => r
  | TApp r args => r ++ "(" ++ join "," (map Term_repr args) ++ ")"
  end.

(** [Term.__eq__] *)
Definition Term_eq (s t : Term) : bool := String.eqb (Term_repr s) (Term_repr t).

(** [Term(root, arguments)] with the assertions of [__init__]; [None] is
    the default of [arguments]. *)
Definition Term_init (root : string) (arguments : option (list Term))
  : result Term :=
  c <- is_constant root ;;
  leaf <- (if c then Ok true else is_variable root) ;;
  if leaf then
    match arguments with
    | None => Ok (TLeaf root)
    | Some _ => Raise AssertionError
    end
  else
    f <- is_function root ;; assert f ;;;
    match arguments with
    | None => Raise AssertionError
    | Some args => assert (0 <? len args)%Z ;;; Ok (TApp root args)
    end.

(** The loop [for index in range(1, len(s))] of [Term.parse_prefix], which
    stops at the first character that is not alphanumeric: the values of
    [flag] and [index] after it. *)
Fixpoint name_loop (s : string) (indices : list Z) (index : Z)
  : result (bool * Z) :=
  match indices with
  | [] => Ok (true, index)
  | i :: rest =>
      c <- str_getitem s i ;;
      if isalnum c then name_loop s rest i else Ok (false, i)
  end.

(** The lines that [Term.parse_prefix] has twice, for a variable name and
    for a constant name of more than one character. *)
Definition parse_name (s : string) : result (Term * string) :=
  fi <- name_loop s (range_from 1 (str_len s)) 1%Z ;;
  if fst fi then
    t <- Term_init (slice_to s (snd fi + 1)) None ;; Ok (t, "")
  else
    t <- Term_init (slice_to s (snd fi)) None ;; Ok (t, slice_from s (snd fi)).

(** The local variables of the loop that splits a list of arguments at
    its commas. *)
Record Split : Type := mkSplit {
  split_index : Z;
  counter : Z;
  opens : list Z;
  closed : list Z;
  last_one : Z;
  terms : list Term
}.

(** One round of the loop that [Term.parse_prefix] has for the arguments
    of a function and [Formula.parse_prefix] for those of a relation.
    [parse_term] is [Term.parse_prefix]; [mark] gives, from the position,
    the value that is appended to [opens] and [closed]: the position in
    [Term.parse_prefix], the variable [index] of the enclosing function in
    [Formula.parse_prefix]. *)
Definition split_step (parse_term : string -> result (Term * string))
           (mark : Z -> Z) (s : string) (st : Split)
  : result (flow Split Empty_set) :=
  let i := split_index st in
  c <- str_getitem s i ;;
  st1 <-
    (if String.eqb c "(" then
       Ok (mkSplit i (counter st + 1) (opens st ++ [mark i])%list (closed st)
                   (last_one st) (terms st))
     else if String.eqb c ")" then
       Ok (mkSplit i (counter st - 1) (opens st) (closed st ++ [mark i])%list
                   (last_one st) (terms st))
     else if String.eqb c ","
             && (len (opens st) <? len (closed st) + 2)%Z then
       t <- parse_term (slice s (last_one st + 1) i) ;;
       Ok (mkSplit i (counter st) (opens st) (closed st) i
                   (terms st ++ [fst t])%list)
     else Ok st) ;;
  if (counter st1 =? 0)%Z then Ok (Break st1)
  else Ok (Next (mkSplit (split_index st1 + 1) (counter st1) (opens st1)
                         (closed st1) (last_one st1) (terms st1))).

(** [while (index < len(s))]; [len(s)] rounds are enough, running out of
    [fuel] is reported as [RecursionError]. *)
Fixpoint split_loop (parse_term : string -> result (Term * string))
         (mark : Z -> Z) (fuel : nat) (s : string) (st : Split)
  : result Split :=
  if (split_index st <? str_len s)%Z then
    match fuel with
    | O => Raise RecursionError
    | S fuel' =>
        step <- split_step parse_term mark s st ;;
        match step with
        | Next st' => split_loop parse_term mark fuel' s st'
        | Break st' => Ok st'
        | Return r => match r with end
        end
    end
  else Ok st.

(** [Term.parse_prefix].  The recursive calls are on strictly shorter
    strings for a string that starts with a term; running out of [fuel] is
    reported as [RecursionError]. *)
Fixpoint Term_parse_prefix_rec (fuel : nat) (s : string)
  : result (Term * string) :=
  match fuel with
  | O => Raise RecursionError
  | S fuel' =>
      c <- str_getitem s 0%Z ;;
      v <- is_variable c ;;
      if v then
        if (str_len s =? 1)%Z then t <- Term_init c None ;; Ok (t, "")
        else parse_name s
      else
        k <- is_constant c ;;
        if k then
          if (str_len s =? 1)%Z then t <- Term_init c None ;; Ok (t, "")
          else if String.eqb c "_" && (1 <? str_len s)%Z then
            t <- Term_init c None ;; Ok (t, slice_from s 1)
          else parse_name s
        else
          let index_open := find s "(" in
          let function_name := slice_to s index_open in
          st <- split_loop (Term_parse_prefix_rec fuel') (fun i => i)
                           (String.length s) s
                           (mkSplit (index_open + 1) 1 [index_open] []
                                    index_open []) ;;
          last <- Term_parse_prefix_rec fuel'
                    (slice s (last_one st + 1) (split_index st)) ;;
          t <- Term_init function_name (Some (terms st ++ [fst last])%list) ;;
          Ok (t, slice_from s (split_index st + 1))
  end.

Definition Term_parse_prefix (s : string) : result (Term * string) :=
  Term_parse_prefix_rec (S (String.length s)) s.

(** [Term.parse] *)
Definition Term_parse (s : string) : result Term :=
  p <- Term_parse_prefix s ;; Ok (fst p).

(** [Term.__helper_variables__] *)
Fixpoint Term_helper_variables (t : Term) (variables : list string)
  : result (list string) :=
  c <- is_constant (Term_root t) ;;
  if c then Ok variables
  else
    v <- is_variable (Term_root t) ;;
    if v then Ok (set_add (Term_root t) variables)
    else
      match t with
      | TApp _ args =>
          for_each (fun arg s => Term_helper_variables arg s) args variables
      | TLeaf _ => Raise AttributeError
      end.

(** [Term.variables] *)
Definition Term_variables (t : Term) : result (list string) :=
  Term_helper_variables t [].

Fixpoint Term_size (t : Term) : nat :=
  match t with
  | TLeaf _ => 1
  | TApp _ args => S (fold_right (fun a n => Term_size a + n) 0 args)
  end.

(** [Term.__check_all] with the [while] loop of its body: [descend] is the
    loop, returning the value of [arg] when it ends.  The recursion follows
    the arguments of the term; running out of [fuel] is reported as
    [RecursionError]. *)
Fixpoint check_all (fuel : nat) (term : Term)
         (substitute_map : dict Term) (forbiden_vals : list string)
  : result unit :=
  match fuel with
  | O => Raise RecursionError
  | S fuel' =>
      let descend :=
        fix descend (n : nat) (arg : Term) : result Term :=
          match n with
          | O => Raise RecursionError
          | S n' =>
              f <- is_function (Term_root arg) ;;
              if f then
                args <- Term_arguments arg ;;
                a0 <- getitem args 0%Z ;;
                f0 <- is_function (Term_repr a0) ;;
                if f0 then
                  check_all fuel' arg substitute_map forbiden_vals ;;; Ok arg
                else descend n' a0
              else Ok arg
          end in
      args <- Term_arguments term ;;
      for_each
        (fun arg _ =>
           arg' <- descend (Term_size arg) arg ;;
           if str_mem (Term_repr arg') forbiden_vals
           then Raise (ForbiddenVariableError (Term_repr arg'))
           else Ok tt) args tt
  end.

(** The assertions that open [Term.substitute] and [Formula.substitute]. *)
Definition assert_substitution (substitution_map : dict Term)
           (forbidden_variables : list string) : result unit :=
  for_each
    (fun element_name _ =>
       c <- is_constant element_name ;;
       if c then Ok tt else (v <- is_variable element_name ;; assert v))
    (dict_keys substitution_map) tt ;;;
  for_each (fun variable _ => v <- is_variable variable ;; assert v)
           forbidden_variables tt.

(** [Term.substitute] *)
Fixpoint Term_substitute (t : Term) (substitution_map : dict Term)
         (forbidden_variables : list string) : result Term :=
  assert_substitution substitution_map forbidden_variables ;;;
  c <- is_constant (Term_root t) ;;
  leaf <- (if c then Ok true else is_variable (Term_root t)) ;;
  if leaf then
    match dict_get substitution_map (Term_root t) with
    | Some to_replace =>
        flag <- is_function (Term_root to_replace) ;;
        (if flag then
           check_all (Term_size to_replace) to_replace substitution_map
                     forbidden_variables
         else if str_mem (Term_repr to_replace) forbidden_variables
              then Raise (ForbiddenVariableError (Term_repr to_replace))
              else Ok tt) ;;;
        Ok to_replace
    | None => Ok t
    end
  else
    f <- is_function (Term_root t) ;;
    if f then
      match t with
      | TApp r args =>
          new_arg <- map_result
                       (fun arg => Term_substitute arg substitution_map
                                                   forbidden_variables) args ;;
          Ok (TApp r new_arg)
      | TLeaf _ => Raise AttributeError
      end
    else Raise TypeError.

Definition is_equality (s : string) : bool := String.eqb s "=".

Definition is_relation (s : string) : result bool :=
  match s with
  | EmptyString => Raise IndexError
  | String c _ => Ok (between "F" c "T" && isalnum s)
  end.

Definition is_unary (s : string) : bool := String.eqb s "~".

Definition is_binary (s : string) : bool :=
  String.eqb s "&" || String.eqb s "|" || String.eqb s "->".

Definition is_quantifier (s : string) : bool :=
  String.eqb s "A" || String.eqb s "E".

(** A first-order [Formula] object: by the shape the constructor accepted,
    [root] with [arguments] (a relation name or the equality), with [first],
    with [first] and [second], or with [variable] and [predicate]. *)
Inductive Formula : Type :=
| Relation (root : string) (arguments : list Term)
| Unary (root : string) (first : Formula)
| Binary (root : string) (first second : Formula)
| Quantifier (root : string) (variable : string) (predicate : Formula).

Definition root (f : Formula) : string :=
  match f with
  | Relation r _ | Unary r _ | Binary r _ _ | Quantifier r _ _ => r
  end.

(** The class invariant of [Term] and [Formula] that [__init__] establishes. *)
Fixpoint Term_wf (t : Term) : bool :=
  match t with
  | TLeaf r =>
      match is_constant r, is_variable r with
      | Ok c, Ok v => c || v
      | _, _ => false
      end
  | TApp r args =>
      match is_constant r, is_variable r, is_function r with
      | Ok false, Ok false, Ok true =>
          negb (Nat.eqb (List.length args) 0) && forallb Term_wf args
      | _, _, _ => false
      end
  end.

Fixpoint wf (f : Formula) : bool :=
  match f with
  | Relation r args =>
      match is_relation r with
      | Ok rel =>
          (if is_equality r then Nat.eqb (List.length args) 2 else rel)
          && forallb Term_wf args
      | Raise _ => false
      end
  | Unary r a => is_unary r && wf a
  | Binary r a b => is_binary r && wf a && wf b
  | Quantifier r x a =>
      is_quantifier r
      && match is_variable x with Ok v => v | Raise _ => false end
      && wf a
  end.

(** [Formula.__repr__]; an equality has two arguments. *)
Fixpoint repr (f : Formula) : string :=
  match f with
  | Relation r args =>
      if is_equality r then
        match args with
        | a :: b :: _ => Term_repr a ++ "=" ++ Term_repr b
        | _ => ""
        end
      else r ++ "(" ++ join "," (map Term_repr args) ++ ")"
  | Unary r a => "~" ++ repr a
  | Binary r a b => "(" ++ repr a ++ r ++ repr b ++ ")"
  | Quantifier r x a => r ++ x ++ "[" ++ repr a ++ "]"
  end.

(** [Formula.__eq__] *)
Definition Formula_eq (f g : Formula) : bool := String.eqb (repr f) (repr g).

(** The second argument of [Formula.__init__]: the arguments of a
    relation, the first operand of an operator, or the variable of a
    quantification. *)
Inductive InitArgument : Type :=
| ArgTerms (arguments : list Term)
| ArgFormula (first : Formula)
| ArgName (variable : string).

(** [Formula(root, arguments_or_first_or_variable, second_or_predicate)]
    with the assertions of [__init__]. *)
Definition Formula_init (root : string) (arg : InitArgument)
           (second_or_predicate : option Formula) : result Formula :=
  rel <- (if is_equality root then Ok true else is_relation root) ;;
  if rel then
    match second_or_predicate, arg with
    | None, ArgTerms arguments =>
        (if is_equality root then assert (len arguments =? 2)%Z else Ok tt) ;;;
        Ok (Relation root arguments)
    | _, _ => Raise AssertionError
    end
  else if is_unary root then
    match arg, second_or_predicate with
    | ArgFormula first, None => Ok (Unary root first)
    | _, _ => Raise AssertionError
    end
  else if is_binary root then
    match arg, second_or_predicate with
    | ArgFormula first, Some second => Ok (Binary root first second)
    | _, _ => Raise AssertionError
    end
  else
    assert (is_quantifier root) ;;;
    match arg with
    | ArgName variable =>
        v <- is_variable variable ;;
        match v, second_or_predicate with
        | true, Some predicate => Ok (Quantifier root variable predicate)
        | _, _ => Raise AssertionError
        end
    | _ => Raise AssertionError
    end.

(** The local variables of [Formula.parse_prefix] that its first loop
    updates; [square_open] and [square_close] stay [0]. *)
Record Scan : Type := mkScan {
  index : Z;
  open_number : Z;
  close_number : Z;
  operator_number : Z;
  index_close : Z;
  index_operator : Z;
  count_par : Z;
  to_return : string
}.

(** The [if]/[elif] chain of the first loop of [Formula.parse_prefix]. *)
Definition scan_branch (s : string) (st : Scan) : result Scan :=
  let i := index st in
  c <- str_getitem s i ;;
  if String.eqb c "(" then
    Ok (mkScan i (open_number st + 1) (close_number st) (operator_number st)
               (index_close st) (index_operator st) (count_par st + 1)
               (to_return st))
  else if String.eqb c ")" then
    Ok (mkScan i (open_number st) (close_number st + 1) (operator_number st)
               i (index_operator st) (count_par st - 1) (to_return st))
  else if is_binary c then
    Ok (mkScan i (open_number st) (close_number st) (operator_number st + 1)
               (index_close st)
               (if (count_par st =? 1)%Z then i else index_operator st)
               (count_par st) (to_return st))
  else if (i + 1 <? str_len s)%Z && String.eqb (slice s i (i + 2)) "->" then
    Ok (mkScan (i + 1) (open_number st) (close_number st)
               (operator_number st + 1) (index_close st)
               (if (count_par st =? 1)%Z then (i + 1)%Z else index_operator st)
               (count_par st) (to_return st))
  else Ok st.

(** One round of the loop: the chain, [index += 1], and the [break] once
    the parentheses are balanced. *)
Definition scan_step (s : string) (st : Scan)
  : result (flow Scan Empty_set) :=
  let square_open := 0%Z in
  let square_close := 0%Z in
  st1 <- scan_branch s st ;;
  let i := (index st1 + 1)%Z in
  if (open_number st1 =? close_number st1)%Z
     && (square_open =? square_close)%Z then
    Ok (Break (mkScan i (open_number st1) (close_number st1)
                      (operator_number st1) (index_close st1)
                      (index_operator st1) (count_par st1)
                      (slice_from s (index_close st1 + 1))))
  else
    Ok (Next (mkScan i (open_number st1) (close_number st1)
                     (operator_number st1) (index_close st1)
                     (index_operator st1) (count_par st1) (to_return st1))).

(** [while (index < len(s))]; [len(s)] rounds are enough, running out of
    [fuel] is reported as [RecursionError]. *)
Fixpoint scan_loop (fuel : nat) (s : string) (st : Scan) : result Scan :=
  if (index st <? str_len s)%Z then
    match fuel with
    | O => Raise RecursionError
    | S fuel' =>
        step <- scan_step s st ;;
        match step with
        | Next st' => scan_loop fuel' s st'
        | Break st' => Ok st'
        | Return r => match r with end
        end
    end
  else Ok st.

(** [Formula.parse_prefix].  The recursive calls are on strictly shorter
    strings for a string that starts with a formula; running out of [fuel]
    is reported as [RecursionError]. *)
Fixpoint parse_prefix_rec (fuel : nat) (s : string)
  : result (Formula * string) :=
  match fuel with
  | O => Raise RecursionError
  | S fuel' =>
      c <- str_getitem s 0%Z ;;
      if is_unary c then
        formula <- parse_prefix_rec fuel' (slice_from s 1) ;;
        f <- Formula_init "~" (ArgFormula (fst formula)) None ;;
        Ok (f, snd formula)
      else if is_quantifier c then
        let var := slice s 1 (find s "[") in
        formula <- parse_prefix_rec fuel' (slice_from s (find s "[" + 1)) ;;
        f <- Formula_init c (ArgName var) (Some (fst formula)) ;;
        Ok (f, slice_from (snd formula) 1)
      else
        rel <- is_relation c ;;
        let relation := if rel then Some (slice s 0 (find s "(")) else None in
        let index := if rel then find s "(" else 0%Z in
        c1 <- str_getitem s index ;;
        if String.eqb c1 "(" then
          st <- scan_loop (String.length s) s (mkScan index 0 0 0 0 0 0 "") ;;
          let to_return :=
            if negb (index_close st =? str_len s - 1)%Z
            then slice_from s (index_close st + 1)
            else to_return st in
          match relation with
          | Some relation =>
              let last_one := find s "(" in
              sp <- split_loop Term_parse_prefix
                               (fun _ => Predicates.index st)
                               (String.length s) s
                               (mkSplit last_one 0 [] [] last_one []) ;;
              let last := slice s (Predicates.last_one sp + 1) (split_index sp) in
              terms <- (if negb (String.eqb last "") then
                          t <- Term_parse_prefix last ;;
                          Ok (terms sp ++ [fst t])%list
                        else Ok (terms sp)) ;;
              f <- Formula_init relation (ArgTerms terms) None ;;
              Ok (f, to_return)
          | None =>
              let io := index_operator st in
              let ic := index_close st in
              op <- str_getitem s io ;;
              if String.eqb op ">" then
                a <- parse_prefix_rec fuel' (slice s 1 (io - 1)) ;;
                b <- parse_prefix_rec fuel' (slice s (io + 1) ic) ;;
                f <- Formula_init "->" (ArgFormula (fst a)) (Some (fst b)) ;;
                Ok (f, to_return)
              else
                a <- parse_prefix_rec fuel' (slice s 1 io) ;;
                b <- parse_prefix_rec fuel' (slice s (io + 1) ic) ;;
                f <- Formula_init op (ArgFormula (fst a)) (Some (fst b)) ;;
                Ok (f, to_return)
          end
        else
          let split_equal := split s "=" in
          piece0 <- getitem split_equal 0%Z ;;
          first <- Term_parse_prefix piece0 ;;
          piece1 <- getitem split_equal 1%Z ;;
          scd <- Term_parse_prefix piece1 ;;
          return_to <-
            (if (2 <? len split_equal)%Z then
               for_each
                 (fun i return_to =>
                    piece <- getitem split_equal i ;;
                    Ok ((if negb (i =? len split_equal)%Z
                         then return_to ++ "=" else return_to) ++ piece))
                 (range_from 2 (len split_equal)) (snd scd)
             else Ok (snd scd)) ;;
          left_ <- Term_parse (Term_repr (fst first)) ;;
          right_ <- Term_parse (Term_repr (fst scd)) ;;
          f <- Formula_init "=" (ArgTerms [left_; right_]) None ;;
          Ok (f, return_to)
  end.

Definition parse_prefix (s : string) : result (Formula * string) :=
  parse_prefix_rec (S (String.length s)) s.

(** [Formula.parse] *)
Definition parse (s : string) : result Formula :=
  p <- parse_prefix s ;; Ok (fst p).

(** [Formula.__helper_variables__]; for a quantification the loop
    [for var in self.variable] adds the characters of the variable name. *)
Fixpoint helper_variables (f : Formula) (variables : list string)
  : result (list string) :=
  match f with
  | Relation _ args =>
      for_each (fun arg s => Term_helper_variables arg s) args variables
  | Unary _ a => helper_variables a variables
  | Binary _ a b =>
      s <- helper_variables a variables ;; helper_variables b s
  | Quantifier _ x a =>
      helper_variables a (fold_left (fun s var => set_add var s)
                                    (characters x) variables)
  end.

(** [Formula.variables] *)
Definition variables (f : Formula) : result (list string) :=
  helper_variables f [].

Definition set_union (s t : list string) : list string :=
  fold_left (fun acc x => set_add x acc) t s.

Definition set_difference (s t : list string) : list string :=
  filter (fun x => negb (str_mem x t)) s.

(** [Formula.free_variables]; for a quantification the variables removed
    are, again, the characters of the variable name. *)
Fixpoint free_variables (f : Formula) : result (list string) :=
  match f with
  | Relation r args =>
      if is_equality r then
        a0 <- getitem args 0%Z ;;
        bad_variables1 <- Term_variables a0 ;;
        a1 <- getitem args 1%Z ;;
        bad_variables2 <- Term_variables a1 ;;
        Ok (set_union bad_variables1 bad_variables2)
      else
        for_each
          (fun arg values => vs <- Term_variables arg ;; Ok (set_union values vs))
          args []
  | Quantifier _ x a =>
      goods <- free_variables a ;;
      Ok (set_difference goods (fold_left (fun s var => set_add var s)
                                          (characters x) []))
  | Unary _ a => free_variables a
  | Binary _ a b =>
      first_values <- free_variables a ;;
      second_values <- free_variables b ;;
      Ok (set_union first_values second_values)
  end.

(** The first loop of the quantifier case of [Formula.substitute]; the state
    is [new_dict] and [forbids]. *)
Definition restrict_step (free : list string) (substitution_map : dict Term)
           (var : string) (state : dict Term * list string)
  : dict Term * list string :=
  let (new_dict, forbids) := state in
  let new_dict :=
    if str_mem var free then
      match dict_get substitution_map var with
      | Some t => dict_set new_dict var t
      | None => new_dict
      end
    else new_dict in
  let forbids := if negb (str_mem var free) then set_add var forbids else forbids in
  (new_dict, forbids).

(** The second loop: the constant names of the map are kept. *)
Fixpoint keep_constants (items : list (string * Term)) (new_dict : dict Term)
  : result (dict Term) :=
  match items with
  | [] => Ok new_dict
  | (val, t) :: rest =>
      c <- is_constant val ;;
      keep_constants rest (if c then dict_set new_dict val t else new_dict)
  end.

(** [Formula.substitute].  The first branch of the source, on a root that is
    a constant, variable or function name, calls the method on the same
    arguments again; no root of a formula is such a name. *)
Fixpoint substitute (f : Formula) (substitution_map : dict Term)
         (forbidden_variables : list string) : result Formula :=
  assert_substitution substitution_map forbidden_variables ;;;
  c <- is_constant (root f) ;;
  v <- (if c then Ok true else is_variable (root f)) ;;
  fn <- (if v then Ok true else is_function (root f)) ;;
  if fn then Raise RecursionError
  else
    match f with
    | Unary r a =>
        first <- substitute a substitution_map forbidden_variables ;;
        Ok (Unary r first)
    | Binary r a b =>
        first <- substitute a substitution_map forbidden_variables ;;
        second <- substitute b substitution_map forbidden_variables ;;
        Ok (Binary r first second)
    | Relation r args =>
        new_args <- map_result
                      (fun arg => Term_substitute arg substitution_map
                                                  forbidden_variables) args ;;
        Ok (Relation r new_args)
    | Quantifier r x a =>
        free <- free_variables f ;;
        vars <- variables f ;;
        let (new_dict, forbids) :=
          fold_left (fun state var => restrict_step free substitution_map var state)
                    vars ([], forbidden_variables) in
        new_dict <- keep_constants substitution_map new_dict ;;
        preds <- substitute a new_dict forbids ;;
        Ok (Quantifier r x preds)
    end.

(** ** The propositional skeleton *)

(** The first key of [dic] whose value equals [f]. *)
Fixpoint find_key (dic : dict Formula) (f : Formula) : option string :=
  match dic with
  | [] => None
  | (key, g) :: rest => if Formula_eq g f then Some key else find_key rest f
  end.

Section Skeleton.

(** Modelled from the spec: [logic_utils.fresh_variable_name_generator] is
    not among the sources.  It is a single process-wide generator that never
    repeats a name: its state is a counter, and [fresh_variable_name n] is
    the name it yields in state [n]. *)
Variable fresh_variable_name : nat -> string.

(** [next(fresh_variable_name_generator)] *)
Definition next (generator : nat) : string * nat :=
  (fresh_variable_name generator, S generator).

(** [Formula.__helper_skeleton]; the state of the generator is threaded.
    The root of a formula the constructor built passes one of the three
    tests; on any other root the method reaches its end, and unpacking its
    result raises [TypeError]. *)
Fixpoint helper_skeleton (f : Formula) (dic : dict Formula) (generator : nat)
  : result (Propositions.Formula * dict Formula * nat) :=
  rel <- is_relation (root f) ;;
  if rel || is_equality (root f) || is_quantifier (root f) then
    let '(return_value, dic, generator) :=
      match find_key dic f with
      | Some key => (key, dic, generator)
      | None =>
          let (name, generator) := next generator in
          (name, dict_set dic name f, generator)
      end in
    p <- Propositions.Formula_init return_value None None ;;
    Ok (p, dic, generator)
  else if is_binary (root f) then
    match f with
    | Binary r a b =>
        l <- helper_skeleton a dic generator ;;
        let '(left_, dic_left, generator) := l in
        r' <- helper_skeleton b dic_left generator ;;
        let '(right_, dic_right, generator) := r' in
        p <- Propositions.Formula_init r (Some left_) (Some right_) ;;
        Ok (p, dic_right, generator)
    | _ => Raise AttributeError
    end
  else if is_unary (root f) then
    match f with
    | Unary r a =>
        l <- helper_skeleton a dic generator ;;
        let '(form, dic_new, generator) := l in
        p <- Propositions.Formula_init r (Some form) None ;;
        Ok (p, dic_new, generator)
    | _ => Raise AttributeError
    end
  else Raise TypeError.

(** [Formula.propositional_skeleton] *)
Definition propositional_skeleton (f : Formula) (generator : nat)
  : result (Propositions.Formula * dict Formula * nat) :=
  helper_skeleton f [] generator.

End Skeleton.

(** [Formula.from_propositional_skeleton]; the tests on the root are those
    of this module.  On a root that is neither a variable name nor an
    operator of this module (['p'], ['T'], ['+'], ...) no branch is taken
    and the method returns [None]; an operand that is [None] then fails the
    assertions of [Formula.__init__], whatever the root. *)
Fixpoint from_propositional_skeleton_rec (skeleton : Propositions.Formula)
         (substitution_map : dict Formula) : result (option Formula) :=
  v <- is_variable (Propositions.root skeleton) ;;
  if v then
    f <- dict_getitem substitution_map (Propositions.root skeleton) ;;
    Ok (Some f)
  else if is_binary (Propositions.root skeleton) then
    match skeleton with
    | Propositions.Binary r a b =>
        left_ <- from_propositional_skeleton_rec a substitution_map ;;
        right_ <- from_propositional_skeleton_rec b substitution_map ;;
        match left_ with
        | Some first =>
            f <- Formula_init r (ArgFormula first) right_ ;; Ok (Some f)
        | None => Raise AssertionError
        end
    | _ => Raise AttributeError
    end
  else if is_unary (Propositions.root skeleton) then
    match skeleton with
    | Propositions.Unary r a =>
        first <- from_propositional_skeleton_rec a substitution_map ;;
        match first with
        | Some first =>
            f <- Formula_init r (ArgFormula first) None ;; Ok (Some f)
        | None => Raise AssertionError
        end
    | _ => Raise AttributeError
    end
  else Ok None.

Definition from_propositional_skeleton (skeleton : Propositions.Formula)
           (substitution_map : dict Formula) : result (option Formula) :=
  Propositions.assert_variable_keys substitution_map ;;;
  from_propositional_skeleton_rec skeleton substitution_map.

End Predicates.

(* ================================================================== *)
(** * Specification vocabulary *)
(* ================================================================== *)

Module Spec.
Import Propositions.

(** The binary digits of [i], most significant first, on [n] positions. *)
Fixpoint bits (n i : nat) : list bool :=
  match n with
  | O => []
  | S n' => (bits n' (Nat.div2 i) ++ [Nat.odd i])%list
  end.

(** The truth table of the binary operators. *)
Definition binary_truth (r : string) (x y : bool) : bool :=
  if String.eqb r "|" then x || y
  else if String.eqb r "&" then x && y
  else if String.eqb r "->" then negb x || y
  else if String.eqb r "-|" then negb (x || y)
  else if String.eqb r "-&" then negb (x && y)
  else if String.eqb r "+" then xorb x y
  else Bool.eqb x y.

(** The truth value of a formula in a model that covers its variables. *)
Fixpoint truth (f : Formula) (model : Model) : bool :=
  match f with
  | Leaf r =>
      if is_constant r then String.eqb r "T"
      else match dict_get model r with Some b => b | None => false end
  | Unary _ a => negb (truth a model)
  | Binary r a b => binary_truth r (truth a model) (truth b model)
  end.

(** Every variable of the formula is a key of the model. *)
Fixpoint covered (f : Formula) (keys : list string) : Prop :=
  match f with
  | Leaf r => is_constant r = true \/ In r keys
  | Unary _ a => covered a keys
  | Binary _ a b => covered a keys /\ covered b keys
  end.

(** [var] if [val], [~var] otherwise. *)
Definition literal (kv : string * bool) : Formula :=
  let (var, val) := kv in
  if negb val then Unary "~" (Leaf var) else Leaf var.

(** The elements of [options] whose position carries [True] in [values]. *)
Fixpoint select {A : Type} (options : list A) (values : list bool) : list A :=
  match options, values with
  | o :: options', v :: values' =>
      if v then o :: select options' values' else select options' values'
  | _, _ => []
  end.

(** [model'] gives every key of [model] the value [model] gives it. *)
Definition agree (model model' : Model) : bool :=
  forallb (fun kv : string * bool =>
             match dict_get model' (fst kv) with
             | Some b => Bool.eqb b (snd kv)
             | None => false
             end) model.

(** [f1 r (f2 r (... fn))], the formula [__create_dnf__] and
    [__create_cnf__] build from a non-empty list. *)
Fixpoint chain (r : string) (forms : list Formula) : Formula :=
  match forms with
  | [] => Leaf "F"
  | f :: rest =>
      match rest with
      | [] => f
      | _ => Binary r f (chain r rest)
      end
  end.

(** The clause [synthesize_for_model] builds for a model. *)
Definition clause (model : Model) : Formula := chain "&" (map literal model).

(** A first-order formula with a relation name, the equality or a
    quantifier at its root. *)
Definition atomic (f : Predicates.Formula) : bool :=
  match f with
  | Predicates.Relation _ _ | Predicates.Quantifier _ _ _ => true
  | _ => false
  end.

(** A skeleton map built entry by entry, each new entry a formula with a
    relation name, the equality or a quantifier at its root that equals no
    formula already present. *)
Inductive Reuse : dict Predicates.Formula -> Prop :=
| Reuse_nil : Reuse []
| Reuse_snoc (dic : dict Predicates.Formula) (k : string)
             (v : Predicates.Formula) :
    Reuse dic -> Predicates.find_key dic v = None -> atomic v = true ->
    Reuse (dic ++ [(k, v)])%list.

(** A character that the loop of [Formula.parse_prefix] passes over. *)
Definition quiet (c : ascii) : bool :=
  negb (existsb (Ascii.eqb c) ["("; ")"; "&"; "|"; "+"; "-"; "<"]%char).

(** Where [index_operator] points in a binary operator: at the ['-'] of
    ['<->'], at the last character of the others. *)
Definition operator_mark (r : string) : Z :=
  if String.eqb r "<->" then 1%Z else (str_len r - 1)%Z.

(** The state of the loop [n] characters later, [k] pairs of parentheses
    and [k] operators deeper in the count, the last [')'] at [ic]. *)
Definition scanned (st : Scan) (n k ic : Z) : Scan :=
  mkScan (index st + n) (open_number st + k) (close_number st + k)
         (operator_number st + k) ic (index_operator st) (count_par st)
         (to_return st).

(** The loop of [Formula.parse_prefix], inside a pair of parentheses,
    passes over the representation of [g] in [m] rounds: the counts of
    parentheses and of operators grow by the same number, and
    [index_operator] stays. *)
Definition passes (g : Formula) (m : nat) : Prop :=
  forall (s pre post : string) (st : Scan) (fuel : nat),
    s = pre ++ repr g ++ post -> index st = str_len pre ->
    (1 <= count_par st)%Z ->
    (open_number st - close_number st = count_par st)%Z ->
    exists k ic,
      scan_loop (m + fuel) s (characters s) st
      = scan_loop fuel s (characters s) (scanned st (str_len (repr g)) k ic).

(** What may follow a name: nothing, or a character that is not
    alphanumeric. *)
Definition after_name (rest : string) : bool :=
  match rest with
  | EmptyString => true
  | String c _ => negb (is_alnum_char c)
  end.

(** A string of closing brackets, what follows a formula inside
    quantifications. *)
Definition closing (rest : string) : bool :=
  all_chars (fun c => Ascii.eqb c "]") rest.

(** A character that the loop over a list of arguments passes over. *)
Definition plain (c : ascii) : bool :=
  negb (existsb (Ascii.eqb c) ["("; ")"; ","]%char).

(** The loop over a list of arguments passes over the word [w] in [m]
    rounds when it is at least [d] parentheses deep: [opens] and [closed]
    grow by the same number of items, nothing else changes. *)
Definition splits_over (d : Z) (w : string) (m : nat) : Prop :=
  forall (parse_term : string -> result (Predicates.Term * string))
         (mark : Z -> Z) (s pre post : string) (st : Predicates.Split)
         (fuel : nat),
    s = pre ++ w ++ post -> Predicates.split_index st = str_len pre ->
    (d <= Predicates.counter st)%Z ->
    len (Predicates.opens st)
    = (len (Predicates.closed st) + Predicates.counter st)%Z ->
    exists opens' closed',
      len opens' = (len closed' + Predicates.counter st)%Z /\
      Predicates.split_loop parse_term mark (m + fuel) s st
      = Predicates.split_loop parse_term mark fuel s
          (Predicates.mkSplit (Predicates.split_index st + str_len w)
                              (Predicates.counter st) opens' closed'
                              (Predicates.last_one st) (Predicates.terms st)).

(** The first loop of the first-order [Formula.parse_prefix] passes over
    the word [w] in [m] rounds when it is at least [d] parentheses deep:
    the counts of parentheses grow by the same number, and
    [index_operator] stays. *)
Definition scans_over (d : Z) (w : string) (m : nat) : Prop :=
  forall (s pre post : string) (st : Predicates.Scan) (fuel : nat),
    s = pre ++ w ++ post -> Predicates.index st = str_len pre ->
    (d <= Predicates.count_par st)%Z ->
    (Predicates.open_number st - Predicates.close_number st
     = Predicates.count_par st)%Z ->
    exists k j ic,
      Predicates.scan_loop (m + fuel) s st
      = Predicates.scan_loop fuel s
          (Predicates.mkScan (Predicates.index st + str_len w)
                             (Predicates.open_number st + k)
                             (Predicates.close_number st + k)
                             (Predicates.operator_number st + j) ic
                             (Predicates.index_operator st)
                             (Predicates.count_par st)
                             (Predicates.to_return st)).

(** The first character of a term: a digit, a lowercase letter or the
    underscore. *)
Definition term_start (c : ascii) : bool :=
  between "0" c "9" || between "a" c "z" || Ascii.eqb c "_".

(** The characters of a term. *)
Definition term_char (c : ascii) : bool :=
  is_alnum_char c || existsb (Ascii.eqb c) ["_"; "("; ")"; ","]%char.

(** The standard notation of propositional formulas: a variable is a
    letter from ['p'] to ['z'] followed by digits, the constants are ['T']
    and ['F'], and a binary formula is fully parenthesised. *)
Inductive propositional_string : string -> Prop :=
| ps_variable (c : ascii) (digits : string) :
    between "p" c "z" = true -> all_chars is_digit_char digits = true ->
    propositional_string (String c digits)
| ps_true : propositional_string "T"
| ps_false : propositional_string "F"
| ps_unary (a : string) :
    propositional_string a -> propositional_string ("~" ++ a)
| ps_binary (a op b : string) :
    In op ["&"; "|"; "->"; "<->"; "+"; "-&"; "-|"] ->
    propositional_string a -> propositional_string b ->
    propositional_string ("(" ++ a ++ op ++ b ++ ")").

(** A name: a character from [lo] to [hi] followed by letters and
    digits. *)
Definition name_from (lo hi : ascii) (s : string) : bool :=
  match s with
  | EmptyString => false
  | String c w => between lo c hi && all_chars is_alnum_char w
  end.

(** The standard notation of first-order terms, and of the lists of terms
    between the parentheses of a function or relation. *)
Inductive term_string : string -> Prop :=
| ts_variable (x : string) : name_from "u" "z" x = true -> term_string x
| ts_constant (c : string) :
    name_from "0" "9" c || name_from "a" "d" c || String.eqb c "_" = true ->
    term_string c
| ts_function (f l : string) :
    name_from "f" "t" f = true -> term_list l ->
    term_string (f ++ "(" ++ l ++ ")")
with term_list : string -> Prop :=
| tl_last (t : string) : term_string t -> term_list t
| tl_more (t l : string) :
    term_string t -> term_list l -> term_list (t ++ "," ++ l).

(** The standard notation of first-order formulas. *)
Inductive formula_string : string -> Prop :=
| fs_equality (t1 t2 : string) :
    term_string t1 -> term_string t2 -> formula_string (t1 ++ "=" ++ t2)
| fs_relation (r l : string) :
    name_from "F" "T" r = true -> term_list l ->
    formula_string (r ++ "(" ++ l ++ ")")
| fs_unary (a : string) : formula_string a -> formula_string ("~" ++ a)
| fs_binary (a op b : string) :
    In op ["&"; "|"; "->"] -> formula_string a -> formula_string b ->
    formula_string ("(" ++ a ++ op ++ b ++ ")")
| fs_quantifier (q x a : string) :
    In q ["A"; "E"] -> name_from "u" "z" x = true -> formula_string a ->
    formula_string (q ++ x ++ "[" ++ a ++ "]").

(** A formula built from variable names with ['~'] and ['->'] only. *)
Fixpoint implicational (f : Formula) : bool :=
  match f with
  | Leaf r => match is_variable r with Ok v => v | Raise _ => false end
  | Unary r a => String.eqb r "~" && implicational a
  | Binary r a b => String.eqb r "->" && implicational a && implicational b
  end.

(** Equality of formulas as the code tests it. *)
Definition feq (a b : Formula) : Prop := repr a = repr b.

(** A line at position [n] of [lines] that follows, from the assumptions
    [assumed], by the axiomatic system: an assumption; an instance of an
    assumptionless rule of the system, citing no line; or the conclusion of
    Modus Ponens from two earlier lines. *)
Inductive line_ok (assumed : list Formula) (lines : list Line) (n : nat)
  : Line -> Prop :=
| ok_assumption (f : Formula) :
    Formula_in f assumed = true ->
    line_ok assumed lines n (AssumptionLine f)
| ok_axiom (f : Formula) (rule : InferenceRule) :
    In rule AXIOMATIC_SYSTEM ->
    is_specialization_of (mkInferenceRule [] f) rule = Ok true ->
    line_ok assumed lines n (RuleLine f rule [])
| ok_modus_ponens (f : Formula) (i j : nat) (li lj : Line) (u v : Formula) :
    (i < n)%nat -> (j < n)%nat ->
    nth_error lines i = Some li -> nth_error lines j = Some lj ->
    formula lj = Binary "->" u v ->
    feq (formula li) u -> feq v f ->
    line_ok assumed lines n (RuleLine f MP [Z.of_nat i; Z.of_nat j]).

(** Every line follows from the assumptions and earlier lines. *)
Definition derivation (assumed : list Formula) (lines : list Line) : Prop :=
  forall n l, nth_error lines n = Some l -> line_ok assumed lines n l.

(** The allowed rules are those of the axiomatic system. *)
Definition axiomatic (rules : list InferenceRule) : Prop :=
  forall r, InferenceRule_in r rules = InferenceRule_in r AXIOMATIC_SYSTEM.

(** A proof of [goal] from [assumed] by the axiomatic system: the statement
    is [assumed ==> goal], the lines are a derivation and the last line
    carries the goal. *)
Definition proves (assumed : list Formula) (goal : Formula) (p : Proof)
  : Prop :=
  statement p = mkInferenceRule assumed goal /\
  axiomatic (rules p) /\
  derivation assumed (lines p) /\
  exists prev last, lines p = (prev ++ [last])%list /\ feq (formula last) goal.

(** The list is in non-decreasing order, each element at most the next. *)
Fixpoint in_order (l : list string) : bool :=
  match l with
  | x :: ((y :: _) as l') => String.leb x y && in_order l'
  | _ => true
  end.

(** A model as [prove_tautology] builds it: distinct variable names, added
    in sorted order. *)
Definition ordered_model (model : Model) : Prop :=
  NoDup (dict_keys model) /\
  (forall v, In v (dict_keys model) -> is_variable v = Ok true) /\
  sorted (dict_keys model) = dict_keys model.

(** The models [all_models] lists over distinct variable names. *)
Definition models_over (vars : list string) : list Model :=
  map (combine vars) (product [false; true] (List.length vars)).

(** A rule whose assumptions and conclusion are formulas the constructor
    accepts. *)
Definition rule_wf (rule : InferenceRule) : bool :=
  forallb wf (assumptions rule) && wf (conclusion rule).

(** A formula that has the truth table of the constant or operator [op],
    its operands being the values of ['p'] and ['q']. *)
Definition same_table (op : string) (g : Formula) : Prop :=
  if is_constant op then
    forall model : Model, truth g model = String.eqb op "T"
  else if is_unary op then
    forall (model : Model) (x : bool), truth g (("p", x) :: model) = negb x
  else
    forall (model : Model) (x y : bool),
      truth g (("p", x) :: ("q", y) :: model) = binary_truth op x y.

(** The rule a derived line cites is one of [allowed]. *)
Definition cites (allowed : list InferenceRule) (l : Line) : bool :=
  match l with
  | AssumptionLine _ => true
  | RuleLine _ rule _ => InferenceRule_in rule allowed
  end.

End Spec.

(* ================================================================== *)
(** * Concrete formulas, rules and proofs used in examples *)
(* ================================================================== *)

Module Examples.
Import Propositions.

Definition imp (a b : Formula) : Formula := Binary "->" a b.
Definition neg (a : Formula) : Formula := Unary "~" a.

(** Modus ponens as a rule: [['p', '(p->q)'] ==> 'q']. *)
Definition modus_ponens : InferenceRule :=
  mkInferenceRule [Leaf "p"; imp (Leaf "p") (Leaf "q")] (Leaf "q").

(** A three-line proof of [['x', '(x->y)'] ==> 'y']. *)
Definition mp_proof : Proof :=
  mkProof (mkInferenceRule [Leaf "x"; imp (Leaf "x") (Leaf "y")] (Leaf "y"))
          [modus_ponens]
          [AssumptionLine (Leaf "x");
           AssumptionLine (imp (Leaf "x") (Leaf "y"));
           RuleLine (Leaf "y") modus_ponens [0%Z; 1%Z]].

(** Two assumptionless rules of the same shape, [[] ==> '(p->p)'] and
    [[] ==> '(q->q)']: each is a specialization of the other, and they are
    different rules. *)
Definition identity_p : InferenceRule :=
  mkInferenceRule [] (imp (Leaf "p") (Leaf "p")).

Definition identity_q : InferenceRule :=
  mkInferenceRule [] (imp (Leaf "q") (Leaf "q")).

(** A one-line proof of [[] ==> '(x->x)'] that cites [identity_p] and is
    also allowed [identity_q]. *)
Definition main_proof : Proof :=
  mkProof (mkInferenceRule [] (imp (Leaf "x") (Leaf "x")))
          [identity_p; identity_q]
          [RuleLine (imp (Leaf "x") (Leaf "x")) identity_p []].

(** A one-line proof of the rule [identity_q] via [identity_p]. *)
Definition lemma_proof : Proof :=
  mkProof identity_q [identity_p]
          [RuleLine (imp (Leaf "q") (Leaf "q")) identity_p []].

(** A one-line proof of [['p', 'p'] ==> 'p']: the last assumption occurs
    twice among the assumptions. *)
Definition repeated_assumption_proof : Proof :=
  mkProof (mkInferenceRule [Leaf "p"; Leaf "p"] (Leaf "p"))
          [modus_ponens]
          [AssumptionLine (Leaf "p")].

(** First-order examples: the formula [Ay[x=c]] and some terms. *)
Definition forall_y_x_eq_c : Predicates.Formula :=
  Predicates.Quantifier "A" "y"
    (Predicates.Relation "=" [Predicates.TLeaf "x"; Predicates.TLeaf "c"]).

(** [plus(d,y)] *)
Definition plus_d_y : Predicates.Term :=
  Predicates.TApp "plus" [Predicates.TLeaf "d"; Predicates.TLeaf "y"].

(** [f(g(d,y))] *)
Definition f_g_d_y : Predicates.Term :=
  Predicates.TApp "f"
    [Predicates.TApp "g" [Predicates.TLeaf "d"; Predicates.TLeaf "y"]].

(** [Ax[(Ay[R(y)]&R(c))]] *)
Definition nested_quantifiers : Predicates.Formula :=
  Predicates.Quantifier "A" "x"
    (Predicates.Binary "&"
       (Predicates.Quantifier "A" "y"
          (Predicates.Relation "R" [Predicates.TLeaf "y"]))
       (Predicates.Relation "R" [Predicates.TLeaf "c"])).

(** A generator of fresh names that yields [z1], [z2], ... *)
Definition z_name (n : nat) : string :=
  "z" ++ NilEmpty.string_of_uint (Nat.to_uint (S n)).

(** [(x=y&(~x=y|Ax[R(x)]))] *)
Definition skeleton_example : Predicates.Formula :=
  Predicates.Binary "&"
    (Predicates.Relation "=" [Predicates.TLeaf "x"; Predicates.TLeaf "y"])
    (Predicates.Binary "|"
       (Predicates.Unary "~"
          (Predicates.Relation "=" [Predicates.TLeaf "x"; Predicates.TLeaf "y"]))
       (Predicates.Quantifier "A" "x"
          (Predicates.Relation "R" [Predicates.TLeaf "x"]))).

End Examples.

(* ================================================================== *)
(** * Lemmas and theorems *)
(* ================================================================== *)

Import Propositions Spec.
Open Scope list_scope.

(** ** The runtime fragment *)

Lemma bind_Ok_inv {A B : Type} (c : result A) (k : A -> result B) (b : B) :
  Py.bind c k = Ok b -> exists a, c = Ok a /\ k a = Ok b.
Proof.
  destruct c as [a | e]; simpl; intros H; [exists a; auto | discriminate].
Qed.

Lemma getitem_nat {A : Type} (l : list A) (i : nat) :
  getitem l (Z.of_nat i) =
  match nth_error l i with Some a => Ok a | None => Raise IndexError end.
Proof.
  unfold getitem.
  destruct (Z.ltb_spec (Z.of_nat i) 0); [lia |].
  destruct (Z.ltb_spec (Z.of_nat i) 0); [lia |].
  now rewrite Nat2Z.id.
Qed.

Lemma getitem_last {A : Type} (l : list A) (a : A) :
  getitem (l ++ [a]) (-1)%Z = Ok a.
Proof.
  unfold getitem. rewrite length_app. simpl.
  replace (Z.of_nat (List.length l + 1) + -1)%Z with (Z.of_nat (List.length l)) by lia.
  destruct (Z.ltb_spec (Z.of_nat (List.length l)) 0); [lia |].
  rewrite Nat2Z.id, nth_error_app2, Nat.sub_diag by lia. reflexivity.
Qed.

(** ** Proof validity *)

(** C10: [is_valid] on a proof without lines does not return [False]: the
    loop over the lines is empty and the final check [self.lines[-1]] raises
    [IndexError], whatever the statement and the allowed rules. *)
Theorem is_valid_no_lines_raises :
  forall (statement : InferenceRule) (rules : list InferenceRule),
    is_valid (mkProof statement rules []) = Raise IndexError.
Proof.
  intros st rs. reflexivity.
Qed.

Lemma all_lines_valid_true (p : Proof) (indices : list Z) :
  all_lines_valid p indices = Ok true <->
  (forall i, In i indices -> is_line_valid p i = Ok true).
Proof.
  induction indices as [| i rest IH]; simpl.
  - split; [intros _ j [] | reflexivity].
  - split.
    + intros H j [<- | Hj].
      * destruct (is_line_valid p i) as [[|]|]; simpl in H; congruence.
      * destruct (is_line_valid p i) as [[|]|]; simpl in H; try discriminate.
        now apply IH.
    + intros H. rewrite (H i (or_introl eq_refl)). simpl.
      apply IH. intros j Hj. apply H. now right.
Qed.

Lemma In_range (n : nat) (i : Z) :
  In i (range n) <-> exists k, i = Z.of_nat k /\ (k < n)%nat.
Proof.
  unfold range. rewrite in_map_iff. split.
  - intros [k [<- Hk]]. exists k. apply in_seq in Hk. split; [reflexivity | lia].
  - intros [k [-> Hk]]. exists k. split; [reflexivity |]. apply in_seq. lia.
Qed.

Lemma is_valid_true (p : Proof) :
  is_valid p = Ok true <->
  (forall i, (i < List.length (lines p))%nat ->
             is_line_valid p (Z.of_nat i) = Ok true) /\
  (exists last, getitem (lines p) (-1)%Z = Ok last /\
                Formula_eq (formula last) (conclusion (statement p)) = true).
Proof.
  unfold is_valid. split.
  - intros H. apply bind_Ok_inv in H. destruct H as [ok [Hall H]].
    destruct ok; simpl in H; [| discriminate].
    apply bind_Ok_inv in H. destruct H as [last [Hlast H]].
    split.
    + intros i Hi. apply (proj1 (all_lines_valid_true _ _) Hall).
      apply In_range. now exists i.
    + exists last. split; [assumption |]. unfold Formula_ne in H.
      destruct (Formula_eq (formula last) (conclusion (statement p)));
        simpl in H; [reflexivity | discriminate].
  - intros [Hall [last [Hlast Heq]]].
    assert (Hloop : all_lines_valid p (range (List.length (lines p))) = Ok true).
    { apply all_lines_valid_true. intros i Hi. apply In_range in Hi.
      destruct Hi as [k [-> Hk]]. now apply Hall. }
    rewrite Hloop. simpl. rewrite Hlast. simpl.
    unfold Formula_ne. now rewrite Heq.
Qed.

Lemma is_line_valid_at (p : Proof) (i : nat) (l : Line) :
  nth_error (lines p) i = Some l ->
  is_line_valid p (Z.of_nat i) =
  match l with
  | AssumptionLine f => Ok (Formula_in f (assumptions (statement p)))
  | RuleLine f rule idxs =>
      if negb (InferenceRule_in rule (rules p)) then Ok false
      else if existsb (fun index => (index >=? Z.of_nat i)%Z) idxs then Ok false
      else
        assumpts <- map_result (fun index => c <- getitem (lines p) index ;;
                                             Ok (formula c)) idxs ;;
        is_specialization_of (mkInferenceRule assumpts f) rule
  end.
Proof.
  intros Hl. unfold is_line_valid, rule_for_line.
  assert (Hlt : (i < List.length (lines p))%nat)
    by (apply nth_error_Some; congruence).
  assert (Hb : (Z.of_nat i <? len (lines p))%Z = true)
    by (apply Z.ltb_lt; unfold len; lia).
  rewrite Hb. simpl. rewrite getitem_nat, Hl. simpl.
  destruct l as [f | f rule idxs]; [reflexivity |].
  destruct (negb (InferenceRule_in rule (rules p))); [reflexivity |].
  destruct (existsb _ idxs); [reflexivity |].
  destruct (map_result _ idxs); reflexivity.
Qed.

(** C2: the validity of a line and of a proof.  A line justified as an
    assumption is valid iff its formula is among the assumptions of the
    statement.  A derived line is valid iff its rule is among the allowed
    rules, every cited index is strictly below the index of the line, and the
    rule built from the formulas of the cited lines (in citation order) and the
    formula of the line is a specialization of the cited rule.  [is_valid]
    returns [True] iff every line is valid and the formula of the last line
    equals the conclusion of the statement. *)
Theorem proof_validity_characterisation :
  forall (p : Proof),
    (forall (i : nat) (f : Formula),
        nth_error (lines p) i = Some (AssumptionLine f) ->
        (is_line_valid p (Z.of_nat i) = Ok true <->
         Formula_in f (assumptions (statement p)) = true)) /\
    (forall (i : nat) (f : Formula) (rule : InferenceRule) (cited : list Z),
        nth_error (lines p) i = Some (RuleLine f rule cited) ->
        (is_line_valid p (Z.of_nat i) = Ok true <->
         InferenceRule_in rule (rules p) = true /\
         (forall index, In index cited -> (index < Z.of_nat i)%Z) /\
         (exists cited_formulas,
             map_result (fun index => c <- getitem (lines p) index ;;
                                      Ok (formula c)) cited
             = Ok cited_formulas /\
             rule_for_line p (Z.of_nat i)
             = Ok (Some (mkInferenceRule cited_formulas f)) /\
             is_specialization_of (mkInferenceRule cited_formulas f) rule
             = Ok true))) /\
    (is_valid p = Ok true <->
     (forall i, (i < List.length (lines p))%nat ->
                is_line_valid p (Z.of_nat i) = Ok true) /\
     (exists last, getitem (lines p) (-1)%Z = Ok last /\
                   Formula_eq (formula last) (conclusion (statement p)) = true)).
Proof.
  intros p. split; [| split].
  - intros i f Hl. rewrite (is_line_valid_at p i _ Hl).
    split; [intros H; now injection H | intros ->; reflexivity].
  - intros i f rule cited Hl. rewrite (is_line_valid_at p i _ Hl).
    assert (Hrfl : forall fs,
               map_result (fun index => c <- getitem (lines p) index ;;
                                        Ok (formula c)) cited = Ok fs ->
               rule_for_line p (Z.of_nat i) = Ok (Some (mkInferenceRule fs f))).
    { intros fs Hfs. unfold rule_for_line.
      assert (Hlt : (i < List.length (lines p))%nat)
        by (apply nth_error_Some; congruence).
      assert (Hb : (Z.of_nat i <? len (lines p))%Z = true)
        by (apply Z.ltb_lt; unfold len; lia).
      rewrite Hb. simpl. rewrite getitem_nat, Hl. simpl. now rewrite Hfs. }
    destruct (InferenceRule_in rule (rules p)); simpl.
    + destruct (existsb (fun index => (index >=? Z.of_nat i)%Z) cited) eqn:Hex.
      * split; [discriminate |]. intros [_ [Hall _]].
        apply existsb_exists in Hex. destruct Hex as [index [Hin Hge]].
        specialize (Hall index Hin). apply Z.geb_le in Hge. lia.
      * split.
        -- intros H. apply bind_Ok_inv in H. destruct H as [fs [Hfs H]].
           split; [reflexivity | split].
           ++ intros index Hin.
              destruct (Z.ltb_spec index (Z.of_nat i)); [assumption |].
              assert (existsb (fun index => (index >=? Z.of_nat i)%Z) cited = true).
              { apply existsb_exists. exists index. split; [assumption |].
                apply Z.geb_le. lia. }
              congruence.
           ++ exists fs. auto.
        -- intros [_ [_ [fs [Hfs [_ H]]]]]. rewrite Hfs. exact H.
    + split; [discriminate | intros [H _]; discriminate].
  - apply is_valid_true.
Qed.

Lemma proof_validity_witness :
  is_line_valid Examples.mp_proof 0%Z = Ok true /\
  is_line_valid Examples.mp_proof 2%Z = Ok true /\
  is_valid Examples.mp_proof = Ok true.
Proof.
  destruct (proof_validity_characterisation Examples.mp_proof)
    as [Hassumption [Hderived Hvalid]].
  split; [| split].
  - apply (Hassumption 0%nat (Leaf "x") eq_refl). reflexivity.
  - apply (Hderived 2%nat (Leaf "y") Examples.modus_ponens [0%Z; 1%Z] eq_refl).
    split; [reflexivity | split].
    + intros index [<- | [<- | []]]; reflexivity.
    + eexists. repeat split; reflexivity.
  - apply Hvalid. split.
    + intros i Hi. simpl in Hi.
      destruct i as [| [| [| i]]]; [reflexivity | reflexivity | reflexivity | lia].
    + eexists. split; reflexivity.
Defined.

(** ** Enumeration of models *)

Lemma dict_get_None_not_In {V : Type} (d : dict V) (k : string) :
  dict_get d k = None <-> ~ In k (dict_keys d).
Proof.
  induction d as [| [k' v'] d IH]; simpl.
  - tauto.
  - destruct (String.eqb_spec k' k) as [-> | Hne].
    + split; [discriminate | intros H; exfalso; apply H; now left].
    + rewrite IH. tauto.
Qed.

Lemma dict_set_fresh {V : Type} (d : dict V) (k : string) (v : V) :
  ~ In k (dict_keys d) -> dict_set d k v = (d ++ [(k, v)])%list.
Proof.
  induction d as [| [k' v'] d IH]; simpl; intros Hk; [reflexivity |].
  destruct (String.eqb_spec k' k) as [-> | Hne]; [tauto |].
  rewrite IH by tauto. reflexivity.
Qed.

Lemma getitem_app_len {A : Type} (pre : list A) (x : A) (post : list A) :
  getitem (pre ++ x :: post) (len pre) = Ok x.
Proof.
  unfold len. rewrite getitem_nat, nth_error_app2, Nat.sub_diag by lia.
  reflexivity.
Qed.

Lemma fill_model_combine (variables : list string) :
  forall (vals pre : list bool) (d : Model),
    NoDup (dict_keys d ++ variables) ->
    List.length vals = List.length variables ->
    fill_model variables (pre ++ vals) (len pre) d
    = Ok (d ++ combine variables vals)%list.
Proof.
  induction variables as [| var rest IH]; intros vals pre d Hnd Hlen.
  - simpl. now rewrite app_nil_r.
  - destruct vals as [| v vals]; [discriminate |].
    simpl. rewrite getitem_app_len. simpl.
    assert (Hfresh : ~ In var (dict_keys d)).
    { apply NoDup_remove_2 in Hnd. intros H. apply Hnd.
      apply in_or_app. now left. }
    rewrite (dict_set_fresh d var v Hfresh).
    replace (len pre + 1)%Z with (len (pre ++ [v])) by
        (unfold len; rewrite length_app; simpl; lia).
    replace (pre ++ v :: vals)%list with ((pre ++ [v]) ++ vals)%list by
        (now rewrite <- app_assoc).
    rewrite IH.
    + now rewrite <- app_assoc.
    + unfold dict_keys in *. rewrite map_app. simpl. rewrite <- app_assoc.
      exact Hnd.
    + simpl in Hlen. lia.
Qed.

Lemma product_length {A : Type} (pool : list A) (n : nat) :
  List.length (product pool n) = List.length pool ^ n.
Proof.
  induction n as [| n IH]; simpl; [reflexivity |].
  rewrite <- IH. generalize (product pool n) as l.
  induction l as [| x l IHl]; simpl; [lia |].
  rewrite length_app, length_map, IHl. lia.
Qed.

Lemma product_elem_length {A : Type} (pool : list A) (n : nat) (x : list A) :
  In x (product pool n) -> List.length x = n.
Proof.
  revert x. induction n as [| n IH]; simpl; intros x Hx.
  - destruct Hx as [<- | []]. reflexivity.
  - apply in_flat_map in Hx. destruct Hx as [y [Hy Hx]].
    apply in_map_iff in Hx. destruct Hx as [b [<- _]].
    rewrite length_app, (IH y Hy). simpl. lia.
Qed.

Lemma bits_length (n i : nat) : List.length (bits n i) = n.
Proof.
  revert i. induction n as [| n IH]; intros i; simpl; [reflexivity |].
  rewrite length_app, IH. simpl. lia.
Qed.

Lemma bits_testbit (n : nat) :
  forall i j, (j < n)%nat ->
              nth_error (bits n i) j = Some (Nat.testbit i (n - 1 - j)).
Proof.
  induction n as [| n IH]; intros i j Hj; [lia |].
  simpl bits. destruct (Nat.eq_dec j n) as [-> | Hne].
  - rewrite nth_error_app2 by (rewrite bits_length; lia).
    rewrite bits_length, Nat.sub_diag.
    replace (S n - 1 - n)%nat with 0%nat by lia. reflexivity.
  - rewrite nth_error_app1 by (rewrite bits_length; lia).
    rewrite IH by lia.
    replace (S n - 1 - j)%nat with (S (n - 1 - j)) by lia. reflexivity.
Qed.

Lemma nth_error_flat_map_pair {A B : Type} (g h : A -> B) (l : list A) :
  forall i,
    nth_error (flat_map (fun x => [g x; h x]) l) i =
    match nth_error l (Nat.div2 i) with
    | Some x => Some (if Nat.odd i then h x else g x)
    | None => None
    end.
Proof.
  induction l as [| x l IH]; intros i.
  - simpl flat_map. now rewrite !nth_error_nil.
  - destruct i as [| [| i]]; try reflexivity.
    simpl flat_map. simpl nth_error at 1. rewrite IH.
    change (Nat.div2 (S (S i))) with (S (Nat.div2 i)).
    change (Nat.odd (S (S i))) with (Nat.odd i). reflexivity.
Qed.

Lemma div2_lt_pow2 (n i : nat) : (i < 2 ^ S n)%nat -> (Nat.div2 i < 2 ^ n)%nat.
Proof.
  intros H. rewrite Nat.div2_div. apply Nat.Div0.div_lt_upper_bound.
  simpl in H. lia.
Qed.

Lemma product_nth (n : nat) :
  forall i, (i < 2 ^ n)%nat ->
            nth_error (product [false; true] n) i = Some (bits n i).
Proof.
  induction n as [| n IH]; intros i Hi.
  - simpl in Hi. replace i with 0%nat by lia. reflexivity.
  - simpl product.
    rewrite (nth_error_flat_map_pair (fun x => (x ++ [false])%list)
                                     (fun x => (x ++ [true])%list)).
    rewrite IH by now apply div2_lt_pow2.
    simpl bits. now destruct (Nat.odd i).
Qed.

Lemma map_result_ext {A B : Type} (f : A -> result B) (g : A -> B) (l : list A) :
  (forall x, In x l -> f x = Ok (g x)) -> map_result f l = Ok (map g l).
Proof.
  induction l as [| x l IH]; simpl; intros H; [reflexivity |].
  rewrite (H x (or_introl eq_refl)). simpl.
  rewrite IH by (intros y Hy; apply H; now right). reflexivity.
Qed.

Lemma assert_all_variables (variables : list string) :
  (forall v, In v variables -> is_variable v = Ok true) ->
  for_each (fun v _ => b <- is_variable v ;; assert b) variables tt = Ok tt.
Proof.
  induction variables as [| v rest IH]; simpl; intros H; [reflexivity |].
  rewrite (H v (or_introl eq_refl)). simpl. apply IH.
  intros w Hw. apply H. now right.
Qed.

(** On distinct variable names [all_models] returns, in the order of
    [itertools.product], the models pairing the variables with the tuples. *)
Lemma all_models_eq (variables : list string) :
  NoDup variables ->
  (forall v, In v variables -> is_variable v = Ok true) ->
  all_models variables
  = Ok (map (combine variables)
            (product [false; true] (List.length variables))).
Proof.
  intros Hnd Hvar. unfold all_models.
  rewrite (assert_all_variables _ Hvar). simpl.
  apply map_result_ext. intros combi Hc.
  apply product_elem_length in Hc.
  apply (fill_model_combine variables combi [] []); assumption.
Qed.

Lemma dict_get_combine (variables : list string) :
  forall (vals : list bool) (j : nat) (var : string) (b : bool),
    NoDup variables ->
    nth_error variables j = Some var ->
    nth_error vals j = Some b ->
    dict_get (combine variables vals) var = Some b.
Proof.
  induction variables as [| v rest IH]; intros vals j var b Hnd Hv Hb.
  - destruct j; discriminate.
  - destruct vals as [| x vals]; [destruct j; discriminate |].
    destruct j as [| j]; simpl in *.
    + injection Hv as ->. injection Hb as ->. now rewrite String.eqb_refl.
    + inversion Hnd as [| ? ? Hnotin Hnd']; subst.
      destruct (String.eqb_spec v var) as [-> | Hne].
      * exfalso. apply Hnotin. eapply nth_error_In; eassumption.
      * eapply IH; eassumption.
Qed.

Lemma dict_keys_combine (variables : list string) (vals : list bool) :
  List.length vals = List.length variables ->
  dict_keys (combine variables vals) = variables.
Proof.
  revert vals. induction variables as [| v rest IH]; intros [| x vals] H;
    simpl in *; try reflexivity; try discriminate.
  unfold dict_keys in *. simpl. rewrite IH by lia. reflexivity.
Qed.

(** C8: for [n] distinct variable names [all_models] returns [2^n] models;
    the model at position [i] is defined on exactly the given variables and
    gives the [j]-th variable the binary digit of [i] of weight
    [2^(n-1-j)], that is, the models are all the total assignments in
    lexicographic order, [False] before [True], the first variable the most
    significant; for [['p', 'q']] these are the four models of the example. *)
Theorem all_models_lexicographic :
  forall (variables : list string),
    NoDup variables ->
    (forall v, In v variables -> is_variable v = Ok true) ->
    exists models,
      all_models variables = Ok models /\
      List.length models = 2 ^ List.length variables /\
      (forall i, (i < 2 ^ List.length variables)%nat ->
         exists m,
           nth_error models i = Some m /\
           dict_keys m = variables /\
           (forall j var, nth_error variables j = Some var ->
              dict_get m var
              = Some (Nat.testbit i (List.length variables - 1 - j)))) /\
      (variables = ["p"; "q"] ->
       models = [ [("p", false); ("q", false)]; [("p", false); ("q", true)];
                  [("p", true); ("q", false)]; [("p", true); ("q", true)] ]).
Proof.
  intros variables Hnd Hvar.
  exists (map (combine variables) (product [false; true] (List.length variables))).
  split; [now apply all_models_eq |].
  split; [now rewrite length_map, product_length |].
  split.
  - intros i Hi. exists (combine variables (bits (List.length variables) i)).
    split; [| split].
    + rewrite nth_error_map, product_nth by assumption. reflexivity.
    + apply dict_keys_combine, bits_length.
    + intros j var Hj. apply (dict_get_combine variables _ j); try assumption.
      apply bits_testbit. apply nth_error_Some. congruence.
  - intros ->. reflexivity.
Qed.

Lemma all_models_lexicographic_witness :
  exists models,
    all_models ["p"; "q"] = Ok models /\
    List.length models = 4 /\
    nth_error models 2 = Some [("p", true); ("q", false)].
Proof.
  assert (Hnd : NoDup ["p"; "q"]).
  { repeat constructor; simpl; intuition discriminate. }
  assert (Hvar : forall v, In v ["p"; "q"] -> is_variable v = Ok true).
  { intros v [<- | [<- | []]]; reflexivity. }
  destruct (all_models_lexicographic ["p"; "q"] Hnd Hvar)
    as [models [Hm [Hlen [_ Hpq]]]].
  exists models. rewrite (Hpq eq_refl) in *. repeat split; assumption.
Defined.

(** ** Evaluation *)

Lemma str_mem_In (x : string) (s : list string) :
  str_mem x s = true <-> In x s.
Proof.
  unfold str_mem. rewrite existsb_exists. split.
  - intros [y [Hy Heq]]. apply String.eqb_eq in Heq. now subst.
  - intros H. exists x. split; [assumption | apply String.eqb_refl].
Qed.

Lemma issubset_set_add (x : string) (acc keys : list string) :
  In x keys -> issubset acc keys = true -> issubset (set_add x acc) keys = true.
Proof.
  intros Hx Hacc. unfold set_add. destruct (str_mem x acc); [assumption |].
  unfold issubset in *. rewrite forallb_app, Hacc. simpl.
  now rewrite (proj2 (str_mem_In x keys) Hx).
Qed.

Lemma is_variable_not_constant (r : string) :
  is_variable r = Ok true -> is_constant r = false.
Proof.
  intros H. destruct (is_constant r) eqn:E; [| reflexivity].
  unfold is_constant in E. apply orb_true_iff in E.
  destruct E as [E | E]; apply String.eqb_eq in E; subst; discriminate.
Qed.

Lemma is_binary_cases (r : string) :
  is_binary r = true ->
  r = "&" \/ r = "|" \/ r = "->" \/ r = "+" \/ r = "<->" \/ r = "-&" \/ r = "-|".
Proof.
  unfold is_binary. simpl. rewrite !orb_true_iff, !String.eqb_eq.
  intuition discriminate.
Qed.

Lemma covered_issubset (f : Formula) (keys : list string) :
  wf f = true -> covered f keys ->
  forall acc, issubset acc keys = true ->
              issubset (find_variables f acc) keys = true.
Proof.
  induction f as [r | r a IHa | r a IHa b IHb]; simpl; intros Hwf Hcov acc Hacc.
  - destruct (is_constant r) eqn:Hc; [assumption |].
    destruct (is_variable r) as [[|] |]; try assumption.
    destruct Hcov as [Hcov | Hcov]; [discriminate |].
    now apply issubset_set_add.
  - apply andb_true_iff in Hwf. now apply IHa.
  - apply andb_true_iff in Hwf. destruct Hwf as [Hwf Hb].
    apply andb_true_iff in Hwf. destruct Hwf as [_ Ha].
    destruct Hcov as [Hca Hcb]. apply IHb; try assumption. now apply IHa.
Qed.

Lemma is_model_keys_true (keys : list string) :
  (forall v, In v keys -> is_variable v = Ok true) ->
  is_model_keys keys = Ok true.
Proof.
  induction keys as [| k keys IH]; simpl; intros H; [reflexivity |].
  rewrite (H k (or_introl eq_refl)). simpl. apply IH.
  intros v Hv. apply H. now right.
Qed.

(** On a formula the constructor accepts and a model that covers its
    variables, [evaluate] returns the truth value of the formula. *)
Lemma evaluate_truth (model : Model) :
  is_model model = Ok true ->
  forall f, wf f = true -> covered f (dict_keys model) ->
            evaluate f model = Ok (truth f model).
Proof.
  intros Hm f.
  induction f as [r | r a IHa | r a IHa b IHb]; intros Hwf Hcov;
    pose proof (covered_issubset _ _ Hwf Hcov [] eq_refl) as Hsub.
  - simpl. unfold model_variables. rewrite Hm. simpl.
    unfold variables. rewrite Hsub. simpl.
    simpl in Hwf. destruct (is_variable r) as [[|] |] eqn:Hv; simpl.
    + rewrite (is_variable_not_constant r Hv).
      destruct Hcov as [Hc | Hin];
        [rewrite (is_variable_not_constant r Hv) in Hc; discriminate |].
      unfold dict_getitem.
      destruct (dict_get model r) eqn:Hg; [reflexivity |].
      apply dict_get_None_not_In in Hg. contradiction.
    + simpl in Hwf. now rewrite Hwf.
    + discriminate.
  - simpl in Hwf. apply andb_true_iff in Hwf. destruct Hwf as [Hr Ha].
    apply String.eqb_eq in Hr. subst r.
    simpl in Hcov. simpl. unfold model_variables. rewrite Hm. simpl.
    unfold variables. rewrite Hsub. simpl.
    rewrite (IHa Ha Hcov). reflexivity.
  - simpl in Hwf. apply andb_true_iff in Hwf. destruct Hwf as [Hwf Hb].
    apply andb_true_iff in Hwf. destruct Hwf as [Hr Ha].
    destruct Hcov as [Hca Hcb].
    simpl. unfold model_variables. rewrite Hm. simpl.
    unfold variables. rewrite Hsub. simpl.
    rewrite (IHa Ha Hca), (IHb Hb Hcb). unfold binary_truth.
    destruct (is_binary_cases r Hr) as [-> | [-> | [-> | [-> | [-> | [-> | ->]]]]]];
      simpl; destruct (truth a model), (truth b model); reflexivity.
Qed.

(** ** Synthesis *)

Lemma forallb_map_comp {A B : Type} (p : B -> bool) (g : A -> B) (l : list A) :
  forallb p (map g l) = forallb (fun x => p (g x)) l.
Proof.
  induction l as [| x l IH]; simpl; [reflexivity | now rewrite IH].
Qed.

Lemma forallb_ext_on {A : Type} (p q : A -> bool) (l : list A) :
  (forall x, In x l -> p x = q x) -> forallb p l = forallb q l.
Proof.
  induction l as [| x l IH]; simpl; intros H; [reflexivity |].
  rewrite (H x (or_introl eq_refl)), IH; [reflexivity |].
  intros y Hy. apply H. now right.
Qed.

Lemma create_dnf_chain (forms : list Formula) :
  forms <> [] -> create_dnf forms = Ok (chain "&" forms).
Proof.
  induction forms as [| f rest IH]; intros Hne; [congruence |].
  destruct rest as [| g rest]; [reflexivity |].
  change (create_dnf (f :: g :: rest))
    with (r <- create_dnf (g :: rest) ;; Ok (Binary "&" f r)).
  rewrite IH by discriminate. reflexivity.
Qed.

Lemma create_cnf_chain (forms : list Formula) :
  forms <> [] -> create_cnf forms = Ok (chain "|" forms).
Proof.
  induction forms as [| f rest IH]; intros Hne; [congruence |].
  destruct rest as [| g rest]; [reflexivity |].
  change (create_cnf (f :: g :: rest))
    with (r <- create_cnf (g :: rest) ;; Ok (Binary "|" f r)).
  rewrite IH by discriminate. reflexivity.
Qed.

Lemma chain_wf (r : string) (forms : list Formula) :
  is_binary r = true -> forms <> [] ->
  (forall f, In f forms -> wf f = true) -> wf (chain r forms) = true.
Proof.
  intros Hr. induction forms as [| f rest IH]; intros Hne H; [congruence |].
  destruct rest as [| g rest]; [apply H; now left |].
  change (chain r (f :: g :: rest)) with (Binary r f (chain r (g :: rest))).
  assert (Hrest : wf (chain r (g :: rest)) = true).
  { apply IH; [discriminate |]. intros h Hh. apply H. now right. }
  cbn [wf]. now rewrite Hr, (H f (or_introl eq_refl)), Hrest.
Qed.

Lemma chain_covered (r : string) (forms : list Formula) (keys : list string) :
  forms <> [] ->
  (forall f, In f forms -> covered f keys) -> covered (chain r forms) keys.
Proof.
  induction forms as [| f rest IH]; intros Hne H; [congruence |].
  destruct rest as [| g rest]; [apply H; now left |].
  change (chain r (f :: g :: rest)) with (Binary r f (chain r (g :: rest))).
  cbn [covered]. split; [apply H; now left |].
  apply IH; [discriminate |]. intros h Hh. apply H. now right.
Qed.

Lemma chain_and_truth (forms : list Formula) (model : Model) :
  forms <> [] ->
  truth (chain "&" forms) model = forallb (fun f => truth f model) forms.
Proof.
  induction forms as [| f rest IH]; intros Hne; [congruence |].
  destruct rest as [| g rest]; [simpl; now rewrite andb_true_r |].
  change (chain "&" (f :: g :: rest)) with (Binary "&" f (chain "&" (g :: rest))).
  cbn [truth]. rewrite IH by discriminate. reflexivity.
Qed.

Lemma chain_or_truth (forms : list Formula) (model : Model) :
  forms <> [] ->
  truth (chain "|" forms) model = existsb (fun f => truth f model) forms.
Proof.
  induction forms as [| f rest IH]; intros Hne; [congruence |].
  destruct rest as [| g rest]; [simpl; now rewrite orb_false_r |].
  change (chain "|" (f :: g :: rest)) with (Binary "|" f (chain "|" (g :: rest))).
  cbn [truth]. rewrite IH by discriminate. reflexivity.
Qed.

Lemma literal_wf (var : string) (val : bool) :
  is_variable var = Ok true -> wf (literal (var, val)) = true.
Proof.
  intros Hv. destruct val; simpl; now rewrite Hv.
Qed.

Lemma literal_truth (var : string) (val b : bool) (model : Model) :
  is_variable var = Ok true -> dict_get model var = Some b ->
  truth (literal (var, val)) model = Bool.eqb b val.
Proof.
  intros Hv Hg.
  destruct val; simpl; rewrite (is_variable_not_constant var Hv), Hg;
    now destruct b.
Qed.

Section ModelsOver.

Variable variables : list string.
Hypothesis variables_distinct : NoDup variables.
Hypothesis variables_named :
  forall v, In v variables -> is_variable v = Ok true.

Lemma is_model_over (m : Model) :
  dict_keys m = variables -> is_model m = Ok true.
Proof.
  intros Hk. unfold is_model. rewrite Hk.
  now apply is_model_keys_true.
Qed.

Lemma clause_wf (m : Model) :
  m <> [] -> dict_keys m = variables -> wf (clause m) = true.
Proof.
  intros Hne Hk. apply chain_wf; [reflexivity | now destruct m |].
  intros f Hf. apply in_map_iff in Hf. destruct Hf as [[var val] [<- Hin]].
  apply literal_wf, variables_named. rewrite <- Hk.
  apply (in_map fst) in Hin. exact Hin.
Qed.

Lemma clause_covered (m : Model) :
  m <> [] -> dict_keys m = variables -> covered (clause m) variables.
Proof.
  intros Hne Hk. apply chain_covered; [now destruct m |].
  intros f Hf. apply in_map_iff in Hf. destruct Hf as [[var val] [<- Hin]].
  assert (In var variables)
    by (rewrite <- Hk; apply (in_map fst) in Hin; exact Hin).
  destruct val; simpl; now right.
Qed.

Lemma clause_truth (m m' : Model) :
  m <> [] -> dict_keys m = variables -> dict_keys m' = variables ->
  truth (clause m) m' = agree m m'.
Proof.
  intros Hne Hk Hk'. unfold clause.
  rewrite chain_and_truth by now destruct m.
  unfold agree. rewrite forallb_map_comp. apply forallb_ext_on.
  intros [var val] Hin. simpl fst. simpl snd.
  assert (Hv : In var variables)
    by (rewrite <- Hk; apply (in_map fst) in Hin; exact Hin).
  destruct (dict_get m' var) as [b |] eqn:Hg.
  - now apply literal_truth; [apply variables_named |].
  - apply dict_get_None_not_In in Hg. rewrite Hk' in Hg. contradiction.
Qed.

Lemma synthesize_for_model_clause (m : Model) :
  m <> [] -> dict_keys m = variables ->
  synthesize_for_model m = Ok (clause m).
Proof.
  intros Hne Hk. unfold synthesize_for_model.
  rewrite (is_model_over m Hk). simpl.
  unfold clause, literal. apply create_dnf_chain. now destruct m.
Qed.

End ModelsOver.

Lemma agree_cons_other (k : string) (v : bool) (m m' : Model) :
  ~ In k (dict_keys m) -> agree m ((k, v) :: m') = agree m m'.
Proof.
  intros Hk. unfold agree. apply forallb_ext_on. intros [k1 v1] Hin.
  simpl. destruct (String.eqb_spec k k1) as [-> | Hne]; [| reflexivity].
  exfalso. apply Hk. apply (in_map fst) in Hin. exact Hin.
Qed.

Lemma agree_iff_eq (keys : list string) :
  NoDup keys ->
  forall m m' : Model,
    dict_keys m = keys -> dict_keys m' = keys ->
    (agree m m' = true <-> m = m').
Proof.
  induction 1 as [| k keys Hnotin Hnd IH]; intros m m' Hm Hm'.
  - destruct m; [| discriminate]. destruct m'; [| discriminate].
    split; reflexivity.
  - destruct m as [| [k1 v1] m]; [discriminate |].
    destruct m' as [| [k2 v2] m']; [discriminate |].
    simpl in Hm, Hm'. injection Hm as -> Hm. injection Hm' as -> Hm'.
    change (agree ((k, v1) :: m) ((k, v2) :: m'))
      with ((match dict_get ((k, v2) :: m') k with
             | Some b => Bool.eqb b v1 | None => false end)
            && agree m ((k, v2) :: m')).
    simpl dict_get. rewrite String.eqb_refl.
    rewrite agree_cons_other by (unfold dict_keys in *; now rewrite Hm).
    rewrite andb_true_iff, (IH m m' Hm Hm'), Bool.eqb_true_iff.
    split; [intros [-> ->]; reflexivity | intros H; injection H; auto].
Qed.

Lemma bits_inj (n : nat) :
  forall i j, (i < 2 ^ n)%nat -> (j < 2 ^ n)%nat ->
              bits n i = bits n j -> i = j.
Proof.
  induction n as [| n IH]; intros i j Hi Hj Heq.
  - simpl in *. lia.
  - simpl in Heq. apply app_inj_tail in Heq. destruct Heq as [Heq Hodd].
    apply IH in Heq; try now apply div2_lt_pow2.
    rewrite (Nat.div2_odd i), (Nat.div2_odd j), Heq, Hodd. reflexivity.
Qed.

Lemma product_NoDup (n : nat) : NoDup (product [false; true] n).
Proof.
  apply NoDup_nth_error. intros i j Hi Heq.
  rewrite product_length in Hi. simpl List.length in Hi.
  rewrite (product_nth n i Hi) in Heq.
  assert (Hj : (j < 2 ^ n)%nat).
  { assert (nth_error (product [false; true] n) j <> None) by congruence.
    apply nth_error_Some in H. now rewrite product_length in H. }
  rewrite (product_nth n j Hj) in Heq. injection Heq as Heq.
  now apply (bits_inj n).
Qed.

Lemma combine_inj (keys : list string) :
  forall vals vals' : list bool,
    List.length vals = List.length keys ->
    List.length vals' = List.length keys ->
    combine keys vals = combine keys vals' -> vals = vals'.
Proof.
  induction keys as [| k keys IH]; intros [| v vals] [| v' vals'] H H' Heq;
    simpl in *; try discriminate; try reflexivity.
  injection Heq as -> Heq. f_equal. apply IH; auto.
Qed.

Lemma models_NoDup (keys : list string) :
  NoDup (map (combine keys) (product [false; true] (List.length keys))).
Proof.
  apply NoDup_nth_error. intros i j Hi Heq.
  rewrite length_map in Hi.
  pose proof (proj1 (NoDup_nth_error _) (product_NoDup (List.length keys))) as Hp.
  apply Hp; [assumption |].
  rewrite !nth_error_map in Heq.
  destruct (nth_error (product [false; true] (List.length keys)) i) as [x |] eqn:Hx;
    [| apply nth_error_None in Hx; lia].
  destruct (nth_error (product [false; true] (List.length keys)) j) as [y |] eqn:Hy;
    [| discriminate].
  simpl in Heq. injection Heq as Heq. f_equal.
  apply (combine_inj keys); try assumption.
  - apply nth_error_In in Hx. now apply product_elem_length in Hx.
  - apply nth_error_In in Hy. now apply product_elem_length in Hy.
Qed.

Lemma select_In {A : Type} (options : list A) :
  forall values x, In x (select options values) -> In x options.
Proof.
  induction options as [| o options IH]; intros [| v values] x Hx;
    simpl in *; try contradiction.
  destruct v; [destruct Hx as [-> | Hx]; [now left | right; eauto] | right; eauto].
Qed.

(** The loop of [synthesize]: the forms collected are the clauses of the
    models at the positions of the true values. *)
Lemma synthesize_loop_select (g : Model -> Formula) :
  forall (values : list bool) (options pre : list Model)
         (forms : list Formula) (flag : bool),
    List.length values = List.length options ->
    (forall o, In o options -> synthesize_for_model o = Ok (g o)) ->
    synthesize_loop (pre ++ options) values (len pre) forms flag
    = Ok ((forms ++ map g (select options values))%list,
          flag && forallb negb values).
Proof.
  induction values as [| val values IH]; intros options pre forms flag Hlen Hg.
  - destruct options; [| discriminate]. simpl.
    now rewrite app_nil_r, andb_true_r.
  - destruct options as [| o options]; [discriminate |].
    assert (Hnext : (len pre + 1)%Z = len (pre ++ [o])) by
        (unfold len; rewrite length_app; simpl; lia).
    assert (Happ : (pre ++ o :: options)%list = ((pre ++ [o]) ++ options)%list)
      by now rewrite <- app_assoc.
    simpl. destruct val.
    + rewrite getitem_app_len. simpl. rewrite (Hg o (or_introl eq_refl)). simpl.
      rewrite Hnext, Happ, IH.
      * rewrite <- app_assoc. simpl. now rewrite andb_false_r.
      * simpl in Hlen. lia.
      * intros o' Ho'. apply Hg. now right.
    + rewrite Hnext, Happ, IH.
      * reflexivity.
      * simpl in Hlen. lia.
      * intros o' Ho'. apply Hg. now right.
Qed.

(** Among distinct options, the option at a position is selected iff the
    value at that position is true. *)
Lemma select_membership {A : Type} (R : A -> A -> bool) (options : list A) :
  NoDup options ->
  (forall x y, In x options -> In y options -> (R x y = true <-> x = y)) ->
  forall values,
    List.length values = List.length options ->
    map (fun y => existsb (fun x => R x y) (select options values)) options
    = values.
Proof.
  intros Hnd HR.
  assert (Hgen : forall opts values,
             List.length values = List.length opts ->
             NoDup opts -> incl opts options ->
             map (fun y => existsb (fun x => R x y) (select opts values)) opts
             = values).
  { induction opts as [| o opts IH]; intros [| v values] Hlen Hnd' Hincl;
      simpl in *; try discriminate; try reflexivity.
    inversion Hnd' as [| ? ? Hnotin Hnd'']; subst.
    assert (Ho : In o options) by (apply Hincl; now left).
    assert (Hopts : incl opts options) by (intros z Hz; apply Hincl; now right).
    assert (Hout : forall vs, existsb (fun x => R x o) (select opts vs) = false).
    { intros vs. apply not_true_is_false. intros Hex.
      apply existsb_exists in Hex. destruct Hex as [x [Hx Hxo]].
      apply select_In in Hx.
      apply (HR x o (Hopts x Hx) Ho) in Hxo. subst. contradiction. }
    f_equal.
    - destruct v; simpl; [| apply Hout].
      now rewrite (proj2 (HR o o Ho Ho) eq_refl).
    - transitivity
        (map (fun y => existsb (fun x => R x y) (select opts values)) opts);
        [| apply IH; try assumption; lia].
      apply map_ext_in. intros y Hy. destruct v; [| reflexivity].
      simpl. destruct (R o y) eqn:Hoy; [| reflexivity].
      apply (HR o y Ho (Hopts y Hy)) in Hoy. subst. contradiction. }
  intros values Hlen. apply Hgen; [assumption | assumption | apply incl_refl].
Qed.

Lemma existsb_map_comp {A B : Type} (p : B -> bool) (g : A -> B) (l : list A) :
  existsb p (map g l) = existsb (fun x => p (g x)) l.
Proof.
  induction l as [| x l IH]; simpl; [reflexivity | now rewrite IH].
Qed.

Lemma existsb_ext_on {A : Type} (p q : A -> bool) (l : list A) :
  (forall x, In x l -> p x = q x) -> existsb p l = existsb q l.
Proof.
  induction l as [| x l IH]; simpl; intros H; [reflexivity |].
  rewrite (H x (or_introl eq_refl)), IH; [reflexivity |].
  intros y Hy. apply H. now right.
Qed.

Lemma select_nonempty {A : Type} (options : list A) :
  forall values,
    List.length values = List.length options ->
    forallb negb values = false -> select options values <> [].
Proof.
  induction options as [| o options IH]; intros [| v values] Hlen Hv;
    simpl in *; try discriminate.
  destruct v; [discriminate |]. apply IH; [lia | exact Hv].
Qed.

Lemma all_false_values (values : list bool) :
  forallb negb values = true -> values = map (fun _ => false) values.
Proof.
  induction values as [| v values IH]; simpl; intros H; [reflexivity |].
  apply andb_true_iff in H. destruct H as [Hv H].
  destruct v; [discriminate |]. now rewrite <- IH.
Qed.

Lemma map_const_length {A B C : Type} (c : C) (l : list A) (l' : list B) :
  List.length l = List.length l' ->
  map (fun _ => c) l = map (fun _ => c) l'.
Proof.
  revert l'. induction l as [| x l IH]; intros [| y l'] H; simpl in *;
    try discriminate; [reflexivity |].
  f_equal. apply IH. lia.
Qed.

(** C7, as amended: for a non-empty list of distinct variable names and
    [2^n] values, given in the order of [all_models], the formula that
    [synthesize] returns has exactly these truth values on the models of
    [all_models]; when no value is true it is [(x&~x)] for the first
    variable [x]. *)
Theorem synthesize_truth_values :
  forall (variables : list string) (values : list bool),
    variables <> [] ->
    NoDup variables ->
    (forall v, In v variables -> is_variable v = Ok true) ->
    List.length values = 2 ^ List.length variables ->
    exists f models,
      synthesize variables values = Ok f /\
      all_models variables = Ok models /\
      truth_values f models = Ok values /\
      (forallb negb values = true ->
       forall x, nth_error variables 0 = Some x ->
                 f = Binary "&" (Leaf x) (Unary "~" (Leaf x))).
Proof.
  intros variables values Hne Hnd Hvar Hlen.
  set (models := map (combine variables)
                     (product [false; true] (List.length variables))).
  assert (Hmodels : all_models variables = Ok models) by now apply all_models_eq.
  assert (Hkeys : forall m, In m models -> dict_keys m = variables).
  { intros m Hm. apply in_map_iff in Hm. destruct Hm as [bs [<- Hbs]].
    apply dict_keys_combine. now apply product_elem_length in Hbs. }
  assert (Hnonempty : forall m, In m models -> m <> []).
  { intros m Hm ->. apply Hkeys in Hm. simpl in Hm. congruence. }
  assert (Hmlen : List.length values = List.length models).
  { unfold models. now rewrite length_map, product_length. }
  assert (Hloop : synthesize_loop models values 0%Z [] true
                  = Ok (map clause (select models values), forallb negb values)).
  { apply (synthesize_loop_select clause values models [] [] true Hmlen).
    intros o Ho. apply (synthesize_for_model_clause variables); auto. }
  assert (Hpos : (0 <? len variables)%Z = true).
  { apply Z.ltb_lt. unfold len. destruct variables; [congruence | simpl; lia]. }
  assert (Heval : forall f, wf f = true -> covered f variables ->
                            truth_values f models
                            = Ok (map (truth f) models)).
  { intros f Hwf Hcov. apply map_result_ext. intros m Hm.
    apply evaluate_truth; [| assumption | now rewrite (Hkeys m Hm)].
    apply (is_model_over variables); auto. }
  unfold synthesize. rewrite Hpos, Hmodels. simpl. rewrite Hloop. simpl.
  destruct (forallb negb values) eqn:Hall.
  - destruct variables as [| x rest]; [congruence |].
    exists (Binary "&" (Leaf x) (Unary "~" (Leaf x))), models.
    split; [reflexivity | split; [reflexivity | split]].
    + assert (Hx : is_variable x = Ok true) by (apply Hvar; now left).
      rewrite Heval.
      * f_equal. rewrite (all_false_values values Hall).
        rewrite (map_const_length false values models Hmlen).
        apply map_ext. intros m. simpl. unfold binary_truth. simpl.
        apply andb_negb_r.
      * simpl. now rewrite Hx.
      * simpl. rewrite (is_variable_not_constant x Hx). split; right; now left.
    + intros _ y Hy. simpl in Hy. now injection Hy as ->.
  - assert (Hsel : select models values <> [])
      by now apply select_nonempty.
    assert (Hforms : map clause (select models values) <> []).
    { intros H. apply map_eq_nil in H. contradiction. }
    rewrite (create_cnf_chain _ Hforms).
    exists (chain "|" (map clause (select models values))), models.
    split; [reflexivity | split; [reflexivity | split; [| discriminate]]].
    rewrite Heval.
    + f_equal.
      rewrite <- (select_membership agree models (models_NoDup variables))
        with (values := values) at 2; try assumption.
      * apply map_ext_in. intros m' Hm'.
        rewrite chain_or_truth, existsb_map_comp by assumption.
        apply existsb_ext_on. intros m Hm. apply select_In in Hm.
        apply (clause_truth variables); auto.
      * intros x y Hx Hy. apply (agree_iff_eq variables); auto.
    + apply chain_wf; [reflexivity | assumption |].
      intros f Hf. apply in_map_iff in Hf. destruct Hf as [m [<- Hm]].
      apply select_In in Hm. apply (clause_wf variables); auto.
    + apply chain_covered; [assumption |].
      intros f Hf. apply in_map_iff in Hf. destruct Hf as [m [<- Hm]].
      apply select_In in Hm. apply (clause_covered variables); auto.
Qed.

Lemma synthesize_truth_values_witness :
  exists f models,
    synthesize ["p"; "q"] [true; true; true; false] = Ok f /\
    all_models ["p"; "q"] = Ok models /\
    truth_values f models = Ok [true; true; true; false].
Proof.
  assert (Hne : ["p"; "q"] <> []) by discriminate.
  assert (Hnd : NoDup ["p"; "q"]).
  { repeat constructor; simpl; intuition discriminate. }
  assert (Hvar : forall v, In v ["p"; "q"] -> is_variable v = Ok true).
  { intros v [<- | [<- | []]]; reflexivity. }
  destruct (synthesize_truth_values ["p"; "q"] [true; true; true; false]
              Hne Hnd Hvar eq_refl) as [f [models [Hf [Hm [Ht _]]]]].
  exists f, models. repeat split; assumption.
Defined.

(** C7, as stated, fails when a variable is listed twice: for [['p', 'p']]
    and the values [[True, False, False, False]] the synthesized formula is
    [~p], whose truth values on [all_models(['p', 'p'])] are
    [[True, False, True, False]]. *)
Lemma synthesize_repeated_variable :
  exists f models,
    synthesize ["p"; "p"] [true; false; false; false] = Ok f /\
    all_models ["p"; "p"] = Ok models /\
    List.length [true; false; false; false] = 2 ^ List.length ["p"; "p"] /\
    truth_values f models = Ok [true; false; true; false] /\
    truth_values f models <> Ok [true; false; false; false].
Proof.
  exists (Unary "~" (Leaf "p")),
         [[("p", false)]; [("p", true)]; [("p", false)]; [("p", true)]].
  repeat split; discriminate.
Qed.

(** ** Inlining and assumption removal at concrete proofs *)

(** C6 at a concrete input.  [Examples.main_proof] and
    [Examples.lemma_proof] are valid and the lemma proves a rule the main
    proof allows; the only line of the main proof cites another rule, but the
    rule built from it is a specialization of the statement of the lemma, so
    [inline_proof] passes it to [inline_proof_once], whose first assertion
    ([main_proof.lines[line_number].rule == lemma_proof.statement]) fails:
    no proof is returned. *)
Theorem inline_proof_other_rule_raises :
  is_valid Examples.main_proof = Ok true /\
  is_valid Examples.lemma_proof = Ok true /\
  InferenceRule_in (statement Examples.lemma_proof)
                   (rules Examples.main_proof) = true /\
  existsb (fun line => match line with
                       | RuleLine _ rule _ =>
                           InferenceRule_eq rule (statement Examples.lemma_proof)
                       | AssumptionLine _ => false
                       end) (lines Examples.main_proof) = false /\
  inline_proof Examples.main_proof Examples.lemma_proof = Raise AssertionError.
Proof.
  repeat split; reflexivity.
Qed.

(** C5 at a concrete input.  For the valid one-line proof of
    [['p', 'p'] ==> 'p'] the assumptions but the last are [['p']], and
    [remove_assumption] returns a valid proof whose statement is
    [[] ==> '(p->p)']: every assumption equal to the last one is dropped. *)
Theorem remove_assumption_drops_equal_assumptions :
  is_valid Examples.repeated_assumption_proof = Ok true /\
  all_but_last (assumptions (statement Examples.repeated_assumption_proof))
  = [Leaf "p"] /\
  exists returned,
    remove_assumption Examples.repeated_assumption_proof = Ok returned /\
    is_valid returned = Ok true /\
    statement returned
    = mkInferenceRule [] (implies (Leaf "p") (Leaf "p")) /\
    InferenceRule_eq (statement returned)
      (mkInferenceRule [Leaf "p"] (implies (Leaf "p") (Leaf "p"))) = false.
Proof.
  split; [reflexivity | split; [reflexivity |]].
  eexists. split; [reflexivity |]. repeat split; reflexivity.
Qed.

(** ** First-order substitution at concrete inputs *)

(** C4 at concrete inputs.  Substituting [plus(d,y)] for [c] in [Ay[x=c]]
    raises [ForbiddenVariableError('y')], as the claim says.  Substituting
    [f(g(d,y))] for [c] in the same formula raises nothing and returns
    [Ay[x=f(g(d,y))]], where [y] has become bound; and substituting
    [f(g(d,y))] for [c] in the term [c] with [y] forbidden raises nothing
    either: [__check_all] looks, below each argument of the substituted term,
    at the leaf reached through first arguments only. *)
Theorem substitute_misses_nested_variable :
  Predicates.substitute Examples.forall_y_x_eq_c
    [("c", Examples.plus_d_y)] []
  = Raise (ForbiddenVariableError "y") /\
  Predicates.substitute Examples.forall_y_x_eq_c
    [("c", Examples.f_g_d_y)] []
  = Ok (Predicates.Quantifier "A" "y"
          (Predicates.Relation "=" [Predicates.TLeaf "x"; Examples.f_g_d_y])) /\
  Predicates.Term_substitute (Predicates.TLeaf "c")
    [("c", Examples.f_g_d_y)] ["y"]
  = Ok Examples.f_g_d_y /\
  Predicates.Term_variables Examples.f_g_d_y = Ok ["y"].
Proof.
  repeat split; reflexivity.
Qed.

(** Substituting [y] for [c] in [Ax[(Ay[R(y)]&R(c))]] raises
    [ForbiddenVariableError('y')] although the occurrence of [c] is not in
    the scope of [Ay]: every variable bound anywhere below a quantifier is
    forbidden in its whole body. *)
Lemma substitute_forbids_all_bound_variables :
  Predicates.substitute Examples.nested_quantifiers
    [("c", Predicates.TLeaf "y")] []
  = Raise (ForbiddenVariableError "y").
Proof.
  reflexivity.
Qed.

(** ** The propositional skeleton *)

Lemma dict_get_app_Some {V : Type} (d ext : dict V) (k : string) (v : V) :
  dict_get d k = Some v -> dict_get (d ++ ext) k = Some v.
Proof.
  induction d as [| [k' v'] d IH]; simpl; [discriminate |].
  destruct (String.eqb k' k); auto.
Qed.

Lemma dict_get_In_NoDup {V : Type} (d : dict V) (k : string) (v : V) :
  NoDup (dict_keys d) -> In (k, v) d -> dict_get d k = Some v.
Proof.
  induction d as [| [k' v'] d IH]; simpl; intros Hnd Hin; [contradiction |].
  inversion Hnd as [| ? ? Hnotin Hnd']; subst.
  destruct Hin as [Heq | Hin].
  - injection Heq as -> ->. now rewrite String.eqb_refl.
  - destruct (String.eqb_spec k' k) as [-> | Hne]; [| now apply IH].
    exfalso. apply Hnotin. apply (in_map fst) in Hin. exact Hin.
Qed.

Lemma find_key_Some (dic : dict Predicates.Formula) (f : Predicates.Formula)
      (key : string) :
  Predicates.find_key dic f = Some key ->
  exists v, In (key, v) dic /\ Predicates.Formula_eq v f = true.
Proof.
  induction dic as [| [k v] dic IH]; simpl; [discriminate |].
  destruct (Predicates.Formula_eq v f) eqn:Heq.
  - intros H. injection H as ->. exists v. auto.
  - intros H. destruct (IH H) as [w [Hin Hw]]. exists w. auto.
Qed.

Lemma find_key_None (dic : dict Predicates.Formula) (f : Predicates.Formula) :
  Predicates.find_key dic f = None ->
  forall k v, In (k, v) dic -> Predicates.Formula_eq v f = false.
Proof.
  induction dic as [| [k' v'] dic IH]; simpl; intros H k v Hin; [contradiction |].
  destruct (Predicates.Formula_eq v' f) eqn:Heq; [discriminate |].
  destruct Hin as [Hin | Hin]; [injection Hin as -> ->; assumption | eauto].
Qed.

Lemma Reuse_unique (dic : dict Predicates.Formula) :
  Reuse dic ->
  forall k1 v1 k2 v2,
    In (k1, v1) dic -> In (k2, v2) dic ->
    Predicates.Formula_eq v1 v2 = true -> k1 = k2.
Proof.
  induction 1 as [| dic k v Hr IH Hnone Hat]; intros k1 v1 k2 v2 H1 H2 Heq;
    [contradiction |].
  apply in_app_or in H1. apply in_app_or in H2.
  unfold Predicates.Formula_eq in Heq. apply String.eqb_eq in Heq.
  destruct H1 as [H1 | [H1 | []]]; destruct H2 as [H2 | [H2 | []]].
  - apply (IH k1 v1 k2 v2 H1 H2). unfold Predicates.Formula_eq.
    now apply String.eqb_eq.
  - injection H2 as <- <-.
    pose proof (find_key_None dic v Hnone k1 v1 H1) as Hf.
    unfold Predicates.Formula_eq in Hf. rewrite Heq, String.eqb_refl in Hf.
    discriminate.
  - injection H1 as <- <-.
    pose proof (find_key_None dic v Hnone k2 v2 H2) as Hf.
    unfold Predicates.Formula_eq in Hf. rewrite Heq, String.eqb_refl in Hf.
    discriminate.
  - injection H1 as <- _. injection H2 as <- _. reflexivity.
Qed.

Lemma Reuse_atomic (dic : dict Predicates.Formula) :
  Reuse dic -> forall k v, In (k, v) dic -> atomic v = true.
Proof.
  induction 1 as [| dic k v Hr IH Hnone Hat]; intros k1 v1 H1; [contradiction |].
  apply in_app_or in H1. destruct H1 as [H1 | [H1 | []]]; [eauto |].
  now injection H1 as <- <-.
Qed.

Lemma first_order_is_binary_cases (r : string) :
  Predicates.is_binary r = true -> r = "&" \/ r = "|" \/ r = "->".
Proof.
  unfold Predicates.is_binary. rewrite !orb_true_iff, !String.eqb_eq. tauto.
Qed.

Lemma from_skeleton_app (sk : Propositions.Formula)
      (dic ext : dict Predicates.Formula) (o : option Predicates.Formula) :
  Predicates.from_propositional_skeleton_rec sk dic = Ok o ->
  Predicates.from_propositional_skeleton_rec sk (dic ++ ext) = Ok o.
Proof.
  revert o. induction sk as [r | r a IHa | r a IHa b IHb]; intros o;
    cbn [Predicates.from_propositional_skeleton_rec Propositions.root];
    destruct (Predicates.is_variable r) as [[|] |]; cbn [Py.bind];
    try discriminate;
    try (unfold dict_getitem; destruct (dict_get dic r) eqn:Hg;
         [| discriminate];
         now rewrite (dict_get_app_Some dic ext r _ Hg)).
  - auto.
  - destruct (Predicates.is_binary r); [discriminate |].
    destruct (Predicates.is_unary r); [| auto].
    destruct (Predicates.from_propositional_skeleton_rec a dic) as [a' |] eqn:Ha;
      [| discriminate].
    rewrite (IHa a' eq_refl). auto.
  - destruct (Predicates.is_binary r).
    + destruct (Predicates.from_propositional_skeleton_rec a dic) as [a' |] eqn:Ha;
        [| discriminate].
      rewrite (IHa a' eq_refl). cbn [Py.bind].
      destruct (Predicates.from_propositional_skeleton_rec b dic) as [b' |] eqn:Hb;
        [| discriminate].
      rewrite (IHb b' eq_refl). auto.
    + destruct (Predicates.is_unary r); [discriminate | auto].
Qed.

(** On a skeleton whose atom is not a variable name of the first-order
    code, [from_propositional_skeleton] returns [None]; below an operator
    it raises [AssertionError]. *)
Lemma from_propositional_skeleton_foreign_atom :
  Predicates.from_propositional_skeleton (Propositions.Leaf "p") [] = Ok None /\
  Predicates.from_propositional_skeleton
    (Propositions.Unary "~" (Propositions.Leaf "p")) []
  = Raise AssertionError /\
  Predicates.from_propositional_skeleton
    (Propositions.Binary "+" (Propositions.Leaf "x") (Propositions.Leaf "y"))
    [("x", Predicates.Relation "R" []); ("y", Predicates.Relation "Q" [])]
  = Ok None.
Proof.
  repeat split; reflexivity.
Qed.

Section SkeletonCorrect.

Variable name : nat -> string.
Hypothesis name_injective : forall i j, name i = name j -> i = j.
Hypothesis name_propositional :
  forall n, Propositions.is_variable (name n) = Ok true.
Hypothesis name_first_order :
  forall n, Predicates.is_variable (name n) = Ok true.

(** The keys of the map are the names the generator yielded from state
    [g0] up to state [g], in this order. *)
Definition keys_from (g0 : nat) (dic : dict Predicates.Formula) (g : nat)
  : Prop :=
  (g0 <= g)%nat /\ dict_keys dic = map name (seq g0 (g - g0)).

Lemma keys_from_NoDup (g0 g : nat) (dic : dict Predicates.Formula) :
  keys_from g0 dic g -> NoDup (dict_keys dic).
Proof.
  intros [_ ->]. apply NoDup_map_NoDup_ForallPairs; [| apply seq_NoDup].
  intros i j _ _. apply name_injective.
Qed.

Lemma keys_from_fresh (g0 g : nat) (dic : dict Predicates.Formula) :
  keys_from g0 dic g -> ~ In (name g) (dict_keys dic).
Proof.
  intros [Hle ->] Hin. apply in_map_iff in Hin. destruct Hin as [i [Hi Hin]].
  apply name_injective in Hi. subst. apply in_seq in Hin. lia.
Qed.

Lemma keys_from_snoc (g0 g : nat) (dic : dict Predicates.Formula)
      (f : Predicates.Formula) :
  keys_from g0 dic g -> keys_from g0 (dic ++ [(name g, f)]) (S g).
Proof.
  intros [Hle Hk]. split; [lia |].
  replace (S g - g0)%nat with (S (g - g0)) by lia.
  unfold dict_keys in *. rewrite map_app, Hk, seq_S, map_app.
  replace (g0 + (g - g0))%nat with g by lia. reflexivity.
Qed.

(** The atom case of [__helper_skeleton]. *)
Lemma helper_skeleton_atom (g0 : nat) (f : Predicates.Formula)
      (dic : dict Predicates.Formula) (g : nat) :
  atomic f = true ->
  keys_from g0 dic g -> Reuse dic ->
  exists key ext g',
    (match Predicates.find_key dic f with
     | Some key => (key, dic, g)
     | None => (name g, dict_set dic (name g) f, S g)
     end) = (key, (dic ++ ext)%list, g') /\
    (g <= g')%nat /\
    keys_from g0 (dic ++ ext) g' /\ Reuse (dic ++ ext) /\
    Propositions.is_variable key = Ok true /\
    Predicates.is_variable key = Ok true /\
    set_add key (dict_keys dic) = dict_keys (dic ++ ext) /\
    exists f', dict_get (dic ++ ext) key = Some f' /\
               Predicates.Formula_eq f' f = true.
Proof.
  intros Hat Hk Hr.
  destruct (Predicates.find_key dic f) as [key |] eqn:Hfind.
  - exists key, [], g. rewrite app_nil_r.
    destruct (find_key_Some dic f key Hfind) as [v [Hin Hv]].
    assert (Hkey : exists i, key = name i).
    { destruct Hk as [_ Hk]. apply (in_map fst) in Hin. simpl in Hin.
      unfold dict_keys in Hk. rewrite Hk in Hin. apply in_map_iff in Hin.
      destruct Hin as [i [Hi _]]. now exists i. }
    destruct Hkey as [i ->].
    split; [reflexivity |]. split; [lia |]. split; [exact Hk |].
    split; [exact Hr |]. split; [apply name_propositional |].
    split; [apply name_first_order |].
    split.
    { unfold set_add.
      rewrite (proj2 (str_mem_In (name i) (dict_keys dic))); [reflexivity |].
      apply (in_map fst) in Hin. exact Hin. }
    exists v. split; [| assumption].
    apply dict_get_In_NoDup; [eapply keys_from_NoDup; eassumption | assumption].
  - exists (name g), [(name g, f)], (S g).
    rewrite (dict_set_fresh dic (name g) f (keys_from_fresh g0 g dic Hk)).
    pose proof (keys_from_snoc g0 g dic f Hk) as Hk'.
    split; [reflexivity |]. split; [lia |]. split; [exact Hk' |].
    split; [now constructor |]. split; [apply name_propositional |].
    split; [apply name_first_order |].
    split.
    { unfold set_add.
      destruct (str_mem (name g) (dict_keys dic)) eqn:Hmem.
      - apply str_mem_In in Hmem.
        now destruct (keys_from_fresh g0 g dic Hk).
      - unfold dict_keys. now rewrite map_app. }
    exists f. split.
    + apply dict_get_In_NoDup.
      * eapply keys_from_NoDup. exact Hk'.
      * apply in_or_app. right. now left.
    + unfold Predicates.Formula_eq. apply String.eqb_refl.
Qed.

Lemma find_variables_atom (key : string) (acc : list string) :
  Propositions.is_variable key = Ok true ->
  Propositions.find_variables (Propositions.Leaf key) acc = set_add key acc.
Proof.
  intros Hp. cbn [Propositions.find_variables].
  now rewrite (is_variable_not_constant key Hp), Hp.
Qed.

Lemma helper_skeleton_correct (g0 : nat) (f : Predicates.Formula) :
  Predicates.wf f = true ->
  forall (dic : dict Predicates.Formula) (g : nat),
    keys_from g0 dic g -> Reuse dic ->
    exists sk ext g',
      Predicates.helper_skeleton name f dic g = Ok (sk, (dic ++ ext)%list, g') /\
      (g <= g')%nat /\
      keys_from g0 (dic ++ ext) g' /\ Reuse (dic ++ ext) /\
      Propositions.find_variables sk (dict_keys dic) = dict_keys (dic ++ ext) /\
      exists f',
        Predicates.from_propositional_skeleton_rec sk (dic ++ ext)
        = Ok (Some f') /\
        Predicates.Formula_eq f' f = true.
Proof.
  induction f as [r args | r a IHa | r a IHa b IHb | r x a IHa];
    intros Hwf dic g Hk Hr.
  - (* a relation name or the equality *)
    destruct (helper_skeleton_atom g0 (Predicates.Relation r args) dic g
                eq_refl Hk Hr)
      as [key [ext [g' [Hm [Hle [Hk' [Hr' [Hp [Hfo [Hadd [f' [Hget Heq]]]]]]]]]]]].
    exists (Propositions.Leaf key), ext, g'.
    simpl in Hwf. destruct (Predicates.is_relation r) as [rel |] eqn:Hrel;
      [| discriminate].
    assert (Hatom : rel || Predicates.is_equality r
                    || Predicates.is_quantifier r = true).
    { destruct (Predicates.is_equality r); [now rewrite orb_true_r |].
      apply andb_true_iff in Hwf. destruct Hwf as [-> _]. reflexivity. }
    split.
    + simpl. rewrite Hrel. simpl. rewrite Hatom, Hm.
      unfold Propositions.Formula_init. rewrite Hp. reflexivity.
    + split; [exact Hle |]. split; [exact Hk' |]. split; [exact Hr' |].
      split; [now rewrite (find_variables_atom key _ Hp) |].
      exists f'. split; [| assumption].
      simpl. rewrite Hfo. simpl. unfold dict_getitem. now rewrite Hget.
  - (* a negation *)
    simpl in Hwf. apply andb_true_iff in Hwf. destruct Hwf as [Hu Ha].
    apply String.eqb_eq in Hu. subst r.
    destruct (IHa Ha dic g Hk Hr)
      as [ska [ext [g' [Hh [Hle [Hk' [Hr' [Hvars [a' [Hfrom Heq]]]]]]]]]].
    exists (Propositions.Unary "~" ska), ext, g'.
    split; [simpl; rewrite Hh; reflexivity |].
    split; [exact Hle |]. split; [exact Hk' |]. split; [exact Hr' |].
    split; [exact Hvars |].
    exists (Predicates.Unary "~" a'). split.
    + simpl. rewrite Hfrom. reflexivity.
    + unfold Predicates.Formula_eq in *. simpl.
      apply String.eqb_eq in Heq. now rewrite Heq, String.eqb_refl.
  - (* a binary operator *)
    simpl in Hwf. apply andb_true_iff in Hwf. destruct Hwf as [Hwf Hb].
    apply andb_true_iff in Hwf. destruct Hwf as [Hbin Ha].
    destruct (IHa Ha dic g Hk Hr)
      as [ska [ext1 [g1 [Hh1 [Hle1 [Hk1 [Hr1 [Hv1 [a' [Hfrom1 Heq1]]]]]]]]]].
    destruct (IHb Hb (dic ++ ext1)%list g1 Hk1 Hr1)
      as [skb [ext2 [g2 [Hh2 [Hle2 [Hk2 [Hr2 [Hv2 [b' [Hfrom2 Heq2]]]]]]]]]].
    exists (Propositions.Binary r ska skb), (ext1 ++ ext2)%list, g2.
    rewrite app_assoc.
    split.
    + destruct (first_order_is_binary_cases r Hbin) as [-> | [-> | ->]];
        simpl; rewrite Hh1; simpl; rewrite Hh2; reflexivity.
    + split; [lia |]. split; [exact Hk2 |]. split; [exact Hr2 |].
      split; [cbn [Propositions.find_variables]; now rewrite Hv1, Hv2 |].
      exists (Predicates.Binary r a' b'). split.
      * apply (from_skeleton_app ska _ ext2) in Hfrom1.
        destruct (first_order_is_binary_cases r Hbin) as [-> | [-> | ->]];
          simpl; rewrite Hfrom1; simpl; rewrite Hfrom2; reflexivity.
      * unfold Predicates.Formula_eq in *. simpl.
        apply String.eqb_eq in Heq1. apply String.eqb_eq in Heq2.
        now rewrite Heq1, Heq2, String.eqb_refl.
  - (* a quantification *)
    destruct (helper_skeleton_atom g0 (Predicates.Quantifier r x a) dic g
                eq_refl Hk Hr)
      as [key [ext [g' [Hm [Hle [Hk' [Hr' [Hp [Hfo [Hadd [f' [Hget Heq]]]]]]]]]]]].
    exists (Propositions.Leaf key), ext, g'.
    simpl in Hwf. apply andb_true_iff in Hwf. destruct Hwf as [Hwf _].
    apply andb_true_iff in Hwf. destruct Hwf as [Hq _].
    assert (Hrel : exists rel, Predicates.is_relation r = Ok rel).
    { unfold Predicates.is_quantifier in Hq. apply orb_true_iff in Hq.
      destruct Hq as [Hq | Hq]; apply String.eqb_eq in Hq; subst;
        eexists; reflexivity. }
    destruct Hrel as [rel Hrel].
    split.
    + simpl. rewrite Hrel. simpl. rewrite Hq, orb_true_r, Hm.
      unfold Propositions.Formula_init. rewrite Hp. reflexivity.
    + split; [exact Hle |]. split; [exact Hk' |]. split; [exact Hr' |].
      split; [now rewrite (find_variables_atom key _ Hp) |].
      exists f'. split; [| assumption].
      simpl. rewrite Hfo. simpl. unfold dict_getitem. now rewrite Hget.
Qed.

Lemma assert_name_keys (g0 g : nat) (dic : dict Predicates.Formula) :
  keys_from g0 dic g -> Propositions.assert_variable_keys dic = Ok tt.
Proof.
  intros [_ Hk]. unfold Propositions.assert_variable_keys. rewrite Hk.
  generalize (seq g0 (g - g0)) as l.
  induction l as [| i l IH]; simpl; [reflexivity |].
  rewrite name_propositional. simpl. exact IH.
Qed.

(** C9: on a formula the constructor accepts, [propositional_skeleton]
    returns a skeleton and a map from which [from_propositional_skeleton]
    returns a formula equal to the given one.  The keys of the map are the
    names the generator yielded during the call, in the order it yielded
    them, and they are the atoms of the skeleton in the order in which they
    first occur in it from left to right: the names are assigned from left
    to right.  Every value of the map has a relation name, the equality or
    a quantifier at its root; and two keys with equal formulas are the same
    key, so equal subformulas are replaced by the same atom. *)
Theorem propositional_skeleton_round_trip :
  forall (f : Predicates.Formula) (generator : nat),
    Predicates.wf f = true ->
    exists skeleton substitution_map generator',
      Predicates.propositional_skeleton name f generator
      = Ok (skeleton, substitution_map, generator') /\
      (exists f',
          Predicates.from_propositional_skeleton skeleton substitution_map
          = Ok (Some f') /\
          Predicates.Formula_eq f' f = true) /\
      (generator <= generator')%nat /\
      dict_keys substitution_map
      = map name (seq generator (generator' - generator)) /\
      Propositions.variables skeleton = dict_keys substitution_map /\
      (forall k v, In (k, v) substitution_map -> atomic v = true) /\
      (forall k1 v1 k2 v2,
          In (k1, v1) substitution_map -> In (k2, v2) substitution_map ->
          Predicates.Formula_eq v1 v2 = true -> k1 = k2).
Proof.
  intros f g Hwf.
  assert (Hk0 : keys_from g [] g).
  { split; [lia |]. now rewrite Nat.sub_diag. }
  destruct (helper_skeleton_correct g f Hwf [] g Hk0 Reuse_nil)
    as [sk [ext [g' [Hh [Hle [Hk [Hr [Hvars [f' [Hfrom Heq]]]]]]]]]].
  simpl in *. exists sk, ext, g'.
  split; [exact Hh |].
  split; [| split; [exact Hle | split; [apply Hk | split; [exact Hvars | split]]]].
  - exists f'. split; [| exact Heq].
    unfold Predicates.from_propositional_skeleton.
    now rewrite (assert_name_keys g g' ext Hk).
  - apply (Reuse_atomic ext Hr).
  - apply (Reuse_unique ext Hr).
Qed.

End SkeletonCorrect.

(** The generator [z1], [z2], ... satisfies what the theorem asks of the
    names. *)
Lemma string_of_uint_digits (d : Decimal.uint) :
  all_chars is_digit_char (NilEmpty.string_of_uint d) = true.
Proof.
  induction d; simpl; auto.
Qed.

Lemma digits_alnum (s : string) :
  all_chars is_digit_char s = true -> all_chars is_alnum_char s = true.
Proof.
  induction s as [| c s IH]; simpl; [reflexivity |].
  intros H. apply andb_true_iff in H. destruct H as [Hc Hs].
  rewrite (IH Hs), andb_true_r. unfold is_alnum_char.
  unfold is_digit_char in Hc. now rewrite Hc.
Qed.

Lemma z_name_injective (i j : nat) :
  Examples.z_name i = Examples.z_name j -> i = j.
Proof.
  unfold Examples.z_name. intros H. injection H as H.
  apply (f_equal NilEmpty.uint_of_string) in H.
  rewrite !NilEmpty.usu in H. injection H as H.
  apply (f_equal Nat.of_uint) in H. rewrite !Unsigned.of_to in H.
  now injection H.
Qed.

Lemma z_name_propositional (n : nat) :
  Propositions.is_variable (Examples.z_name n) = Ok true.
Proof.
  unfold Examples.z_name, Propositions.is_variable.
  pose proof (string_of_uint_digits (Nat.to_uint (S n))) as Hd.
  change ("z" ++ NilEmpty.string_of_uint (Nat.to_uint (S n)))%string
    with (String "z" (NilEmpty.string_of_uint (Nat.to_uint (S n)))).
  destruct (NilEmpty.string_of_uint (Nat.to_uint (S n))) as [| c s];
    [reflexivity |].
  cbn [String.length isdigit]. rewrite Hd. reflexivity.
Qed.

Lemma z_name_first_order (n : nat) :
  Predicates.is_variable (Examples.z_name n) = Ok true.
Proof.
  unfold Examples.z_name, Predicates.is_variable.
  pose proof (digits_alnum _ (string_of_uint_digits (Nat.to_uint (S n)))) as Hd.
  change ("z" ++ NilEmpty.string_of_uint (Nat.to_uint (S n)))%string
    with (String "z" (NilEmpty.string_of_uint (Nat.to_uint (S n)))).
  cbn [isalnum all_chars]. rewrite Hd. reflexivity.
Qed.

Lemma propositional_skeleton_round_trip_witness :
  exists skeleton substitution_map generator' f',
    Predicates.propositional_skeleton Examples.z_name
      Examples.skeleton_example 0
    = Ok (skeleton, substitution_map, generator') /\
    Predicates.from_propositional_skeleton skeleton substitution_map
    = Ok (Some f') /\
    Predicates.Formula_eq f' Examples.skeleton_example = true /\
    dict_keys substitution_map = ["z1"%string; "z2"%string] /\
    Propositions.variables skeleton = ["z1"%string; "z2"%string].
Proof.
  destruct (propositional_skeleton_round_trip Examples.z_name
              z_name_injective z_name_propositional z_name_first_order
              Examples.skeleton_example 0 eq_refl)
    as [sk [m [g' [Hskel [[f' [Hfrom Heq]] [_ [_ [Hvars _]]]]]]]].
  exists sk, m, g', f'.
  split; [exact Hskel |]. split; [exact Hfrom |]. split; [exact Heq |].
  rewrite Hvars.
  vm_compute in Hskel. injection Hskel as _ <- _. split; reflexivity.
Defined.

(** ** The axiomatic system *)

Lemma Formula_eq_feq (a b : Formula) : Formula_eq a b = true <-> feq a b.
Proof.
  unfold Formula_eq, feq. apply String.eqb_eq.
Qed.

Lemma Formula_eq_refl (a : Formula) : Formula_eq a a = true.
Proof.
  apply Formula_eq_feq. reflexivity.
Qed.

Lemma Formulas_eq_refl (l : list Formula) : Formulas_eq l l = true.
Proof.
  induction l as [| f l IH]; simpl; [reflexivity |].
  now rewrite Formula_eq_refl, IH.
Qed.

Lemma InferenceRule_eq_refl (r : InferenceRule) : InferenceRule_eq r r = true.
Proof.
  unfold InferenceRule_eq. now rewrite Formulas_eq_refl, Formula_eq_refl.
Qed.

Lemma InferenceRule_in_In (r : InferenceRule) (rules : list InferenceRule) :
  In r rules -> InferenceRule_in r rules = true.
Proof.
  intros H. unfold InferenceRule_in. apply existsb_exists.
  exists r. split; [assumption | apply InferenceRule_eq_refl].
Qed.

Lemma axiomatic_allows (rules : list InferenceRule) (r : InferenceRule) :
  axiomatic rules -> In r AXIOMATIC_SYSTEM -> InferenceRule_in r rules = true.
Proof.
  intros Hax Hin. rewrite Hax. now apply InferenceRule_in_In.
Qed.

Lemma feq_implies (a a' b b' : Formula) :
  feq a a' -> feq b b' -> feq (implies a b) (implies a' b').
Proof.
  unfold feq. simpl. now intros -> ->.
Qed.

Lemma feq_negation (a a' : Formula) :
  feq a a' -> feq (negation a) (negation a').
Proof.
  unfold feq. simpl. now intros ->.
Qed.

(** Modus Ponens applies to [x] and [(u->v)] when [x] equals [u], and
    concludes any formula equal to [v]. *)
Lemma MP_instance (x u v f : Formula) :
  feq x u -> feq v f ->
  is_specialization_of (mkInferenceRule [x; Binary "->" u v] f) MP = Ok true.
Proof.
  intros Hx Hv. apply Formula_eq_feq in Hx. apply Formula_eq_feq in Hv.
  unfold is_specialization_of, specialization_map. cbn -[Formula_eq].
  rewrite Hx. cbn -[Formula_eq]. rewrite Hv. reflexivity.
Qed.

Lemma nth_error_getitem {A : Type} (l : list A) (i : nat) (a : A) :
  nth_error l i = Some a -> getitem l (Z.of_nat i) = Ok a.
Proof.
  intros H. now rewrite getitem_nat, H.
Qed.

(** A line that follows by the axiomatic system passes [is_line_valid]. *)
Lemma line_ok_valid (p : Proof) (n : nat) (l : Line) :
  axiomatic (rules p) ->
  nth_error (lines p) n = Some l ->
  line_ok (assumptions (statement p)) (lines p) n l ->
  is_line_valid p (Z.of_nat n) = Ok true.
Proof.
  intros Hax Hn Hok. rewrite (is_line_valid_at p n l Hn).
  destruct Hok as [f Hin | f rule Hrule Hspec | f i j li lj u v Hi Hj Hli Hlj Hf Hu Hv].
  - now rewrite Hin.
  - rewrite (axiomatic_allows _ _ Hax Hrule). simpl. exact Hspec.
  - assert (HMP : In MP AXIOMATIC_SYSTEM) by (now left).
    rewrite (axiomatic_allows _ _ Hax HMP). cbn [negb existsb].
    assert (Hi' : (Z.of_nat i >=? Z.of_nat n)%Z = false)
      by (rewrite Z.geb_leb; apply Z.leb_gt; lia).
    assert (Hj' : (Z.of_nat j >=? Z.of_nat n)%Z = false)
      by (rewrite Z.geb_leb; apply Z.leb_gt; lia).
    rewrite Hi', Hj'. cbn [orb map_result].
    rewrite (nth_error_getitem _ _ _ Hli), (nth_error_getitem _ _ _ Hlj).
    cbn [Py.bind]. rewrite Hf. now apply MP_instance.
Qed.

(** A proof by the axiomatic system passes [is_valid]. *)
Lemma proves_valid (assumed : list Formula) (goal : Formula) (p : Proof) :
  proves assumed goal p -> is_valid p = Ok true.
Proof.
  intros [Hst [Hax [Hder [prev [last [Hlines Hlast]]]]]].
  apply is_valid_true. split.
  - intros i Hi.
    destruct (nth_error (lines p) i) as [l |] eqn:Hl;
      [| apply nth_error_None in Hl; lia].
    apply (line_ok_valid p i l Hax Hl). rewrite Hst. simpl. now apply Hder.
  - exists last. rewrite Hlines, getitem_last. split; [reflexivity |].
    rewrite Hst. simpl. now apply Formula_eq_feq.
Qed.

Lemma Formula_eq_sym (a b : Formula) : Formula_eq a b = Formula_eq b a.
Proof.
  unfold Formula_eq. apply String.eqb_sym.
Qed.

Lemma Formulas_eq_map (l1 l2 : list Formula) :
  Formulas_eq l1 l2 = true <-> map repr l1 = map repr l2.
Proof.
  revert l2. induction l1 as [| f l1 IH]; intros [| g l2]; simpl;
    try (split; [discriminate | discriminate]); [tauto |].
  rewrite andb_true_iff, IH, Formula_eq_feq. unfold feq.
  split; [intros [-> ->]; reflexivity | intros H; injection H; auto].
Qed.

(** Two rules are equal, for the code, iff they print alike. *)
Definition rule_key (r : InferenceRule) : list string * string :=
  (map repr (assumptions r), repr (conclusion r)).

Lemma InferenceRule_eq_key (r1 r2 : InferenceRule) :
  InferenceRule_eq r1 r2 = true <-> rule_key r1 = rule_key r2.
Proof.
  unfold InferenceRule_eq, rule_key.
  rewrite andb_true_iff, Formulas_eq_map, Formula_eq_feq. unfold feq.
  split; [intros [-> ->]; reflexivity | intros H; injection H; auto].
Qed.

Lemma InferenceRule_in_key (r : InferenceRule) (rules : list InferenceRule) :
  InferenceRule_in r rules = true <-> In (rule_key r) (map rule_key rules).
Proof.
  unfold InferenceRule_in. rewrite existsb_exists, in_map_iff.
  split; intros [r' [H1 H2]]; exists r'.
  - apply InferenceRule_eq_key in H2. auto.
  - split; [tauto |]. apply InferenceRule_eq_key. tauto.
Qed.

Lemma bool_eq_iff (a b : bool) : (a = true <-> b = true) -> a = b.
Proof.
  destruct a, b; intuition congruence.
Qed.

Lemma InferenceRule_in_app (r : InferenceRule) (s t : list InferenceRule) :
  InferenceRule_in r (s ++ t) = InferenceRule_in r s || InferenceRule_in r t.
Proof.
  unfold InferenceRule_in. apply existsb_app.
Qed.

Lemma InferenceRule_in_union (r : InferenceRule) (s t : list InferenceRule) :
  InferenceRule_in r (rules_union s t)
  = InferenceRule_in r s || InferenceRule_in r t.
Proof.
  apply bool_eq_iff. unfold rules_union.
  rewrite InferenceRule_in_app, !orb_true_iff, !InferenceRule_in_key.
  split; intros [H | H]; auto.
  - right. apply in_map_iff in H. destruct H as [x [Hx Hin]].
    apply filter_In in Hin. apply in_map_iff. exists x. tauto.
  - destruct (InferenceRule_in r s) eqn:Hs.
    + left. now apply InferenceRule_in_key.
    + right. apply in_map_iff in H. destruct H as [x [Hx Hin]].
      apply in_map_iff. exists x. split; [assumption |].
      apply filter_In. split; [assumption |].
      apply negb_true_iff, not_true_is_false. intros Hxs.
      apply InferenceRule_in_key in Hxs. rewrite Hx in Hxs.
      apply InferenceRule_in_key in Hxs. congruence.
Qed.

Lemma axiomatic_extend (rules more : list InferenceRule) :
  axiomatic rules ->
  (forall r, In r more -> InferenceRule_in r AXIOMATIC_SYSTEM = true) ->
  axiomatic (rules ++ more) /\ axiomatic (rules_union rules more).
Proof.
  intros Hax Hmore.
  assert (H : forall r, InferenceRule_in r more = true ->
                        InferenceRule_in r AXIOMATIC_SYSTEM = true).
  { intros r Hr. apply InferenceRule_in_key in Hr.
    apply in_map_iff in Hr. destruct Hr as [x [Hx Hin]].
    specialize (Hmore x Hin). apply InferenceRule_in_key in Hmore.
    apply InferenceRule_in_key. now rewrite <- Hx. }
  split; intros r; [rewrite InferenceRule_in_app | rewrite InferenceRule_in_union];
    rewrite Hax; destruct (InferenceRule_in r more) eqn:Hr;
    try apply orb_false_r; rewrite (H r Hr); reflexivity.
Qed.

Lemma axiomatic_rules_eq (s t : list InferenceRule) :
  axiomatic s -> axiomatic t -> rules_eq s t = true.
Proof.
  intros Hs Ht. unfold rules_eq, rules_subset.
  apply andb_true_iff. split; apply forallb_forall; intros r Hr.
  - rewrite Ht, <- Hs. now apply InferenceRule_in_In.
  - rewrite Hs, <- Ht. now apply InferenceRule_in_In.
Qed.

(** ** Derivations *)

Lemma line_ok_app (assumed : list Formula) (lines more : list Line)
      (n : nat) (l : Line) :
  line_ok assumed lines n l -> line_ok assumed (lines ++ more) n l.
Proof.
  intros H.
  destruct H as [f Hin | f rule Hrule Hspec | f i j li lj u v Hi Hj Hli Hlj Hf Hu Hv].
  - now constructor.
  - now constructor.
  - apply (ok_modus_ponens _ _ _ f i j li lj u v); auto.
    + rewrite nth_error_app1; [assumption |].
      apply nth_error_Some. congruence.
    + rewrite nth_error_app1; [assumption |].
      apply nth_error_Some. congruence.
Qed.

Lemma derivation_nil (assumed : list Formula) : derivation assumed [].
Proof.
  intros n l H. destruct n; discriminate.
Qed.

Lemma derivation_snoc (assumed : list Formula) (prev : list Line) (l : Line) :
  derivation assumed prev ->
  line_ok assumed (prev ++ [l]) (List.length prev) l ->
  derivation assumed (prev ++ [l]).
Proof.
  intros Hd Hl n l' Hn.
  destruct (Nat.lt_ge_cases n (List.length prev)) as [Hlt | Hge].
  - rewrite nth_error_app1 in Hn by assumption.
    apply line_ok_app. now apply Hd.
  - rewrite nth_error_app2 in Hn by assumption.
    destruct (n - List.length prev)%nat as [| k] eqn:Hk.
    + simpl in Hn. injection Hn as <-.
      now replace n with (List.length prev) by lia.
    + simpl in Hn. destruct k; discriminate.
Qed.

Lemma derivation_prefix (assumed : list Formula) (prev more : list Line) :
  derivation assumed (prev ++ more) ->
  forall n l, nth_error prev n = Some l -> line_ok assumed (prev ++ more) n l.
Proof.
  intros Hd n l Hn. apply Hd. rewrite nth_error_app1; [assumption |].
  apply nth_error_Some. congruence.
Qed.

(** ** [prove_corollary] and [combine_proofs] *)

Lemma len_app_one {A : Type} (prev : list A) (x : A) :
  len (prev ++ [x]) = Z.of_nat (S (List.length prev)).
Proof.
  unfold len. rewrite length_app. simpl. f_equal. lia.
Qed.

Lemma nth_error_snoc {A : Type} (prev : list A) (x : A) :
  nth_error (prev ++ [x]) (List.length prev) = Some x.
Proof.
  rewrite nth_error_app2, Nat.sub_diag by lia. reflexivity.
Qed.

Lemma nth_error_at {A : Type} (pre post : list A) (x : A) (n : nat) :
  n = List.length pre -> nth_error (pre ++ x :: post) n = Some x.
Proof.
  intros ->. rewrite nth_error_app2, Nat.sub_diag by lia. reflexivity.
Qed.

Lemma nth_error_at1 {A : Type} (pre post : list A) (y x : A) (n : nat) :
  n = S (List.length pre) -> nth_error (pre ++ y :: x :: post) n = Some x.
Proof.
  intros ->. rewrite nth_error_app2 by lia.
  replace (S (List.length pre) - List.length pre)%nat with 1%nat by lia.
  reflexivity.
Qed.

Lemma nth_error_at2 {A : Type} (pre post : list A) (z y x : A) (n : nat) :
  n = S (S (List.length pre)) ->
  nth_error (pre ++ z :: y :: x :: post) n = Some x.
Proof.
  intros ->. rewrite nth_error_app2 by lia.
  replace (S (S (List.length pre)) - List.length pre)%nat with 2%nat by lia.
  reflexivity.
Qed.

(** [prove_corollary] on a proof of [A] by the axiomatic system, a formula
    [C] and a rule of the system whose instance is [(A->C)]. *)
Lemma prove_corollary_proves (assumed : list Formula) (A C : Formula)
      (p : Proof) (cond : InferenceRule) (r : string) (g1 g2 : Formula)
      (m : SpecializationMap) (sp : InferenceRule) :
  proves assumed A p ->
  In cond AXIOMATIC_SYSTEM ->
  conclusion cond = Binary r g1 g2 ->
  is_specialization_of (mkInferenceRule [] (implies A C)) cond = Ok true ->
  formula_specialization_map g2 C = Ok (Some m) ->
  specialize cond m = Ok sp ->
  conclusion sp = implies A C ->
  exists p', prove_corollary p C cond = Ok p' /\ proves assumed C p'.
Proof.
  intros Hp Hcond Hconcl Hspec Hmap Hsp Hspc.
  pose proof (proves_valid _ _ _ Hp) as Hvalid.
  destruct Hp as [Hst [Hax [Hder [prev [last [Hlines Hlast]]]]]].
  unfold prove_corollary. rewrite Hvalid. cbn [Py.bind assert].
  rewrite Hst. cbn [conclusion assumptions]. rewrite Hspec. cbn [Py.bind assert].
  rewrite Hconcl. cbn [second Py.bind]. rewrite Hmap. cbn [Py.bind specialize_opt].
  rewrite Hsp. cbn [Py.bind]. rewrite Hspc, Hlines.
  eexists. split; [reflexivity |].
  set (cond_line := RuleLine (implies A C) cond []).
  assert (Hd1 : derivation assumed ((prev ++ [last]) ++ [cond_line])).
  { apply derivation_snoc; [now rewrite <- Hlines |].
    now apply ok_axiom. }
  split; [reflexivity | split; [| split]].
  - cbn [rules]. apply axiomatic_extend; [assumption |].
    intros x [<- | [<- | []]]; apply InferenceRule_in_In; [now left | assumption].
  - cbn [lines]. apply derivation_snoc; [exact Hd1 |].
    rewrite len_app_one.
    replace (Z.of_nat (S (List.length prev)) - 1)%Z
      with (Z.of_nat (List.length prev)) by lia.
    rewrite !length_app. cbn [List.length].
    apply (ok_modus_ponens _ _ _ C (List.length prev) (S (List.length prev))
                           last cond_line A C); try lia.
    + rewrite <- !app_assoc. cbn [app]. now apply nth_error_at.
    + rewrite <- !app_assoc. cbn [app]. now apply nth_error_at1.
    + reflexivity.
    + exact Hlast.
    + reflexivity.
  - cbn [lines]. eexists. eexists. split; [reflexivity | reflexivity].
Qed.

Lemma nth_error_mapped_last {A : Type} (f : A -> A) (pre prev : list A)
      (x y z : A) (n : nat) :
  n = (List.length pre + List.length prev)%nat ->
  nth_error (((pre ++ map f (prev ++ [x])) ++ [y]) ++ [z]) n = Some (f x).
Proof.
  intros ->. rewrite map_app. cbn [map].
  replace (((pre ++ map f prev ++ [f x]) ++ [y]) ++ [z])
    with ((pre ++ map f prev) ++ f x :: [y; z])
    by (rewrite <- !app_assoc; reflexivity).
  apply nth_error_at. now rewrite length_app, length_map.
Qed.

Lemma derivation_shift (assumed : list Formula) (pre lines2 : list Line)
      (num : Z) :
  (num + 1)%Z = Z.of_nat (List.length pre) ->
  derivation assumed pre ->
  derivation assumed lines2 ->
  derivation assumed
    (pre ++ map (fun line =>
                   match line with
                   | RuleLine f rule idxs =>
                       RuleLine f rule (map (fun ass => (ass + num + 1)%Z) idxs)
                   | AssumptionLine _ => line
                   end) lines2).
Proof.
  intros Hnum Hpre H2.
  set (shift := fun line =>
                  match line with
                  | RuleLine f rule idxs =>
                      RuleLine f rule (map (fun ass => (ass + num + 1)%Z) idxs)
                  | AssumptionLine _ => line
                  end).
  assert (Hformula : forall l, formula (shift l) = formula l)
    by (intros [f | f rule idxs]; reflexivity).
  intros n l Hn.
  destruct (Nat.lt_ge_cases n (List.length pre)) as [Hlt | Hge].
  - rewrite nth_error_app1 in Hn by assumption.
    apply line_ok_app. now apply Hpre.
  - rewrite nth_error_app2 in Hn by assumption.
    rewrite nth_error_map in Hn.
    destruct (nth_error lines2 (n - List.length pre)) as [l2 |] eqn:Hl2;
      [| discriminate].
    simpl in Hn. injection Hn as <-.
    destruct (H2 _ _ Hl2)
      as [f Hin | f rule Hrule Hspec | f i j li lj u v Hi Hj Hli Hlj Hf Hu Hv].
    + now constructor.
    + now constructor.
    + cbn [shift map].
      replace (Z.of_nat i + num + 1)%Z with (Z.of_nat (i + List.length pre))
        by lia.
      replace (Z.of_nat j + num + 1)%Z with (Z.of_nat (j + List.length pre))
        by lia.
      apply (ok_modus_ponens _ _ _ f _ _ (shift li) (shift lj) u v); try lia.
      * rewrite nth_error_app2 by lia.
        replace (i + List.length pre - List.length pre)%nat with i by lia.
        now rewrite nth_error_map, Hli.
      * rewrite nth_error_app2 by lia.
        replace (j + List.length pre - List.length pre)%nat with j by lia.
        now rewrite nth_error_map, Hlj.
      * now rewrite Hformula.
      * now rewrite Hformula.
      * assumption.
Qed.

(** [combine_proofs] on proofs of [A] and of [B] by the axiomatic system, a
    formula [C] and a rule of the system whose instance is [(A->(B->C))]. *)
Lemma combine_proofs_proves (assumed : list Formula) (A B C : Formula)
      (p1 p2 : Proof) (dc : InferenceRule) (r0 r1 : string)
      (g1 g2 g3 : Formula) (m1 m2 m : option SpecializationMap)
      (sp : InferenceRule) :
  proves assumed A p1 ->
  proves assumed B p2 ->
  In dc AXIOMATIC_SYSTEM ->
  conclusion dc = Binary r0 g1 (Binary r1 g2 g3) ->
  is_specialization_of
    (mkInferenceRule [] (implies A (implies B C))) dc = Ok true ->
  formula_specialization_map g1 A = Ok m1 ->
  formula_specialization_map g3 C = Ok m2 ->
  merge_specialization_maps m1 m2 = Ok m ->
  specialize_opt dc m = Ok sp ->
  conclusion sp = implies A (implies B C) ->
  exists p', combine_proofs p1 p2 C dc = Ok p' /\ proves assumed C p'.
Proof.
  intros Hp1 Hp2 Hdc Hconcl Hspec Hm1 Hm2 Hm Hsp Hspc.
  pose proof (proves_valid _ _ _ Hp1) as Hvalid1.
  pose proof (proves_valid _ _ _ Hp2) as Hvalid2.
  destruct Hp1 as [Hst1 [Hax1 [Hder1 [prev1 [last1 [Hlines1 Hlast1]]]]]].
  destruct Hp2 as [Hst2 [Hax2 [Hder2 [prev2 [last2 [Hlines2 Hlast2]]]]]].
  unfold combine_proofs. rewrite Hvalid1, Hvalid2. cbn [Py.bind assert].
  rewrite Hst1, Hst2. cbn [conclusion assumptions].
  rewrite Formulas_eq_refl, (axiomatic_rules_eq _ _ Hax1 Hax2), Hspec.
  cbn [Py.bind assert].
  rewrite Hconcl. cbn [first second Py.bind].
  rewrite Hm1. cbn [Py.bind]. rewrite Hm2. cbn [Py.bind].
  rewrite Hm. cbn [Py.bind]. rewrite Hsp. cbn [Py.bind].
  rewrite Hspc. unfold implies. cbn [second Py.bind].
  eexists. split; [reflexivity |].
  set (dc_line := RuleLine (Binary "->" A (Binary "->" B C)) dc []).
  set (shift := fun line : Line => match line with
                   | RuleLine f rule idxs => _
                   | AssumptionLine _ => line
                   end).
  assert (Hformula : forall l, formula (shift l) = formula l)
    by (intros [f | f rule idxs]; reflexivity).
  assert (Hnum : len (lines p1 ++ [dc_line]) = Z.of_nat (S (List.length (lines p1))))
    by apply len_app_one.
  assert (Hd1 : derivation assumed (lines p1 ++ [dc_line])).
  { apply derivation_snoc; [assumption |]. now apply ok_axiom. }
  assert (Hd2 : derivation assumed ((lines p1 ++ [dc_line]) ++ map shift (lines p2))).
  { apply derivation_shift; try assumption.
    unfold len. rewrite !length_app. cbn [List.length]. lia. }
  set (n1 := List.length prev1).
  set (n2 := List.length prev2).
  assert (Hlen1 : List.length (lines p1) = S n1)
    by (rewrite Hlines1, length_app; simpl; lia).
  assert (Hlen2 : List.length (lines p2) = S n2)
    by (rewrite Hlines2, length_app; simpl; lia).
  set (mp1 := RuleLine (Binary "->" B C) MP _).
  assert (Hlen3 : List.length ((lines p1 ++ [dc_line]) ++ map shift (lines p2))
                  = (S n1 + 1 + S n2)%nat).
  { rewrite !length_app, length_map. simpl. lia. }
  assert (Hd3 : derivation assumed
                  (((lines p1 ++ [dc_line]) ++ map shift (lines p2)) ++ [mp1])).
  { apply derivation_snoc; [exact Hd2 |]. subst mp1.
    rewrite Hnum, Hlen1, Hlen3.
    replace (Z.of_nat (S (S n1)) - 1 - 1)%Z with (Z.of_nat n1) by lia.
    replace (Z.of_nat (S (S n1)) - 1)%Z with (Z.of_nat (S n1)) by lia.
    apply (ok_modus_ponens _ _ _ (Binary "->" B C) n1 (S n1) last1 dc_line
                           A (Binary "->" B C)); try lia.
    - rewrite Hlines1, <- !app_assoc. cbn [app]. now apply nth_error_at.
    - rewrite Hlines1, <- !app_assoc. cbn [app]. now apply nth_error_at1.
    - reflexivity.
    - exact Hlast1.
    - reflexivity. }
  split; [reflexivity | split; [| split]].
  - cbn [rules]. apply axiomatic_extend.
    + apply axiomatic_extend; [assumption |]. intros x Hx.
      rewrite <- Hax2. now apply InferenceRule_in_In.
    + intros x [<- | []]. now apply InferenceRule_in_In.
  - cbn [lines]. apply derivation_snoc; [exact Hd3 |].
    assert (Hlen4 : List.length
                      (((lines p1 ++ [dc_line]) ++ map shift (lines p2)) ++ [mp1])
                    = S (S n1 + 1 + S n2))
      by (rewrite length_app, Hlen3; simpl; lia).
    unfold len. rewrite Hlen4.
    replace (Z.of_nat (S (S n1 + 1 + S n2)) - 1 - 1)%Z
      with (Z.of_nat (S n1 + 1 + n2)) by lia.
    replace (Z.of_nat (S (S n1 + 1 + S n2)) - 1)%Z
      with (Z.of_nat (S n1 + 1 + S n2)) by lia.
    apply (ok_modus_ponens _ _ _ C (S n1 + 1 + n2) (S n1 + 1 + S n2)
                           (shift last2) mp1 B C); try lia.
    + rewrite Hlines2. apply nth_error_mapped_last.
      rewrite length_app, Hlen1. cbn [List.length]. fold n2. lia.
    + rewrite <- app_assoc. cbn [app]. apply nth_error_at.
      rewrite Hlen3. lia.
    + reflexivity.
    + now rewrite Hformula.
    + reflexivity.
  - cbn [lines]. eexists. eexists. split; [reflexivity | reflexivity].
Qed.

(** The uses of [prove_corollary] and [combine_proofs] in the prover. *)
Lemma corollary_NN (assumed : list Formula) (a : Formula) (p : Proof) :
  proves assumed a p ->
  exists p', prove_corollary p (negation (negation a)) NN = Ok p' /\
             proves assumed (negation (negation a)) p'.
Proof.
  intros Hp.
  eapply (prove_corollary_proves assumed a (negation (negation a)) p NN);
    try exact Hp.
  - unfold AXIOMATIC_SYSTEM. simpl. tauto.
  - reflexivity.
  - unfold is_specialization_of, specialization_map. cbn -[Formula_eq].
    rewrite Formula_eq_refl. reflexivity.
  - reflexivity.
  - reflexivity.
  - reflexivity.
Qed.

Lemma corollary_I2 (assumed : list Formula) (a b : Formula) (p : Proof) :
  proves assumed (negation a) p ->
  exists p', prove_corollary p (implies a b) I2 = Ok p' /\
             proves assumed (implies a b) p'.
Proof.
  intros Hp.
  eapply (prove_corollary_proves assumed (negation a) (implies a b) p I2);
    try exact Hp.
  - unfold AXIOMATIC_SYSTEM. simpl. tauto.
  - reflexivity.
  - unfold is_specialization_of, specialization_map. cbn -[Formula_eq].
    rewrite Formula_eq_refl. reflexivity.
  - reflexivity.
  - reflexivity.
  - reflexivity.
Qed.

Lemma corollary_I1 (assumed : list Formula) (a b : Formula) (p : Proof) :
  proves assumed b p ->
  exists p', prove_corollary p (implies a b) I1 = Ok p' /\
             proves assumed (implies a b) p'.
Proof.
  intros Hp.
  eapply (prove_corollary_proves assumed b (implies a b) p I1);
    try exact Hp.
  - unfold AXIOMATIC_SYSTEM. simpl. tauto.
  - reflexivity.
  - unfold is_specialization_of, specialization_map. cbn -[Formula_eq].
    rewrite Formula_eq_refl. reflexivity.
  - reflexivity.
  - reflexivity.
  - reflexivity.
Qed.

Lemma combine_NI (assumed : list Formula) (a b : Formula) (p1 p2 : Proof) :
  proves assumed a p1 ->
  proves assumed (negation b) p2 ->
  exists p', combine_proofs p1 p2 (negation (implies a b)) NI = Ok p' /\
             proves assumed (negation (implies a b)) p'.
Proof.
  intros Hp1 Hp2.
  eapply (combine_proofs_proves assumed a (negation b)
            (negation (implies a b)) p1 p2 NI);
    try exact Hp1; try exact Hp2.
  - unfold AXIOMATIC_SYSTEM. simpl. tauto.
  - reflexivity.
  - unfold is_specialization_of, specialization_map. cbn -[Formula_eq].
    rewrite !Formula_eq_refl. cbn -[Formula_eq].
    rewrite ?Formula_eq_refl. reflexivity.
  - reflexivity.
  - reflexivity.
  - cbn -[Formula_eq]. rewrite Formula_eq_refl. reflexivity.
  - reflexivity.
  - reflexivity.
Qed.

Lemma combine_R (assumed : list Formula) (x c : Formula) (p1 p2 : Proof) :
  proves assumed (implies x c) p1 ->
  proves assumed (implies (negation x) c) p2 ->
  exists p', combine_proofs p1 p2 c R = Ok p' /\ proves assumed c p'.
Proof.
  intros Hp1 Hp2.
  eapply (combine_proofs_proves assumed (implies x c)
            (implies (negation x) c) c p1 p2 R);
    try exact Hp1; try exact Hp2.
  - unfold AXIOMATIC_SYSTEM. simpl. tauto.
  - reflexivity.
  - unfold is_specialization_of, specialization_map. cbn -[Formula_eq].
    rewrite !Formula_eq_refl. cbn -[Formula_eq].
    rewrite ?Formula_eq_refl. reflexivity.
  - reflexivity.
  - reflexivity.
  - cbn -[Formula_eq]. rewrite Formula_eq_refl. reflexivity.
  - reflexivity.
  - reflexivity.
Qed.

(** ** [remove_assumption] *)

Lemma I0_instance (a : Formula) :
  is_specialization_of (mkInferenceRule [] (implies a a)) I0 = Ok true.
Proof.
  unfold is_specialization_of, specialization_map. cbn -[Formula_eq].
  rewrite Formula_eq_refl. reflexivity.
Qed.

Lemma I1_instance (a f : Formula) :
  is_specialization_of (mkInferenceRule [] (implies f (implies a f))) I1
  = Ok true.
Proof.
  unfold is_specialization_of, specialization_map. cbn -[Formula_eq].
  rewrite Formula_eq_refl. reflexivity.
Qed.

Lemma D_instance (a b f : Formula) :
  is_specialization_of
    (mkInferenceRule []
       (implies (implies a (implies b f))
                (implies (implies a b) (implies a f)))) D
  = Ok true.
Proof.
  unfold is_specialization_of, specialization_map. cbn -[Formula_eq].
  rewrite !Formula_eq_refl. cbn -[Formula_eq].
  rewrite ?Formula_eq_refl. reflexivity.
Qed.

Lemma Formula_in_app (f : Formula) (l1 l2 : list Formula) :
  Formula_in f (l1 ++ l2) = Formula_in f l1 || Formula_in f l2.
Proof.
  unfold Formula_in. apply existsb_app.
Qed.

Lemma getitem_two_0 (a b : Z) : getitem [a; b] 0%Z = Ok a.
Proof. reflexivity. Qed.

Lemma getitem_two_1 (a b : Z) : getitem [a; b] 1%Z = Ok b.
Proof. reflexivity. Qed.

Section RemoveAssumption.

Variable assumed : list Formula.
Variable phi : Formula.
Variable p : Proof.
Hypothesis p_derivation : derivation (assumed ++ [phi]) (lines p).

(** The state of the loop after [k] lines: the new lines are a derivation
    from the remaining assumptions that starts with [(phi->phi)]; every line
    treated so far has a new line, recorded in [proof_to_newProof], that
    carries [(phi->y)] for [y] equal to its formula; and so does the last new
    line for the line treated last. *)
Definition lifted (my_lines : list Line) (ni : nat) (f : Formula) : Prop :=
  exists l' y, nth_error my_lines ni = Some l' /\
               formula l' = implies phi y /\ feq y f.

Definition loop_invariant (k : nat) (state : list Line * list Z) : Prop :=
  let (my_lines, proof_to_newProof) := state in
  derivation assumed my_lines /\
  (exists rest,
      my_lines = RuleLine (implies phi phi) I0 [] :: rest /\
      (k = 0%nat -> rest = [])) /\
  List.length proof_to_newProof = k /\
  (forall i li, (i < k)%nat -> nth_error (lines p) i = Some li ->
                exists ni, nth_error proof_to_newProof i = Some (Z.of_nat ni) /\
                           lifted my_lines ni (formula li)) /\
  (forall lk, nth_error (lines p) (k - 1) = Some lk -> (1 <= k)%nat ->
              exists prev last y,
                my_lines = prev ++ [last] /\
                formula last = implies phi y /\ feq y (formula lk)).

Lemma lifted_app (my_lines more : list Line) (ni : nat) (f : Formula) :
  lifted my_lines ni f -> lifted (my_lines ++ more) ni f.
Proof.
  intros [l' [y [Hn [Hf Hy]]]]. exists l', y. split; [| auto].
  rewrite nth_error_app1; [assumption |]. apply nth_error_Some. congruence.
Qed.

Lemma lifted_bound (my_lines : list Line) (ni : nat) (f : Formula) :
  lifted my_lines ni f -> (ni < List.length my_lines)%nat.
Proof.
  intros [l' [y [Hn _]]]. apply nth_error_Some. congruence.
Qed.

Lemma loop_invariant_step (k : nat) (my_lines : list Line) (mp : list Z)
      (more : list Line) (ni : nat) (lk : Line) :
  loop_invariant k (my_lines, mp) ->
  nth_error (lines p) k = Some lk ->
  derivation assumed (my_lines ++ more) ->
  lifted (my_lines ++ more) ni (formula lk) ->
  (exists prev last y,
      my_lines ++ more = prev ++ [last] /\
      formula last = implies phi y /\ feq y (formula lk)) ->
  loop_invariant (S k) (my_lines ++ more, mp ++ [Z.of_nat ni]).
Proof.
  intros [Hder [[rest [Hrest Hzero]] [Hlen [Hmap Hlast]]]] Hlk Hder' Hlift Hlast'.
  split; [exact Hder' | split; [| split; [| split]]].
  - exists (rest ++ more). split; [now rewrite Hrest | discriminate].
  - rewrite length_app, Hlen. simpl. lia.
  - intros i li Hi Hli.
    destruct (Nat.eq_dec i k) as [-> | Hne].
    + exists ni. split.
      * rewrite nth_error_app2, Hlen, Nat.sub_diag by lia. reflexivity.
      * rewrite Hlk in Hli. injection Hli as <-. exact Hlift.
    + destruct (Hmap i li) as [n' [Hn' Hl']]; [lia | assumption |].
      exists n'. split.
      * rewrite nth_error_app1 by lia. exact Hn'.
      * now apply lifted_app.
  - intros lk' Hlk' _. replace (S k - 1)%nat with k in Hlk' by lia.
    rewrite Hlk in Hlk'. injection Hlk' as <-. exact Hlast'.
Qed.

Lemma feq_sym (a b : Formula) : feq a b -> feq b a.
Proof. unfold feq. congruence. Qed.

Lemma feq_trans (a b c : Formula) : feq a b -> feq b c -> feq a c.
Proof. unfold feq. congruence. Qed.

Lemma feq_refl (a : Formula) : feq a a.
Proof. reflexivity. Qed.

(** One turn of the loop keeps the invariant. *)
Lemma remove_assumption_step_invariant (k : nat) (state : list Line * list Z)
      (line : Line) :
  loop_invariant k state ->
  nth_error (lines p) k = Some line ->
  exists state',
    remove_assumption_step p phi (Z.of_nat k) line state = Ok state' /\
    loop_invariant (S k) state'.
Proof.
  destruct state as [my_lines mp]. intros Hinv Hline.
  pose proof Hinv as [Hder [[rest [Hrest Hzero]] [Hlen [Hmap Hlast]]]].
  pose proof (p_derivation k line Hline) as Hok.
  unfold remove_assumption_step.
  destruct (Formula_eq (formula line) phi) eqn:Heq.
  - (* the line carries the assumption that is removed *)
    apply Formula_eq_feq in Heq.
    assert (Hzero_line : lifted my_lines 0 (formula line)).
    { exists (RuleLine (implies phi phi) I0 []), phi.
      rewrite Hrest. split; [reflexivity | split; [reflexivity |]].
      now apply feq_sym. }
    destruct k as [| k].
    + cbn [Z.of_nat Z.eqb negb]. eexists. split; [reflexivity |].
      rewrite <- (app_nil_r my_lines).
      apply (loop_invariant_step 0 my_lines mp [] 0 line); auto.
      * now rewrite app_nil_r.
      * now rewrite app_nil_r.
      * exists [], (RuleLine (implies phi phi) I0 []), phi.
        rewrite app_nil_r, Hrest, (Hzero eq_refl).
        split; [reflexivity | split; [reflexivity |]]. now apply feq_sym.
    + replace (Z.of_nat (S k) =? 0)%Z with false
        by (symmetry; apply Z.eqb_neq; lia).
      cbn [negb]. eexists. split; [reflexivity |].
      apply (loop_invariant_step (S k) my_lines mp _ 0 line); auto.
      * apply derivation_snoc; [assumption |].
        apply ok_axiom; [unfold AXIOMATIC_SYSTEM; simpl; tauto |].
        apply I0_instance.
      * now apply lifted_app.
      * exists my_lines, (RuleLine (implies phi phi) I0 []), phi.
        split; [reflexivity | split; [reflexivity |]]. now apply feq_sym.
  - (* any other line *)
    set (n := List.length my_lines).
    assert (Hdirect :
              forall l0,
                formula l0 = formula line ->
                line_ok assumed (my_lines ++ [l0]) n l0 ->
                exists state',
                  Ok (((my_lines ++ [l0]) ++
                       [RuleLine (implies (formula line)
                                          (implies phi (formula line))) I1 []]) ++
                      [RuleLine (implies phi (formula line)) MP
                         [(len ((my_lines ++ [l0]) ++
                                [RuleLine (implies (formula line)
                                     (implies phi (formula line))) I1 []]) - 2)%Z;
                          (len ((my_lines ++ [l0]) ++
                                [RuleLine (implies (formula line)
                                     (implies phi (formula line))) I1 []]) - 1)%Z]],
                      mp ++ [len ((my_lines ++ [l0]) ++
                                  [RuleLine (implies (formula line)
                                       (implies phi (formula line))) I1 []])])
                  = Ok state' /\
                  loop_invariant (S k) state').
    { intros l0 Hl0 Hok0.
      set (i1 := RuleLine (implies (formula line) (implies phi (formula line)))
                          I1 []).
      assert (Hlen2 : len ((my_lines ++ [l0]) ++ [i1]) = Z.of_nat (S (S n))).
      { unfold len. rewrite !length_app. cbn [List.length]. fold n. f_equal. lia. }
      rewrite Hlen2.
      replace (Z.of_nat (S (S n)) - 2)%Z with (Z.of_nat n) by lia.
      replace (Z.of_nat (S (S n)) - 1)%Z with (Z.of_nat (S n)) by lia.
      set (mpl := RuleLine (implies phi (formula line)) MP
                           [Z.of_nat n; Z.of_nat (S n)]).
      eexists. split; [reflexivity |].
      assert (Hd1 : derivation assumed (my_lines ++ [l0]))
        by (apply derivation_snoc; assumption).
      assert (Hd2 : derivation assumed ((my_lines ++ [l0]) ++ [i1])).
      { apply derivation_snoc; [assumption |].
        apply ok_axiom; [unfold AXIOMATIC_SYSTEM; simpl; tauto |].
        apply I1_instance. }
      assert (Hd3 : derivation assumed (((my_lines ++ [l0]) ++ [i1]) ++ [mpl])).
      { apply derivation_snoc; [assumption |].
        rewrite !length_app. cbn [List.length]. fold n.
        replace (n + 1 + 1)%nat with (S (S n)) by lia.
        apply (ok_modus_ponens _ _ _ _ n (S n) l0 i1 (formula line)
                               (implies phi (formula line))); try lia.
        - rewrite <- !app_assoc. cbn [app]. now apply nth_error_at.
        - rewrite <- !app_assoc. cbn [app]. now apply nth_error_at1.
        - reflexivity.
        - now rewrite Hl0.
        - apply feq_refl. }
      replace (((my_lines ++ [l0]) ++ [i1]) ++ [mpl])
        with (my_lines ++ [l0; i1; mpl]) in *
        by (rewrite <- !app_assoc; reflexivity).
      apply (loop_invariant_step k my_lines mp [l0; i1; mpl] (S (S n)) line);
        auto.
      - exists mpl, (formula line).
        split; [now apply nth_error_at2 | split; [reflexivity | apply feq_refl]].
      - exists (my_lines ++ [l0; i1]), mpl, (formula line).
        split; [now rewrite <- app_assoc |].
        split; [reflexivity | apply feq_refl]. }
    destruct Hok
      as [f Hin | f rule Hrule Hspec | f i j li lj u v Hi Hj Hli Hlj Hf Hu Hv].
    + (* an assumption that stays *)
      apply (Hdirect (AssumptionLine f) eq_refl).
      apply ok_assumption.
      rewrite Formula_in_app, orb_true_iff in Hin.
      destruct Hin as [Hin | Hin]; [assumption |].
      unfold Formula_in in Hin. simpl in Hin. rewrite orb_false_r in Hin.
      simpl in Heq. rewrite Formula_eq_sym in Hin. congruence.
    + (* an instance of an assumptionless rule *)
      apply (Hdirect (RuleLine f rule []) eq_refl).
      now apply ok_axiom.
    + (* Modus Ponens *)
      cbn [formula] in *.
      destruct (Hmap i li Hi Hli) as [ni [Hni Hlifti]].
      destruct (Hmap j lj Hj Hlj) as [nj [Hnj Hliftj]].
      rewrite getitem_two_0, getitem_two_1. cbn [Py.bind].
      rewrite (nth_error_getitem _ _ _ Hli). cbn [Py.bind].
      rewrite (nth_error_getitem _ _ _ Hnj). cbn [Py.bind].
      rewrite (nth_error_getitem _ _ _ Hni). cbn [Py.bind].
      set (A := formula li).
      set (dl := RuleLine
                   (implies (implies phi (implies A f))
                            (implies (implies phi A) (implies phi f))) D []).
      assert (Hlen1 : len (my_lines ++ [dl]) = Z.of_nat (S n)) by apply len_app_one.
      rewrite Hlen1.
      replace (Z.of_nat (S n) - 1)%Z with (Z.of_nat n) by lia.
      set (m1 := RuleLine (implies (implies phi A) (implies phi f)) MP
                          [Z.of_nat nj; Z.of_nat n]).
      assert (Hlen2 : len ((my_lines ++ [dl]) ++ [m1]) = Z.of_nat (S (S n))).
      { unfold len. rewrite !length_app. cbn [List.length]. fold n. f_equal. lia. }
      rewrite Hlen2.
      replace (Z.of_nat (S (S n)) - 1)%Z with (Z.of_nat (S n)) by lia.
      set (m2 := RuleLine (implies phi f) MP [Z.of_nat ni; Z.of_nat (S n)]).
      eexists. split; [reflexivity |].
      pose proof (lifted_bound _ _ _ Hlifti) as Hbi.
      pose proof (lifted_bound _ _ _ Hliftj) as Hbj.
      destruct Hlifti as [l'i [yi [Hl'i [Hfi Hyi]]]].
      destruct Hliftj as [l'j [yj [Hl'j [Hfj Hyj]]]].
      assert (Hd1 : derivation assumed (my_lines ++ [dl])).
      { apply derivation_snoc; [assumption |].
        apply ok_axiom; [unfold AXIOMATIC_SYSTEM; simpl; tauto |].
        apply D_instance. }
      assert (Hd2 : derivation assumed ((my_lines ++ [dl]) ++ [m1])).
      { apply derivation_snoc; [assumption |].
        rewrite length_app. cbn [List.length]. fold n.
        replace (n + 1)%nat with (S n) by lia.
        apply (ok_modus_ponens _ _ _ _ nj n l'j dl
                 (implies phi (implies A f))
                 (implies (implies phi A) (implies phi f))); try lia.
        - rewrite <- !app_assoc. rewrite nth_error_app1 by (fold n; lia).
          exact Hl'j.
        - rewrite <- !app_assoc. cbn [app]. now apply nth_error_at.
        - reflexivity.
        - rewrite Hfj. apply feq_implies; [apply feq_refl |].
          apply (feq_trans _ _ _ Hyj). rewrite Hf.
          apply feq_implies; [now apply feq_sym | assumption].
        - apply feq_refl. }
      assert (Hd3 : derivation assumed (((my_lines ++ [dl]) ++ [m1]) ++ [m2])).
      { apply derivation_snoc; [assumption |].
        rewrite !length_app. cbn [List.length]. fold n.
        replace (n + 1 + 1)%nat with (S (S n)) by lia.
        apply (ok_modus_ponens _ _ _ _ ni (S n) l'i m1
                 (implies phi A) (implies phi f)); try lia.
        - rewrite <- !app_assoc. rewrite nth_error_app1 by (fold n; lia).
          exact Hl'i.
        - rewrite <- !app_assoc. cbn [app]. now apply nth_error_at1.
        - reflexivity.
        - rewrite Hfi. apply feq_implies; [apply feq_refl | exact Hyi].
        - apply feq_refl. }
      replace (((my_lines ++ [dl]) ++ [m1]) ++ [m2])
        with (my_lines ++ [dl; m1; m2]) in *
        by (rewrite <- !app_assoc; reflexivity).
      apply (loop_invariant_step k my_lines mp [dl; m1; m2] (S (S n))
                                 (RuleLine f MP [Z.of_nat i; Z.of_nat j]));
        auto.
      * exists m2, f.
        split; [now apply nth_error_at2 | split; [reflexivity | apply feq_refl]].
      * exists (my_lines ++ [dl; m1]), m2, f.
        split; [now rewrite <- app_assoc |].
        split; [reflexivity | apply feq_refl].
Qed.

Lemma remove_assumption_loop_invariant (todo : list Line) :
  forall (k : nat) (state : list Line * list Z),
    loop_invariant k state ->
    (forall i l, nth_error todo i = Some l ->
                 nth_error (lines p) (k + i) = Some l) ->
    exists state',
      remove_assumption_loop p phi
        (combine (map Z.of_nat (seq k (List.length todo))) todo) state
      = Ok state' /\
      loop_invariant (k + List.length todo) state'.
Proof.
  induction todo as [| line todo IH]; intros k state Hinv Htodo.
  - simpl. exists state. split; [reflexivity |]. now rewrite Nat.add_0_r.
  - cbn [List.length seq map combine remove_assumption_loop].
    assert (Hline : nth_error (lines p) k = Some line).
    { specialize (Htodo 0%nat line eq_refl). now rewrite Nat.add_0_r in Htodo. }
    destruct (remove_assumption_step_invariant k state line Hinv Hline)
      as [state1 [Hstep Hinv1]].
    rewrite Hstep. cbn [Py.bind].
    destruct (IH (S k) state1 Hinv1) as [state' [Hloop Hinv']].
    + intros i l Hi. replace (S k + i)%nat with (k + S i)%nat by lia.
      now apply Htodo.
    + exists state'. split; [exact Hloop |].
      now replace (k + S (List.length todo))%nat
        with (S k + List.length todo)%nat by lia.
Qed.

End RemoveAssumption.

Lemma axiomatic_rules_shape (rules : list InferenceRule) :
  axiomatic rules ->
  forallb (fun rule => InferenceRule_eq rule MP
                       || Nat.eqb (List.length (assumptions rule)) 0)
          rules = true.
Proof.
  intros Hax. apply forallb_forall. intros rule Hrule.
  assert (Hin : InferenceRule_in rule AXIOMATIC_SYSTEM = true)
    by (rewrite <- Hax; now apply InferenceRule_in_In).
  unfold InferenceRule_in in Hin. apply existsb_exists in Hin.
  destruct Hin as [r' [Hr' Heq]].
  assert (Hlen : List.length (assumptions r') = List.length (assumptions rule)).
  { apply InferenceRule_eq_key in Heq. unfold rule_key in Heq.
    injection Heq as Heq _. apply (f_equal (@List.length string)) in Heq.
    now rewrite !length_map in Heq. }
  simpl in Hr'.
  destruct Hr' as [<- | Hr'].
  - apply orb_true_iff. left.
    apply InferenceRule_eq_key. apply InferenceRule_eq_key in Heq. congruence.
  - apply orb_true_iff. right. apply Nat.eqb_eq. rewrite <- Hlen.
    repeat (destruct Hr' as [<- | Hr']; [reflexivity |]). contradiction.
Qed.

Lemma filter_other_assumptions (assumed : list Formula) (phi : Formula) :
  (forall a, In a assumed -> Formula_eq a phi = false) ->
  filter (fun ass => Formula_ne ass phi) (assumed ++ [phi]) = assumed.
Proof.
  intros H. rewrite filter_app. simpl. unfold Formula_ne at 2.
  rewrite Formula_eq_refl. simpl. rewrite app_nil_r.
  induction assumed as [| a assumed IH]; simpl; [reflexivity |].
  unfold Formula_ne at 1. rewrite (H a (or_introl eq_refl)). simpl.
  rewrite IH; [reflexivity |]. intros b Hb. apply H. now right.
Qed.

(** [remove_assumption] on a proof by the axiomatic system whose last
    assumption equals no other assumption. *)
Lemma remove_assumption_proves (assumed : list Formula) (phi c : Formula)
      (p : Proof) :
  proves (assumed ++ [phi]) c p ->
  (forall a, In a assumed -> Formula_eq a phi = false) ->
  exists p', remove_assumption p = Ok p' /\ proves assumed (implies phi c) p'.
Proof.
  intros Hp Hother.
  pose proof (proves_valid _ _ _ Hp) as Hvalid.
  destruct Hp as [Hst [Hax [Hder [prev [last [Hlines Hlast]]]]]].
  unfold remove_assumption. rewrite Hvalid. cbn [Py.bind assert].
  rewrite Hst. cbn [assumptions conclusion].
  assert (Hpos : (0 <? len (assumed ++ [phi]))%Z = true).
  { apply Z.ltb_lt. rewrite len_app_one. lia. }
  rewrite Hpos, (axiomatic_rules_shape _ Hax). cbn [Py.bind assert].
  rewrite getitem_last. cbn [Py.bind].
  rewrite (filter_other_assumptions _ _ Hother).
  set (line0 := RuleLine (implies phi phi) I0 []).
  assert (Hinv0 : loop_invariant assumed phi p 0 ([line0], [])).
  { split; [| split; [| split; [| split]]].
    - apply (derivation_snoc assumed [] line0 (derivation_nil assumed)).
      apply ok_axiom; [unfold AXIOMATIC_SYSTEM; simpl; tauto |].
      apply I0_instance.
    - exists []. split; [reflexivity | reflexivity].
    - reflexivity.
    - intros i li Hi. lia.
    - intros lk _ Hk. lia. }
  destruct (remove_assumption_loop_invariant assumed phi p Hder (lines p) 0
              ([line0], []) Hinv0 (fun i l H => H))
    as [[my_lines mp] [Hloop Hinv]].
  unfold range. rewrite Hloop. cbn [Py.bind fst].
  eexists. split; [reflexivity |].
  destruct Hinv as [Hder' [_ [_ [_ Hlast']]]].
  split; [reflexivity | split; [| split]].
  - cbn [rules]. apply axiomatic_extend; [assumption |].
    intros r Hr. apply InferenceRule_in_In. unfold AXIOMATIC_SYSTEM.
    simpl in Hr. simpl. tauto.
  - exact Hder'.
  - cbn [lines].
    destruct (Hlast' last) as [prev' [last' [y [Hml [Hfl Hy]]]]].
    + rewrite Hlines, length_app. cbn [List.length Nat.add].
      replace (List.length prev + 1 - 1)%nat with (List.length prev) by lia.
      apply nth_error_snoc.
    + rewrite Hlines, length_app. simpl. lia.
    + exists prev', last'. split; [assumption |].
      rewrite Hfl. apply feq_implies; [apply feq_refl |].
      now apply (feq_trans _ _ _ Hy).
Qed.

(** [reduce_assumption] on proofs by the axiomatic system of the same
    formula from [x] and from [~x], besides common assumptions that equal
    neither. *)
Lemma reduce_assumption_proves (assumed : list Formula) (x c : Formula)
      (pa pn : Proof) :
  proves (assumed ++ [x]) c pa ->
  proves (assumed ++ [negation x]) c pn ->
  (forall a, In a assumed ->
             Formula_eq a x = false /\ Formula_eq a (negation x) = false) ->
  exists p', reduce_assumption pa pn = Ok p' /\ proves assumed c p'.
Proof.
  intros Hpa Hpn Hother.
  destruct (remove_assumption_proves assumed x c pa Hpa) as [ra [Hra Hpra]];
    [intros a Ha; now apply Hother |].
  destruct (remove_assumption_proves assumed (negation x) c pn Hpn)
    as [rn [Hrn Hprn]]; [intros a Ha; now apply Hother |].
  destruct (combine_R assumed x c ra rn Hpra Hprn) as [p' [Hc Hp']].
  exists p'. split; [| exact Hp'].
  pose proof (proves_valid _ _ _ Hpa) as Hva.
  pose proof (proves_valid _ _ _ Hpn) as Hvn.
  destruct Hpa as [Hsta [Haxa _]]. destruct Hpn as [Hstn [Haxn _]].
  unfold reduce_assumption. rewrite Hva, Hvn. cbn [Py.bind assert].
  rewrite Hsta, Hstn. cbn [assumptions conclusion].
  rewrite Formula_eq_refl. cbn [Py.bind assert].
  assert (Hpos : forall y, (0 <? len (assumed ++ [y]))%Z = true).
  { intros y. apply Z.ltb_lt. rewrite len_app_one. lia. }
  rewrite !Hpos. cbn [Py.bind assert].
  unfold all_but_last. rewrite !removelast_last, Formulas_eq_refl.
  cbn [Py.bind assert]. rewrite !getitem_last. cbn [Py.bind].
  rewrite Formula_eq_refl, (axiomatic_rules_eq _ _ Haxa Haxn).
  cbn [Py.bind assert]. rewrite Hra, Hrn. cbn [Py.bind]. exact Hc.
Qed.

(** ** [prove_in_model] *)

Lemma implicational_wf (f : Formula) : implicational f = true -> wf f = true.
Proof.
  induction f as [r | r a IHa | r a IHa b IHb]; simpl; intros H.
  - destruct (is_variable r) as [v |]; [| discriminate]. now rewrite H.
  - apply andb_true_iff in H. destruct H as [Hr Ha].
    apply String.eqb_eq in Hr. subst. now rewrite IHa.
  - apply andb_true_iff in H. destruct H as [H Hb].
    apply andb_true_iff in H. destruct H as [Hr Ha].
    apply String.eqb_eq in Hr. subst. now rewrite IHa, IHb.
Qed.

Lemma implicational_operators (f : Formula) :
  implicational f = true ->
  forall acc, issubset acc ["->"; "~"]%string = true ->
              issubset (find_operators f acc) ["->"; "~"]%string = true.
Proof.
  induction f as [r | r a IHa | r a IHa b IHb]; simpl; intros H acc Hacc.
  - destruct (is_variable r) as [[|] |] eqn:Hv; try discriminate.
    now rewrite (is_variable_not_constant r Hv).
  - apply andb_true_iff in H. destruct H as [Hr Ha].
    apply String.eqb_eq in Hr. subst. apply IHa; [assumption |].
    apply issubset_set_add; [simpl; tauto | assumption].
  - apply andb_true_iff in H. destruct H as [H Hb].
    apply andb_true_iff in H. destruct H as [Hr Ha].
    apply String.eqb_eq in Hr. subst. apply IHb; [assumption |].
    apply IHa; [assumption |].
    apply issubset_set_add; [simpl; tauto | assumption].
Qed.

Lemma size_positive (f : Formula) : (1 <= size f)%nat.
Proof.
  destruct f; simpl; lia.
Qed.

Lemma is_model_ordered (model : Model) :
  ordered_model model -> is_model model = Ok true.
Proof.
  intros [_ [Hvar _]]. unfold is_model. now apply is_model_keys_true.
Qed.

Lemma literal_capture (var : string) (b : bool) :
  (if b then Leaf var else negation (Leaf var)) = literal (var, b).
Proof.
  now destruct b.
Qed.

Lemma formulae_capturing_model_literals (model : Model) :
  ordered_model model ->
  formulae_capturing_model model = Ok (map literal model).
Proof.
  intros Hm. pose proof (is_model_ordered model Hm) as His.
  destruct Hm as [Hnd [_ Hsorted]].
  unfold formulae_capturing_model. rewrite His, Hsorted. cbn [Py.bind assert].
  assert (Hgen : forall sub : Model,
             (forall k v, In (k, v) sub -> dict_get model k = Some v) ->
             map_result
               (fun val => b <- dict_getitem model val ;;
                           Ok (if b then Leaf val else negation (Leaf val)))
               (dict_keys sub)
             = Ok (map literal sub)).
  { induction sub as [| [k v] sub IH]; intros Hsub; [reflexivity |].
    unfold dict_keys in *. cbn [map fst map_result].
    unfold dict_getitem at 1. rewrite (Hsub k v (or_introl eq_refl)).
    cbn [Py.bind]. rewrite IH.
    - cbn [Py.bind]. now destruct v.
    - intros k' v' Hin. apply Hsub. now right. }
  apply Hgen. intros k v Hin. now apply dict_get_In_NoDup.
Qed.

Lemma is_variable_first_char (v : string) :
  is_variable v = Ok true ->
  exists c rest, v = String c rest /\ between "p" c "z" = true.
Proof.
  destruct v as [| c rest]; simpl; [discriminate |].
  intros H. injection H as H. apply andb_true_iff in H.
  exists c, rest. tauto.
Qed.

Lemma negated_name_differs (k v : string) :
  is_variable v = Ok true -> String.eqb (String "~" k) v = false.
Proof.
  intros Hv. destruct (is_variable_first_char v Hv) as [c [rest [-> Hc]]].
  cbn [String.eqb].
  destruct (Ascii.eqb "~" c) eqn:E; [| reflexivity].
  apply Ascii.eqb_eq in E. subst. discriminate.
Qed.

(** A variable is among the formulas that capture the model iff the model
    makes it true; its negation is iff the model makes it false. *)
Lemma variable_captured (model : Model) (v : string) (b : bool) :
  ordered_model model -> In (v, b) model ->
  Formula_in (Leaf v) (map literal model) = b /\
  Formula_in (negation (Leaf v)) (map literal model) = negb b.
Proof.
  intros [Hnd [Hvar _]] Hin.
  assert (Hv : is_variable v = Ok true).
  { apply Hvar. apply (in_map fst) in Hin. exact Hin. }
  assert (Hunique : forall b', In (v, b') model -> b' = b).
  { intros b' Hin'. apply (dict_get_In_NoDup model v b' Hnd) in Hin'.
    apply (dict_get_In_NoDup model v b Hnd) in Hin. congruence. }
  assert (Hpos : forall b0, In (v, b0) model ->
                            Formula_in (literal (v, b0)) (map literal model) = true).
  { intros b0 Hb0. unfold Formula_in. apply existsb_exists.
    exists (literal (v, b0)). split; [now apply in_map | apply Formula_eq_refl]. }
  assert (Hneg : forall b0, b0 <> b ->
                            Formula_in (literal (v, b0)) (map literal model) = false).
  { intros b0 Hb0. unfold Formula_in. apply not_true_is_false. intros Hex.
    apply existsb_exists in Hex. destruct Hex as [g [Hg Heq]].
    apply in_map_iff in Hg. destruct Hg as [[k bk] [<- Hk]].
    unfold Formula_eq in Heq. apply String.eqb_eq in Heq.
    assert (Hkv : is_variable k = Ok true).
    { apply Hvar. apply (in_map fst) in Hk. exact Hk. }
    destruct bk, b0; simpl in Heq.
    - subst k. apply Hunique in Hk. congruence.
    - pose proof (negated_name_differs v k Hkv) as Hd.
      rewrite <- Heq, String.eqb_refl in Hd. discriminate.
    - pose proof (negated_name_differs k v Hv) as Hd.
      rewrite Heq, String.eqb_refl in Hd. discriminate.
    - injection Heq as Heq. subst k. apply Hunique in Hk. congruence. }
  destruct b.
  - split; [apply (Hpos true Hin) | apply (Hneg false); discriminate].
  - split; [apply (Hneg true); discriminate | apply (Hpos false Hin)].
Qed.

Lemma axiomatic_system_axiomatic : axiomatic AXIOMATIC_SYSTEM.
Proof.
  intros r. reflexivity.
Qed.

Lemma single_assumption_proves (assumed : list Formula) (g : Formula) :
  Formula_in g assumed = true ->
  proves assumed g
         (mkProof (mkInferenceRule assumed g) AXIOMATIC_SYSTEM [AssumptionLine g]).
Proof.
  intros Hin. split; [reflexivity | split; [| split]].
  - apply axiomatic_system_axiomatic.
  - apply (derivation_snoc assumed [] _ (derivation_nil assumed)).
    now apply ok_assumption.
  - exists [], (AssumptionLine g). split; [reflexivity | apply feq_refl].
Qed.

Lemma double_negation_proves (assumed : list Formula) (a : Formula) :
  Formula_in a assumed = true ->
  proves assumed (negation (negation a))
         (mkProof (mkInferenceRule assumed (negation (negation a)))
                  AXIOMATIC_SYSTEM
                  [AssumptionLine a;
                   RuleLine (implies a (negation (negation a))) NN [];
                   RuleLine (negation (negation a)) MP [0%Z; 1%Z]]).
Proof.
  intros Hin. split; [reflexivity | split; [| split]].
  - apply axiomatic_system_axiomatic.
  - apply (derivation_snoc assumed [_; _]).
    + apply (derivation_snoc assumed [_]).
      * apply (derivation_snoc assumed [] _ (derivation_nil assumed)).
        now apply ok_assumption.
      * apply ok_axiom; [unfold AXIOMATIC_SYSTEM; simpl; tauto |].
        unfold is_specialization_of, specialization_map. cbn -[Formula_eq].
        rewrite Formula_eq_refl. reflexivity.
    + apply (ok_modus_ponens _ _ _ _ 0 1 (AssumptionLine a)
               (RuleLine (implies a (negation (negation a))) NN [])
               a (negation (negation a))); simpl; try lia; reflexivity.
  - exists [AssumptionLine a; RuleLine (implies a (negation (negation a))) NN []],
           (RuleLine (negation (negation a)) MP [0%Z; 1%Z]).
    split; [reflexivity | apply feq_refl].
Qed.

Lemma covered_variable (model : Model) (v : string) :
  is_variable v = Ok true -> covered (Leaf v) (dict_keys model) ->
  exists b, In (v, b) model /\ dict_get model v = Some b.
Proof.
  intros Hv [Hc | Hin].
  - rewrite (is_variable_not_constant v Hv) in Hc. discriminate.
  - destruct (dict_get model v) as [b |] eqn:Hg.
    + exists b. split; [| reflexivity].
      clear Hin. induction model as [| [k x] model IH]; [discriminate |].
      simpl in Hg. destruct (String.eqb_spec k v) as [-> | Hne].
      * injection Hg as ->. now left.
      * right. now apply IH.
    + apply dict_get_None_not_In in Hg. contradiction.
Qed.

(** [prove_in_model] returns a proof by the axiomatic system, from the
    formulas that capture the model, of the formula if the model makes it
    true and of its negation otherwise. *)
Lemma prove_in_model_rec_proves (model : Model) :
  ordered_model model ->
  forall (fuel : nat) (f : Formula),
    (size f <= fuel)%nat ->
    implicational f = true ->
    covered f (dict_keys model) ->
    exists p,
      prove_in_model_rec fuel f model = Ok p /\
      proves (map literal model)
             (if truth f model then f else negation f) p.
Proof.
  intros Hm.
  pose proof (is_model_ordered model Hm) as His.
  pose proof (formulae_capturing_model_literals model Hm) as Hcap.
  induction fuel as [| fuel IH]; intros f Hsize Himp Hcov.
  - pose proof (size_positive f). lia.
  - pose proof (implicational_operators f Himp [] eq_refl) as Hops.
    pose proof (evaluate_truth model His f (implicational_wf f Himp) Hcov) as Hev.
    cbn [prove_in_model_rec]. unfold operators. rewrite Hops. cbn [Py.bind assert].
    rewrite His. cbn [Py.bind assert]. rewrite Hcap. cbn [Py.bind].
    destruct f as [v | r a | r a b].
    + (* a variable *)
      simpl in Himp. cbn [root].
      destruct (is_variable v) as [[|] |] eqn:Hv; try discriminate.
      cbn [Py.bind].
      destruct (covered_variable model v Hv Hcov) as [b [Hin Hget]].
      destruct (variable_captured model v b Hm Hin) as [Hpos Hneg].
      simpl truth. rewrite (is_variable_not_constant v Hv), Hget, Hpos.
      destruct b; eexists; (split; [reflexivity |]);
        apply single_assumption_proves; assumption.
    + (* a negation *)
      simpl in Himp. apply andb_true_iff in Himp. destruct Himp as [Hr Ha].
      apply String.eqb_eq in Hr. subst r. simpl in Hcov. simpl in Hsize.
      cbn [root first]. cbn -[prove_in_model_rec evaluate Formula_in truth].
      destruct a as [v | r a | r a b].
      * (* the negation of a variable *)
        simpl in Ha. cbn [repr].
        destruct (is_variable v) as [[|] |] eqn:Hv; try discriminate.
        cbn [Py.bind].
        destruct (covered_variable model v Hv Hcov) as [b [Hin Hget]].
        destruct (variable_captured model v b Hm Hin) as [Hpos Hneg].
        unfold dict_getitem. rewrite Hget. cbn [Py.bind].
        simpl truth. rewrite (is_variable_not_constant v Hv), Hget.
        destruct b; eexists; (split; [reflexivity |]).
        -- apply double_negation_proves. assumption.
        -- apply single_assumption_proves. assumption.
      * (* a double negation *)
        pose proof Ha as Ha'. simpl in Ha'.
        apply andb_true_iff in Ha'. destruct Ha' as [Hr _].
        apply String.eqb_eq in Hr. subst r.
        cbn -[prove_in_model_rec evaluate truth].
        destruct (IH (Unary "~" a)) as [pa [Hrec Hpa]]; [lia | assumption | assumption |].
        rewrite Hrec. cbn [Py.bind]. rewrite Hev. cbn [Py.bind].
        change (truth (Unary "~" (Unary "~" a)) model)
          with (negb (truth (Unary "~" a) model)) in *.
        destruct (truth (Unary "~" a) model); cbn [negb].
        -- apply (corollary_NN _ _ _ Hpa).
        -- exists pa. split; [reflexivity | exact Hpa].
      * (* the negation of an implication *)
        pose proof Ha as Ha'. simpl in Ha'.
        apply andb_true_iff in Ha'. destruct Ha' as [Ha' _].
        apply andb_true_iff in Ha'. destruct Ha' as [Hr _].
        apply String.eqb_eq in Hr. subst r.
        cbn -[prove_in_model_rec evaluate truth].
        destruct (IH (Binary "->" a b)) as [pa [Hrec Hpa]]; [lia | assumption | assumption |].
        rewrite Hrec. cbn [Py.bind]. rewrite Hev. cbn [Py.bind].
        change (truth (Unary "~" (Binary "->" a b)) model)
          with (negb (truth (Binary "->" a b) model)) in *.
        destruct (truth (Binary "->" a b) model); cbn [negb].
        -- apply (corollary_NN _ _ _ Hpa).
        -- exists pa. split; [reflexivity | exact Hpa].
    + (* an implication *)
      simpl in Himp. apply andb_true_iff in Himp. destruct Himp as [Himp Hb].
      apply andb_true_iff in Himp. destruct Himp as [Hr Ha].
      apply String.eqb_eq in Hr. subst r.
      destruct Hcov as [Hca Hcb]. simpl in Hsize.
      pose proof (size_positive a). pose proof (size_positive b).
      pose proof (evaluate_truth model His a (implicational_wf a Ha) Hca) as Heva.
      pose proof (evaluate_truth model His b (implicational_wf b Hb) Hcb) as Hevb.
      cbn -[prove_in_model_rec evaluate truth].
      rewrite Hev. cbn [Py.bind]. rewrite Heva, Hevb. cbn [Py.bind].
      change (truth (Binary "->" a b) model)
        with (negb (truth a model) || truth b model).
      destruct (IH a) as [pa [Hreca Hpa]]; [lia | assumption | assumption |].
      destruct (IH b) as [pb [Hrecb Hpb]]; [lia | assumption | assumption |].
      destruct (IH (negation a)) as [pna [Hrecna Hpna]];
        [simpl; lia | simpl; assumption | assumption |].
      change (truth (negation a) model) with (negb (truth a model)) in Hpna.
      destruct (truth a model), (truth b model); cbn [negb orb].
      * rewrite Hrecb. cbn [Py.bind]. apply (corollary_I1 _ a b _ Hpb).
      * rewrite Hreca. cbn [Py.bind]. rewrite Hrecb. cbn [Py.bind].
        apply (combine_NI _ a b _ _ Hpa Hpb).
      * fold (negation a). rewrite Hrecna. cbn [Py.bind].
        apply (corollary_I2 _ a b _ Hpna).
      * fold (negation a). rewrite Hrecna. cbn [Py.bind].
        apply (corollary_I2 _ a b _ Hpna).
Qed.

(** *** Sorting *)

Lemma insert_sorted_in_order (x : string) (l : list string) :
  in_order l = true -> in_order (insert_sorted x l) = true.
Proof.
  induction l as [| y l IH]; intros H; [reflexivity |].
  cbn [insert_sorted]. destruct (String.leb x y) eqn:E.
  - cbn [in_order]. now rewrite E.
  - assert (Hyx : String.leb y x = true).
    { destruct (String.leb_total x y); congruence. }
    destruct l as [| z l].
    + cbn. now rewrite Hyx.
    + cbn [in_order] in H. apply andb_true_iff in H. destruct H as [Hyz Hl].
      specialize (IH Hl). cbn [insert_sorted] in IH |- *.
      destruct (String.leb x z) eqn:E2.
      * cbn [in_order] in IH |- *. now rewrite Hyx.
      * cbn [in_order] in IH |- *. now rewrite Hyz.
Qed.

Lemma sorted_in_order (l : list string) : in_order (sorted l) = true.
Proof.
  induction l as [| x l IH]; [reflexivity |].
  cbn [sorted]. now apply insert_sorted_in_order.
Qed.

Lemma in_order_tail (x : string) (l : list string) :
  in_order (x :: l) = true -> in_order l = true.
Proof.
  destruct l as [| y l]; [reflexivity |]. cbn [in_order].
  intros H. apply andb_true_iff in H. tauto.
Qed.

Lemma sorted_fixed (l : list string) : in_order l = true -> sorted l = l.
Proof.
  induction l as [| x l IH]; intros H; [reflexivity |].
  cbn [sorted]. rewrite IH by (eapply in_order_tail; eassumption).
  destruct l as [| y l]; [reflexivity |].
  cbn [in_order] in H. apply andb_true_iff in H. destruct H as [Hxy _].
  cbn [insert_sorted]. now rewrite Hxy.
Qed.

Lemma in_order_app_l (l more : list string) :
  in_order (l ++ more) = true -> in_order l = true.
Proof.
  induction l as [| x l IH]; intros H; [reflexivity |].
  destruct l as [| y l]; [reflexivity |].
  cbn [app in_order] in H |- *. apply andb_true_iff in H. destruct H as [Hxy H].
  rewrite Hxy. apply IH. exact H.
Qed.

Lemma insert_sorted_In (x y : string) (l : list string) :
  In y (insert_sorted x l) <-> x = y \/ In y l.
Proof.
  induction l as [| z l IH]; simpl; [tauto |].
  destruct (String.leb x z); simpl; [tauto |]. rewrite IH. tauto.
Qed.

Lemma sorted_In (y : string) (l : list string) : In y (sorted l) <-> In y l.
Proof.
  induction l as [| x l IH]; simpl; [tauto |].
  rewrite insert_sorted_In, IH. tauto.
Qed.

Lemma insert_sorted_NoDup (x : string) (l : list string) :
  ~ In x l -> NoDup l -> NoDup (insert_sorted x l).
Proof.
  induction l as [| z l IH]; simpl; intros Hx Hnd.
  - constructor; [tauto | constructor].
  - destruct (String.leb x z).
    + constructor; [simpl; tauto | assumption].
    + inversion Hnd as [| ? ? Hz Hl]; subst. constructor.
      * rewrite insert_sorted_In. intros [-> | Hin]; tauto.
      * apply IH; tauto.
Qed.

Lemma sorted_NoDup (l : list string) : NoDup l -> NoDup (sorted l).
Proof.
  induction l as [| x l IH]; simpl; intros Hnd; [constructor |].
  inversion Hnd as [| ? ? Hx Hl]; subst.
  apply insert_sorted_NoDup; [now rewrite sorted_In | now apply IH].
Qed.

(** *** The variables of a formula *)

Lemma set_add_In (x y : string) (s : list string) :
  In y (set_add x s) <-> x = y \/ In y s.
Proof.
  unfold set_add. destruct (str_mem x s) eqn:E.
  - apply str_mem_In in E. split; [tauto | intros [<- | H]; assumption].
  - rewrite in_app_iff. simpl. tauto.
Qed.

Lemma set_add_NoDup (x : string) (s : list string) :
  NoDup s -> NoDup (set_add x s).
Proof.
  intros Hnd. unfold set_add. destruct (str_mem x s) eqn:E; [assumption |].
  assert (Hx : ~ In x s).
  { intros Hin. apply str_mem_In in Hin. congruence. }
  clear E. induction s as [| z s IH]; simpl.
  - constructor; [tauto | constructor].
  - inversion Hnd as [| ? ? Hz Hs]; subst. constructor.
    + rewrite in_app_iff. simpl in *. intros [H | [H | []]]; [tauto |].
      subst. tauto.
    + apply IH; [assumption | simpl in Hx; tauto].
Qed.

Lemma find_variables_NoDup (f : Formula) :
  forall acc, NoDup acc -> NoDup (find_variables f acc).
Proof.
  induction f as [r | r a IHa | r a IHa b IHb]; simpl; intros acc Hacc.
  - destruct (is_constant r); [assumption |].
    destruct (is_variable r) as [[|] |]; try assumption.
    now apply set_add_NoDup.
  - now apply IHa.
  - now apply IHb, IHa.
Qed.

Lemma find_variables_named (f : Formula) :
  forall acc, (forall v, In v acc -> is_variable v = Ok true) ->
              forall v, In v (find_variables f acc) -> is_variable v = Ok true.
Proof.
  induction f as [r | r a IHa | r a IHa b IHb]; simpl; intros acc Hacc v Hv.
  - destruct (is_constant r); [now apply Hacc |].
    destruct (is_variable r) as [[|] |] eqn:Hr; try now apply Hacc.
    apply set_add_In in Hv. destruct Hv as [<- | Hv]; [assumption | now apply Hacc].
  - eapply IHa; eassumption.
  - eapply IHb; [| eassumption]. intros w Hw. eapply IHa; eassumption.
Qed.

Lemma find_variables_incl (f : Formula) :
  forall acc v, In v acc -> In v (find_variables f acc).
Proof.
  induction f as [r | r a IHa | r a IHa b IHb]; simpl; intros acc v Hv.
  - destruct (is_constant r); [assumption |].
    destruct (is_variable r) as [[|] |]; try assumption.
    apply set_add_In. now right.
  - now apply IHa.
  - now apply IHb, IHa.
Qed.

Lemma covered_incl (f : Formula) (keys keys' : list string) :
  (forall v, In v keys -> In v keys') -> covered f keys -> covered f keys'.
Proof.
  intros Hincl. induction f as [r | r a IHa | r a IHa b IHb]; simpl.
  - intros [H | H]; [now left | right; now apply Hincl].
  - assumption.
  - intros [Ha Hb]. split; [now apply IHa | now apply IHb].
Qed.

Lemma find_variables_covered (f : Formula) :
  wf f = true -> forall acc, covered f (find_variables f acc).
Proof.
  induction f as [r | r a IHa | r a IHa b IHb]; simpl; intros Hwf acc.
  - destruct (is_constant r) eqn:Hc; [now left |].
    destruct (is_variable r) as [[|] |]; try discriminate.
    right. apply set_add_In. now left.
  - apply andb_true_iff in Hwf. now apply IHa.
  - apply andb_true_iff in Hwf. destruct Hwf as [Hwf Hb].
    apply andb_true_iff in Hwf. destruct Hwf as [_ Ha]. split.
    + apply (covered_incl a (find_variables a acc)); [| now apply IHa].
      intros v Hv. now apply find_variables_incl.
    + now apply IHb.
Qed.

Lemma covered_variables_In (f : Formula) (keys : list string) (v : string) :
  wf f = true -> covered f keys -> In v (variables f) -> In v keys.
Proof.
  intros Hwf Hcov Hv.
  pose proof (covered_issubset f keys Hwf Hcov [] eq_refl) as Hsub.
  unfold issubset in Hsub. rewrite forallb_forall in Hsub.
  apply str_mem_In. now apply Hsub.
Qed.

(** The truth value depends on the variables of the formula only. *)
Lemma truth_ext (f : Formula) (m m' : Model) (keys : list string) :
  covered f keys ->
  (forall v, In v keys -> dict_get m v = dict_get m' v) ->
  truth f m = truth f m'.
Proof.
  intros Hcov Hagree.
  induction f as [r | r a IHa | r a IHa b IHb]; simpl in *.
  - destruct (is_constant r) eqn:Hc; [reflexivity |].
    destruct Hcov as [H | H]; [discriminate |]. now rewrite (Hagree r H).
  - now rewrite IHa.
  - destruct Hcov as [Ha Hb]. now rewrite IHa, IHb.
Qed.

Lemma product_complete (n : nat) :
  forall x : list bool, List.length x = n -> In x (product [false; true] n).
Proof.
  induction n as [| n IH]; intros x Hx.
  - destruct x; [now left | discriminate].
  - destruct (@exists_last _ x) as [x' [b ->]]; [intros ->; discriminate |].
    rewrite length_app in Hx. simpl in Hx. simpl. apply in_flat_map.
    exists x'. split; [apply IH; lia |]. destruct b; simpl; tauto.
Qed.

(** A tautology is true in every model that covers its variables. *)
Lemma tautology_truth (phi : Formula) (model : Model) :
  wf phi = true -> is_tautology phi = Ok true ->
  covered phi (dict_keys model) -> truth phi model = true.
Proof.
  intros Hwf Ht Hcov.
  assert (HndV : NoDup (variables phi)) by apply find_variables_NoDup, NoDup_nil.
  assert (HnamedV : forall v, In v (variables phi) -> is_variable v = Ok true).
  { apply find_variables_named. intros v []. }
  assert (HcovV : covered phi (variables phi)) by now apply find_variables_covered.
  unfold is_tautology in Ht.
  rewrite (all_models_eq _ HndV HnamedV) in Ht. cbn [Py.bind] in Ht.
  unfold truth_values in Ht.
  rewrite (map_result_ext _ (truth phi)) in Ht.
  2:{ intros m Hm. apply in_map_iff in Hm. destruct Hm as [vals [<- Hvals]].
      apply product_elem_length in Hvals.
      apply evaluate_truth.
      - unfold is_model. rewrite dict_keys_combine by assumption.
        now apply is_model_keys_true.
      - assumption.
      - now rewrite dict_keys_combine by assumption. }
  cbn [Py.bind] in Ht. injection Ht as Ht. rewrite forallb_forall in Ht.
  set (g := fun v => match dict_get model v with Some b => b | None => false end).
  transitivity (truth phi (combine (variables phi) (map g (variables phi)))).
  - apply (truth_ext phi _ _ (variables phi) HcovV). intros v Hv.
    destruct (In_nth_error _ _ Hv) as [j Hj].
    rewrite (dict_get_combine (variables phi) (map g (variables phi)) j v (g v)
               HndV Hj) by (rewrite nth_error_map, Hj; reflexivity).
    unfold g. destruct (dict_get model v) eqn:E; [reflexivity |].
    apply dict_get_None_not_In in E. exfalso. apply E.
    now apply (covered_variables_In phi).
  - apply Ht. apply in_map, in_map, product_complete, length_map.
Qed.

(** *** The case split of [prove_tautology] *)

Lemma strings_eq_refl (l : list string) : strings_eq l l = true.
Proof.
  induction l as [| x l IH]; simpl; [reflexivity |].
  now rewrite String.eqb_refl.
Qed.

Lemma first_unassigned_skip (pre post keys : list string) (var : string) :
  (forall v, In v pre -> In v keys) -> ~ In var keys ->
  first_unassigned (pre ++ var :: post) keys = Some var.
Proof.
  intros Hpre Hvar. induction pre as [| x pre IH]; simpl.
  - destruct (str_mem var keys) eqn:E; [| reflexivity].
    apply str_mem_In in E. contradiction.
  - rewrite (proj2 (str_mem_In x keys)) by (apply Hpre; now left).
    simpl. apply IH. intros v Hv. apply Hpre. now right.
Qed.

Lemma set_difference_nil (s t : list string) :
  (forall v, In v s -> In v t) -> set_difference s t = [].
Proof.
  intros H. unfold set_difference. induction s as [| x s IH]; simpl; [reflexivity |].
  rewrite (proj2 (str_mem_In x t)) by (apply H; now left). simpl.
  apply IH. intros v Hv. apply H. now right.
Qed.

Lemma set_difference_In (s t : list string) (v : string) :
  In v s -> ~ In v t -> set_difference s t <> [].
Proof.
  intros Hs Ht Hnil.
  assert (Hin : In v (set_difference s t)).
  { unfold set_difference. apply filter_In. split; [assumption |].
    destruct (str_mem v t) eqn:E; [| reflexivity].
    apply str_mem_In in E. contradiction. }
  rewrite Hnil in Hin. contradiction.
Qed.

Lemma other_literal_differs (k var : string) (bk : bool) :
  is_variable k = Ok true -> is_variable var = Ok true -> k <> var ->
  Formula_eq (literal (k, bk)) (Leaf var) = false /\
  Formula_eq (literal (k, bk)) (negation (Leaf var)) = false.
Proof.
  intros Hk Hvar Hne. unfold Formula_eq.
  split; apply not_true_is_false; intros Heq; apply String.eqb_eq in Heq;
    destruct bk; simpl in Heq.
  - contradiction.
  - pose proof (negated_name_differs k var Hvar) as Hd.
    rewrite Heq, String.eqb_refl in Hd. discriminate.
  - pose proof (negated_name_differs var k Hk) as Hd.
    rewrite <- Heq, String.eqb_refl in Hd. discriminate.
  - injection Heq as Heq. contradiction.
Qed.

(** [prove_tautology], from a model that assigns a prefix of the sorted
    variables of the tautology, returns a proof of the tautology from the
    formulas that capture the model. *)
Lemma prove_tautology_rec_proves (phi : Formula) :
  implicational phi = true ->
  is_tautology phi = Ok true ->
  forall (rest : list string) (fuel : nat) (model : Model),
    ordered_model model ->
    sorted (variables phi) = dict_keys model ++ rest ->
    (List.length rest <= fuel)%nat ->
    exists p, prove_tautology_rec fuel phi model = Ok p /\
              proves (map literal model) phi p.
Proof.
  intros Himp Ht.
  pose proof (implicational_wf phi Himp) as Hwf.
  pose proof (implicational_operators phi Himp [] eq_refl) as Hops.
  assert (HndS : NoDup (sorted (variables phi))).
  { apply sorted_NoDup, find_variables_NoDup, NoDup_nil. }
  assert (HnamedS : forall v, In v (sorted (variables phi)) ->
                              is_variable v = Ok true).
  { intros v Hv. apply (proj1 (sorted_In _ _)) in Hv. revert v Hv.
    apply find_variables_named. intros v []. }
  pose proof (sorted_in_order (variables phi)) as HordS.
  assert (Hchecks : forall (model : Model) (rest : list string),
             ordered_model model ->
             sorted (variables phi) = dict_keys model ++ rest ->
             strings_eq (prefix (sorted (variables phi)) (List.length model))
                        (sorted (dict_keys model)) = true).
  { intros model rest [_ [_ Hfix]] HS. rewrite Hfix, HS. unfold prefix.
    replace (List.length model) with (List.length (dict_keys model) + 0)%nat
      by (unfold dict_keys; rewrite length_map; lia).
    rewrite firstn_app_2. cbn [firstn]. rewrite app_nil_r.
    apply strings_eq_refl. }
  induction rest as [| var rest IH]; intros fuel model Hm HS Hfuel;
    pose proof (is_model_ordered model Hm) as His;
    pose proof (Hchecks model _ Hm HS) as Hprefix.
  - (* the model assigns every variable *)
    rewrite app_nil_r in HS.
    assert (Hcov : covered phi (dict_keys model)).
    { apply (covered_incl phi (variables phi)); [| now apply find_variables_covered].
      intros v Hv. rewrite <- HS. now apply (proj2 (sorted_In _ _)). }
    destruct (prove_in_model_rec_proves model Hm (size phi) phi (le_n _) Himp Hcov)
      as [p [Hp Hproves]].
    rewrite (tautology_truth phi model Hwf Ht Hcov) in Hproves.
    exists p. split; [| exact Hproves].
    assert (Hdiff : set_difference (variables phi) (dict_keys model) = []).
    { apply set_difference_nil. intros v Hv. rewrite <- HS. now apply (proj2 (sorted_In _ _)). }
    destruct fuel; cbn [prove_tautology_rec]; rewrite Ht; cbn [Py.bind assert];
      unfold operators; rewrite Hops; cbn [Py.bind assert];
      rewrite His; cbn [Py.bind assert]; rewrite Hprefix; cbn [Py.bind assert];
      rewrite Hdiff; exact Hp.
  - (* the model leaves [var] and [rest] unassigned *)
    assert (Hvar : is_variable var = Ok true).
    { apply HnamedS. rewrite HS. apply in_app_iff. right. now left. }
    assert (Hfresh : ~ In var (dict_keys model)).
    { rewrite HS in HndS. apply NoDup_remove_2 in HndS. intros Hin.
      apply HndS. apply in_app_iff. now left. }
    assert (Hdiff : Nat.eqb (List.length (set_difference (variables phi)
                                                         (dict_keys model))) 0
                    = false).
    { apply Nat.eqb_neq. intros Hlen. apply length_zero_iff_nil in Hlen.
      revert Hlen. apply (set_difference_In _ _ var); [| assumption].
      apply (proj1 (sorted_In _ _)). rewrite HS. apply in_app_iff. right. now left. }
    assert (Hfirst : first_unassigned (sorted (variables phi))
                                      (sorted (dict_keys model)) = Some var).
    { destruct Hm as [_ [_ Hfix]]. rewrite Hfix, HS.
      now apply first_unassigned_skip. }
    assert (Hnext : forall b, ordered_model (model ++ [(var, b)]) /\
                              sorted (variables phi)
                              = dict_keys (model ++ [(var, b)]) ++ rest).
    { intros b.
      assert (Hkeys : dict_keys (model ++ [(var, b)]) = dict_keys model ++ [var]).
      { unfold dict_keys. now rewrite map_app. }
      assert (HS' : sorted (variables phi) = (dict_keys model ++ [var]) ++ rest).
      { rewrite <- app_assoc. exact HS. }
      unfold ordered_model. rewrite Hkeys.
      split; [| exact HS'].
      split; [| split].
      - rewrite HS' in HndS. now apply NoDup_app_remove_r in HndS.
      - intros v Hv. apply HnamedS. rewrite HS'. apply in_app_iff. now left.
      - apply sorted_fixed. rewrite HS' in HordS.
        now apply in_order_app_l in HordS. }
    destruct fuel as [| fuel]; [simpl in Hfuel; lia |].
    destruct (Hnext true) as [Hmt HSt]. destruct (Hnext false) as [Hmf HSf].
    destruct (IH fuel _ Hmt HSt) as [pa [Hreca Hpa]]; [simpl in Hfuel; lia |].
    destruct (IH fuel _ Hmf HSf) as [pn [Hrecn Hpn]]; [simpl in Hfuel; lia |].
    rewrite map_app in Hpa, Hpn. cbn [map literal negb] in Hpa, Hpn.
    destruct (reduce_assumption_proves (map literal model) (Leaf var) phi pa pn
                Hpa Hpn) as [p [Hp Hproves]].
    { intros a Ha. apply in_map_iff in Ha. destruct Ha as [[k bk] [<- Hk]].
      assert (Hkin : In k (dict_keys model)) by (apply (in_map fst) in Hk; exact Hk).
      apply other_literal_differs; [| assumption |].
      - destruct Hm as [_ [Hnamed _]]. now apply Hnamed.
      - intros ->. contradiction. }
    exists p. split; [| exact Hproves].
    cbn [prove_tautology_rec]. rewrite Ht. cbn [Py.bind assert].
    unfold operators. rewrite Hops. cbn [Py.bind assert].
    rewrite His. cbn [Py.bind assert]. rewrite Hprefix. cbn [Py.bind assert].
    rewrite Hdiff, Hfirst.
    rewrite !dict_set_fresh by assumption.
    rewrite Hreca. cbn [Py.bind]. rewrite Hrecn. cbn [Py.bind]. exact Hp.
Qed.

Lemma insert_sorted_length (x : string) (l : list string) :
  List.length (insert_sorted x l) = S (List.length l).
Proof.
  induction l as [| y l IH]; simpl; [reflexivity |].
  destruct (String.leb x y); simpl; [reflexivity | now rewrite IH].
Qed.

Lemma sorted_length (l : list string) : List.length (sorted l) = List.length l.
Proof.
  induction l as [| x l IH]; simpl; [reflexivity |].
  now rewrite insert_sorted_length, IH.
Qed.

Lemma find_operators_incl (f : Formula) :
  forall acc x, In x acc -> In x (find_operators f acc).
Proof.
  induction f as [r | r a IHa | r a IHa b IHb]; simpl; intros acc x Hx.
  - destruct (is_constant r); [| assumption]. apply set_add_In. now right.
  - apply IHa. apply set_add_In. now right.
  - apply IHb, IHa. apply set_add_In. now right.
Qed.

(** A formula the constructor accepts whose [operators()] are among ['->']
    and ['~'] is built from variable names with these two operators. *)
Lemma operators_implicational (f : Formula) :
  wf f = true ->
  forall acc,
    (forall x, In x (find_operators f acc) -> In x ["->"; "~"]%string) ->
    implicational f = true.
Proof.
  induction f as [r | r a IHa | r a IHa b IHb]; simpl; intros Hwf acc Hops.
  - destruct (is_variable r) as [v |]; [| discriminate].
    destruct (is_constant r) eqn:Hc.
    + exfalso. specialize (Hops r (proj2 (set_add_In r r acc) (or_introl eq_refl))).
      destruct Hops as [<- | [<- | []]]; discriminate.
    + now rewrite orb_false_r in Hwf.
  - apply andb_true_iff in Hwf. destruct Hwf as [Hr Ha].
    unfold is_unary in Hr. rewrite Hr. apply (IHa Ha _ Hops).
  - apply andb_true_iff in Hwf. destruct Hwf as [Hwf Hb].
    apply andb_true_iff in Hwf. destruct Hwf as [Hr Ha].
    assert (Hroot : r = "->"%string).
    { assert (Hin : In r ["->"; "~"]%string).
      { apply Hops. apply find_operators_incl, find_operators_incl.
        apply set_add_In. now left. }
      destruct Hin as [<- | [<- | []]]; [reflexivity | discriminate]. }
    subst r. cbn [String.eqb Ascii.eqb Bool.eqb andb].
    rewrite (IHb Hb _ Hops). rewrite (IHa Ha (set_add "->" acc)); [reflexivity |].
    intros x Hx. apply Hops. now apply find_operators_incl.
Qed.

(** C1: for every formula [phi] (an object the constructor accepts) that is
    a tautology and whose [operators()], which include the constants, are
    among ['->'] and ['~'], [prove_tautology(phi, {})] returns a proof [P]
    with [P.is_valid() == True] whose statement is the assumptionless rule
    with conclusion [phi]. *)
Theorem prove_tautology_returns_valid_proof :
  forall phi : Formula,
    wf phi = true ->
    issubset (operators phi) ["->"; "~"] = true ->
    is_tautology phi = Ok true ->
    exists P : Proof,
      prove_tautology phi [] = Ok P /\
      is_valid P = Ok true /\
      statement P = mkInferenceRule [] phi.
Proof.
  intros phi Hwf Hops Ht.
  assert (Himp : implicational phi = true).
  { apply (operators_implicational phi Hwf []). intros x Hx.
    unfold issubset in Hops. rewrite forallb_forall in Hops.
    apply str_mem_In. now apply Hops. }
  destruct (prove_tautology_rec_proves phi Himp Ht (sorted (variables phi))
              (List.length (variables phi)) [])
    as [P [Hrun Hproves]].
  - split; [constructor | split; [intros v [] | reflexivity]].
  - reflexivity.
  - now rewrite sorted_length.
  - exists P. split; [exact Hrun | split].
    + exact (proves_valid _ _ _ Hproves).
    + exact (proj1 Hproves).
Qed.

Lemma prove_tautology_returns_valid_proof_witness :
  exists P : Proof,
    prove_tautology (Binary "->" (Unary "~" (Leaf "p"))
                            (Binary "->" (Leaf "p") (Leaf "q"))) [] = Ok P /\
    is_valid P = Ok true /\
    statement P
    = mkInferenceRule [] (Binary "->" (Unary "~" (Leaf "p"))
                                 (Binary "->" (Leaf "p") (Leaf "q"))).
Proof.
  apply (prove_tautology_returns_valid_proof
           (Binary "->" (Unary "~" (Leaf "p"))
                   (Binary "->" (Leaf "p") (Leaf "q")))); reflexivity.
Defined.

(* ------------------------------------------------------------------ *)
(** ** Parsing *)
(* ------------------------------------------------------------------ *)

Open Scope string_scope.

(** *** Strings *)

Lemma str_app_assoc (a b c : string) : (a ++ b) ++ c = a ++ (b ++ c).
Proof.
  induction a as [| x a IH]; simpl; [reflexivity | now rewrite IH].
Qed.

Lemma str_app_nil_r (a : string) : a ++ "" = a.
Proof.
  induction a as [| x a IH]; simpl; [reflexivity | now rewrite IH].
Qed.

Lemma str_length_app (a b : string) :
  String.length (a ++ b) = (String.length a + String.length b)%nat.
Proof.
  induction a as [| x a IH]; simpl; [reflexivity | now rewrite IH].
Qed.

Lemma str_len_app (a b : string) : str_len (a ++ b) = (str_len a + str_len b)%Z.
Proof.
  unfold str_len. rewrite str_length_app. lia.
Qed.

Lemma str_len_nonneg (a : string) : (0 <= str_len a)%Z.
Proof.
  unfold str_len. lia.
Qed.

Lemma str_len_String (c : ascii) (a : string) :
  str_len (String c a) = (1 + str_len a)%Z.
Proof.
  unfold str_len. simpl String.length. lia.
Qed.

Lemma characters_app (a b : string) :
  characters (a ++ b) = (characters a ++ characters b)%list.
Proof.
  induction a as [| x a IH]; simpl; [reflexivity | now rewrite IH].
Qed.

Lemma characters_length (a : string) :
  List.length (characters a) = String.length a.
Proof.
  induction a as [| x a IH]; simpl; [reflexivity | now rewrite IH].
Qed.

Lemma len_characters (a : string) : len (characters a) = str_len a.
Proof.
  unfold len, str_len. now rewrite characters_length.
Qed.

Lemma getitem_characters (pre post : string) (c : ascii) :
  getitem (characters (pre ++ String c post)) (str_len pre) = Ok (String c "").
Proof.
  rewrite characters_app, <- len_characters. simpl characters.
  apply getitem_app_len.
Qed.

Lemma str_getitem_at (pre post : string) (c : ascii) :
  str_getitem (pre ++ String c post) (str_len pre) = Ok (String c "").
Proof.
  apply getitem_characters.
Qed.

Lemma str_getitem_at_eq (s pre post : string) (c : ascii) (i : Z) :
  s = pre ++ String c post -> i = str_len pre ->
  str_getitem s i = Ok (String c "").
Proof.
  intros -> ->. apply str_getitem_at.
Qed.

Lemma substring_skip (pre x : string) (m : nat) :
  substring (String.length pre) m (pre ++ x) = substring 0 m x.
Proof.
  induction pre as [| c pre IH]; simpl; [reflexivity | exact IH].
Qed.

Lemma substring_take (mid post : string) :
  substring 0 (String.length mid) (mid ++ post) = mid.
Proof.
  induction mid as [| c mid IH]; simpl.
  - now destruct post.
  - now rewrite IH.
Qed.

Lemma slice_bound_in (n i : Z) : (0 <= i <= n)%Z -> slice_bound n i = i.
Proof.
  intros H. unfold slice_bound.
  destruct (Z.ltb_spec i 0); lia.
Qed.

Lemma slice_app (pre mid post : string) :
  slice (pre ++ mid ++ post) (str_len pre) (str_len pre + str_len mid) = mid.
Proof.
  pose proof (str_len_nonneg pre). pose proof (str_len_nonneg mid).
  pose proof (str_len_nonneg post).
  unfold slice. rewrite !slice_bound_in by (rewrite !str_len_app; lia).
  replace (Z.to_nat (str_len pre)) with (String.length pre)
    by (unfold str_len; lia).
  replace (Z.to_nat (str_len pre + str_len mid - str_len pre))
    with (String.length mid) by (unfold str_len; lia).
  rewrite substring_skip. apply substring_take.
Qed.

Lemma slice_from_app (pre post : string) :
  slice_from (pre ++ post) (str_len pre) = post.
Proof.
  unfold slice_from. rewrite str_len_app.
  rewrite <- (str_app_nil_r post) at 1. apply slice_app.
Qed.

Lemma slice_from_end (s : string) : slice_from s (str_len s) = "".
Proof.
  rewrite <- (str_app_nil_r s) at 1. apply slice_from_app.
Qed.

Lemma slice_first (pre post : string) (c : ascii) (k : Z) :
  (0 < k)%Z ->
  exists t, slice (pre ++ String c post) (str_len pre) (str_len pre + k)
            = String c t.
Proof.
  intros Hk.
  pose proof (str_len_nonneg pre). pose proof (str_len_nonneg post).
  unfold slice.
  rewrite (slice_bound_in _ (str_len pre))
    by (rewrite str_len_app, str_len_String; lia).
  replace (Z.to_nat (str_len pre)) with (String.length pre)
    by (unfold str_len; lia).
  rewrite substring_skip.
  assert (Hpos : (0 < slice_bound (str_len (pre ++ String c post))
                                  (str_len pre + k) - str_len pre)%Z).
  { unfold slice_bound. rewrite str_len_app, str_len_String.
    destruct (Z.ltb_spec (str_len pre + k) 0); lia. }
  destruct (Z.to_nat _) as [| m] eqn:E; [lia |].
  simpl. eexists. reflexivity.
Qed.

(** *** The loop of the propositional [parse_prefix] *)

Ltac scan_fields :=
  unfold scanned in *;
  cbn [index open_number close_number operator_number index_close
       index_operator count_par to_return] in *.

Lemma if_same {A : Type} (b : bool) (x : A) : (if b then x else x) = x.
Proof.
  now destruct b.
Qed.

Lemma quiet_cases (c : ascii) :
  quiet c = true ->
  Ascii.eqb c "(" = false /\ Ascii.eqb c ")" = false /\
  Ascii.eqb c "&" = false /\ Ascii.eqb c "|" = false /\
  Ascii.eqb c "+" = false /\ Ascii.eqb c "-" = false /\
  Ascii.eqb c "<" = false.
Proof.
  unfold quiet. cbn [existsb]. rewrite negb_true_iff, !orb_false_iff. tauto.
Qed.

Lemma scan_loop_step (fuel : nat) (s : string) (to_parse : list string)
      (st : Scan) :
  (index st < str_len s)%Z ->
  scan_loop (S fuel) s to_parse st
  = (step <- scan_step s to_parse st ;;
     match step with
     | Next st' => scan_loop fuel s to_parse st'
     | Break st' => Ok (inl st')
     | Return msg => Ok (inr msg)
     end).
Proof.
  intros H. cbn [scan_loop]. now rewrite (proj2 (Z.ltb_lt _ _) H).
Qed.

Lemma scan_step_quiet (pre post : string) (c : ascii) (st : Scan) :
  quiet c = true -> index st = str_len pre ->
  open_number st <> close_number st ->
  scan_step (pre ++ String c post) (characters (pre ++ String c post)) st
  = Ok (Next (scanned st 1 0 (index_close st))).
Proof.
  intros Hq Hi Hopen.
  destruct (quiet_cases c Hq) as [H1 [H2 [H3 [H4 [H5 [H6 H7]]]]]].
  destruct st as [i o cl n ic io cp tr]. cbn [index open_number close_number] in *.
  subst i. unfold scan_step, scan_branch. cbn [index].
  rewrite getitem_characters. cbn [Py.bind].
  unfold is_binary. cbn [String.eqb existsb].
  rewrite H1, H2, H3, H4, H5, H6, H7. cbn [andb orb].
  destruct (slice_first pre post c 2 ltac:(lia)) as [t2 Ht2].
  destruct (slice_first pre post c 3 ltac:(lia)) as [t3 Ht3].
  rewrite Ht2, Ht3. cbn [String.eqb]. rewrite H6, H7. cbn [andb orb].
  rewrite !andb_false_r. rewrite !str_getitem_at. cbn [Py.bind String.eqb].
  rewrite H6, H7. cbn [andb].
  rewrite ?if_same. cbn [Py.bind]. rewrite ?if_same. cbn [Py.bind].
  cbn [index open_number close_number operator_number index_close
       index_operator count_par to_return].
  rewrite (proj2 (Z.eqb_neq o cl) Hopen).
  unfold scanned. cbn [index open_number close_number operator_number
                       index_close index_operator count_par to_return].
  now rewrite !Z.add_0_r.
Qed.

Lemma scanned_scanned (st : Scan) (n k ic n' k' ic' : Z) :
  scanned (scanned st n k ic) n' k' ic' = scanned st (n + n') (k + k') ic'.
Proof.
  unfold scanned. cbn. f_equal; lia.
Qed.

Lemma scanned_zero (st : Scan) : scanned st 0 0 (index_close st) = st.
Proof.
  destruct st. unfold scanned. cbn. now rewrite !Z.add_0_r.
Qed.

Lemma str_len_empty : str_len "" = 0%Z.
Proof.
  reflexivity.
Qed.

(** The loop passes over a word of characters it does not react to. *)
Lemma scan_quiet (w : string) :
  all_chars quiet w = true ->
  forall (s pre post : string) (st : Scan) (fuel : nat),
    s = pre ++ w ++ post -> index st = str_len pre ->
    open_number st <> close_number st ->
    scan_loop (String.length w + fuel) s (characters s) st
    = scan_loop fuel s (characters s)
                (scanned st (str_len w) 0 (index_close st)).
Proof.
  induction w as [| c w IH]; intros Hq s pre post st fuel Hs Hi Ho.
  - cbn [String.length Nat.add]. rewrite str_len_empty. now rewrite scanned_zero.
  - cbn [all_chars] in Hq. apply andb_true_iff in Hq. destruct Hq as [Hc Hw].
    cbn [String.length Nat.add]. rewrite scan_loop_step.
    2:{ rewrite Hi, Hs, !str_len_app, str_len_String.
        pose proof (str_len_nonneg w). pose proof (str_len_nonneg post). lia. }
    subst s. cbn [append].
    rewrite (scan_step_quiet pre (w ++ post) c st Hc Hi Ho). cbn [Py.bind].
    rewrite (IH Hw (pre ++ String c (w ++ post)) (pre ++ String c "") post
                (scanned st 1 0 (index_close st)) fuel).
    + rewrite scanned_scanned. rewrite str_len_String.
      unfold scanned. cbn. reflexivity.
    + rewrite str_app_assoc. reflexivity.
    + cbn. rewrite Hi, str_len_app, str_len_String, str_len_empty. lia.
    + cbn. rewrite !Z.add_0_r. assumption.
Qed.

Lemma quiet_intro (c : ascii) :
  (forall x, In x ["("; ")"; "&"; "|"; "+"; "-"; "<"]%char -> c <> x) ->
  quiet c = true.
Proof.
  intros H. unfold quiet. apply negb_true_iff. apply not_true_is_false.
  intros Hex. apply existsb_exists in Hex. destruct Hex as [x [Hx Heq]].
  apply Ascii.eqb_eq in Heq. now apply (H x).
Qed.

Lemma variable_start_quiet (c : ascii) : between "p" c "z" = true -> quiet c = true.
Proof.
  intros Hb. apply quiet_intro. intros x Hx ->.
  repeat (destruct Hx as [<- | Hx]; [discriminate |]). contradiction.
Qed.

Lemma digit_quiet (c : ascii) : is_digit_char c = true -> quiet c = true.
Proof.
  intros Hb. apply quiet_intro. intros x Hx ->.
  repeat (destruct Hx as [<- | Hx]; [discriminate |]). contradiction.
Qed.

Lemma digits_quiet (w : string) :
  all_chars is_digit_char w = true -> all_chars quiet w = true.
Proof.
  induction w as [| c w IH]; cbn [all_chars]; [reflexivity |].
  intros H. apply andb_true_iff in H. destruct H as [Hc Hw].
  now rewrite (digit_quiet c Hc), IH.
Qed.

(** A variable name is a letter from ['p'] to ['z'] followed by digits. *)
Lemma is_variable_shape (r : string) :
  is_variable r = Ok true ->
  exists c rest, r = String c rest /\ between "p" c "z" = true /\
                 all_chars is_digit_char rest = true.
Proof.
  destruct r as [| c rest]; [discriminate |]. unfold is_variable.
  intros H. injection H as H. apply andb_true_iff in H. destruct H as [Hc H].
  exists c, rest. split; [reflexivity | split; [assumption |]].
  apply orb_true_iff in H. destruct H as [H | H].
  - destruct rest; [reflexivity | discriminate].
  - destruct rest; [reflexivity | exact H].
Qed.

Lemma leaf_quiet (r : string) : wf (Leaf r) = true -> all_chars quiet r = true.
Proof.
  cbn [wf]. destruct (is_variable r) as [[|] |] eqn:Hv; try discriminate.
  - intros _. destruct (is_variable_shape r Hv) as [c [rest [-> [Hc Hrest]]]].
    cbn [all_chars]. now rewrite (variable_start_quiet c Hc), digits_quiet.
  - cbn [orb]. unfold is_constant. intros H. apply orb_true_iff in H.
    destruct H as [H | H]; apply String.eqb_eq in H; subst; reflexivity.
Qed.

Lemma scan_step_open (s pre post : string) (st : Scan) :
  s = pre ++ String "(" post -> index st = str_len pre ->
  (open_number st + 1)%Z <> close_number st ->
  scan_step s (characters s) st
  = Ok (Next (mkScan (index st + 1) (open_number st + 1) (close_number st)
                     (operator_number st) (index_close st) (index_operator st)
                     (count_par st + 1) (to_return st))).
Proof.
  intros -> Hi Ho. destruct st as [i o cl n ic io cp tr]. cbn in Hi, Ho.
  subst i. unfold scan_step, scan_branch. cbn [index].
  rewrite getitem_characters. cbn.
  now rewrite (proj2 (Z.eqb_neq _ _) Ho).
Qed.

Lemma scan_step_close (s pre post : string) (st : Scan) :
  s = pre ++ String ")" post -> index st = str_len pre ->
  scan_step s (characters s) st
  = Ok (if (open_number st =? close_number st + 1)%Z
        then Break (mkScan (index st + 1) (open_number st) (close_number st + 1)
                           (operator_number st) (index st) (index_operator st)
                           (count_par st - 1) (slice_from s (index st + 1)))
        else Next (mkScan (index st + 1) (open_number st) (close_number st + 1)
                          (operator_number st) (index st) (index_operator st)
                          (count_par st - 1) (to_return st))).
Proof.
  intros -> Hi. destruct st as [i o cl n ic io cp tr]. cbn in Hi.
  subst i. unfold scan_step, scan_branch. cbn [index].
  rewrite getitem_characters.
  cbn -[slice_from Z.add Z.sub Z.eqb].
  now destruct (o =? cl + 1)%Z.
Qed.

Lemma slice_app2 (s pre mid post : string) (i : Z) :
  s = pre ++ mid ++ post -> i = str_len pre ->
  forall j, j = (i + str_len mid)%Z -> slice s i j = mid.
Proof.
  intros -> -> j ->. apply slice_app.
Qed.

(** The loop passes over a binary operator in one round, two for ['<->'],
    counts it, and marks it when it is directly inside the outer
    parentheses. *)
Lemma scan_operator (r : string) :
  is_binary r = true ->
  exists m, (m <= String.length r)%nat /\
  forall (s pre post : string) (st : Scan) (fuel : nat),
    s = pre ++ r ++ post -> index st = str_len pre ->
    open_number st <> close_number st ->
    scan_loop (m + fuel) s (characters s) st
    = scan_loop fuel s (characters s)
        (mkScan (index st + str_len r) (open_number st) (close_number st)
                (operator_number st + 1) (index_close st)
                (if (count_par st =? 1)%Z
                 then (index st + operator_mark r)%Z
                 else index_operator st)
                (count_par st) (to_return st)).
Proof.
  intros Hr.
  assert (Hone : forall c : ascii,
             is_binary (String c "") = true ->
             Ascii.eqb c "(" = false -> Ascii.eqb c ")" = false ->
             forall (s pre post : string) (st : Scan) (fuel : nat),
               s = pre ++ String c "" ++ post -> index st = str_len pre ->
               open_number st <> close_number st ->
               scan_loop (1 + fuel) s (characters s) st
               = scan_loop fuel s (characters s)
                   (mkScan (index st + 1) (open_number st)
                           (close_number st) (operator_number st + 1)
                           (index_close st)
                           (if (count_par st =? 1)%Z then (index st + 0)%Z
                            else index_operator st)
                           (count_par st) (to_return st))).
  { intros c Hc H1 H2 s pre post st fuel Hs Hi Ho.
    cbn [Nat.add]. rewrite scan_loop_step.
    2:{ rewrite Hi, Hs, !str_len_app, str_len_String.
        pose proof (str_len_nonneg post). rewrite str_len_empty. lia. }
    subst s. cbn [append].
    destruct st as [i o cl n ic io cp tr]. cbn in Hi, Ho. subst i.
    unfold scan_step, scan_branch. cbn [index].
    rewrite getitem_characters. cbn [Py.bind String.eqb].
    rewrite H1, H2, Hc. cbn [andb Py.bind].
    cbn [index open_number close_number operator_number index_close
         index_operator count_par to_return].
    rewrite (proj2 (Z.eqb_neq _ _) Ho). now rewrite Z.add_0_r. }
  assert (Htwo : forall c : ascii,
             is_binary (String "-" (String c "")) = true ->
             forall (s pre post : string) (st : Scan) (fuel : nat),
               s = pre ++ String "-" (String c "") ++ post ->
               index st = str_len pre ->
               open_number st <> close_number st ->
               scan_loop (1 + fuel) s (characters s) st
               = scan_loop fuel s (characters s)
                   (mkScan (index st + 2) (open_number st)
                           (close_number st) (operator_number st + 1)
                           (index_close st)
                           (if (count_par st =? 1)%Z then (index st + 1)%Z
                            else index_operator st)
                           (count_par st) (to_return st))).
  { intros c Hc s pre post st fuel Hs Hi Ho.
    cbn [Nat.add]. rewrite scan_loop_step.
    2:{ rewrite Hi, Hs, !str_len_app, !str_len_String.
        pose proof (str_len_nonneg post). rewrite str_len_empty. lia. }
    destruct st as [i o cl n ic io cp tr]. cbn in Hi, Ho. subst i.
    unfold scan_step, scan_branch. cbn [index].
    assert (Hget : getitem (characters s) (str_len pre) = Ok "-").
    { subst s. cbn [append]. apply getitem_characters. }
    rewrite Hget. cbn [Py.bind].
    change (String.eqb "-" "(") with false.
    change (String.eqb "-" ")") with false.
    change (is_binary "-") with false. cbv iota.
    rewrite (slice_app2 s pre (String "-" (String c "")) post _ Hs eq_refl)
      by (rewrite !str_len_String, str_len_empty; lia).
    assert (Hlen : (str_len pre + 1 <? str_len s)%Z = true).
    { apply Z.ltb_lt. rewrite Hs, !str_len_app, !str_len_String.
      pose proof (str_len_nonneg post). rewrite str_len_empty. lia. }
    rewrite Hlen. cbn [andb].
    assert (Hop : String.eqb (String "-" (String c "")) "->"
                  || String.eqb (String "-" (String c "")) "-&"
                  || String.eqb (String "-" (String c "")) "-|" = true).
    { unfold is_binary in Hc. cbn [existsb] in Hc.
      change (String.eqb (String "-" (String c "")) "&") with false in Hc.
      change (String.eqb (String "-" (String c "")) "|") with false in Hc.
      change (String.eqb (String "-" (String c "")) "+") with false in Hc.
      change (String.eqb (String "-" (String c "")) "<->") with false in Hc.
      cbn [orb] in Hc. rewrite orb_false_r in Hc.
      rewrite <- orb_assoc. exact Hc. }
    rewrite Hop. cbn [Py.bind].
    cbn [index open_number close_number operator_number index_close
         index_operator count_par to_return].
    rewrite (proj2 (Z.eqb_neq _ _) Ho).
    replace (str_len pre + 1 + 1)%Z with (str_len pre + 2)%Z by lia.
    reflexivity. }
  destruct (is_binary_cases r Hr) as [-> | [-> | [-> | [-> | [-> | [-> | ->]]]]]].
  - exists 1%nat. split; [simpl; lia |]. intros s pre post st fuel Hs Hi Ho.
    rewrite (Hone "&"%char eq_refl eq_refl eq_refl s pre post st fuel Hs Hi Ho).
    reflexivity.
  - exists 1%nat. split; [simpl; lia |]. intros s pre post st fuel Hs Hi Ho.
    rewrite (Hone "|"%char eq_refl eq_refl eq_refl s pre post st fuel Hs Hi Ho).
    reflexivity.
  - exists 1%nat. split; [simpl; lia |]. intros s pre post st fuel Hs Hi Ho.
    rewrite (Htwo ">"%char eq_refl s pre post st fuel Hs Hi Ho). reflexivity.
  - exists 1%nat. split; [simpl; lia |]. intros s pre post st fuel Hs Hi Ho.
    rewrite (Hone "+"%char eq_refl eq_refl eq_refl s pre post st fuel Hs Hi Ho).
    reflexivity.
  - (* '<->': the round at '<' skips '-', the next one passes '>' *)
    exists 2%nat. split; [simpl; lia |]. intros s pre post st fuel Hs Hi Ho.
    cbn [Nat.add]. rewrite scan_loop_step.
    2:{ rewrite Hi, Hs, !str_len_app.
        pose proof (str_len_nonneg post).
        change (str_len "<->") with 3%Z. lia. }
    destruct st as [i o cl n ic io cp tr]. cbn in Hi, Ho. subst i.
    unfold scan_step at 1. unfold scan_branch. cbn [index].
    assert (Hget : getitem (characters s) (str_len pre) = Ok "<").
    { subst s. cbn [append]. apply getitem_characters. }
    rewrite Hget. cbn [Py.bind].
    change (String.eqb "<" "(") with false.
    change (String.eqb "<" ")") with false.
    change (is_binary "<") with false. cbv iota.
    rewrite (slice_app2 s pre "<-" (">" ++ post) (str_len pre))
      by (try reflexivity; subst s; now rewrite ?str_app_assoc).
    change (String.eqb "<-" "->") with false.
    change (String.eqb "<-" "-&") with false.
    change (String.eqb "<-" "-|") with false.
    rewrite andb_false_r. cbv iota.
    rewrite (slice_app2 s pre "<->" post (str_len pre) Hs eq_refl)
      by reflexivity.
    assert (Hlen : (str_len pre + 2 <? str_len s)%Z = true).
    { apply Z.ltb_lt. rewrite Hs, !str_len_app.
      pose proof (str_len_nonneg post). change (str_len "<->") with 3%Z. lia. }
    rewrite Hlen. cbn [andb String.eqb Ascii.eqb Bool.eqb Py.bind].
    cbn [index open_number close_number operator_number index_close
         index_operator count_par to_return].
    rewrite (proj2 (Z.eqb_neq _ _) Ho).
    cbn [Py.bind].
    change (S fuel) with (String.length ">" + fuel)%nat.
    rewrite (scan_quiet ">" eq_refl s (pre ++ "<-") post); cycle 1.
    + subst s. now rewrite ?str_app_assoc.
    + cbn [index]. rewrite str_len_app. change (str_len "<-") with 2%Z. lia.
    + exact Ho.
    + unfold scanned. cbn [index open_number close_number operator_number
                           index_close index_operator count_par to_return].
      change (str_len ">") with 1%Z. change (str_len "<->") with 3%Z.
      change (operator_mark "<->") with 1%Z.
      rewrite !Z.add_0_r.
      replace (str_len pre + 1 + 1 + 1)%Z with (str_len pre + 3)%Z by lia.
      reflexivity.
  - exists 1%nat. split; [simpl; lia |]. intros s pre post st fuel Hs Hi Ho.
    rewrite (Htwo "&"%char eq_refl s pre post st fuel Hs Hi Ho). reflexivity.
  - exists 1%nat. split; [simpl; lia |]. intros s pre post st fuel Hs Hi Ho.
    rewrite (Htwo "|"%char eq_refl s pre post st fuel Hs Hi Ho). reflexivity.
Qed.

(** From the ['('] of a binary formula to just before its [')']. *)
Lemma scan_inside (r : string) (a b : Formula) (ma mb : nat) :
  is_binary r = true -> passes a ma -> passes b mb ->
  exists mop, (mop <= String.length r)%nat /\
  forall (s pre post : string) (st : Scan) (fuel : nat),
    s = pre ++ "(" ++ repr a ++ r ++ repr b ++ post ->
    index st = str_len pre -> (0 <= count_par st)%Z ->
    (open_number st - close_number st = count_par st)%Z ->
    exists k ic,
      scan_loop (1 + (ma + (mop + (mb + fuel)))) s (characters s) st
      = scan_loop fuel s (characters s)
          (mkScan (index st + 1 + str_len (repr a) + str_len r
                   + str_len (repr b))
                  (open_number st + 1 + k) (close_number st + k)
                  (operator_number st + 1 + k) ic
                  (if (count_par st =? 0)%Z
                   then (index st + 1 + str_len (repr a) + operator_mark r)%Z
                   else index_operator st)
                  (count_par st + 1) (to_return st)).
Proof.
  intros Hr Ha Hb. destruct (scan_operator r Hr) as [mop [Hmop Hop]].
  exists mop. split; [exact Hmop |].
  intros s pre post st fuel Hs Hi Hcp Hbal.
  destruct st as [i o cl n ic io cp tr]. cbn in Hi, Hcp, Hbal. subst i.
  pose proof (str_len_nonneg pre) as Hpre.
  pose proof (str_len_nonneg (repr a)) as Hla.
  pose proof (str_len_nonneg (repr b)) as Hlb.
  pose proof (str_len_nonneg r) as Hlr.
  pose proof (str_len_nonneg post) as Hpost.
  (* the opening parenthesis *)
  cbn [Nat.add]. rewrite scan_loop_step.
  2:{ cbn [index]. rewrite Hs, !str_len_app. change (str_len "(") with 1%Z. lia. }
  rewrite (scan_step_open s pre (repr a ++ r ++ repr b ++ post));
    [| exact Hs | reflexivity | scan_fields; lia].
  cbn [Py.bind]. scan_fields.
  (* the first operand *)
  destruct (Ha s (pre ++ "(") (r ++ repr b ++ post)
               (mkScan (str_len pre + 1) (o + 1) cl n ic io (cp + 1) tr)
               (mop + (mb + fuel))%nat)
    as [ka [ica Hscan_a]].
  { subst s. now rewrite ?str_app_assoc. }
  { scan_fields. rewrite str_len_app. reflexivity. }
  { scan_fields. lia. }
  { scan_fields. lia. }
  rewrite Hscan_a. unfold scanned.
  scan_fields.
  (* the operator *)
  rewrite (Hop s (pre ++ "(" ++ repr a) (repr b ++ post)); cycle 1.
  { subst s. now rewrite ?str_app_assoc. }
  { scan_fields. rewrite !str_len_app. change (str_len "(") with 1%Z. lia. }
  { scan_fields. lia. }
  scan_fields.
  (* the second operand *)
  destruct (Hb s (pre ++ "(" ++ repr a ++ r) post
               (mkScan (str_len pre + 1 + str_len (repr a) + str_len r)
                       (o + 1 + ka) (cl + ka) (n + ka + 1) ica
                       (if (cp + 1 =? 1)%Z
                        then (str_len pre + 1 + str_len (repr a)
                              + operator_mark r)%Z
                        else io) (cp + 1) tr) fuel)
    as [kb [icb Hscan_b]].
  { subst s. now rewrite ?str_app_assoc. }
  { scan_fields. rewrite !str_len_app. change (str_len "(") with 1%Z. lia. }
  { scan_fields. lia. }
  { scan_fields. lia. }
  rewrite Hscan_b. unfold scanned.
  scan_fields.
  exists (ka + kb)%Z, icb. f_equal. f_equal; try lia.
  destruct (Z.eqb_spec (cp + 1) 1), (Z.eqb_spec cp 0); try lia; reflexivity.
Qed.

(** The loop passes over every formula that stands inside parentheses. *)
Lemma scan_formula (g : Formula) :
  wf g = true -> exists m, (m <= String.length (repr g))%nat /\ passes g m.
Proof.
  induction g as [r | r a IHa | r a IHa b IHb]; intros Hwf.
  - exists (String.length r). split; [reflexivity |].
    intros s pre post st fuel Hs Hi Hcp Hbal.
    exists 0%Z, (index_close st). cbn [repr] in *.
    apply (scan_quiet r (leaf_quiet r Hwf) s pre post st fuel Hs Hi). lia.
  - cbn [wf] in Hwf. apply andb_true_iff in Hwf. destruct Hwf as [Hr Hwf].
    apply String.eqb_eq in Hr. subst r.
    destruct (IHa Hwf) as [ma [Hma Ha]].
    exists (1 + ma)%nat. split; [cbn [repr append String.length]; lia |].
    intros s pre post st fuel Hs Hi Hcp Hbal. cbn [repr] in *.
    change (1 + ma + fuel)%nat with (String.length "~" + (ma + fuel))%nat.
    rewrite (scan_quiet "~" eq_refl s pre (repr a ++ post) st);
      [| subst s; now rewrite ?str_app_assoc | exact Hi | lia].
    destruct (Ha s (pre ++ "~") post (scanned st (str_len "~") 0 (index_close st))
                 fuel) as [k [ic Hscan]].
    { subst s. now rewrite ?str_app_assoc. }
    { scan_fields. rewrite Hi, str_len_app. reflexivity. }
    { scan_fields. exact Hcp. }
    { scan_fields. lia. }
    exists k, ic. rewrite Hscan, scanned_scanned. f_equal.
    rewrite str_len_app. reflexivity.
  - cbn [wf] in Hwf. apply andb_true_iff in Hwf. destruct Hwf as [Hwf Hwb].
    apply andb_true_iff in Hwf. destruct Hwf as [Hr Hwa].
    destruct (IHa Hwa) as [ma [Hma Ha]]. destruct (IHb Hwb) as [mb [Hmb Hb]].
    destruct (scan_inside r a b ma mb Hr Ha Hb) as [mop [Hmop Hin]].
    exists (1 + (ma + (mop + (mb + 1))))%nat. split.
    { cbn [repr]. rewrite !str_length_app. cbn [String.length]. lia. }
    intros s pre post st fuel Hs Hi Hcp Hbal. cbn [repr] in *.
    destruct (Hin s pre (")" ++ post) st (1 + fuel)%nat) as [k [ic Hscan]];
      [subst s; now rewrite ?str_app_assoc | exact Hi | lia | exact Hbal |].
    replace (1 + (ma + (mop + (mb + 1))) + fuel)%nat
      with (1 + (ma + (mop + (mb + (1 + fuel)))))%nat by lia.
    rewrite Hscan. clear Hscan.
    pose proof (str_len_nonneg pre). pose proof (str_len_nonneg (repr a)).
    pose proof (str_len_nonneg (repr b)). pose proof (str_len_nonneg r).
    pose proof (str_len_nonneg post).
    cbn [Nat.add]. rewrite scan_loop_step.
    2:{ cbn [index]. rewrite Hi, Hs, !str_len_app.
        change (str_len "(") with 1%Z. change (str_len ")") with 1%Z. lia. }
    rewrite (scan_step_close s (pre ++ "(" ++ repr a ++ r ++ repr b) post);
      [| subst s; now rewrite ?str_app_assoc
       | cbn [index]; rewrite Hi, !str_len_app; change (str_len "(") with 1%Z;
         lia].
    scan_fields.
    destruct (Z.eqb_spec (open_number st + 1 + k) (close_number st + k + 1));
      [lia |].
    cbn [Py.bind].
    exists (1 + k)%Z, (index st + 1 + str_len (repr a) + str_len r
                       + str_len (repr b))%Z.
    f_equal. unfold scanned. rewrite !str_len_app.
    change (str_len "(") with 1%Z. change (str_len ")") with 1%Z.
    f_equal; try lia.
    destruct (Z.eqb_spec (count_par st) 0); [lia | reflexivity].
Qed.

(** On the representation of a binary formula the loop ends at the last
    character, with equal counts and the root operator marked. *)
Lemma scan_binary (r : string) (a b : Formula) :
  wf (Binary r a b) = true ->
  exists k,
    scan_loop (String.length (repr (Binary r a b))) (repr (Binary r a b))
              (characters (repr (Binary r a b))) (mkScan 0 0 0 0 0 0 0 "")
    = Ok (inl (mkScan (str_len (repr (Binary r a b))) k k k
                      (str_len (repr (Binary r a b)) - 1)
                      (1 + str_len (repr a) + operator_mark r) 0 "")).
Proof.
  intros Hwf.
  cbn [wf] in Hwf. apply andb_true_iff in Hwf. destruct Hwf as [Hwf Hwb].
  apply andb_true_iff in Hwf. destruct Hwf as [Hr Hwa].
  destruct (scan_formula a Hwa) as [ma [Hma Ha]].
  destruct (scan_formula b Hwb) as [mb [Hmb Hb]].
  destruct (scan_inside r a b ma mb Hr Ha Hb) as [mop [Hmop Hin]].
  set (s := repr (Binary r a b)).
  assert (Hs : s = "" ++ "(" ++ repr a ++ r ++ repr b ++ ")" ++ "").
  { subst s. cbn [repr append]. now rewrite ?str_app_assoc. }
  assert (Hlen : str_len s = (1 + str_len (repr a) + str_len r
                              + str_len (repr b) + 1)%Z).
  { rewrite Hs, !str_len_app. change (str_len "(") with 1%Z.
    change (str_len ")") with 1%Z. change (str_len "") with 0%Z. lia. }
  assert (Hfuel : exists rest,
             String.length s = (1 + (ma + (mop + (mb + (1 + rest)))))%nat).
  { exists (String.length s - (1 + (ma + (mop + (mb + 1)))))%nat.
    assert (String.length s
            = (1 + String.length (repr a) + String.length r
               + String.length (repr b) + 1)%nat).
    { subst s. cbn [repr]. rewrite !str_length_app. cbn [String.length]. lia. }
    lia. }
  destruct Hfuel as [rest Hfuel]. rewrite Hfuel.
  destruct (Hin s "" (")" ++ "") (mkScan 0 0 0 0 0 0 0 "") (1 + rest)%nat)
    as [k [ic Hscan]]; [exact Hs | reflexivity | scan_fields; lia | reflexivity |].
  rewrite Hscan. clear Hscan.
  pose proof (str_len_nonneg (repr a)). pose proof (str_len_nonneg (repr b)).
  pose proof (str_len_nonneg r).
  scan_fields.
  cbn [Nat.add]. rewrite scan_loop_step by (cbn [index]; lia).
  rewrite (scan_step_close s ("(" ++ repr a ++ r ++ repr b) "");
    [| subst s; cbn [repr append]; now rewrite ?str_app_assoc
     | cbn [index]; rewrite !str_len_app; change (str_len "(") with 1%Z; lia].
  scan_fields.
  rewrite (proj2 (Z.eqb_eq (0 + 1 + k) (0 + k + 1))) by lia.
  cbn [Py.bind]. exists (1 + k)%Z. f_equal. f_equal.
  replace (0 + 1 + str_len (repr a) + str_len r + str_len (repr b) + 1)%Z
    with (str_len s) by lia.
  rewrite slice_from_end. change (0 =? 0)%Z with true. cbv iota.
  f_equal; lia.
Qed.

(** *** The propositional [parse_prefix] on a representation *)

Lemma getitem_characters_at (s pre post : string) (c : ascii) (i : Z) :
  s = pre ++ String c post -> i = str_len pre ->
  getitem (characters s) i = Ok (String c "").
Proof.
  intros -> ->. apply getitem_characters.
Qed.

Lemma parse_var_loop_digits (c : ascii) (todo : string) :
  all_chars is_digit_char todo = true ->
  forall (done : string) (fuel : nat),
    (String.length todo <= fuel)%nat ->
    parse_var_loop fuel (characters (String c (done ++ todo))) (String c done)
                   (1 + str_len done)
    = Ok (String c (done ++ todo), (1 + str_len (done ++ todo))%Z).
Proof.
  induction todo as [| d todo IH]; intros Hd done fuel Hfuel.
  - rewrite str_app_nil_r.
    assert (Hend : (1 + str_len done <? len (characters (String c done)))%Z
                   = false).
    { apply Z.ltb_ge. rewrite len_characters, str_len_String. lia. }
    destruct fuel; cbn [parse_var_loop]; now rewrite Hend.
  - cbn [all_chars] in Hd. apply andb_true_iff in Hd. destruct Hd as [Hd Htodo].
    destruct fuel as [| fuel]; [simpl in Hfuel; lia |].
    cbn [parse_var_loop].
    assert (Hin : (1 + str_len done
                   <? len (characters (String c (done ++ String d todo))))%Z
                  = true).
    { apply Z.ltb_lt. rewrite len_characters, str_len_String, str_len_app,
        str_len_String. pose proof (str_len_nonneg todo). lia. }
    rewrite Hin.
    rewrite (getitem_characters_at _ (String c done) todo d);
      [| reflexivity | now rewrite str_len_String].
    cbn [Py.bind isdigit all_chars]. rewrite Hd. cbn [andb].
    replace (String c done ++ String d "") with (String c (done ++ String d ""))
      by reflexivity.
    replace (1 + str_len done + 1)%Z with (1 + str_len (done ++ String d ""))%Z
      by (rewrite str_len_app, str_len_String, str_len_empty; lia).
    replace (done ++ String d todo) with ((done ++ String d "") ++ todo)
      by now rewrite str_app_assoc.
    apply IH; [assumption | simpl in Hfuel; lia].
Qed.

Lemma parse_var_variable (r : string) :
  is_variable r = Ok true ->
  parse_var 0 (characters r) = Ok (r, str_len r).
Proof.
  intros Hv. destruct (is_variable_shape r Hv) as [c [rest [-> [_ Hrest]]]].
  unfold parse_var.
  rewrite (getitem_characters_at (String c rest) "" rest c 0 eq_refl eq_refl).
  cbn [Py.bind].
  pose proof (parse_var_loop_digits c rest Hrest "" (List.length (characters (String c rest)))) as H.
  cbn [append] in H. change (1 + str_len "")%Z with 1%Z in H.
  change (0 + 1)%Z with 1%Z. rewrite H.
  - now rewrite str_len_String.
  - rewrite characters_length. simpl. lia.
Qed.

Lemma all_chars_last (p : ascii -> bool) (w : string) :
  all_chars p w = true -> w <> "" ->
  exists w' c, w = w' ++ String c "" /\ p c = true.
Proof.
  induction w as [| c w IH]; intros Hp Hne; [contradiction |].
  cbn [all_chars] in Hp. apply andb_true_iff in Hp. destruct Hp as [Hc Hw].
  destruct w as [| d w].
  - exists "", c. split; [reflexivity | assumption].
  - destruct (IH Hw) as [w' [e [Heq He]]]; [discriminate |].
    exists (String c w'), e. split; [| assumption].
    cbn [append]. now rewrite <- Heq.
Qed.

Lemma leaf_nonempty (r : string) : wf (Leaf r) = true -> r <> "".
Proof.
  intros Hwf ->. discriminate.
Qed.

(** A representation ends with a character other than ['-']. *)
Lemma repr_last (g : Formula) :
  wf g = true ->
  exists w c, repr g = w ++ String c "" /\ Ascii.eqb c "-" = false.
Proof.
  induction g as [r | r a IHa | r a IHa b IHb]; intros Hwf.
  - destruct (all_chars_last quiet r (leaf_quiet r Hwf) (leaf_nonempty r Hwf))
      as [w [c [Heq Hc]]].
    exists w, c. split; [exact Heq |]. apply quiet_cases in Hc. tauto.
  - cbn [wf] in Hwf. apply andb_true_iff in Hwf. destruct Hwf as [_ Hwf].
    destruct (IHa Hwf) as [w [c [Heq Hc]]].
    exists (r ++ w), c. split; [| assumption].
    cbn [repr]. now rewrite Heq, str_app_assoc.
  - exists ("(" ++ repr a ++ r ++ repr b), ")"%char. split; [| reflexivity].
    cbn [repr]. now rewrite ?str_app_assoc.
Qed.

Lemma repr_length (g : Formula) :
  wf g = true -> (1 <= String.length (repr g))%nat.
Proof.
  intros Hwf. destruct (repr_last g Hwf) as [w [c [-> _]]].
  rewrite str_length_app. simpl. lia.
Qed.

Lemma Formula_init_leaf (r : string) :
  wf (Leaf r) = true -> Formula_init r None None = Ok (Leaf r).
Proof.
  cbn [wf]. unfold Formula_init.
  destruct (is_variable r) as [v |]; [| discriminate].
  cbn [Py.bind]. now intros ->.
Qed.

Lemma Formula_init_binary (r : string) (a b : Formula) :
  is_binary r = true -> Formula_init r (Some a) (Some b) = Ok (Binary r a b).
Proof.
  intros Hr.
  destruct (is_binary_cases r Hr) as [-> | [-> | [-> | [-> | [-> | [-> | ->]]]]]];
    reflexivity.
Qed.

Lemma variable_start_not_unary (c : ascii) :
  between "p" c "z" = true -> is_unary (String c "") = false.
Proof.
  intros Hc. unfold is_unary. cbn [String.eqb].
  destruct (Ascii.eqb_spec c "~") as [-> | _]; [discriminate | reflexivity].
Qed.

(** On the representation of a formula [parse_prefix] returns the formula
    and the empty rest. *)
Lemma parse_prefix_repr (f : Formula) :
  wf f = true ->
  forall fuel, (String.length (repr f) <= fuel)%nat ->
               parse_prefix_rec fuel (repr f) = Ok (Some f, "").
Proof.
  induction f as [r | r a IHa | r a IHa b IHb]; intros Hwf fuel Hfuel;
    pose proof (repr_length _ Hwf) as Hlen;
    (destruct fuel as [| fuel]; [lia |]).
  - (* a variable or a constant *)
    cbn [repr] in *. cbn [parse_prefix_rec]. rewrite len_characters.
    pose proof (Formula_init_leaf r Hwf) as Hinit.
    destruct r as [| c rest]; [simpl in Hlen; lia |].
    rewrite (getitem_characters_at (String c rest) "" rest c 0 eq_refl eq_refl).
    rewrite str_len_String. pose proof (str_len_nonneg rest) as Hrest.
    destruct (Z.eqb_spec (1 + str_len rest) 0) as [E | _]; [lia |].
    destruct rest as [| d rest].
    + change (1 + str_len "" =? 1)%Z with true. cbv iota. cbn [Py.bind].
      cbn [wf] in Hwf.
      destruct (is_variable (String c "")) as [v |]; [| discriminate].
      cbn [Py.bind]. rewrite Hwf, Hinit. reflexivity.
    + rewrite str_len_String in *. pose proof (str_len_nonneg rest).
      destruct (Z.eqb_spec (1 + (1 + str_len rest)) 1) as [E | _]; [lia |].
      assert (Hv : is_variable (String c (String d rest)) = Ok true).
      { cbn [wf] in Hwf.
        destruct (is_variable (String c (String d rest))) as [[|] |];
          try discriminate; [reflexivity |].
        unfold is_constant in Hwf. cbn [String.eqb orb] in Hwf.
        rewrite !if_same in Hwf. discriminate. }
      destruct (is_variable_shape _ Hv) as [c' [rest' [Heq [Hc _]]]].
      injection Heq as <- <-.
      cbn [Py.bind]. rewrite (variable_start_not_unary c Hc).
      assert (Hv1 : is_variable (String c "") = Ok true).
      { unfold is_variable. now rewrite Hc. }
      rewrite Hv1. cbn [Py.bind].
      rewrite (parse_var_variable _ Hv). cbn [Py.bind fst snd].
      rewrite Hinit. cbn [Py.bind]. now rewrite slice_from_end.
  - (* a negation *)
    pose proof Hwf as Hwf'.
    cbn [wf] in Hwf. apply andb_true_iff in Hwf. destruct Hwf as [Hr Hwa].
    apply String.eqb_eq in Hr. subst r.
    pose proof (repr_length a Hwa) as Hla.
    cbn [repr] in *. cbn [parse_prefix_rec]. rewrite len_characters.
    replace (str_len ("~" ++ repr a)) with (1 + str_len (repr a))%Z
      by (rewrite str_len_app; reflexivity).
    assert (Hpos : (1 <= str_len (repr a))%Z) by (unfold str_len; lia).
    destruct (Z.eqb_spec (1 + str_len (repr a)) 0) as [E | _]; [lia |].
    destruct (Z.eqb_spec (1 + str_len (repr a)) 1) as [E | _]; [lia |].
    rewrite (getitem_characters_at ("~" ++ repr a) "" (repr a) "~" 0
               eq_refl eq_refl).
    cbn [Py.bind]. change (is_unary "~") with true. cbv iota.
    change 1%Z with (str_len "~") at 1. rewrite slice_from_app.
    rewrite (IHa Hwa fuel)
      by (rewrite str_length_app in Hfuel; simpl in Hfuel; lia).
    reflexivity.
  - (* a binary formula *)
    pose proof (scan_binary r a b Hwf) as [k Hscan].
    cbn [wf] in Hwf. apply andb_true_iff in Hwf. destruct Hwf as [Hwf Hwb].
    apply andb_true_iff in Hwf. destruct Hwf as [Hr Hwa].
    pose proof (repr_length a Hwa) as Hla. pose proof (repr_length b Hwb) as Hlb.
    destruct (repr_last a Hwa) as [w [e [Hw He]]].
    remember (repr (Binary r a b)) as s eqn:Hs.
    cbn [repr] in Hs.
    assert (Hlens : String.length s
                    = (1 + String.length (repr a) + String.length r
                       + String.length (repr b) + 1)%nat).
    { subst s. rewrite !str_length_app. cbn [String.length]. lia. }
    assert (Hlen_s : str_len s = (1 + str_len (repr a) + str_len r
                                  + str_len (repr b) + 1)%Z).
    { unfold str_len. lia. }
    assert (Hpa : (1 <= str_len (repr a))%Z) by (unfold str_len; lia).
    assert (Hpb : (1 <= str_len (repr b))%Z) by (unfold str_len; lia).
    pose proof (str_len_nonneg r) as Hpr.
    assert (Hfirst : forall j, j = (1 + str_len (repr a))%Z ->
                               slice s 1 j = repr a).
    { intros j ->. apply (slice_app2 s "(" (repr a) (r ++ repr b ++ ")"));
        [exact Hs | reflexivity | reflexivity]. }
    assert (Hsecond : forall i j,
               i = (1 + str_len (repr a) + str_len r)%Z ->
               j = (str_len s - 1)%Z -> slice s i j = repr b).
    { intros i j -> ->.
      apply (slice_app2 s ("(" ++ repr a ++ r) (repr b) ")").
      - subst s. now rewrite ?str_app_assoc.
      - rewrite !str_len_app. change (str_len "(") with 1%Z. lia.
      - lia. }
    assert (Hra : parse_prefix_rec fuel (repr a) = Ok (Some a, ""))
      by (apply (IHa Hwa); lia).
    assert (Hrb : parse_prefix_rec fuel (repr b) = Ok (Some b, ""))
      by (apply (IHb Hwb); lia).
    assert (Hat : forall (pre post : string) (c : ascii) (i : Z),
               "(" ++ repr a ++ r ++ repr b ++ ")" = pre ++ String c post ->
               i = str_len pre ->
               getitem (characters s) i = Ok (String c "")).
    { intros pre post c i Heq Hi. apply (getitem_characters_at s pre post c i);
        [now rewrite Hs | exact Hi]. }
    cbn [parse_prefix_rec]. rewrite len_characters.
    destruct (Z.eqb_spec (str_len s) 0) as [E | _]; [lia |].
    destruct (Z.eqb_spec (str_len s) 1) as [E | _]; [lia |].
    rewrite (Hat "" (repr a ++ r ++ repr b ++ ")") "("%char 0%Z eq_refl eq_refl).
    cbn [Py.bind]. change (is_unary "(") with false.
    change (is_variable "(") with (@Ok bool false).
    change (is_constant "(") with false. cbv iota. cbn [Py.bind]. cbv iota.
    rewrite characters_length, Hscan. cbn [Py.bind]. scan_fields.
    rewrite !Z.eqb_refl. cbn [negb orb]. cbv iota.
    destruct (is_binary_cases r Hr) as [-> | [-> | [-> | [-> | [-> | [-> | ->]]]]]].

    all: assert (Hlw : str_len (repr a) = (str_len w + 1)%Z)
      by (rewrite Hw, str_len_app; reflexivity).
    + (* '&' *)
      change (operator_mark "&") with 0%Z. change (str_len "&") with 1%Z in *.
      rewrite (Hat ("(" ++ repr a) (repr b ++ ")") "&"%char);
        [| now rewrite ?str_app_assoc
         | rewrite ?str_len_app; change (str_len "(") with 1%Z; lia].
      cbn [Py.bind String.eqb Ascii.eqb Bool.eqb].
      rewrite (Hat ("(" ++ w) ("&" ++ repr b ++ ")") e);
        [| now rewrite Hw, ?str_app_assoc
         | rewrite ?str_len_app; change (str_len "(") with 1%Z; lia].
      cbn [Py.bind String.eqb]. rewrite He. cbn [Py.bind].
      rewrite Hfirst by lia. rewrite Hsecond by lia.
      rewrite Hra. cbn [Py.bind]. rewrite Hrb. reflexivity.
    + (* '|' *)
      change (operator_mark "|") with 0%Z. change (str_len "|") with 1%Z in *.
      rewrite (Hat ("(" ++ repr a) (repr b ++ ")") "|"%char);
        [| now rewrite ?str_app_assoc
         | rewrite ?str_len_app; change (str_len "(") with 1%Z; lia].
      cbn [Py.bind String.eqb Ascii.eqb Bool.eqb].
      rewrite (Hat ("(" ++ w) ("|" ++ repr b ++ ")") e);
        [| now rewrite Hw, ?str_app_assoc
         | rewrite ?str_len_app; change (str_len "(") with 1%Z; lia].
      cbn [Py.bind String.eqb]. rewrite He. cbn [Py.bind].
      rewrite Hfirst by lia. rewrite Hsecond by lia.
      rewrite Hra. cbn [Py.bind]. rewrite Hrb. reflexivity.
    + (* '->' *)
      change (operator_mark "->") with 1%Z. change (str_len "->") with 2%Z in *.
      rewrite (Hat ("(" ++ repr a ++ "-") (repr b ++ ")") ">"%char);
        [| now rewrite ?str_app_assoc
         | rewrite ?str_len_app; change (str_len "(") with 1%Z;
           change (str_len "-") with 1%Z; lia].
      cbn [Py.bind String.eqb Ascii.eqb Bool.eqb].
      rewrite Hfirst by lia. rewrite Hsecond by lia.
      rewrite Hra. cbn [Py.bind]. rewrite Hrb. reflexivity.
    + (* '+' *)
      change (operator_mark "+") with 0%Z. change (str_len "+") with 1%Z in *.
      rewrite (Hat ("(" ++ repr a) (repr b ++ ")") "+"%char);
        [| now rewrite ?str_app_assoc
         | rewrite ?str_len_app; change (str_len "(") with 1%Z; lia].
      cbn [Py.bind String.eqb Ascii.eqb Bool.eqb].
      rewrite Hfirst by lia. rewrite Hsecond by lia.
      rewrite Hra. cbn [Py.bind]. rewrite Hrb. reflexivity.
    + (* '<->' *)
      change (operator_mark "<->") with 1%Z.
      change (str_len "<->") with 3%Z in *.
      rewrite (Hat ("(" ++ repr a ++ "<") (">" ++ repr b ++ ")") "-"%char);
        [| now rewrite ?str_app_assoc
         | rewrite ?str_len_app; change (str_len "(") with 1%Z;
           change (str_len "<") with 1%Z; lia].
      cbn [Py.bind String.eqb Ascii.eqb Bool.eqb].
      rewrite Hfirst by lia. rewrite Hsecond by lia.
      rewrite Hra. cbn [Py.bind]. rewrite Hrb. reflexivity.
    + (* '-&' *)
      change (operator_mark "-&") with 1%Z. change (str_len "-&") with 2%Z in *.
      rewrite (Hat ("(" ++ repr a ++ "-") (repr b ++ ")") "&"%char);
        [| now rewrite ?str_app_assoc
         | rewrite ?str_len_app; change (str_len "(") with 1%Z;
           change (str_len "-") with 1%Z; lia].
      cbn [Py.bind String.eqb Ascii.eqb Bool.eqb].
      rewrite (Hat ("(" ++ repr a) ("&" ++ repr b ++ ")") "-"%char);
        [| now rewrite ?str_app_assoc
         | rewrite ?str_len_app; change (str_len "(") with 1%Z; lia].
      cbn [Py.bind String.eqb Ascii.eqb Bool.eqb].
      rewrite Hfirst by lia. rewrite Hsecond by lia.
      rewrite Hra. cbn [Py.bind]. rewrite Hrb. reflexivity.
    + (* '-|' *)
      change (operator_mark "-|") with 1%Z. change (str_len "-|") with 2%Z in *.
      rewrite (Hat ("(" ++ repr a ++ "-") (repr b ++ ")") "|"%char);
        [| now rewrite ?str_app_assoc
         | rewrite ?str_len_app; change (str_len "(") with 1%Z;
           change (str_len "-") with 1%Z; lia].
      cbn [Py.bind String.eqb Ascii.eqb Bool.eqb].
      rewrite (Hat ("(" ++ repr a) ("|" ++ repr b ++ ")") "-"%char);
        [| now rewrite ?str_app_assoc
         | rewrite ?str_len_app; change (str_len "(") with 1%Z; lia].
      cbn [Py.bind String.eqb Ascii.eqb Bool.eqb].
      rewrite Hfirst by lia. rewrite Hsecond by lia.
      rewrite Hra. cbn [Py.bind]. rewrite Hrb. reflexivity.
Qed.

(** Parsing the representation of a formula gives the formula back. *)
Lemma parse_repr (f : Formula) : wf f = true -> parse (repr f) = Ok (Some f).
Proof.
  intros Hwf. unfold parse, is_formula, parse_prefix.
  rewrite (parse_prefix_repr f Hwf) by lia. reflexivity.
Qed.

(* ------------------------------------------------------------------ *)
(** ** Parsing first-order terms *)
(* ------------------------------------------------------------------ *)

Import Predicates.

Lemma range_from_nil (a b : Z) : (b <= a)%Z -> range_from a b = [].
Proof.
  intros H. unfold range_from.
  replace (Z.to_nat (b - a)) with 0%nat by lia. reflexivity.
Qed.

Lemma range_from_cons (a b : Z) :
  (a < b)%Z -> range_from a b = a :: range_from (a + 1) b.
Proof.
  intros H. unfold range_from.
  replace (Z.to_nat (b - a)) with (S (Z.to_nat (b - (a + 1)))) by lia.
  cbn [seq map]. f_equal; [lia |].
  rewrite <- seq_shift, map_map. apply map_ext. intros k. lia.
Qed.

Lemma isalnum_char (c : ascii) : isalnum (String c "") = is_alnum_char c.
Proof.
  cbn. apply andb_true_r.
Qed.

(** The loop stops at the first character after the name. *)
Lemma name_loop_word (w : string) :
  all_chars is_alnum_char w = true ->
  forall (s pre rest : string) (idx : Z),
    s = pre ++ w ++ rest -> after_name rest = true ->
    name_loop s (range_from (str_len pre) (str_len s)) idx
    = Ok (match rest with
          | EmptyString =>
              (true, match w with
                     | EmptyString => idx
                     | _ => (str_len s - 1)%Z
                     end)
          | _ => (false, (str_len pre + str_len w)%Z)
          end).
Proof.
  induction w as [| c w IH]; intros Hw s pre rest idx Hs Hrest.
  - cbn [append] in Hs. destruct rest as [| d rest].
    + rewrite str_app_nil_r in Hs. subst s.
      rewrite range_from_nil by lia. reflexivity.
    + rewrite range_from_cons
        by (subst s; rewrite str_len_app, str_len_String;
            pose proof (str_len_nonneg rest); lia).
      cbn [name_loop]. subst s. rewrite str_getitem_at. cbn [Py.bind].
      rewrite isalnum_char. cbn [after_name] in Hrest.
      apply negb_true_iff in Hrest. rewrite Hrest.
      now rewrite str_len_empty, Z.add_0_r.
  - cbn [all_chars] in Hw. apply andb_true_iff in Hw. destruct Hw as [Hc Hw].
    pose proof (str_len_nonneg w). pose proof (str_len_nonneg rest).
    pose proof (str_len_nonneg pre).
    rewrite range_from_cons
      by (subst s; rewrite !str_len_app, str_len_String; lia).
    cbn [name_loop].
    assert (Hget : str_getitem s (str_len pre) = Ok (String c "")).
    { subst s. cbn [append]. apply str_getitem_at. }
    rewrite Hget. cbn [Py.bind]. rewrite isalnum_char, Hc.
    replace (str_len pre + 1)%Z with (str_len (pre ++ String c ""))
      by (rewrite str_len_app, str_len_String, str_len_empty; lia).
    rewrite (IH Hw s (pre ++ String c "") rest (str_len pre));
      [| subst s; now rewrite str_app_assoc | assumption].
    f_equal. destruct rest as [| d rest].
    + f_equal. destruct w; [| reflexivity].
      subst s. rewrite !str_len_app, str_len_String, str_len_empty. lia.
    + f_equal. rewrite str_len_app, !str_len_String, str_len_empty. lia.
Qed.

Lemma slice_to_app (pre post : string) : slice_to (pre ++ post) (str_len pre) = pre.
Proof.
  unfold slice_to.
  pose proof (slice_app "" pre post) as H. cbn [append] in H.
  rewrite str_len_empty in H. exact H.
Qed.

Lemma slice_to_all (s : string) : slice_to s (str_len s) = s.
Proof.
  rewrite <- (str_app_nil_r s) at 1. apply slice_to_app.
Qed.

Lemma str_getitem_first (c : ascii) (s : string) :
  str_getitem (String c s) 0 = Ok (String c "").
Proof.
  reflexivity.
Qed.

(** The shape of a constant or variable name. *)
Lemma term_leaf_shape (r : string) :
  Term_wf (TLeaf r) = true ->
  exists c w, r = String c w /\
    ((is_variable (String c "") = Ok true /\ all_chars is_alnum_char r = true)
     \/ (is_variable (String c "") = Ok false
         /\ is_constant (String c "") = Ok true
         /\ Ascii.eqb c "_" = false
         /\ all_chars is_alnum_char r = true)
     \/ r = "_").
Proof.
  cbn [Term_wf]. destruct r as [| c w]; [discriminate |].
  intros H. exists c, w. split; [reflexivity |].
  unfold is_constant, is_variable in *.
  destruct (String.eqb_spec (String c w) "_") as [E | E]; [now right; right |].
  rewrite orb_false_r in H.
  assert (Halnum : forall b, b && isalnum (String c w) = true ->
                             b = true /\ is_alnum_char c = true
                             /\ all_chars is_alnum_char (String c w) = true).
  { intros b Hb. apply andb_true_iff in Hb. destruct Hb as [Hb Ha].
    cbn [isalnum] in Ha. split; [assumption | split; [| assumption]].
    cbn [all_chars] in Ha. apply andb_true_iff in Ha. tauto. }
  destruct (between "u" c "z") eqn:Hu.
  - left. cbn [andb] in H. rewrite orb_true_iff in H.
    assert (Ha : isalnum (String c w) = true).
    { destruct H as [H | H]; [| exact H].
      apply andb_true_iff in H. tauto. }
    destruct (Halnum true Ha) as [_ [Hc Hall]].
    split; [| exact Hall]. cbn [isalnum all_chars]. now rewrite Hc.
  - right; left. cbn [andb] in H. rewrite orb_false_r in H.
    destruct (Halnum _ H) as [Hd [Hc Hall]].
    split; [reflexivity |]. split; [| split; [| exact Hall]].
    + cbn [isalnum all_chars]. now rewrite Hd, Hc.
    + destruct (Ascii.eqb_spec c "_") as [-> | _]; [discriminate | reflexivity].
Qed.

Lemma Term_init_leaf (r : string) :
  Term_wf (TLeaf r) = true -> Term_init r None = Ok (TLeaf r).
Proof.
  cbn [Term_wf]. unfold Term_init.
  destruct (is_constant r) as [c |]; [| discriminate].
  destruct (is_variable r) as [v |]; [| now destruct c].
  cbn [Py.bind]. intros H. destruct c; cbn [Py.bind]; [reflexivity |].
  cbn [orb] in H. now rewrite H.
Qed.

Lemma Term_init_app (r : string) (args : list Term) :
  Term_wf (TApp r args) = true -> Term_init r (Some args) = Ok (TApp r args).
Proof.
  cbn [Term_wf]. unfold Term_init.
  destruct (is_constant r) as [[|] |]; try discriminate.
  destruct (is_variable r) as [[|] |]; try discriminate.
  destruct (is_function r) as [[|] |]; try discriminate.
  cbn [Py.bind assert]. intros H. apply andb_true_iff in H. destruct H as [H _].
  destruct args; [discriminate | reflexivity].
Qed.

(** [Term.parse_prefix] on a constant or variable name followed by
    something that does not continue the name. *)
Lemma Term_parse_prefix_leaf (r rest : string) (fuel : nat) :
  Term_wf (TLeaf r) = true -> after_name rest = true ->
  Term_parse_prefix_rec (S fuel) (r ++ rest) = Ok (TLeaf r, rest).
Proof.
  intros Hwf Hrest. pose proof (Term_init_leaf r Hwf) as Hinit.
  destruct (term_leaf_shape r Hwf) as [c [w [-> Hshape]]].
  cbn [Term_parse_prefix_rec]. cbn [append].
  rewrite str_getitem_first. cbn [Py.bind].
  pose proof (str_len_nonneg w). pose proof (str_len_nonneg rest).
  assert (Hname : all_chars is_alnum_char (String c w) = true ->
                  (str_len (String c (w ++ rest)) =? 1)%Z = false ->
                  parse_name (String c (w ++ rest)) = Ok (TLeaf (String c w), rest)).
  { intros Hall Hlen. apply Z.eqb_neq in Hlen.
    rewrite str_len_String, str_len_app in Hlen.
    cbn [all_chars] in Hall. apply andb_true_iff in Hall.
    destruct Hall as [_ Hall]. unfold parse_name.
    pose proof (name_loop_word w Hall (String c (w ++ rest)) (String c "")
                               rest 1 eq_refl Hrest) as Hloop.
    change (str_len (String c "")) with 1%Z in Hloop. rewrite Hloop.
    destruct rest as [| d rest]; cbn [fst snd Py.bind].
    - destruct w as [| e w]; [cbn in Hlen; lia |].
      rewrite str_app_nil_r in *.
      replace (str_len (String c (String e w)) - 1 + 1)%Z
        with (str_len (String c (String e w))) by lia.
      rewrite slice_to_all, Hinit. reflexivity.
    - replace (1 + str_len w)%Z with (str_len (String c w))
        by (rewrite str_len_String; lia).
      change (String c (w ++ String d rest)) with (String c w ++ String d rest).
      rewrite slice_to_app, slice_from_app, Hinit. reflexivity. }
  assert (Hone : (str_len (String c (w ++ rest)) =? 1)%Z = true ->
                 w = "" /\ rest = "").
  { intros Hlen. apply Z.eqb_eq in Hlen.
    rewrite str_len_String, str_len_app in Hlen.
    clear - Hlen.
    destruct w as [| e w], rest as [| d rest]; try (split; reflexivity);
      rewrite ?str_len_String, ?str_len_empty in *.
    - pose proof (str_len_nonneg rest). lia.
    - pose proof (str_len_nonneg w). lia.
    - pose proof (str_len_nonneg w). pose proof (str_len_nonneg rest). lia. }
  destruct Hshape as [[Hv Hall] | [[Hv [Hc [Hu Hall]]] | Heq]].
  - rewrite Hv. cbn [Py.bind].
    destruct (str_len (String c (w ++ rest)) =? 1)%Z eqn:E.
    + destruct (Hone eq_refl) as [-> ->]. now rewrite Hinit.
    + now apply Hname.
  - rewrite Hv. cbn [Py.bind]. rewrite Hc. cbn [Py.bind].
    destruct (str_len (String c (w ++ rest)) =? 1)%Z eqn:E.
    + destruct (Hone eq_refl) as [-> ->]. now rewrite Hinit.
    + cbn [String.eqb]. rewrite Hu. cbn [andb]. now apply Hname.
  - injection Heq as -> ->. cbn [append].
    change (is_variable "_") with (@Ok bool false).
    change (is_constant "_") with (@Ok bool true). cbn [Py.bind].
    destruct (str_len (String "_" rest) =? 1)%Z eqn:E.
    + destruct (Hone E) as [_ ->]. reflexivity.
    + apply Z.eqb_neq in E. rewrite str_len_String in *.
      change (String.eqb "_" "_") with true.
      rewrite (proj2 (Z.ltb_lt 1 (1 + str_len rest))) by lia.
      cbn [andb]. change (Term_init "_" None) with (Ok (TLeaf "_")).
      cbn [Py.bind]. change 1%Z with (str_len "_") at 1.
      change (String "_" rest) with ("_" ++ rest).
      now rewrite slice_from_app.
Qed.

Lemma Term_induction (P : Term -> Prop) :
  (forall r, P (TLeaf r)) ->
  (forall r args, Forall P args -> P (TApp r args)) ->
  forall t, P t.
Proof.
  intros Hleaf Happ. fix IH 1. intros [r | r args]; [apply Hleaf | apply Happ].
  induction args as [| a args IHargs]; constructor; [apply IH | exact IHargs].
Qed.

Lemma alnum_not (c x : ascii) :
  is_alnum_char c = true -> is_alnum_char x = false -> Ascii.eqb c x = false.
Proof.
  intros Hc Hx. destruct (Ascii.eqb_spec c x) as [-> | _]; [congruence | reflexivity].
Qed.

Lemma find_app (pre post : string) (c : ascii) :
  all_chars (fun x => negb (Ascii.eqb x c)) pre = true ->
  find (pre ++ String c post) c = str_len pre.
Proof.
  induction pre as [| x pre IH]; cbn [all_chars append find]; intros H.
  - now rewrite Ascii.eqb_refl.
  - apply andb_true_iff in H. destruct H as [Hx Hpre].
    apply negb_true_iff in Hx. rewrite Hx, (IH Hpre), str_len_String.
    pose proof (str_len_nonneg pre).
    destruct (Z.ltb_spec (str_len pre) 0); lia.
Qed.

Lemma all_chars_impl (p q : ascii -> bool) (w : string) :
  (forall c, p c = true -> q c = true) ->
  all_chars p w = true -> all_chars q w = true.
Proof.
  intros Hpq. induction w as [| c w IH]; cbn [all_chars]; [reflexivity |].
  intros H. apply andb_true_iff in H. destruct H as [Hc Hw].
  now rewrite (Hpq c Hc), IH.
Qed.

Lemma all_chars_app (p : ascii -> bool) (a b : string) :
  all_chars p (a ++ b) = all_chars p a && all_chars p b.
Proof.
  induction a as [| c a IH]; cbn [all_chars append]; [reflexivity |].
  now rewrite IH, andb_assoc.
Qed.

(** *** The loop over a list of arguments *)

Ltac split_fields :=
  cbn [split_index counter opens closed last_one terms] in *.

Lemma split_loop_step (parse_term : string -> result (Term * string))
      (mark : Z -> Z) (fuel : nat) (s : string) (st : Split) :
  (split_index st < str_len s)%Z ->
  split_loop parse_term mark (S fuel) s st
  = (step <- split_step parse_term mark s st ;;
     match step with
     | Next st' => split_loop parse_term mark fuel s st'
     | Break st' => Ok st'
     | Return r => match r with end
     end).
Proof.
  intros H. cbn [split_loop]. now rewrite (proj2 (Z.ltb_lt _ _) H).
Qed.

Lemma plain_cases (c : ascii) :
  plain c = true ->
  Ascii.eqb c "(" = false /\ Ascii.eqb c ")" = false /\ Ascii.eqb c "," = false.
Proof.
  unfold plain. cbn [existsb]. rewrite negb_true_iff, !orb_false_iff. tauto.
Qed.

Lemma splits_nil (d : Z) : splits_over d "" 0.
Proof.
  intros rec mark s pre post st fuel Hs Hi Hd Hlen.
  exists (opens st), (closed st). split; [exact Hlen |].
  destruct st. split_fields. now rewrite str_len_empty, Z.add_0_r.
Qed.

Lemma splits_app (d : Z) (w1 w2 : string) (m1 m2 : nat) :
  splits_over d w1 m1 -> splits_over d w2 m2 ->
  splits_over d (w1 ++ w2) (m1 + m2).
Proof.
  intros H1 H2 rec mark s pre post st fuel Hs Hi Hd Hlen.
  destruct (H1 rec mark s pre (w2 ++ post) st (m2 + fuel)%nat)
    as [o1 [c1 [Hl1 Hrun1]]];
    [now rewrite Hs, str_app_assoc | assumption | assumption | assumption |].
  destruct (H2 rec mark s (pre ++ w1) post
               (mkSplit (split_index st + str_len w1) (counter st) o1 c1
                        (last_one st) (terms st)) fuel)
    as [o2 [c2 [Hl2 Hrun2]]].
  { now rewrite Hs, !str_app_assoc. }
  { split_fields. rewrite Hi, str_len_app. reflexivity. }
  { split_fields. assumption. }
  { split_fields. assumption. }
  exists o2, c2. split_fields. split; [exact Hl2 |].
  rewrite <- Nat.add_assoc, Hrun1, Hrun2. rewrite str_len_app.
  now rewrite Z.add_assoc.
Qed.

Lemma splits_mono (d d' : Z) (w : string) (m : nat) :
  (d <= d')%Z -> splits_over d w m -> splits_over d' w m.
Proof.
  intros Hd H rec mark s pre post st fuel Hs Hi Hd' Hlen.
  apply (H rec mark s pre post st fuel Hs Hi); [lia | exact Hlen].
Qed.

Lemma splits_char (d : Z) (c : ascii) :
  (1 <= d)%Z ->
  (forall (parse_term : string -> result (Term * string)) (mark : Z -> Z)
          (s pre post : string) (st : Split),
      s = pre ++ String c post -> split_index st = str_len pre ->
      (d <= counter st)%Z ->
      len (opens st) = (len (closed st) + counter st)%Z ->
      split_step parse_term mark s st
      = Ok (Next (mkSplit (split_index st + 1) (counter st) (opens st)
                          (closed st) (last_one st) (terms st)))) ->
  splits_over d (String c "") 1.
Proof.
  intros Hd1 Hstep rec mark s pre post st fuel Hs Hi Hd Hlen.
  exists (opens st), (closed st). split; [exact Hlen |].
  cbn [Nat.add]. rewrite split_loop_step.
  2:{ rewrite Hi, Hs, !str_len_app, str_len_String.
      pose proof (str_len_nonneg post). rewrite str_len_empty. lia. }
  rewrite (Hstep rec mark s pre post st); try assumption.
  reflexivity.
Qed.

Lemma splits_plain_char (c : ascii) : plain c = true -> splits_over 1 (String c "") 1.
Proof.
  intros Hc. destruct (plain_cases c Hc) as [H1 [H2 H3]].
  apply splits_char; [lia |].
  intros rec mark s pre post st -> Hi Hd Hlen.
  destruct st as [i cn o cl lo ts]. split_fields. subst i.
  unfold split_step. split_fields. rewrite str_getitem_at.
  cbn [Py.bind String.eqb]. rewrite H1, H2, H3. cbn [andb Py.bind].
  split_fields. destruct (Z.eqb_spec cn 0); [lia | reflexivity].
Qed.

Lemma splits_plain (w : string) :
  all_chars plain w = true -> splits_over 1 w (String.length w).
Proof.
  induction w as [| c w IH]; cbn [all_chars]; intros H.
  - apply splits_nil.
  - apply andb_true_iff in H. destruct H as [Hc Hw].
    change (String c w) with (String c "" ++ w).
    change (String.length (String c "" ++ w)) with (1 + String.length w)%nat.
    apply splits_app; [now apply splits_plain_char | now apply IH].
Qed.

(** A comma inside a nested application is passed over. *)
Lemma splits_comma : splits_over 2 "," 1.
Proof.
  apply splits_char; [lia |].
  intros rec mark s pre post st -> Hi Hd Hlen.
  destruct st as [i cn o cl lo ts]. split_fields. subst i.
  unfold split_step. split_fields. rewrite str_getitem_at.
  cbn [Py.bind String.eqb Ascii.eqb Bool.eqb andb].
  destruct (Z.ltb_spec (len o) (len cl + 2)); [lia |].
  cbn [Py.bind]. split_fields.
  destruct (Z.eqb_spec cn 0); [lia | reflexivity].
Qed.

(** A parenthesised word is passed over when its inside is, one level
    deeper. *)
Lemma splits_parens (w : string) (m : nat) :
  splits_over 2 w m -> splits_over 1 ("(" ++ w ++ ")") (1 + (m + 1)).
Proof.
  intros Hw rec mark s pre post st fuel Hs Hi Hd Hlen.
  destruct st as [i cn o cl lo ts]. split_fields. subst i.
  pose proof (str_len_nonneg pre). pose proof (str_len_nonneg w).
  pose proof (str_len_nonneg post).
  assert (Hls : str_len s = (str_len pre + 1 + str_len w + 1 + str_len post)%Z).
  { rewrite Hs, !str_len_app. change (str_len "(") with 1%Z.
    change (str_len ")") with 1%Z. lia. }
  cbn [Nat.add]. rewrite split_loop_step by (split_fields; lia).
  unfold split_step at 1. split_fields.
  rewrite (str_getitem_at_eq s pre (w ++ ")" ++ post) "(")
    by (try reflexivity; now rewrite Hs, ?str_app_assoc).
  cbn [Py.bind String.eqb Ascii.eqb Bool.eqb]. split_fields.
  destruct (Z.eqb_spec (cn + 1) 0); [lia |]. cbn [Py.bind].
  destruct (Hw rec mark s (pre ++ "(") (")" ++ post)
               (mkSplit (str_len pre + 1) (cn + 1) (o ++ [mark (str_len pre)])
                        cl lo ts) (1 + fuel)%nat)
    as [o1 [c1 [Hl1 Hrun]]].
  { now rewrite Hs, ?str_app_assoc. }
  { split_fields. rewrite str_len_app. reflexivity. }
  { split_fields. lia. }
  { split_fields. unfold len in *. rewrite length_app. cbn [List.length]. lia. }
  rewrite <- Nat.add_assoc, Hrun. split_fields.
  cbn [Nat.add]. rewrite split_loop_step by (split_fields; lia).
  unfold split_step. split_fields.
  rewrite (str_getitem_at_eq s (pre ++ "(" ++ w) post ")")
    by (rewrite ?str_len_app, ?Hs, ?str_app_assoc; try reflexivity;
        change (str_len "(") with 1%Z; lia).
  cbn [Py.bind String.eqb Ascii.eqb Bool.eqb]. split_fields.
  destruct (Z.eqb_spec (cn + 1 - 1) 0); [lia |]. cbn [Py.bind].
  exists o1, (c1 ++ [mark (str_len pre + 1 + str_len w)%Z])%list.
  split.
  { unfold len in *. rewrite length_app. cbn [List.length]. lia. }
  f_equal. rewrite !str_len_app. change (str_len "(") with 1%Z.
  change (str_len ")") with 1%Z. f_equal; lia.
Qed.

Lemma alnum_plain (c : ascii) : is_alnum_char c = true -> plain c = true.
Proof.
  intros Hc. unfold plain. cbn [existsb].
  now rewrite !(alnum_not c) by (assumption || reflexivity).
Qed.

Lemma term_leaf_plain (r : string) :
  Term_wf (TLeaf r) = true -> all_chars plain r = true.
Proof.
  intros Hwf. destruct (term_leaf_shape r Hwf) as [c [w [-> H]]].
  destruct H as [[_ H] | [[_ [_ [_ H]]] | H]].
  - apply (all_chars_impl _ _ _ alnum_plain H).
  - apply (all_chars_impl _ _ _ alnum_plain H).
  - now rewrite H.
Qed.

(** The shape of a function name and of its arguments. *)
Lemma term_app_shape (r : string) (args : list Term) :
  Term_wf (TApp r args) = true ->
  all_chars is_alnum_char r = true /\ args <> [] /\
  forallb Term_wf args = true /\
  exists c w, r = String c w /\ is_variable (String c "") = Ok false /\
              is_constant (String c "") = Ok false.
Proof.
  cbn [Term_wf].
  destruct (is_constant r) as [[|] |] eqn:Hc; try discriminate.
  destruct (is_variable r) as [[|] |] eqn:Hv; try discriminate.
  destruct (is_function r) as [[|] |] eqn:Hf; try discriminate.
  intros H. apply andb_true_iff in H. destruct H as [Hn Hargs].
  destruct r as [| c w]; [discriminate |].
  unfold is_function in Hf. injection Hf as Hf.
  apply andb_true_iff in Hf. destruct Hf as [Hb Ha].
  cbn [isalnum] in Ha. split; [exact Ha |].
  split; [intros ->; discriminate |]. split; [exact Hargs |].
  exists c, w. split; [reflexivity |].
  unfold between, char_le in Hb. apply andb_true_iff in Hb.
  destruct Hb as [Hlo Hhi]. apply N.leb_le in Hlo, Hhi.
  change (N_of_ascii "f") with 102%N in Hlo.
  change (N_of_ascii "t") with 116%N in Hhi.
  unfold is_variable, is_constant, between, char_le.
  change (N_of_ascii "u") with 117%N. change (N_of_ascii "0") with 48%N.
  change (N_of_ascii "9") with 57%N. change (N_of_ascii "a") with 97%N.
  change (N_of_ascii "d") with 100%N.
  rewrite (proj2 (N.leb_gt 117 (N_of_ascii c))) by lia.
  rewrite (proj2 (N.leb_gt (N_of_ascii c) 57)) by lia.
  rewrite (proj2 (N.leb_gt (N_of_ascii c) 100)) by lia.
  rewrite !andb_false_r. cbn [andb orb String.eqb].
  destruct (Ascii.eqb_spec c "_") as [-> | _]; [| split; reflexivity].
  change (N_of_ascii "_") with 95%N in Hlo. lia.
Qed.

Lemma join_cons (sep x y : string) (l : list string) :
  join sep (x :: y :: l) = x ++ sep ++ join sep (y :: l).
Proof.
  reflexivity.
Qed.

Lemma splits_join (args : list Term) :
  Forall (fun t => exists m, (m <= String.length (Term_repr t))%nat
                             /\ splits_over 1 (Term_repr t) m) args ->
  exists m, (m <= String.length (join "," (map Term_repr args)))%nat
            /\ splits_over 2 (join "," (map Term_repr args)) m.
Proof.
  induction 1 as [| t args [m [Hm Ht]] _ [ms [Hms IH]]].
  - exists 0%nat. split; [cbn; lia | apply splits_nil].
  - destruct args as [| t' args].
    + exists m. split; [exact Hm |]. apply (splits_mono 1); [lia | exact Ht].
    + exists (m + (1 + ms))%nat. cbn [map] in *. rewrite join_cons. split.
      * rewrite !str_length_app. cbn [String.length]. lia.
      * apply splits_app; [apply (splits_mono 1); [lia | exact Ht] |].
        apply splits_app; [apply splits_comma | exact IH].
Qed.

(** The loop passes over every term that is an argument. *)
Lemma splits_term (t : Term) :
  Term_wf t = true ->
  exists m, (m <= String.length (Term_repr t))%nat
            /\ splits_over 1 (Term_repr t) m.
Proof.
  induction t as [r | r args IH] using Term_induction; intros Hwf.
  - exists (String.length r). split; [reflexivity |].
    apply splits_plain. now apply term_leaf_plain.
  - destruct (term_app_shape r args Hwf) as [Hr [_ [Hargs _]]].
    assert (Hall : Forall (fun t => exists m,
                               (m <= String.length (Term_repr t))%nat
                               /\ splits_over 1 (Term_repr t) m) args).
    { rewrite forallb_forall in Hargs. rewrite Forall_forall in *.
      intros t Ht. apply (IH t Ht). now apply Hargs. }
    destruct (splits_join args Hall) as [m [Hm Hjoin]].
    exists (String.length r + (1 + (m + 1)))%nat. cbn [Term_repr]. split.
    + rewrite !str_length_app. cbn [String.length]. lia.
    + apply splits_app.
      * apply splits_plain. apply (all_chars_impl _ _ _ alnum_plain Hr).
      * now apply splits_parens.
Qed.

(** At the arguments of the function or relation the loop parses every
    argument but the last, and stops at the closing parenthesis. *)
Lemma split_arguments (parse_term : string -> result (Term * string))
      (mark : Z -> Z) (args : list Term) :
  Forall (fun t => Term_wf t = true
                   /\ parse_term (Term_repr t) = Ok (t, "")) args ->
  args <> [] ->
  exists m,
    (m <= String.length (join "," (map Term_repr args)) + 1)%nat /\
    forall (s pre post : string) (st : Split) (fuel : nat),
      s = pre ++ join "," (map Term_repr args) ++ ")" ++ post ->
      split_index st = str_len pre -> last_one st = (str_len pre - 1)%Z ->
      counter st = 1%Z -> len (opens st) = (len (closed st) + 1)%Z ->
      exists o c lo,
        split_loop parse_term mark (m + fuel) s st
        = Ok (mkSplit (str_len pre
                       + str_len (join "," (map Term_repr args)))
                      0 o c lo (terms st ++ removelast args)%list)
        /\ slice s (lo + 1)
                 (str_len pre + str_len (join "," (map Term_repr args)))
           = Term_repr (last args (TLeaf "")).
Proof.
  induction 1 as [| t args [Hwf Hparse] _ IH]; intros Hne; [contradiction |].
  destruct (splits_term t Hwf) as [mt [Hmt Hpass]].
  destruct args as [| t' args].
  - (* the last argument *)
    exists (mt + 1)%nat. cbn [map join]. split; [lia |].
    intros s pre post st fuel Hs Hi Hlo Hcn Hlen.
    destruct (Hpass parse_term mark s pre (")" ++ post) st (1 + fuel)%nat)
      as [o1 [c1 [Hl1 Hrun]]]; [exact Hs | exact Hi | lia | lia |].
    rewrite <- Nat.add_assoc, Hrun.
    pose proof (str_len_nonneg pre). pose proof (str_len_nonneg post).
    pose proof (str_len_nonneg (Term_repr t)).
    cbn [Nat.add]. rewrite split_loop_step.
    2:{ split_fields. rewrite Hi, Hs, !str_len_app.
        change (str_len ")") with 1%Z. lia. }
    unfold split_step. split_fields.
    rewrite (str_getitem_at_eq s (pre ++ Term_repr t) post ")")
      by (rewrite ?Hi, ?str_len_app, ?Hs, ?str_app_assoc; reflexivity).
    cbn [Py.bind String.eqb Ascii.eqb Bool.eqb]. split_fields.
    rewrite Hcn. change (1 - 1 =? 0)%Z with true. cbv iota.
    eexists _, _, (last_one st). split.
    + rewrite Hi. cbn [removelast]. now rewrite app_nil_r.
    + cbn [last]. rewrite Hlo.
      apply (slice_app2 s pre (Term_repr t) (")" ++ post)); [exact Hs | lia | lia].
  - (* an argument followed by a comma *)
    destruct (IH ltac:(discriminate)) as [ms [Hms Hrest]].
    exists (mt + (1 + ms))%nat. cbn [map] in *. rewrite join_cons. split.
    { rewrite !str_length_app. cbn [String.length]. lia. }
    intros s pre post st fuel Hs Hi Hlo Hcn Hlen.
    pose proof (str_len_nonneg pre). pose proof (str_len_nonneg post).
    pose proof (str_len_nonneg (Term_repr t)).
    pose proof (str_len_nonneg (join "," (Term_repr t' :: map Term_repr args))).
    destruct (Hpass parse_term mark s pre
                    ("," ++ join "," (Term_repr t' :: map Term_repr args)
                     ++ ")" ++ post) st (1 + (ms + fuel))%nat)
      as [o1 [c1 [Hl1 Hrun]]];
      [now rewrite Hs, ?str_app_assoc | exact Hi | lia | lia |].
    replace (mt + (1 + ms) + fuel)%nat with (mt + (1 + (ms + fuel)))%nat by lia.
    rewrite Hrun. cbn [Nat.add]. rewrite split_loop_step.
    2:{ split_fields. rewrite Hi, Hs, !str_len_app.
        change (str_len ",") with 1%Z. change (str_len ")") with 1%Z. lia. }
    unfold split_step. split_fields.
    rewrite (str_getitem_at_eq s (pre ++ Term_repr t)
               (join "," (Term_repr t' :: map Term_repr args) ++ ")" ++ post)
               ",")
      by (rewrite ?Hi, ?str_len_app, ?Hs, ?str_app_assoc; reflexivity).
    cbn [Py.bind String.eqb Ascii.eqb Bool.eqb andb].
    rewrite Hcn in Hl1.
    destruct (Z.ltb_spec (len o1) (len c1 + 2)); [| lia].
    rewrite Hlo, Hi.
    replace (str_len pre - 1 + 1)%Z with (str_len pre) by lia.
    rewrite (slice_app2 s pre (Term_repr t)
               ("," ++ join "," (Term_repr t' :: map Term_repr args)
                ++ ")" ++ post) (str_len pre))
      by (try reflexivity; now rewrite Hs, ?str_app_assoc).
    rewrite Hparse. cbn [Py.bind fst]. split_fields. rewrite Hcn.
    change (1 =? 0)%Z with false. cbv iota. cbn [Py.bind].
    destruct (Hrest s (pre ++ Term_repr t ++ ",") post
                    (mkSplit (str_len pre + str_len (Term_repr t) + 1) 1 o1 c1
                             (str_len pre + str_len (Term_repr t))
                             (terms st ++ [t])%list) fuel)
      as [o [c [lo [Hfinal Hslice]]]].
    { now rewrite Hs, ?str_app_assoc. }
    { split_fields. rewrite !str_len_app. change (str_len ",") with 1%Z. lia. }
    { split_fields. rewrite !str_len_app. change (str_len ",") with 1%Z. lia. }
    { reflexivity. }
    { split_fields. lia. }
    exists o, c, lo. rewrite Hfinal. split_fields. split.
    + f_equal. rewrite !str_len_app. change (str_len ",") with 1%Z.
      rewrite <- app_assoc. f_equal; lia.
    + change (last (t :: t' :: args) (TLeaf ""))
        with (last (t' :: args) (TLeaf "")).
      rewrite <- Hslice. rewrite !str_len_app. change (str_len ",") with 1%Z.
      f_equal; lia.
Qed.

Lemma join_length_In (t : Term) (args : list Term) :
  In t args ->
  (String.length (Term_repr t)
   <= String.length (join "," (map Term_repr args)))%nat.
Proof.
  induction args as [| a args IH]; [contradiction |].
  intros Hin. destruct args as [| b args].
  - destruct Hin as [<- | []]. cbn. lia.
  - cbn [map] in *. rewrite join_cons, !str_length_app.
    destruct Hin as [<- | Hin]; [lia |]. specialize (IH Hin). lia.
Qed.

Lemma alnum_no_open (w : string) :
  all_chars is_alnum_char w = true ->
  all_chars (fun x => negb (Ascii.eqb x "(")) w = true.
Proof.
  apply all_chars_impl. intros c Hc. now rewrite (alnum_not c "(" Hc).
Qed.

(** On the representation of a term, followed by something that does not
    continue a name, [Term.parse_prefix] returns the term and what
    follows. *)
Lemma Term_parse_prefix_repr (t : Term) :
  Term_wf t = true ->
  forall (rest : string) (fuel : nat),
    after_name rest = true ->
    (String.length (Term_repr t) <= fuel)%nat ->
    Term_parse_prefix_rec fuel (Term_repr t ++ rest) = Ok (t, rest).
Proof.
  induction t as [r | r args IH] using Term_induction;
    intros Hwf rest fuel Hrest Hfuel.
  - destruct fuel as [| fuel].
    + destruct (term_leaf_shape r Hwf) as [c [w [-> _]]].
      cbn in Hfuel. lia.
    + now apply Term_parse_prefix_leaf.
  - pose proof (Term_init_app r args Hwf) as Hinit.
    destruct (term_app_shape r args Hwf)
      as [Hr [Hne [Hargs [c [w [Heq [Hv Hc]]]]]]].
    cbn [Term_repr] in *.
    set (body := join "," (map Term_repr args)) in *.
    assert (Hlen : String.length (r ++ "(" ++ body ++ ")")
                   = (String.length r + 1 + String.length body + 1)%nat).
    { rewrite !str_length_app. cbn [String.length]. lia. }
    destruct fuel as [| fuel]; [lia |].
    set (s := (r ++ "(" ++ body ++ ")") ++ rest).
    assert (Hs : s = (r ++ "(") ++ body ++ ")" ++ rest).
    { subst s. now rewrite ?str_app_assoc. }
    cbn [Term_parse_prefix_rec].
    assert (Hfirst : str_getitem s 0 = Ok (String c "")).
    { subst s. rewrite Heq. apply str_getitem_first. }
    rewrite Hfirst. cbn [Py.bind]. rewrite Hv. cbn [Py.bind].
    rewrite Hc. cbn [Py.bind].
    assert (Hfind : find s "(" = str_len r).
    { subst s. rewrite ?str_app_assoc. apply find_app. now apply alnum_no_open. }
    rewrite Hfind.
    assert (Hname : slice_to s (str_len r) = r).
    { subst s. rewrite ?str_app_assoc. apply slice_to_app. }
    rewrite Hname.
    assert (Hall : Forall (fun t => Term_wf t = true
                                    /\ Term_parse_prefix_rec fuel (Term_repr t)
                                       = Ok (t, "")) args).
    { rewrite forallb_forall in Hargs. rewrite Forall_forall in *.
      intros t Ht. split; [now apply Hargs |].
      rewrite <- (str_app_nil_r (Term_repr t)) at 1.
      apply (IH t Ht); [now apply Hargs | reflexivity |].
      pose proof (join_length_In t args Ht). fold body in H. lia. }
    destruct (split_arguments (Term_parse_prefix_rec fuel) (fun i => i) args
                              Hall Hne) as [m [Hm Hloop]].
    fold body in Hm, Hloop.
    assert (Hlens : String.length s
                    = (m + (String.length s - m))%nat).
    { subst s. rewrite str_length_app, Hlen. lia. }
    rewrite Hlens.
    destruct (Hloop s (r ++ "(") rest
                    (mkSplit (str_len r + 1) 1 [str_len r] [] (str_len r) [])
                    (String.length s - m)%nat)
      as [o [cl [lo [Hrun Hslice]]]].
    { exact Hs. }
    { split_fields. rewrite str_len_app. reflexivity. }
    { split_fields. rewrite str_len_app. change (str_len "(") with 1%Z. lia. }
    { reflexivity. }
    { reflexivity. }
    rewrite Hrun. cbn [Py.bind]. split_fields. rewrite Hslice.
    assert (Hlast : In (last args (TLeaf "")) args).
    { destruct (exists_last Hne) as [l [a ->]]. rewrite last_last.
      apply in_app_iff. right. now left. }
    rewrite Forall_forall in Hall. destruct (Hall _ Hlast) as [_ Hparse].
    rewrite Hparse. cbn [Py.bind fst app].
    rewrite <- (app_removelast_last (TLeaf "") Hne), Hinit. cbn [Py.bind].
    f_equal. f_equal.
    replace (str_len (r ++ "(") + str_len body + 1)%Z
      with (str_len (r ++ "(" ++ body ++ ")"))
      by (rewrite !str_len_app; change (str_len ")") with 1%Z; lia).
    subst s. apply slice_from_app.
Qed.

(** Parsing the representation of a term gives the term back. *)
Lemma Term_parse_repr (t : Term) :
  Term_wf t = true -> Term_parse (Term_repr t) = Ok t.
Proof.
  intros Hwf. unfold Term_parse, Term_parse_prefix.
  rewrite <- (str_app_nil_r (Term_repr t)) at 2.
  rewrite (Term_parse_prefix_repr t Hwf "") by (reflexivity || lia).
  reflexivity.
Qed.

(* ------------------------------------------------------------------ *)
(** ** Parsing first-order formulas *)
(* ------------------------------------------------------------------ *)

(** *** The first loop of [Formula.parse_prefix] *)

Ltac fo_fields :=
  cbn [index open_number close_number operator_number index_close
       index_operator count_par to_return] in *.

Lemma fo_scan_loop_step (fuel : nat) (s : string) (st : Scan) :
  (index st < str_len s)%Z ->
  scan_loop (S fuel) s st
  = (step <- scan_step s st ;;
     match step with
     | Next st' => scan_loop fuel s st'
     | Break st' => Ok st'
     | Return r => match r with end
     end).
Proof.
  intros H. cbn [scan_loop]. now rewrite (proj2 (Z.ltb_lt _ _) H).
Qed.

Lemma scans_nil (d : Z) : scans_over d "" 0.
Proof.
  intros s pre post st fuel Hs Hi Hd Hbal.
  exists 0%Z, 0%Z, (index_close st).
  destruct st. fo_fields. now rewrite str_len_empty, !Z.add_0_r.
Qed.

Lemma scans_app (d : Z) (w1 w2 : string) (m1 m2 : nat) :
  scans_over d w1 m1 -> scans_over d w2 m2 ->
  scans_over d (w1 ++ w2) (m1 + m2).
Proof.
  intros H1 H2 s pre post st fuel Hs Hi Hd Hbal.
  destruct (H1 s pre (w2 ++ post) st (m2 + fuel)%nat)
    as [k1 [j1 [ic1 Hrun1]]];
    [now rewrite Hs, str_app_assoc | assumption | assumption | assumption |].
  destruct (H2 s (pre ++ w1) post
               (mkScan (index st + str_len w1) (open_number st + k1)
                       (close_number st + k1) (operator_number st + j1) ic1
                       (index_operator st) (count_par st) (to_return st)) fuel)
    as [k2 [j2 [ic2 Hrun2]]].
  { now rewrite Hs, !str_app_assoc. }
  { fo_fields. rewrite Hi, str_len_app. reflexivity. }
  { fo_fields. assumption. }
  { fo_fields. lia. }
  exists (k1 + k2)%Z, (j1 + j2)%Z, ic2. fo_fields.
  rewrite <- Nat.add_assoc, Hrun1, Hrun2. rewrite str_len_app.
  f_equal. f_equal; lia.
Qed.

Lemma scans_mono (d d' : Z) (w : string) (m : nat) :
  (d <= d')%Z -> scans_over d w m -> scans_over d' w m.
Proof.
  intros Hd H s pre post st fuel Hs Hi Hd' Hbal.
  apply (H s pre post st fuel Hs Hi); [lia | exact Hbal].
Qed.

Lemma scans_quiet_char (c : ascii) : quiet c = true -> scans_over 1 (String c "") 1.
Proof.
  intros Hq s pre post st fuel Hs Hi Hd Hbal.
  destruct (quiet_cases c Hq) as [H1 [H2 [H3 [H4 [_ [H6 _]]]]]].
  destruct st as [i o cl n ic io cp tr]. fo_fields. subst i.
  exists 0%Z, 0%Z, ic.
  cbn [Nat.add]. rewrite fo_scan_loop_step.
  2:{ fo_fields. rewrite Hs, !str_len_app, str_len_String.
      pose proof (str_len_nonneg post). rewrite str_len_empty. lia. }
  unfold scan_step, scan_branch. fo_fields.
  rewrite (str_getitem_at_eq s pre post c) by (try reflexivity; now rewrite Hs).
  cbn [Py.bind String.eqb]. rewrite H1, H2.
  unfold is_binary. cbn [String.eqb]. rewrite H3, H4. cbn [orb].
  destruct (slice_first pre post c 2 ltac:(lia)) as [t2 Ht2].
  subst s. cbn [append]. rewrite Ht2. cbn [String.eqb]. rewrite H6.
  rewrite andb_false_r. cbn [Py.bind]. fo_fields.
  destruct (Z.eqb_spec o cl); [lia |]. cbn [andb Py.bind].
  change (str_len (String c "")) with 1%Z. now rewrite !Z.add_0_r.
Qed.

Lemma scans_quiet (w : string) :
  all_chars quiet w = true -> scans_over 1 w (String.length w).
Proof.
  induction w as [| c w IH]; cbn [all_chars]; intros H.
  - apply scans_nil.
  - apply andb_true_iff in H. destruct H as [Hc Hw].
    change (String c w) with (String c "" ++ w).
    change (String.length (String c "" ++ w)) with (1 + String.length w)%nat.
    apply scans_app; [now apply scans_quiet_char | now apply IH].
Qed.

(** A binary operator inside nested parentheses is counted and passed
    over. *)
Lemma scans_operator (r : string) :
  is_binary r = true -> scans_over 2 r 1.
Proof.
  intros Hr s pre post st fuel Hs Hi Hd Hbal.
  destruct st as [i o cl n ic io cp tr]. fo_fields. subst i.
  exists 0%Z, 1%Z, ic.
  pose proof (str_len_nonneg post). pose proof (str_len_nonneg pre).
  unfold is_binary in Hr. rewrite !orb_true_iff, !String.eqb_eq in Hr.
  destruct (Z.eqb_spec cp 1) as [E | _]; [lia |].
  destruct Hr as [[-> | ->] | ->].
  - cbn [Nat.add]. rewrite fo_scan_loop_step
      by (fo_fields; rewrite Hs, !str_len_app; change (str_len "&") with 1%Z; lia).
    unfold scan_step, scan_branch. fo_fields.
    rewrite (str_getitem_at_eq s pre post "&") by (try reflexivity; now rewrite Hs).
    cbn [Py.bind String.eqb Ascii.eqb Bool.eqb]. change (is_binary "&") with true.
    cbv iota. cbn [Py.bind]. fo_fields.
    destruct (Z.eqb_spec cp 1) as [E | _]; [lia |].
    destruct (Z.eqb_spec o cl); [lia |]. cbn [andb Py.bind].
    change (str_len "&") with 1%Z. now rewrite !Z.add_0_r.
  - cbn [Nat.add]. rewrite fo_scan_loop_step
      by (fo_fields; rewrite Hs, !str_len_app; change (str_len "|") with 1%Z; lia).
    unfold scan_step, scan_branch. fo_fields.
    rewrite (str_getitem_at_eq s pre post "|") by (try reflexivity; now rewrite Hs).
    cbn [Py.bind String.eqb Ascii.eqb Bool.eqb]. change (is_binary "|") with true.
    cbv iota. cbn [Py.bind]. fo_fields.
    destruct (Z.eqb_spec cp 1) as [E | _]; [lia |].
    destruct (Z.eqb_spec o cl); [lia |]. cbn [andb Py.bind].
    change (str_len "|") with 1%Z. now rewrite !Z.add_0_r.
  - cbn [Nat.add]. rewrite fo_scan_loop_step
      by (fo_fields; rewrite Hs, !str_len_app; change (str_len "->") with 2%Z; lia).
    unfold scan_step, scan_branch. fo_fields.
    rewrite (str_getitem_at_eq s pre (">" ++ post) "-")
      by (try reflexivity; now rewrite Hs).
    cbn [Py.bind String.eqb Ascii.eqb Bool.eqb]. change (is_binary "-") with false.
    cbv iota.
    rewrite (slice_app2 s pre "->" post (str_len pre) Hs eq_refl) by reflexivity.
    rewrite (proj2 (Z.ltb_lt (str_len pre + 1) (str_len s)))
      by (rewrite Hs, !str_len_app; change (str_len "->") with 2%Z; lia).
    cbn [andb String.eqb Ascii.eqb Bool.eqb Py.bind]. fo_fields.
    destruct (Z.eqb_spec cp 1) as [E | _]; [lia |].
    destruct (Z.eqb_spec o cl); [lia |]. cbn [andb Py.bind].
    change (str_len "->") with 2%Z. rewrite !Z.add_0_r.
    replace (str_len pre + 1 + 1)%Z with (str_len pre + 2)%Z by lia.
    reflexivity.
Qed.

(** A parenthesised word is passed over when its inside is, one level
    deeper. *)
Lemma scans_parens (w : string) (m : nat) :
  scans_over 2 w m -> scans_over 1 ("(" ++ w ++ ")") (1 + (m + 1)).
Proof.
  intros Hw s pre post st fuel Hs Hi Hd Hbal.
  destruct st as [i o cl n ic io cp tr]. fo_fields. subst i.
  pose proof (str_len_nonneg pre). pose proof (str_len_nonneg w).
  pose proof (str_len_nonneg post).
  assert (Hls : str_len s = (str_len pre + 1 + str_len w + 1 + str_len post)%Z).
  { rewrite Hs, !str_len_app. change (str_len "(") with 1%Z.
    change (str_len ")") with 1%Z. lia. }
  cbn [Nat.add]. rewrite fo_scan_loop_step by (fo_fields; lia).
  unfold scan_step at 1. unfold scan_branch. fo_fields.
  rewrite (str_getitem_at_eq s pre (w ++ ")" ++ post) "(")
    by (try reflexivity; now rewrite Hs, ?str_app_assoc).
  cbn [Py.bind String.eqb Ascii.eqb Bool.eqb]. fo_fields.
  destruct (Z.eqb_spec (o + 1) cl); [lia |]. cbn [andb Py.bind].
  destruct (Hw s (pre ++ "(") (")" ++ post)
               (mkScan (str_len pre + 1) (o + 1) cl n ic io (cp + 1) tr)
               (1 + fuel)%nat)
    as [k [j [ic1 Hrun]]].
  { now rewrite Hs, ?str_app_assoc. }
  { fo_fields. rewrite str_len_app. reflexivity. }
  { fo_fields. lia. }
  { fo_fields. lia. }
  rewrite <- Nat.add_assoc, Hrun. fo_fields.
  cbn [Nat.add]. rewrite fo_scan_loop_step by (fo_fields; lia).
  unfold scan_step, scan_branch. fo_fields.
  rewrite (str_getitem_at_eq s (pre ++ "(" ++ w) post ")")
    by (rewrite ?str_len_app, ?Hs, ?str_app_assoc; try reflexivity;
        change (str_len "(") with 1%Z; lia).
  cbn [Py.bind String.eqb Ascii.eqb Bool.eqb]. fo_fields.
  destruct (Z.eqb_spec (o + 1 + k) (cl + k + 1)); [lia |]. cbn [andb Py.bind].
  exists (1 + k)%Z, j, (str_len pre + 1 + str_len w)%Z.
  f_equal. rewrite !str_len_app. change (str_len "(") with 1%Z.
  change (str_len ")") with 1%Z. f_equal; lia.
Qed.

Lemma alnum_quiet (c : ascii) : is_alnum_char c = true -> quiet c = true.
Proof.
  intros Hc. unfold quiet. cbn [existsb].
  now rewrite !(alnum_not c) by (assumption || reflexivity).
Qed.

Lemma term_leaf_quiet (r : string) :
  Term_wf (TLeaf r) = true -> all_chars quiet r = true.
Proof.
  intros Hwf. destruct (term_leaf_shape r Hwf) as [c [w [-> H]]].
  destruct H as [[_ H] | [[_ [_ [_ H]]] | H]].
  - apply (all_chars_impl _ _ _ alnum_quiet H).
  - apply (all_chars_impl _ _ _ alnum_quiet H).
  - now rewrite H.
Qed.

Lemma scans_join (args : list Term) :
  Forall (fun t => exists m, (m <= String.length (Term_repr t))%nat
                             /\ scans_over 1 (Term_repr t) m) args ->
  exists m, (m <= String.length (join "," (map Term_repr args)))%nat
            /\ scans_over 1 (join "," (map Term_repr args)) m.
Proof.
  induction 1 as [| t args [m [Hm Ht]] _ [ms [Hms IH]]].
  - exists 0%nat. split; [cbn; lia | apply scans_nil].
  - destruct args as [| t' args].
    + exists m. split; [exact Hm | exact Ht].
    + exists (m + (1 + ms))%nat. cbn [map] in *. rewrite join_cons. split.
      * rewrite !str_length_app. cbn [String.length]. lia.
      * apply scans_app; [exact Ht |].
        apply scans_app; [now apply scans_quiet_char | exact IH].
Qed.

(** The loop passes over every term. *)
Lemma scans_term (t : Term) :
  Term_wf t = true ->
  exists m, (m <= String.length (Term_repr t))%nat
            /\ scans_over 1 (Term_repr t) m.
Proof.
  induction t as [r | r args IH] using Term_induction; intros Hwf.
  - exists (String.length r). split; [reflexivity |].
    apply scans_quiet. now apply term_leaf_quiet.
  - destruct (term_app_shape r args Hwf) as [Hr [_ [Hargs _]]].
    assert (Hall : Forall (fun t => exists m,
                               (m <= String.length (Term_repr t))%nat
                               /\ scans_over 1 (Term_repr t) m) args).
    { rewrite forallb_forall in Hargs. rewrite Forall_forall in *.
      intros t Ht. apply (IH t Ht). now apply Hargs. }
    destruct (scans_join args Hall) as [m [Hm Hjoin]].
    exists (String.length r + (1 + (m + 1)))%nat. cbn [Term_repr]. split.
    + rewrite !str_length_app. cbn [String.length]. lia.
    + apply scans_app.
      * apply scans_quiet. apply (all_chars_impl _ _ _ alnum_quiet Hr).
      * apply scans_parens. apply (scans_mono 1); [lia | exact Hjoin].
Qed.

Lemma scans_terms (args : list Term) :
  forallb Term_wf args = true ->
  exists m, (m <= String.length (join "," (map Term_repr args)))%nat
            /\ scans_over 1 (join "," (map Term_repr args)) m.
Proof.
  intros Hargs. apply scans_join. rewrite forallb_forall in Hargs.
  apply Forall_forall. intros t Ht. apply scans_term. now apply Hargs.
Qed.

Lemma relation_shape (r : string) :
  is_relation r = Ok true ->
  exists c w, r = String c w /\ between "F" c "T" = true
              /\ all_chars is_alnum_char r = true.
Proof.
  destruct r as [| c w]; [discriminate |]. unfold is_relation.
  intros H. injection H as H. apply andb_true_iff in H.
  exists c, w. tauto.
Qed.

Lemma variable_shape (x : string) :
  is_variable x = Ok true ->
  exists c w, x = String c w /\ between "u" c "z" = true
              /\ all_chars is_alnum_char x = true.
Proof.
  destruct x as [| c w]; [discriminate |]. unfold is_variable.
  intros H. injection H as H. apply andb_true_iff in H.
  exists c, w. tauto.
Qed.

(** The cases of a first-order formula that the constructor accepts. *)
Lemma wf_relation (r : string) (args : list Term) :
  wf (Relation r args) = true ->
  forallb Term_wf args = true /\
  ((r = "=" /\ exists a b, args = [a; b])
   \/ (is_equality r = false /\ is_relation r = Ok true)).
Proof.
  cbn [wf]. destruct (is_relation r) as [rel |] eqn:Hrel; [| discriminate].
  intros H. apply andb_true_iff in H. destruct H as [H Hargs].
  split; [exact Hargs |].
  destruct (is_equality r) eqn:He.
  - left. apply String.eqb_eq in He. split; [exact He |].
    destruct args as [| a [| b [| c args]]]; try discriminate. now exists a, b.
  - right. now subst rel.
Qed.

Lemma wf_quantifier (r x : string) (a : Formula) :
  wf (Quantifier r x a) = true ->
  (r = "A" \/ r = "E") /\ is_variable x = Ok true /\ wf a = true.
Proof.
  cbn [wf]. intros H. apply andb_true_iff in H. destruct H as [H Ha].
  apply andb_true_iff in H. destruct H as [Hr Hx].
  unfold is_quantifier in Hr. rewrite orb_true_iff, !String.eqb_eq in Hr.
  destruct (is_variable x) as [[|] |]; try discriminate. tauto.
Qed.

(** The loop passes over every formula that stands inside parentheses. *)
Lemma scans_formula (f : Formula) :
  wf f = true ->
  exists m, (m <= String.length (repr f))%nat /\ scans_over 1 (repr f) m.
Proof.
  induction f as [r args | r a IHa | r a IHa b IHb | r x a IHa]; intros Hwf.
  - destruct (wf_relation r args Hwf) as [Hargs [[-> [a [b ->]]] | [He Hrel]]].
    + cbn [forallb] in Hargs. apply andb_true_iff in Hargs.
      destruct Hargs as [Ha Hb]. apply andb_true_iff in Hb. destruct Hb as [Hb _].
      destruct (scans_term a Ha) as [ma [Hma Hsa]].
      destruct (scans_term b Hb) as [mb [Hmb Hsb]].
      exists (ma + (1 + mb))%nat. cbn [repr is_equality String.eqb Ascii.eqb Bool.eqb].
      split; [rewrite !str_length_app; cbn [String.length]; lia |].
      apply scans_app; [exact Hsa |].
      apply scans_app; [now apply scans_quiet_char | exact Hsb].
    + destruct (relation_shape r Hrel) as [c [w [_ [_ Hr]]]].
      destruct (scans_terms args Hargs) as [m [Hm Hjoin]].
      exists (String.length r + (1 + (m + 1)))%nat. cbn [repr]. rewrite He.
      split; [rewrite !str_length_app; cbn [String.length]; lia |].
      apply scans_app.
      * apply scans_quiet. apply (all_chars_impl _ _ _ alnum_quiet Hr).
      * apply scans_parens. apply (scans_mono 1); [lia | exact Hjoin].
  - cbn [wf] in Hwf. apply andb_true_iff in Hwf. destruct Hwf as [_ Hwa].
    destruct (IHa Hwa) as [ma [Hma Ha]].
    exists (1 + ma)%nat. cbn [repr].
    split; [rewrite !str_length_app; cbn [String.length]; lia |].
    apply scans_app; [now apply scans_quiet_char | exact Ha].
  - cbn [wf] in Hwf. apply andb_true_iff in Hwf. destruct Hwf as [Hwf Hwb].
    apply andb_true_iff in Hwf. destruct Hwf as [Hr Hwa].
    destruct (IHa Hwa) as [ma [Hma Ha]]. destruct (IHb Hwb) as [mb [Hmb Hb]].
    exists (1 + ((ma + (1 + mb)) + 1))%nat. cbn [repr].
    assert (Hlr : (1 <= String.length r)%nat).
    { unfold is_binary in Hr. rewrite !orb_true_iff, !String.eqb_eq in Hr.
      destruct Hr as [[-> | ->] | ->]; cbn; lia. }
    split; [rewrite !str_length_app; cbn [String.length]; lia |].
    replace (repr a ++ r ++ repr b ++ ")") with ((repr a ++ r ++ repr b) ++ ")")
      by now rewrite !str_app_assoc.
    apply scans_parens.
    apply scans_app; [apply (scans_mono 1); [lia | exact Ha] |].
    apply scans_app; [now apply scans_operator |].
    apply (scans_mono 1); [lia | exact Hb].
  - destruct (wf_quantifier r x a Hwf) as [Hr [Hx Hwa]].
    destruct (variable_shape x Hx) as [c [w [_ [_ Hxa]]]].
    destruct (IHa Hwa) as [ma [Hma Ha]].
    exists (String.length r + (String.length x + (1 + (ma + 1))))%nat.
    cbn [repr].
    split; [rewrite !str_length_app; cbn [String.length]; lia |].
    apply scans_app.
    { apply scans_quiet. destruct Hr as [-> | ->]; reflexivity. }
    apply scans_app.
    { apply scans_quiet. apply (all_chars_impl _ _ _ alnum_quiet Hxa). }
    apply scans_app; [now apply scans_quiet_char |].
    apply scans_app; [exact Ha | now apply scans_quiet_char].
Qed.

(** From an opening parenthesis met outside all parentheses the loop runs
    to the matching closing one and stops there, whatever follows. *)
Lemma scan_to_closing (w : string) (m : nat) (mark : Z -> Z) :
  (forall (s pre post : string) (st : Scan) (fuel : nat),
      s = pre ++ w ++ post -> index st = str_len pre ->
      count_par st = 1%Z -> (open_number st - close_number st = 1)%Z ->
      index_operator st = 0%Z ->
      exists k j ic,
        scan_loop (m + fuel) s st
        = scan_loop fuel s
            (mkScan (index st + str_len w) (open_number st + k)
                    (close_number st + k) (operator_number st + j) ic
                    (mark (str_len pre)) 1 (to_return st))) ->
  forall (s pre rest : string) (fuel : nat),
    s = pre ++ "(" ++ w ++ ")" ++ rest -> (1 + (m + 1) <= fuel)%nat ->
    exists st,
      scan_loop fuel s (mkScan (str_len pre) 0 0 0 0 0 0 "") = Ok st
      /\ index_close st = (str_len pre + 1 + str_len w)%Z
      /\ index_operator st = mark (str_len pre + 1)%Z
      /\ to_return st = rest.
Proof.
  intros Hw s pre rest fuel Hs Hfuel.
  pose proof (str_len_nonneg pre). pose proof (str_len_nonneg w).
  pose proof (str_len_nonneg rest).
  assert (Hls : str_len s = (str_len pre + 1 + str_len w + 1 + str_len rest)%Z).
  { rewrite Hs, !str_len_app. change (str_len "(") with 1%Z.
    change (str_len ")") with 1%Z. lia. }
  replace fuel with (1 + (m + (1 + (fuel - (1 + (m + 1))))))%nat by lia.
  cbn [Nat.add]. rewrite fo_scan_loop_step by (fo_fields; lia).
  unfold scan_step at 1. unfold scan_branch. fo_fields.
  rewrite (str_getitem_at_eq s pre (w ++ ")" ++ rest) "(")
    by (try reflexivity; now rewrite Hs, ?str_app_assoc).
  cbn [Py.bind String.eqb Ascii.eqb Bool.eqb]. fo_fields.
  change (0 + 1 =? 0)%Z with false. cbn [andb Py.bind].
  destruct (Hw s (pre ++ "(") (")" ++ rest)
               (mkScan (str_len pre + 1) (0 + 1) 0 0 0 0 (0 + 1) "")
               (1 + (fuel - (1 + (m + 1))))%nat)
    as [k [j [ic Hrun]]].
  { now rewrite Hs, ?str_app_assoc. }
  { fo_fields. rewrite str_len_app. reflexivity. }
  { reflexivity. }
  { reflexivity. }
  { reflexivity. }
  fo_fields. cbn [Nat.add] in Hrun. rewrite Hrun.
  rewrite fo_scan_loop_step by (fo_fields; lia).
  unfold scan_step, scan_branch. fo_fields.
  rewrite (str_getitem_at_eq s (pre ++ "(" ++ w) rest ")")
    by (rewrite ?str_len_app, ?Hs, ?str_app_assoc; try reflexivity;
        change (str_len "(") with 1%Z; lia).
  cbn [Py.bind String.eqb Ascii.eqb Bool.eqb]. fo_fields.
  rewrite (proj2 (Z.eqb_eq (0 + 1 + k) (0 + k + 1))) by lia.
  cbn [andb Py.bind]. eexists. split; [reflexivity |]. fo_fields.
  split; [reflexivity |]. split.
  - rewrite str_len_app. reflexivity.
  - replace (str_len pre + 1 + str_len w + 1)%Z
      with (str_len (pre ++ "(" ++ w ++ ")"))
      by (rewrite !str_len_app; change (str_len "(") with 1%Z;
          change (str_len ")") with 1%Z; lia).
    subst s. replace (pre ++ "(" ++ w ++ ")" ++ rest)
      with ((pre ++ "(" ++ w ++ ")") ++ rest) by now rewrite ?str_app_assoc.
    apply slice_from_app.
Qed.

(** The root operator of a binary formula is marked. *)
Lemma scan_root_operator (r : string) :
  is_binary r = true ->
  forall (s pre post : string) (st : Scan) (fuel : nat),
    s = pre ++ r ++ post -> index st = str_len pre ->
    count_par st = 1%Z -> open_number st <> close_number st ->
    scan_loop (1 + fuel) s st
    = scan_loop fuel s
        (mkScan (index st + str_len r) (open_number st) (close_number st)
                (operator_number st + 1) (index_close st)
                (index st + str_len r - 1) 1 (to_return st)).
Proof.
  intros Hr s pre post st fuel Hs Hi Hcp Hbal.
  destruct st as [i o cl n ic io cp tr]. fo_fields. subst i cp.
  pose proof (str_len_nonneg post). pose proof (str_len_nonneg pre).
  unfold is_binary in Hr. rewrite !orb_true_iff, !String.eqb_eq in Hr.
  destruct (Z.eqb_spec o cl) as [E | _]; [contradiction |].
  destruct Hr as [[-> | ->] | ->].
  - cbn [Nat.add]. rewrite fo_scan_loop_step
      by (fo_fields; rewrite Hs, !str_len_app; change (str_len "&") with 1%Z; lia).
    unfold scan_step, scan_branch. fo_fields.
    rewrite (str_getitem_at_eq s pre post "&") by (try reflexivity; now rewrite Hs).
    cbn [Py.bind String.eqb Ascii.eqb Bool.eqb]. change (is_binary "&") with true.
    cbv iota. cbn [Py.bind]. fo_fields. change (1 =? 1)%Z with true. cbv iota.
    destruct (Z.eqb_spec o cl); [lia |]. cbn [andb Py.bind].
    change (str_len "&") with 1%Z.
    replace (str_len pre + 1 - 1)%Z with (str_len pre) by lia. reflexivity.
  - cbn [Nat.add]. rewrite fo_scan_loop_step
      by (fo_fields; rewrite Hs, !str_len_app; change (str_len "|") with 1%Z; lia).
    unfold scan_step, scan_branch. fo_fields.
    rewrite (str_getitem_at_eq s pre post "|") by (try reflexivity; now rewrite Hs).
    cbn [Py.bind String.eqb Ascii.eqb Bool.eqb]. change (is_binary "|") with true.
    cbv iota. cbn [Py.bind]. fo_fields. change (1 =? 1)%Z with true. cbv iota.
    destruct (Z.eqb_spec o cl); [lia |]. cbn [andb Py.bind].
    change (str_len "|") with 1%Z.
    replace (str_len pre + 1 - 1)%Z with (str_len pre) by lia. reflexivity.
  - cbn [Nat.add]. rewrite fo_scan_loop_step
      by (fo_fields; rewrite Hs, !str_len_app; change (str_len "->") with 2%Z; lia).
    unfold scan_step, scan_branch. fo_fields.
    rewrite (str_getitem_at_eq s pre (">" ++ post) "-")
      by (try reflexivity; now rewrite Hs).
    cbn [Py.bind String.eqb Ascii.eqb Bool.eqb]. change (is_binary "-") with false.
    cbv iota.
    rewrite (slice_app2 s pre "->" post (str_len pre) Hs eq_refl) by reflexivity.
    rewrite (proj2 (Z.ltb_lt (str_len pre + 1) (str_len s)))
      by (rewrite Hs, !str_len_app; change (str_len "->") with 2%Z; lia).
    cbn [andb String.eqb Ascii.eqb Bool.eqb Py.bind]. fo_fields.
    change (1 =? 1)%Z with true. cbv iota.
    destruct (Z.eqb_spec o cl); [lia |]. cbn [andb Py.bind].
    change (str_len "->") with 2%Z.
    replace (str_len pre + 1 + 1)%Z with (str_len pre + 2)%Z by lia.
    replace (str_len pre + 2 - 1)%Z with (str_len pre + 1)%Z by lia.
    reflexivity.
Qed.

(** On a binary formula the loop stops at its closing parenthesis, with
    the root operator marked. *)
Lemma fo_scan_binary (r : string) (a b : Formula) (rest : string) :
  wf (Binary r a b) = true ->
  exists st,
    scan_loop (String.length (repr (Binary r a b) ++ rest))
              (repr (Binary r a b) ++ rest) (mkScan 0 0 0 0 0 0 0 "")
    = Ok st
    /\ index_close st = (str_len (repr (Binary r a b)) - 1)%Z
    /\ index_operator st = (1 + str_len (repr a) + str_len r - 1)%Z
    /\ to_return st = rest.
Proof.
  intros Hwf.
  cbn [wf] in Hwf. apply andb_true_iff in Hwf. destruct Hwf as [Hwf Hwb].
  apply andb_true_iff in Hwf. destruct Hwf as [Hr Hwa].
  destruct (scans_formula a Hwa) as [ma [Hma Ha]].
  destruct (scans_formula b Hwb) as [mb [Hmb Hb]].
  assert (Hlr : (1 <= String.length r)%nat).
  { unfold is_binary in Hr. rewrite !orb_true_iff, !String.eqb_eq in Hr.
    destruct Hr as [[-> | ->] | ->]; cbn; lia. }
  cbn [repr].
  destruct (scan_to_closing (repr a ++ r ++ repr b) (ma + (1 + mb))
              (fun p => (p + str_len (repr a) + str_len r - 1)%Z))
    with (s := ("(" ++ repr a ++ r ++ repr b ++ ")") ++ rest) (pre := "")
         (rest := rest)
         (fuel := String.length (("(" ++ repr a ++ r ++ repr b ++ ")") ++ rest))
    as [st [Hrun [Hic [Hio Htr]]]].
  - intros s pre post st fuel Hs Hi Hcp Hbal Hio.
    destruct (Ha s pre (r ++ repr b ++ post) st (1 + (mb + fuel))%nat)
      as [k1 [j1 [ic1 Hrun1]]];
      [now rewrite Hs, ?str_app_assoc | exact Hi | lia | lia |].
    replace (ma + (1 + mb) + fuel)%nat with (ma + (1 + (mb + fuel)))%nat by lia.
    rewrite Hrun1.
    rewrite (scan_root_operator r Hr s (pre ++ repr a) (repr b ++ post));
      [| now rewrite Hs, ?str_app_assoc
       | fo_fields; rewrite Hi, str_len_app; reflexivity
       | exact Hcp | fo_fields; lia].
    fo_fields.
    destruct (Hb s (pre ++ repr a ++ r) post
                 (mkScan (index st + str_len (repr a) + str_len r)
                         (open_number st + k1) (close_number st + k1)
                         (operator_number st + j1 + 1) ic1
                         (index st + str_len (repr a) + str_len r - 1) 1
                         (to_return st)) fuel)
      as [k2 [j2 [ic2 Hrun2]]].
    { now rewrite Hs, ?str_app_assoc. }
    { fo_fields. rewrite Hi, !str_len_app. lia. }
    { fo_fields. lia. }
    { fo_fields. lia. }
    rewrite Hcp in *. rewrite Hrun2. fo_fields.
    exists (k1 + k2)%Z, (j1 + 1 + j2)%Z, ic2.
    rewrite !str_len_app, Hi. f_equal. f_equal; lia.
  - now rewrite ?str_app_assoc.
  - rewrite !str_length_app. cbn [String.length]. lia.
  - exists st. split; [exact Hrun |]. rewrite Hic, Hio, Htr.
    rewrite !str_len_app. change (str_len "(") with 1%Z.
    change (str_len ")") with 1%Z. change (str_len "") with 0%Z.
    repeat split; lia.
Qed.

(** On a relation the loop, from the opening parenthesis, stops at the
    closing one. *)
Lemma fo_scan_relation (r : string) (args : list Term) (rest : string) :
  forallb Term_wf args = true ->
  exists st,
    scan_loop (String.length ((r ++ "(" ++ join "," (map Term_repr args) ++ ")")
                              ++ rest))
              ((r ++ "(" ++ join "," (map Term_repr args) ++ ")") ++ rest)
              (mkScan (str_len r) 0 0 0 0 0 0 "")
    = Ok st
    /\ index_close st
       = (str_len (r ++ "(" ++ join "," (map Term_repr args) ++ ")") - 1)%Z
    /\ to_return st = rest.
Proof.
  intros Hargs. destruct (scans_terms args Hargs) as [m [Hm Hjoin]].
  destruct (scan_to_closing (join "," (map Term_repr args)) m (fun _ => 0%Z))
    with (s := (r ++ "(" ++ join "," (map Term_repr args) ++ ")") ++ rest)
         (pre := r) (rest := rest)
         (fuel := String.length
                    ((r ++ "(" ++ join "," (map Term_repr args) ++ ")") ++ rest))
    as [st [Hrun [Hic [_ Htr]]]].
  - intros s pre post st fuel Hs Hi Hcp Hbal Hio.
    destruct (Hjoin s pre post st fuel Hs Hi) as [k [j [ic Hrun]]]; [lia | lia |].
    exists k, j, ic. now rewrite Hrun, Hio, Hcp.
  - now rewrite ?str_app_assoc.
  - rewrite !str_length_app. cbn [String.length]. lia.
  - exists st. split; [exact Hrun |]. rewrite Hic, Htr.
    rewrite !str_len_app. change (str_len "(") with 1%Z.
    change (str_len ")") with 1%Z. split; [lia | reflexivity].
Qed.

(** *** Characters of terms and names *)

Ltac char_codes :=
  unfold between, char_le in *;
  change (N_of_ascii "0") with 48%N in *;
  change (N_of_ascii "9") with 57%N in *;
  change (N_of_ascii "a") with 97%N in *;
  change (N_of_ascii "d") with 100%N in *;
  change (N_of_ascii "f") with 102%N in *;
  change (N_of_ascii "t") with 116%N in *;
  change (N_of_ascii "u") with 117%N in *;
  change (N_of_ascii "z") with 122%N in *;
  change (N_of_ascii "F") with 70%N in *;
  change (N_of_ascii "T") with 84%N in *;
  rewrite ?andb_true_iff, ?orb_true_iff, ?andb_false_iff, ?N.leb_le,
    ?N.leb_gt in *.

Lemma term_start_lower (lo hi c : ascii) :
  (97 <= N_of_ascii lo)%N -> (N_of_ascii hi <= 122)%N ->
  between lo c hi = true -> term_start c = true.
Proof.
  intros Hlo Hhi Hb. unfold term_start.
  assert (H : between "a" c "z" = true).
  { char_codes. lia. }
  rewrite H. now rewrite orb_true_r.
Qed.

(** A term starts with a digit, a lowercase letter or the underscore. *)
Lemma term_first (t : Term) :
  Term_wf t = true ->
  exists c w, Term_repr t = String c w /\ term_start c = true.
Proof.
  destruct t as [r | r args]; cbn [Term_wf Term_repr].
  - destruct r as [| c w]; [discriminate |]. intros H. exists c, w.
    split; [reflexivity |]. unfold is_constant, is_variable in H.
    apply orb_true_iff in H. destruct H as [H | H].
    + apply orb_true_iff in H. destruct H as [H | H].
      * apply andb_true_iff in H. destruct H as [H _].
        apply orb_true_iff in H. destruct H as [H | H].
        -- unfold term_start. now rewrite H.
        -- apply (term_start_lower "a" "d"); [cbn; lia | cbn; lia | exact H].
      * apply String.eqb_eq in H. injection H as -> _. reflexivity.
    + apply andb_true_iff in H. destruct H as [H _].
      apply (term_start_lower "u" "z"); [cbn; lia | cbn; lia | exact H].
  - destruct (is_constant r) as [[|] |]; try discriminate.
    destruct (is_variable r) as [[|] |]; try discriminate.
    destruct (is_function r) as [[|] |] eqn:Hf; try discriminate.
    intros _. destruct r as [| c w]; [discriminate |].
    exists c, (w ++ "(" ++ join "," (map Term_repr args) ++ ")").
    split; [reflexivity |]. unfold is_function in Hf. injection Hf as Hf.
    apply andb_true_iff in Hf. destruct Hf as [Hf _].
    apply (term_start_lower "f" "t"); [cbn; lia | cbn; lia | exact Hf].
Qed.

Lemma term_start_first (c : ascii) :
  term_start c = true ->
  is_unary (String c "") = false /\ is_quantifier (String c "") = false /\
  is_relation (String c "") = Ok false /\ String.eqb (String c "") "(" = false.
Proof.
  intros H.
  assert (Hne : forall x, term_start x = false -> Ascii.eqb c x = false).
  { intros x Hx. destruct (Ascii.eqb_spec c x) as [-> | _]; congruence. }
  assert (Hrel : between "F" c "T" = false).
  { unfold term_start in H. apply orb_true_iff in H. destruct H as [H | H].
    - apply orb_true_iff in H. destruct H as [H | H]; char_codes; lia.
    - apply Ascii.eqb_eq in H. subst c. reflexivity. }
  unfold is_unary, is_quantifier, is_relation. cbn [String.eqb].
  rewrite (Hne "~"%char), (Hne "A"%char), (Hne "E"%char), (Hne "("%char), Hrel
    by reflexivity.
  repeat split.
Qed.

Lemma relation_first (c : ascii) (w : string) :
  is_relation (String c w) = Ok true ->
  is_unary (String c "") = false /\ is_quantifier (String c "") = false /\
  is_relation (String c "") = Ok true.
Proof.
  unfold is_relation. intros H. injection H as H.
  apply andb_true_iff in H. destruct H as [Hb Ha].
  cbn [isalnum all_chars] in Ha. apply andb_true_iff in Ha. destruct Ha as [Ha _].
  assert (Hne : forall x, between "F" x "T" = false -> Ascii.eqb c x = false).
  { intros x Hx. destruct (Ascii.eqb_spec c x) as [-> | _]; congruence. }
  unfold is_unary, is_quantifier. cbn [String.eqb isalnum all_chars].
  rewrite (Hne "~"%char), (Hne "A"%char), (Hne "E"%char), Hb, Ha by reflexivity.
  repeat split.
Qed.

Lemma term_char_join (args : list Term) :
  Forall (fun t => all_chars term_char (Term_repr t) = true) args ->
  all_chars term_char (join "," (map Term_repr args)) = true.
Proof.
  induction 1 as [| t args Ht _ IH]; [reflexivity |].
  destruct args as [| t' args]; [exact Ht |].
  cbn [map] in *. rewrite join_cons, !all_chars_app, Ht, IH. reflexivity.
Qed.

Lemma alnum_term_char (c : ascii) : is_alnum_char c = true -> term_char c = true.
Proof.
  intros H. unfold term_char. now rewrite H.
Qed.

(** The characters of a term: alphanumeric, the underscore, parentheses
    and commas. *)
Lemma Term_repr_chars (t : Term) :
  Term_wf t = true -> all_chars term_char (Term_repr t) = true.
Proof.
  induction t as [r | r args IH] using Term_induction; intros Hwf.
  - destruct (term_leaf_shape r Hwf) as [c [w [-> H]]].
    destruct H as [[_ H] | [[_ [_ [_ H]]] | H]].
    + apply (all_chars_impl _ _ _ alnum_term_char H).
    + apply (all_chars_impl _ _ _ alnum_term_char H).
    + now rewrite H.
  - destruct (term_app_shape r args Hwf) as [Hr [_ [Hargs _]]].
    cbn [Term_repr]. rewrite !all_chars_app.
    rewrite (all_chars_impl _ _ _ alnum_term_char Hr).
    rewrite term_char_join; [reflexivity |].
    rewrite forallb_forall in Hargs. rewrite Forall_forall in *.
    intros t Ht. apply (IH t Ht). now apply Hargs.
Qed.

Lemma Term_repr_no_equals (t : Term) :
  Term_wf t = true ->
  all_chars (fun x => negb (Ascii.eqb x "=")) (Term_repr t) = true.
Proof.
  intros Hwf. apply (all_chars_impl term_char); [| now apply Term_repr_chars].
  intros c Hc. destruct (Ascii.eqb_spec c "=") as [-> | _]; [discriminate | reflexivity].
Qed.

Lemma closing_no_equals (rest : string) :
  closing rest = true ->
  all_chars (fun x => negb (Ascii.eqb x "=")) rest = true.
Proof.
  apply all_chars_impl. intros c Hc. apply Ascii.eqb_eq in Hc. now subst c.
Qed.

Lemma closing_after_name (rest : string) :
  closing rest = true -> after_name rest = true.
Proof.
  destruct rest as [| c rest]; [reflexivity |]. cbn [closing all_chars after_name].
  intros H. apply andb_true_iff in H. destruct H as [H _].
  apply Ascii.eqb_eq in H. now subst c.
Qed.

Lemma split_none (a : string) (c : ascii) :
  all_chars (fun x => negb (Ascii.eqb x c)) a = true -> split a c = [a].
Proof.
  induction a as [| x a IH]; cbn [all_chars split]; [reflexivity |].
  intros H. apply andb_true_iff in H. destruct H as [Hx Ha].
  apply negb_true_iff in Hx. now rewrite Hx, (IH Ha).
Qed.

Lemma split_app (a b : string) (c : ascii) :
  all_chars (fun x => negb (Ascii.eqb x c)) a = true ->
  split (a ++ String c b) c = a :: split b c.
Proof.
  induction a as [| x a IH]; cbn [all_chars split append]; intros H.
  - now rewrite Ascii.eqb_refl.
  - apply andb_true_iff in H. destruct H as [Hx Ha].
    apply negb_true_iff in Hx. now rewrite Hx, (IH Ha).
Qed.

Lemma substring_zero (n : nat) (s : string) : substring n 0 s = "".
Proof.
  revert s. induction n as [| n IH]; intros [| c s]; cbn; auto.
Qed.

Lemma slice_empty (s : string) (i : Z) : slice s i i = "".
Proof.
  unfold slice. rewrite Z.sub_diag. apply substring_zero.
Qed.

Lemma Term_repr_nonempty (t : Term) : Term_wf t = true -> Term_repr t <> "".
Proof.
  intros Hwf. destruct (term_first t Hwf) as [c [w [-> _]]]. discriminate.
Qed.

Lemma Term_parse_prefix_exact (t : Term) :
  Term_wf t = true -> Term_parse_prefix (Term_repr t) = Ok (t, "").
Proof.
  intros Hwf. unfold Term_parse_prefix.
  rewrite <- (str_app_nil_r (Term_repr t)) at 2.
  apply (Term_parse_prefix_repr t Hwf ""); [reflexivity | lia].
Qed.

Lemma Term_parse_prefix_rest (t : Term) (rest : string) :
  Term_wf t = true -> after_name rest = true ->
  Term_parse_prefix (Term_repr t ++ rest) = Ok (t, rest).
Proof.
  intros Hwf Hrest. unfold Term_parse_prefix.
  apply (Term_parse_prefix_repr t Hwf rest); [exact Hrest |].
  rewrite str_length_app. lia.
Qed.

(** *** The first-order [parse_prefix] on a representation *)

(** The second loop of [Formula.parse_prefix] and the lines after it
    compute the arguments of a relation. *)
Lemma split_relation (mark : Z -> Z) (r rest : string) (args : list Term) :
  forallb Term_wf args = true ->
  forall s, s = (r ++ "(" ++ join "," (map Term_repr args) ++ ")") ++ rest ->
  exists sp,
    split_loop Term_parse_prefix mark (String.length s) s
               (mkSplit (str_len r) 0 [] [] (str_len r) [])
    = Ok sp
    /\ (if negb (String.eqb (slice s (last_one sp + 1) (split_index sp)) "")
        then t <- Term_parse_prefix (slice s (last_one sp + 1) (split_index sp)) ;;
             Ok (terms sp ++ [fst t])%list
        else Ok (terms sp)) = Ok args.
Proof.
  intros Hargs s Hs.
  remember (join "," (map Term_repr args)) as body eqn:Hbody.
  pose proof (str_len_nonneg r). pose proof (str_len_nonneg body).
  pose proof (str_len_nonneg rest).
  assert (Hls : str_len s = (str_len r + 1 + str_len body + 1 + str_len rest)%Z).
  { rewrite Hs, !str_len_app. change (str_len "(") with 1%Z.
    change (str_len ")") with 1%Z. lia. }
  assert (Hlen : String.length s
                 = (String.length r + 1 + String.length body + 1
                    + String.length rest)%nat).
  { rewrite Hs, !str_length_app. cbn [String.length]. lia. }
  replace (String.length s) with (S (String.length s - 1)) by lia.
  rewrite split_loop_step by (split_fields; lia).
  unfold split_step at 1. split_fields.
  rewrite (str_getitem_at_eq s r (body ++ ")" ++ rest) "(")
    by (try reflexivity; now rewrite Hs, ?str_app_assoc).
  cbn [Py.bind String.eqb Ascii.eqb Bool.eqb]. split_fields.
  change (0 + 1 =? 0)%Z with false. cbv iota. cbn [Py.bind].
  assert (Hcase : args = [] \/ args <> [])
    by (destruct args; [left | right]; congruence).
  destruct Hcase as [-> | Hne].
  - (* no argument *)
    cbn [map join] in Hbody. subst body. cbn [String.length] in Hlen.
    rewrite str_len_empty in *.
    replace (String.length s - 1)%nat with (S (String.length s - 2)) by lia.
    rewrite split_loop_step by (split_fields; lia).
    unfold split_step. split_fields.
    rewrite (str_getitem_at_eq s (r ++ "(") rest ")")
      by (rewrite ?str_len_app, ?Hs, ?str_app_assoc; reflexivity).
    cbn [Py.bind String.eqb Ascii.eqb Bool.eqb]. split_fields.
    change (0 + 1 - 1 =? 0)%Z with true. cbv iota.
    eexists. split; [reflexivity |]. split_fields.
    rewrite slice_empty. reflexivity.
  - (* at least one argument *)
    assert (Hall : Forall (fun t => Term_wf t = true
                                    /\ Term_parse_prefix (Term_repr t)
                                       = Ok (t, "")) args).
    { rewrite forallb_forall in Hargs. apply Forall_forall.
      intros t Ht. split; [now apply Hargs |].
      apply Term_parse_prefix_exact. now apply Hargs. }
    destruct (split_arguments Term_parse_prefix mark args Hall Hne)
      as [m [Hm Hloop]]. rewrite <- Hbody in Hm, Hloop.
    destruct (Hloop s (r ++ "(") rest
                    (mkSplit (str_len r + 1) (0 + 1) [mark (str_len r)] []
                             (str_len r) [])
                    (String.length s - 1 - m)%nat)
      as [o [cl [lo [Hrun Hslice]]]].
    { now rewrite Hs, ?str_app_assoc. }
    { split_fields. rewrite str_len_app. reflexivity. }
    { split_fields. rewrite str_len_app. change (str_len "(") with 1%Z. lia. }
    { reflexivity. }
    { reflexivity. }
    replace (String.length s - 1)%nat with (m + (String.length s - 1 - m))%nat
      by lia.
    cbn [app]. rewrite Hrun. eexists. split; [reflexivity |]. split_fields.
    rewrite Hslice.
    assert (Hlast : In (last args (TLeaf "")) args).
    { destruct (exists_last Hne) as [l [a ->]]. rewrite last_last.
      apply in_app_iff. right. now left. }
    rewrite Forall_forall in Hall. destruct (Hall _ Hlast) as [Hwl Hparse].
    destruct (String.eqb_spec (Term_repr (last args (TLeaf ""))) "") as [E | _].
    { exfalso. now apply (Term_repr_nonempty _ Hwl). }
    cbn [negb]. rewrite Hparse. cbn [Py.bind fst app].
    now rewrite <- (app_removelast_last (TLeaf "") Hne).
Qed.

Lemma fo_repr_length (f : Formula) :
  wf f = true -> (1 <= String.length (repr f))%nat.
Proof.
  destruct f as [r args | r a | r a b | r x a]; intros Hwf; cbn [repr].
  - destruct (wf_relation r args Hwf) as [Hargs [[-> [a [b ->]]] | [He _]]].
    + cbn [is_equality String.eqb Ascii.eqb Bool.eqb].
      rewrite !str_length_app. cbn [String.length]. lia.
    + rewrite He, !str_length_app. cbn [String.length]. lia.
  - cbn [append String.length]. lia.
  - cbn [append String.length]. lia.
  - rewrite !str_length_app. cbn [String.length]. lia.
Qed.

Lemma alnum_no_bracket (w : string) :
  all_chars is_alnum_char w = true ->
  all_chars (fun x => negb (Ascii.eqb x "[")) w = true.
Proof.
  apply all_chars_impl. intros c Hc. now rewrite (alnum_not c "[" Hc).
Qed.

Lemma getitem_pair_0 {A : Type} (x y : A) : getitem [x; y] 0 = Ok x.
Proof.
  reflexivity.
Qed.

Lemma getitem_pair_1 {A : Type} (x y : A) : getitem [x; y] 1 = Ok y.
Proof.
  reflexivity.
Qed.

(** On the representation of a formula, followed by closing brackets,
    [Formula.parse_prefix] returns the formula and the brackets. *)
Lemma fo_parse_prefix_repr (f : Formula) :
  wf f = true ->
  forall (rest : string) (fuel : nat),
    closing rest = true ->
    (String.length (repr f) <= fuel)%nat ->
    parse_prefix_rec fuel (repr f ++ rest) = Ok (f, rest).
Proof.
  induction f as [r args | r a IHa | r a IHa b IHb | r x a IHa];
    intros Hwf rest fuel Hrest Hfuel;
    pose proof (fo_repr_length _ Hwf) as Hlen;
    (destruct fuel as [| fuel]; [lia |]).
  - destruct (wf_relation r args Hwf) as [Hargs [[-> [a [b ->]]] | [He Hrel]]].
    + (* an equality *)
      cbn [forallb] in Hargs. apply andb_true_iff in Hargs.
      destruct Hargs as [Ha Hb]. apply andb_true_iff in Hb. destruct Hb as [Hb _].
      cbn [repr is_equality String.eqb Ascii.eqb Bool.eqb].
      destruct (term_first a Ha) as [c [w [Hc Hstart]]].
      destruct (term_start_first c Hstart) as [Hun [Hq [Hr Hp]]].
      remember ((Term_repr a ++ "=" ++ Term_repr b) ++ rest) as s eqn:Hs.
      assert (Hfirst : str_getitem s 0 = Ok (String c "")).
      { rewrite Hs, Hc. apply str_getitem_first. }
      assert (Hsplit : split s "=" = [Term_repr a; Term_repr b ++ rest]).
      { rewrite Hs, !str_app_assoc. cbn [append].
        rewrite split_app by now apply Term_repr_no_equals.
        rewrite split_none; [reflexivity |].
        rewrite all_chars_app, Term_repr_no_equals by assumption.
        now apply closing_no_equals. }
      cbn [parse_prefix_rec]. rewrite Hfirst. cbn [Py.bind].
      rewrite Hun, Hq, Hr. cbn [Py.bind]. rewrite Hfirst. cbn [Py.bind].
      rewrite Hp, Hsplit, getitem_pair_0, getitem_pair_1. cbn [Py.bind].
      rewrite (Term_parse_prefix_exact a Ha). cbn [Py.bind].
      rewrite (Term_parse_prefix_rest b rest Hb (closing_after_name rest Hrest)).
      cbn [Py.bind fst snd]. change (2 <? len [Term_repr a; Term_repr b ++ rest])%Z
        with false. cbv iota. cbn [Py.bind].
      rewrite (Term_parse_repr a Ha), (Term_parse_repr b Hb). reflexivity.
    + (* a relation *)
      cbn [repr]. rewrite He.
      destruct (relation_shape r Hrel) as [c [w [Heq [_ Hr]]]].
      pose proof Hrel as Hrel'. rewrite Heq in Hrel'.
      destruct (relation_first c w Hrel') as [Hun [Hq Hr1]].
      set (body := join "," (map Term_repr args)).
      remember ((r ++ "(" ++ body ++ ")") ++ rest) as s eqn:Hs.
      assert (Hfirst : str_getitem s 0 = Ok (String c "")).
      { rewrite Hs, Heq. apply str_getitem_first. }
      assert (Hfind : find s "(" = str_len r).
      { rewrite Hs, ?str_app_assoc. apply find_app. now apply alnum_no_open. }
      assert (Hname : slice s 0 (str_len r) = r).
      { rewrite Hs, ?str_app_assoc. apply slice_to_app. }
      destruct (fo_scan_relation r args rest Hargs) as [st [Hscan [Hic Htr]]].
      fold body in Hscan, Hic. rewrite <- Hs in Hscan.
      destruct (split_relation (fun _ => index st) r rest args Hargs s Hs)
        as [sp [Hsplit Hterms]].
      cbn [parse_prefix_rec]. rewrite Hfirst. cbn [Py.bind].
      rewrite Hun, Hq, Hr1. cbn [Py.bind]. rewrite Hfind, Hname.
      rewrite (str_getitem_at_eq s r (body ++ ")" ++ rest) "(")
        by (try reflexivity; now rewrite Hs, ?str_app_assoc).
      cbn [Py.bind String.eqb Ascii.eqb Bool.eqb]. rewrite Hscan.
      cbn [Py.bind]. rewrite Hsplit. cbn [Py.bind]. rewrite Hterms.
      cbn [Py.bind]. unfold Formula_init. rewrite He, Hrel. cbn [Py.bind].
      f_equal. f_equal.
      destruct (Z.eqb_spec (index_close st) (str_len s - 1)) as [E | E];
        cbn [negb]; [exact Htr |].
      rewrite Hic.
      replace (str_len (r ++ "(" ++ body ++ ")") - 1 + 1)%Z
        with (str_len (r ++ "(" ++ body ++ ")")) by lia.
      rewrite Hs. apply slice_from_app.
  - (* a negation *)
    cbn [wf] in Hwf. apply andb_true_iff in Hwf. destruct Hwf as [Hr Hwa].
    apply String.eqb_eq in Hr. subst r. cbn [repr append] in *.
    cbn [parse_prefix_rec]. rewrite str_getitem_first. cbn [Py.bind].
    change (is_unary "~") with true. cbv iota.
    change (String "~" (repr a ++ rest)) with ("~" ++ repr a ++ rest).
    change 1%Z with (str_len "~") at 1. rewrite slice_from_app.
    rewrite (IHa Hwa rest fuel Hrest) by (cbn in Hfuel; lia).
    reflexivity.
  - (* a binary formula *)
    destruct (fo_scan_binary r a b rest Hwf) as [st [Hscan [Hic [Hio Htr]]]].
    cbn [wf] in Hwf. apply andb_true_iff in Hwf. destruct Hwf as [Hwf Hwb].
    apply andb_true_iff in Hwf. destruct Hwf as [Hr Hwa].
    pose proof (fo_repr_length a Hwa) as Hla.
    pose proof (fo_repr_length b Hwb) as Hlb.
    cbn [repr] in *.
    remember (("(" ++ repr a ++ r ++ repr b ++ ")") ++ rest) as s eqn:Hs.
    assert (Hlw : str_len ("(" ++ repr a ++ r ++ repr b ++ ")")
                  = (1 + str_len (repr a) + str_len r + str_len (repr b) + 1)%Z).
    { rewrite !str_len_app. change (str_len "(") with 1%Z.
      change (str_len ")") with 1%Z. lia. }
    assert (Hfuel' : (String.length (repr a) <= fuel
                      /\ String.length (repr b) <= fuel)%nat).
    { rewrite !str_length_app in Hfuel. cbn [String.length] in Hfuel. lia. }
    assert (Hra : parse_prefix_rec fuel (repr a) = Ok (a, "")).
    { rewrite <- (str_app_nil_r (repr a)) at 1.
      apply (IHa Hwa "" fuel); [reflexivity | lia]. }
    assert (Hrb : parse_prefix_rec fuel (repr b) = Ok (b, "")).
    { rewrite <- (str_app_nil_r (repr b)) at 1.
      apply (IHb Hwb "" fuel); [reflexivity | lia]. }
    assert (Hfirst : forall j, j = (1 + str_len (repr a))%Z ->
                               slice s 1 j = repr a).
    { intros j ->.
      apply (slice_app2 s "(" (repr a) (r ++ repr b ++ ")" ++ rest));
        [now rewrite Hs, ?str_app_assoc | reflexivity | reflexivity]. }
    assert (Hsecond : forall i j,
               i = (1 + str_len (repr a) + str_len r)%Z ->
               j = (1 + str_len (repr a) + str_len r + str_len (repr b))%Z ->
               slice s i j = repr b).
    { intros i j -> ->.
      apply (slice_app2 s ("(" ++ repr a ++ r) (repr b) (")" ++ rest)).
      - now rewrite Hs, ?str_app_assoc.
      - rewrite !str_len_app. change (str_len "(") with 1%Z. lia.
      - lia. }
    assert (Hto : (if negb (index_close st =? str_len s - 1)%Z
                   then slice_from s (index_close st + 1)
                   else to_return st) = rest).
    { destruct (Z.eqb_spec (index_close st) (str_len s - 1)) as [E | E];
        cbn [negb]; [exact Htr |].
      rewrite Hic.
      replace (str_len ("(" ++ repr a ++ r ++ repr b ++ ")") - 1 + 1)%Z
        with (str_len ("(" ++ repr a ++ r ++ repr b ++ ")")) by lia.
      rewrite Hs. apply slice_from_app. }
    cbn [parse_prefix_rec].
    assert (Hopen : str_getitem s 0 = Ok "(").
    { rewrite Hs. apply str_getitem_first. }
    rewrite Hopen. cbn [Py.bind]. change (is_unary "(") with false.
    change (is_quantifier "(") with false.
    change (is_relation "(") with (@Ok bool false). cbv iota. cbn [Py.bind].
    rewrite Hopen. cbn [Py.bind String.eqb Ascii.eqb Bool.eqb].
    rewrite Hscan. cbn [Py.bind]. rewrite Hto, Hio, Hic, Hlw.
    pose proof (str_len_nonneg (repr a)). pose proof (str_len_nonneg (repr b)).
    unfold is_binary in Hr. rewrite !orb_true_iff, !String.eqb_eq in Hr.
    destruct Hr as [[-> | ->] | ->].
    + change (str_len "&") with 1%Z in *.
      rewrite (str_getitem_at_eq s ("(" ++ repr a) (repr b ++ ")" ++ rest) "&")
        by (rewrite ?str_len_app, ?Hs, ?str_app_assoc; try reflexivity;
            change (str_len "(") with 1%Z; lia).
      cbn [Py.bind String.eqb Ascii.eqb Bool.eqb].
      rewrite Hfirst by lia. rewrite Hsecond by lia.
      rewrite Hra. cbn [Py.bind]. rewrite Hrb. reflexivity.
    + change (str_len "|") with 1%Z in *.
      rewrite (str_getitem_at_eq s ("(" ++ repr a) (repr b ++ ")" ++ rest) "|")
        by (rewrite ?str_len_app, ?Hs, ?str_app_assoc; try reflexivity;
            change (str_len "(") with 1%Z; lia).
      cbn [Py.bind String.eqb Ascii.eqb Bool.eqb].
      rewrite Hfirst by lia. rewrite Hsecond by lia.
      rewrite Hra. cbn [Py.bind]. rewrite Hrb. reflexivity.
    + change (str_len "->") with 2%Z in *.
      rewrite (str_getitem_at_eq s ("(" ++ repr a ++ "-")
                 (repr b ++ ")" ++ rest) ">")
        by (rewrite ?str_len_app, ?Hs, ?str_app_assoc; try reflexivity;
            change (str_len "(") with 1%Z; change (str_len "-") with 1%Z; lia).
      cbn [Py.bind String.eqb Ascii.eqb Bool.eqb].
      rewrite Hfirst by lia. rewrite Hsecond by lia.
      rewrite Hra. cbn [Py.bind]. rewrite Hrb. reflexivity.
  - (* a quantification *)
    destruct (wf_quantifier r x a Hwf) as [Hr [Hx Hwa]].
    destruct (variable_shape x Hx) as [c [w [_ [_ Hxa]]]].
    cbn [repr] in *.
    remember ((r ++ x ++ "[" ++ repr a ++ "]") ++ rest) as s eqn:Hs.
    assert (Hr1 : str_len r = 1%Z) by (destruct Hr as [-> | ->]; reflexivity).
    assert (Hfirst : str_getitem s 0 = Ok r).
    { rewrite Hs. destruct Hr as [-> | ->]; apply str_getitem_first. }
    assert (Hra : all_chars is_alnum_char r = true)
      by (destruct Hr as [-> | ->]; reflexivity).
    assert (Hfind : find s "[" = str_len (r ++ x)).
    { rewrite Hs. replace ((r ++ x ++ "[" ++ repr a ++ "]") ++ rest)
        with ((r ++ x) ++ String "[" (repr a ++ "]" ++ rest))
        by now rewrite ?str_app_assoc.
      apply find_app. apply alnum_no_bracket.
      now rewrite all_chars_app, Hra, Hxa. }
    assert (Hvar : slice s 1 (str_len (r ++ x)) = x).
    { apply (slice_app2 s r x ("[" ++ repr a ++ "]" ++ rest));
        [now rewrite Hs, ?str_app_assoc | now rewrite Hr1
         | now rewrite str_len_app, Hr1]. }
    assert (Hbody : slice_from s (str_len (r ++ x) + 1)
                    = repr a ++ "]" ++ rest).
    { replace (str_len (r ++ x) + 1)%Z with (str_len (r ++ x ++ "["))
        by (rewrite !str_len_app; change (str_len "[") with 1%Z; lia).
      rewrite Hs.
      replace ((r ++ x ++ "[" ++ repr a ++ "]") ++ rest)
        with ((r ++ x ++ "[") ++ repr a ++ "]" ++ rest)
        by now rewrite ?str_app_assoc.
      apply slice_from_app. }
    cbn [parse_prefix_rec]. rewrite Hfirst. cbn [Py.bind].
    assert (Hun : is_unary r = false) by (destruct Hr as [-> | ->]; reflexivity).
    assert (Hq : is_quantifier r = true) by (destruct Hr as [-> | ->]; reflexivity).
    rewrite Hun, Hq, Hfind, Hvar, Hbody.
    rewrite (IHa Hwa ("]" ++ rest) fuel).
    + cbn [Py.bind fst snd]. unfold Formula_init.
      assert (Hrel : (if is_equality r then Ok true else is_relation r)
                     = Ok false) by (destruct Hr as [-> | ->]; reflexivity).
      assert (Hbin : is_binary r = false)
        by (destruct Hr as [-> | ->]; reflexivity).
      rewrite Hrel. cbn [Py.bind]. rewrite Hun, Hbin, Hq. cbn [Py.bind assert].
      rewrite Hx. cbn [Py.bind]. f_equal. f_equal.
      change 1%Z with (str_len "]"). apply slice_from_app.
    + cbn [closing all_chars append]. exact Hrest.
    + rewrite !str_length_app in Hfuel. cbn [String.length] in Hfuel. lia.
Qed.

(** Parsing the representation of a first-order formula gives the formula
    back. *)
Lemma fo_parse_repr (f : Formula) : wf f = true -> parse (repr f) = Ok f.
Proof.
  intros Hwf. unfold parse, parse_prefix.
  rewrite <- (str_app_nil_r (repr f)) at 2.
  rewrite (fo_parse_prefix_repr f Hwf "") by (reflexivity || lia).
  reflexivity.
Qed.

(* ------------------------------------------------------------------ *)
(** ** The standard notation and the objects it denotes *)
(* ------------------------------------------------------------------ *)

(** Every string of the propositional notation is the representation of a
    formula that the constructor accepts. *)
Lemma propositional_string_repr (s : string) :
  propositional_string s ->
  exists f, Propositions.wf f = true /\ Propositions.repr f = s.
Proof.
  induction 1 as [c digits Hc Hd | | | a _ [fa [Hwa Hra]]
                  | a op b Hop _ [fa [Hwa Hra]] _ [fb [Hwb Hrb]]].
  - exists (Propositions.Leaf (String c digits)). split; [| reflexivity].
    cbn [Propositions.wf]. unfold Propositions.is_variable. rewrite Hc.
    destruct digits as [| d digits]; [reflexivity |].
    cbn [isdigit]. rewrite Hd. now rewrite orb_true_r.
  - now exists (Propositions.Leaf "T").
  - now exists (Propositions.Leaf "F").
  - exists (Propositions.Unary "~" fa). split; [| now rewrite <- Hra].
    cbn [Propositions.wf]. now rewrite Hwa.
  - exists (Propositions.Binary op fa fb). split; [| now rewrite <- Hra, <- Hrb].
    cbn [Propositions.wf]. rewrite Hwa, Hwb, !andb_true_r.
    unfold Propositions.is_binary. apply existsb_exists. exists op.
    split; [| apply String.eqb_refl].
    cbn [In] in *. intuition.
Qed.

Lemma between_alnum (lo hi c : ascii) :
  ((48 <= N_of_ascii lo /\ N_of_ascii hi <= 57)
   \/ (97 <= N_of_ascii lo /\ N_of_ascii hi <= 122)
   \/ (65 <= N_of_ascii lo /\ N_of_ascii hi <= 90))%N ->
  between lo c hi = true -> is_alnum_char c = true.
Proof.
  intros Hrange Hb. unfold is_alnum_char.
  unfold between, char_le in *.
  change (N_of_ascii "0") with 48%N. change (N_of_ascii "9") with 57%N.
  change (N_of_ascii "a") with 97%N. change (N_of_ascii "z") with 122%N.
  change (N_of_ascii "A") with 65%N. change (N_of_ascii "Z") with 90%N.
  apply andb_true_iff in Hb. destruct Hb as [H1 H2]. apply N.leb_le in H1, H2.
  rewrite !orb_true_iff, !andb_true_iff, !N.leb_le. lia.
Qed.

Lemma name_from_shape (lo hi : ascii) (s : string) :
  ((48 <= N_of_ascii lo /\ N_of_ascii hi <= 57)
   \/ (97 <= N_of_ascii lo /\ N_of_ascii hi <= 122)
   \/ (65 <= N_of_ascii lo /\ N_of_ascii hi <= 90))%N ->
  name_from lo hi s = true ->
  exists c w, s = String c w /\ between lo c hi = true /\ isalnum s = true.
Proof.
  intros Hrange. destruct s as [| c w]; [discriminate |]. cbn [name_from].
  intros H. apply andb_true_iff in H. destruct H as [Hc Hw].
  exists c, w. split; [reflexivity |]. split; [exact Hc |].
  cbn [isalnum all_chars]. now rewrite (between_alnum lo hi c Hrange Hc), Hw.
Qed.

Lemma between_disjoint (lo hi lo' hi' c : ascii) :
  (N_of_ascii hi < N_of_ascii lo' \/ N_of_ascii hi' < N_of_ascii lo)%N ->
  between lo c hi = true -> between lo' c hi' = false.
Proof.
  intros Hd Hb. unfold between, char_le in *.
  apply andb_true_iff in Hb. destruct Hb as [H1 H2]. apply N.leb_le in H1, H2.
  apply andb_false_iff. rewrite !N.leb_gt. lia.
Qed.

Scheme term_string_mutual := Induction for term_string Sort Prop
  with term_list_mutual := Induction for term_list Sort Prop.

Combined Scheme term_strings_induction
  from term_string_mutual, term_list_mutual.

(** Every string of the notation of terms is the representation of a term
    that the constructor accepts, and every list of such strings that of a
    non-empty list of terms. *)
Lemma term_strings_repr :
  (forall s, term_string s -> exists t, Term_wf t = true /\ Term_repr t = s)
  /\ (forall l, term_list l ->
                exists args, args <> [] /\ forallb Term_wf args = true
                             /\ join "," (map Term_repr args) = l).
Proof.
  apply term_strings_induction.
  - intros x Hx.
    destruct (name_from_shape "u" "z" x) as [c [w [-> [Hc Ha]]]];
      [right; left; cbn; lia | exact Hx |].
    exists (TLeaf (String c w)). split; [| reflexivity].
    cbn [Term_wf]. unfold is_constant, is_variable. rewrite Hc, Ha.
    now rewrite orb_true_r.
  - intros c Hc. exists (TLeaf c). split; [| reflexivity].
    apply orb_true_iff in Hc. destruct Hc as [Hc | Hc].
    + apply orb_true_iff in Hc. destruct Hc as [Hc | Hc].
      * destruct (name_from_shape "0" "9" c) as [d [w [-> [Hd Ha]]]];
          [left; cbn; lia | exact Hc |].
        cbn [Term_wf]. unfold is_constant, is_variable. now rewrite Hd, Ha.
      * destruct (name_from_shape "a" "d" c) as [d [w [-> [Hd Ha]]]];
          [right; left; cbn; lia | exact Hc |].
        cbn [Term_wf]. unfold is_constant, is_variable. rewrite Hd, Ha.
        now rewrite orb_true_r.
    + apply String.eqb_eq in Hc. now subst c.
  - intros f l Hf _ [args [Hne [Hargs Hjoin]]].
    destruct (name_from_shape "f" "t" f) as [c [w [-> [Hc Ha]]]];
      [right; left; cbn; lia | exact Hf |].
    exists (TApp (String c w) args). split; [| cbn [Term_repr]; now rewrite Hjoin].
    cbn [Term_wf]. unfold is_constant, is_variable, is_function.
    rewrite (between_disjoint "f" "t" "0" "9" c) by (assumption || (cbn; lia)).
    rewrite (between_disjoint "f" "t" "a" "d" c) by (assumption || (cbn; lia)).
    rewrite (between_disjoint "f" "t" "u" "z" c) by (assumption || (cbn; lia)).
    rewrite Hc, Ha. cbn [orb andb].
    assert (Hu : String.eqb (String c w) "_" = false).
    { destruct (String.eqb_spec (String c w) "_") as [E | _]; [| reflexivity].
      injection E as -> _. discriminate. }
    rewrite Hu, Hargs. destruct args; [contradiction | reflexivity].
  - intros t _ [u [Hu Hr]]. exists [u]. split; [discriminate |].
    split; [cbn [forallb]; now rewrite Hu | exact Hr].
  - intros t l _ [u [Hu Hr]] _ [args [Hne [Hargs Hjoin]]].
    exists (u :: args). split; [discriminate |].
    split; [cbn [forallb]; now rewrite Hu, Hargs |].
    destruct args as [| a args]; [contradiction |].
    cbn [map] in *. now rewrite join_cons, Hr, Hjoin.
Qed.

(** Every string of the first-order notation is the representation of a
    formula that the constructor accepts. *)
Lemma formula_string_repr (s : string) :
  formula_string s -> exists f, wf f = true /\ repr f = s.
Proof.
  induction 1 as [t1 t2 H1 H2 | r l Hr Hl | a _ [fa [Hwa Hra]]
                  | a op b Hop _ [fa [Hwa Hra]] _ [fb [Hwb Hrb]]
                  | q x a Hq Hx _ [fa [Hwa Hra]]].
  - destruct (proj1 term_strings_repr t1 H1) as [u1 [Hu1 Hr1]].
    destruct (proj1 term_strings_repr t2 H2) as [u2 [Hu2 Hr2]].
    exists (Relation "=" [u1; u2]). split.
    + cbn [wf forallb]. now rewrite Hu1, Hu2.
    + cbn [repr is_equality String.eqb Ascii.eqb Bool.eqb]. now rewrite Hr1, Hr2.
  - destruct (proj2 term_strings_repr l Hl) as [args [_ [Hargs Hjoin]]].
    destruct (name_from_shape "F" "T" r) as [c [w [-> [Hc Ha]]]];
      [right; right; cbn; lia | exact Hr |].
    assert (He : is_equality (String c w) = false).
    { unfold is_equality.
      destruct (String.eqb_spec (String c w) "=") as [E | _]; [| reflexivity].
      injection E as -> _. discriminate. }
    exists (Relation (String c w) args). split.
    + cbn [wf]. unfold is_relation. now rewrite Hc, Ha, He, Hargs.
    + cbn [repr]. now rewrite He, Hjoin.
  - exists (Unary "~" fa). split; [| cbn [repr]; now rewrite Hra].
    cbn [wf]. now rewrite Hwa.
  - exists (Binary op fa fb). split; [| cbn [repr]; now rewrite Hra, Hrb].
    cbn [wf]. rewrite Hwa, Hwb, !andb_true_r.
    cbn [In] in Hop. destruct Hop as [<- | [<- | [<- | []]]]; reflexivity.
  - destruct (name_from_shape "u" "z" x) as [c [w [-> [Hc Ha]]]];
      [right; left; cbn; lia | exact Hx |].
    exists (Quantifier q (String c w) fa). split; [| cbn [repr]; now rewrite Hra].
    cbn [wf]. unfold is_variable. rewrite Hc, Ha, Hwa.
    cbn [In] in Hq. destruct Hq as [<- | [<- | []]]; reflexivity.
Qed.

(** C3: for every string [s] of the standard notation, propositional or
    first-order, parsing [s] returns a tree whose printed form is exactly
    [s]: for the propositional [Formula.parse], for [Term.parse] and for the
    first-order [Formula.parse]. *)
Theorem parse_print_round_trip :
  (forall s, propositional_string s ->
             exists f, Propositions.parse s = Ok (Some f)
                       /\ Propositions.repr f = s)
  /\ (forall s, term_string s ->
                exists t, Term_parse s = Ok t /\ Term_repr t = s)
  /\ (forall s, formula_string s ->
                exists f, parse s = Ok f /\ repr f = s).
Proof.
  split; [| split]; intros s Hs.
  - destruct (propositional_string_repr s Hs) as [f [Hwf <-]].
    exists f. split; [now apply parse_repr | reflexivity].
  - destruct (proj1 term_strings_repr s Hs) as [t [Hwf <-]].
    exists t. split; [now apply Term_parse_repr | reflexivity].
  - destruct (formula_string_repr s Hs) as [f [Hwf <-]].
    exists f. split; [now apply fo_parse_repr | reflexivity].
Qed.

Lemma parse_print_round_trip_witness :
  (exists f, Propositions.parse "((p->q12)<->~(T-&x))" = Ok (Some f)
             /\ Propositions.repr f = "((p->q12)<->~(T-&x))")
  /\ (exists t, Term_parse "plus(s(x),_)" = Ok t
                /\ Term_repr t = "plus(s(x),_)")
  /\ (exists f, parse "Ax[(R(x,c)->~plus(x,0)=x)]" = Ok f
                /\ repr f = "Ax[(R(x,c)->~plus(x,0)=x)]").
Proof.
  split; [| split].
  - apply (proj1 parse_print_round_trip).
    apply (ps_binary "(p->q12)" "<->" "~(T-&x)"); [simpl; tauto | |].
    + apply (ps_binary "p" "->" "q12"); [simpl; tauto | |];
        now apply ps_variable.
    + apply (ps_unary "(T-&x)").
      apply (ps_binary "T" "-&" "x"); [simpl; tauto | apply ps_true |].
      now apply ps_variable.
  - apply (proj1 (proj2 parse_print_round_trip)).
    apply (ts_function "plus" "s(x),_"); [reflexivity |].
    apply (tl_more "s(x)" "_").
    + apply (ts_function "s" "x"); [reflexivity |].
      apply tl_last. now apply ts_variable.
    + apply tl_last. now apply ts_constant.
  - apply (proj2 (proj2 parse_print_round_trip)).
    apply (fs_quantifier "A" "x" "(R(x,c)->~plus(x,0)=x)");
      [simpl; tauto | reflexivity |].
    apply (fs_binary "R(x,c)" "->" "~plus(x,0)=x"); [simpl; tauto | |].
    + apply (fs_relation "R" "x,c"); [reflexivity |].
      apply (tl_more "x" "c"); [now apply ts_variable |].
      apply tl_last. now apply ts_constant.
    + apply (fs_unary "plus(x,0)=x").
      apply (fs_equality "plus(x,0)" "x"); [| now apply ts_variable].
      apply (ts_function "plus" "x,0"); [reflexivity |].
      apply (tl_more "x" "0"); [now apply ts_variable |].
      apply tl_last. now apply ts_constant.
Defined.

(* ================================================================== *)
(** * Further properties of the propositional code *)
(* ================================================================== *)

Section PropositionalProperties.
Import Propositions.
Local Open Scope list_scope.

(** ** Truth values *)

Lemma dict_get_Some_In {V : Type} (d : dict V) (k : string) (v : V) :
  dict_get d k = Some v -> In k (dict_keys d).
Proof.
  induction d as [| [k' v'] d IH]; simpl; [discriminate |].
  destruct (String.eqb k' k) eqn:Hk.
  - apply String.eqb_eq in Hk. now left.
  - intros H. right. now apply IH.
Qed.

Lemma issubset_In (s t : list string) :
  issubset s t = true <-> (forall x, In x s -> In x t).
Proof.
  unfold issubset. rewrite forallb_forall. split; intros H x Hx.
  - now apply str_mem_In, H.
  - now apply str_mem_In, H.
Qed.

Lemma issubset_covered (f : Formula) (keys : list string) :
  wf f = true -> (issubset (variables f) keys = true <-> covered f keys).
Proof.
  intros Hwf. split; intros H.
  - apply (covered_incl f (variables f)).
    + now apply issubset_In.
    + now apply find_variables_covered.
  - exact (covered_issubset f keys Hwf H [] eq_refl).
Qed.

Lemma formula_variables_NoDup (f : Formula) : NoDup (variables f).
Proof. apply find_variables_NoDup, NoDup_nil. Qed.

Lemma formula_variables_named (f : Formula) (v : string) :
  In v (variables f) -> is_variable v = Ok true.
Proof. apply find_variables_named. intros x []. Qed.

Lemma models_over_model (vars : list string) (m : Model) :
  (forall v, In v vars -> is_variable v = Ok true) ->
  In m (models_over vars) -> is_model m = Ok true /\ dict_keys m = vars.
Proof.
  intros Hnamed Hm. apply in_map_iff in Hm. destruct Hm as [vals [<- Hvals]].
  apply product_elem_length in Hvals.
  unfold is_model. rewrite dict_keys_combine by assumption.
  split; [now apply is_model_keys_true | reflexivity].
Qed.

Lemma truth_values_models (f : Formula) (vars : list string) :
  wf f = true -> covered f vars ->
  (forall v, In v vars -> is_variable v = Ok true) ->
  truth_values f (models_over vars) = Ok (map (truth f) (models_over vars)).
Proof.
  intros Hwf Hcov Hnamed. unfold truth_values. apply map_result_ext.
  intros m Hm. destruct (models_over_model vars m Hnamed Hm) as [Hmodel Hkeys].
  apply evaluate_truth; [assumption | assumption | now rewrite Hkeys].
Qed.

(** Every model that assigns the variables [vars] agrees, on them, with one
    of the models over [vars]. *)
Lemma model_restriction (vars : list string) (model : Model) :
  NoDup vars -> (forall v, In v vars -> In v (dict_keys model)) ->
  exists m, In m (models_over vars) /\
            forall f, covered f vars -> truth f m = truth f model.
Proof.
  intros Hnd Hin.
  set (g := fun v => match dict_get model v with Some b => b | None => false end).
  exists (combine vars (map g vars)). split.
  - apply in_map, product_complete, length_map.
  - intros f Hcov. apply (truth_ext f _ _ vars Hcov). intros v Hv.
    destruct (In_nth_error _ _ Hv) as [j Hj].
    rewrite (dict_get_combine vars (map g vars) j v (g v) Hnd Hj)
      by (rewrite nth_error_map, Hj; reflexivity).
    unfold g. destruct (dict_get model v) eqn:E; [reflexivity |].
    apply dict_get_None_not_In in E. exfalso. now apply E, Hin.
Qed.

Lemma evaluate_covered (f : Formula) (model : Model) :
  wf f = true -> is_model model = Ok true ->
  issubset (variables f) (dict_keys model) = true ->
  evaluate f model = Ok (truth f model).
Proof.
  intros Hwf Hm Hsub. apply evaluate_truth; try assumption.
  now apply issubset_covered.
Qed.

Lemma evaluate_uncovered (f : Formula) (model : Model) :
  is_model model = Ok true ->
  issubset (variables f) (dict_keys model) = false ->
  evaluate f model = Raise AssertionError.
Proof.
  intros Hm Hsub.
  destruct f; cbn [evaluate]; unfold model_variables; rewrite Hm;
    cbn [Py.bind Py.assert]; rewrite Hsub; reflexivity.
Qed.

(** X1: in a model (a dictionary whose keys are variable names),
    [evaluate] of a formula the constructor accepts returns the value the
    truth tables of the operators give when the model assigns every
    variable of the formula, and raises [AssertionError] otherwise. *)
Theorem evaluate_characterisation (f : Formula) (model : Model) :
  wf f = true -> is_model model = Ok true ->
  evaluate f model
  = if issubset (variables f) (dict_keys model)
    then Ok (truth f model) else Raise AssertionError.
Proof.
  intros Hwf Hm.
  destruct (issubset (variables f) (dict_keys model)) eqn:Hsub.
  - now apply evaluate_covered.
  - now apply evaluate_uncovered.
Qed.

Lemma evaluate_characterisation_witness :
  evaluate (Binary "->" (Leaf "p") (Unary "~" (Leaf "q")))
           [("q", true); ("p", false)] = Ok true
  /\ evaluate (Binary "->" (Leaf "p") (Unary "~" (Leaf "q")))
              [("q", true)] = Raise AssertionError.
Proof.
  split.
  - apply (evaluate_characterisation
             (Binary "->" (Leaf "p") (Unary "~" (Leaf "q")))
             [("q", true); ("p", false)]); reflexivity.
  - apply (evaluate_characterisation
             (Binary "->" (Leaf "p") (Unary "~" (Leaf "q")))
             [("q", true)]); reflexivity.
Defined.

(** X2: the value of [evaluate] depends only on what the model assigns to
    the variables of the formula: two models that agree on them give the
    same result. *)
Theorem evaluate_coincidence (f : Formula) (m m' : Model) :
  wf f = true -> is_model m = Ok true -> is_model m' = Ok true ->
  issubset (variables f) (dict_keys m) = true ->
  (forall v, In v (variables f) -> dict_get m v = dict_get m' v) ->
  evaluate f m' = evaluate f m.
Proof.
  intros Hwf Hm Hm' Hsub Hagree.
  assert (Hsub' : issubset (variables f) (dict_keys m') = true).
  { apply issubset_In. intros v Hv.
    destruct (dict_get m' v) eqn:E; [now apply (dict_get_Some_In m' v b) |].
    rewrite <- (Hagree v Hv) in E. apply dict_get_None_not_In in E.
      exfalso. apply E. revert Hv. now apply issubset_In. }
  rewrite !evaluate_covered by assumption. f_equal. symmetry.
  apply (truth_ext f m m' (variables f)); [| exact Hagree].
  now apply find_variables_covered.
Qed.

Lemma evaluate_coincidence_witness :
  evaluate (Binary "&" (Leaf "p") (Leaf "q"))
           [("p", true); ("q", true); ("r", false)]
  = evaluate (Binary "&" (Leaf "p") (Leaf "q")) [("q", true); ("p", true)].
Proof.
  apply (evaluate_coincidence (Binary "&" (Leaf "p") (Leaf "q")));
    try reflexivity.
  intros v Hv. vm_compute in Hv. destruct Hv as [<- | [<- | []]]; reflexivity.
Defined.

Lemma all_models_variables (f : Formula) :
  all_models (variables f) = Ok (models_over (variables f)).
Proof.
  apply all_models_eq; [apply formula_variables_NoDup | apply formula_variables_named].
Qed.

Lemma truth_values_variables (f : Formula) :
  wf f = true ->
  truth_values f (models_over (variables f))
  = Ok (map (truth f) (models_over (variables f))).
Proof.
  intros Hwf. apply truth_values_models; try assumption.
  - now apply find_variables_covered.
  - apply formula_variables_named.
Qed.

Lemma is_tautology_truth (f : Formula) :
  wf f = true ->
  is_tautology f = Ok (forallb (truth f) (models_over (variables f))).
Proof.
  intros Hwf. unfold is_tautology. rewrite all_models_variables. cbn [Py.bind].
  rewrite truth_values_variables by assumption. cbn [Py.bind].
  now rewrite forallb_map_comp.
Qed.

Lemma is_satisfiable_truth (f : Formula) :
  wf f = true ->
  is_satisfiable f = Ok (existsb (truth f) (models_over (variables f))).
Proof.
  intros Hwf. unfold is_satisfiable. rewrite all_models_variables. cbn [Py.bind].
  rewrite truth_values_variables by assumption. cbn [Py.bind].
  now rewrite existsb_map_comp.
Qed.

Lemma model_of_variables (f : Formula) (m : Model) :
  wf f = true -> In m (models_over (variables f)) ->
  is_model m = Ok true /\ issubset (variables f) (dict_keys m) = true.
Proof.
  intros Hwf Hm.
  destruct (models_over_model _ m (formula_variables_named f) Hm) as [Hmodel Hkeys].
  split; [assumption |]. rewrite Hkeys. apply issubset_In. tauto.
Qed.

(** X3: [is_tautology] of a formula the constructor accepts returns, and
    returns [True] exactly when [evaluate] returns [True] in every model
    that assigns the variables of the formula. *)
Theorem is_tautology_characterisation (f : Formula) :
  wf f = true ->
  exists b, is_tautology f = Ok b /\
            (b = true <->
             forall model, is_model model = Ok true ->
                           issubset (variables f) (dict_keys model) = true ->
                           evaluate f model = Ok true).
Proof.
  intros Hwf. eexists. split; [now apply is_tautology_truth |].
  rewrite forallb_forall. split.
  - intros H model Hm Hsub. rewrite evaluate_covered by assumption. f_equal.
    destruct (model_restriction (variables f) model (formula_variables_NoDup f))
      as [m [Hin Heq]]; [now apply issubset_In |].
    rewrite <- Heq by now apply find_variables_covered. now apply H.
  - intros H m Hin. destruct (model_of_variables f m Hwf Hin) as [Hm Hsub].
    specialize (H m Hm Hsub). rewrite evaluate_covered in H by assumption.
    now injection H.
Qed.

Lemma is_tautology_characterisation_witness :
  exists b, is_tautology (Binary "|" (Leaf "p") (Unary "~" (Leaf "p"))) = Ok b /\
            (b = true <->
             forall model,
               is_model model = Ok true ->
               issubset (variables (Binary "|" (Leaf "p") (Unary "~" (Leaf "p"))))
                        (dict_keys model) = true ->
               evaluate (Binary "|" (Leaf "p") (Unary "~" (Leaf "p"))) model
               = Ok true).
Proof.
  apply (is_tautology_characterisation
           (Binary "|" (Leaf "p") (Unary "~" (Leaf "p")))).
  reflexivity.
Defined.

(** X4: [is_satisfiable] of a formula the constructor accepts returns, and
    returns [True] exactly when [evaluate] returns [True] in some model. *)
Theorem is_satisfiable_characterisation (f : Formula) :
  wf f = true ->
  exists b, is_satisfiable f = Ok b /\
            (b = true <-> exists model, evaluate f model = Ok true).
Proof.
  intros Hwf. eexists. split; [now apply is_satisfiable_truth |].
  rewrite existsb_exists. split.
  - intros [m [Hin Ht]]. exists m.
    destruct (model_of_variables f m Hwf Hin) as [Hm Hsub].
    rewrite evaluate_covered by assumption. now f_equal.
  - intros [model He].
    assert (Hm : is_model model = Ok true).
    { destruct f; simpl in He; destruct (is_model model) as [[|] | e];
        try reflexivity; discriminate. }
    destruct (issubset (variables f) (dict_keys model)) eqn:Hsub;
      [| rewrite evaluate_uncovered in He by assumption; discriminate].
    rewrite evaluate_covered in He by assumption. injection He as He.
    destruct (model_restriction (variables f) model (formula_variables_NoDup f))
      as [m [Hin Heq]]; [now apply issubset_In |].
    exists m. split; [assumption |].
    rewrite Heq by now apply find_variables_covered. assumption.
Qed.

Lemma is_satisfiable_characterisation_witness :
  exists b, is_satisfiable (Binary "&" (Leaf "p") (Unary "~" (Leaf "q"))) = Ok b /\
            (b = true <->
             exists model,
               evaluate (Binary "&" (Leaf "p") (Unary "~" (Leaf "q"))) model
               = Ok true).
Proof.
  apply (is_satisfiable_characterisation
           (Binary "&" (Leaf "p") (Unary "~" (Leaf "q")))).
  reflexivity.
Defined.

(** X5: a formula is a contradiction exactly when its negation is a
    tautology: [is_contradiction(f)] and [is_tautology(Formula('~', f))]
    return the same value. *)
Theorem is_contradiction_negation (f : Formula) :
  wf f = true ->
  is_contradiction f = is_tautology (Unary "~" f).
Proof.
  intros Hwf. unfold is_contradiction.
  rewrite is_satisfiable_truth by assumption.
  rewrite is_tautology_truth by (simpl; assumption).
  cbn [Py.bind]. f_equal.
  change (variables (Unary "~" f)) with (variables f).
  induction (models_over (variables f)) as [| m ms IH]; [reflexivity |].
  simpl. rewrite negb_orb. now rewrite IH.
Qed.

Lemma is_contradiction_negation_witness :
  is_contradiction (Binary "&" (Leaf "p") (Unary "~" (Leaf "p")))
  = is_tautology (Unary "~" (Binary "&" (Leaf "p") (Unary "~" (Leaf "p")))).
Proof.
  apply (is_contradiction_negation
           (Binary "&" (Leaf "p") (Unary "~" (Leaf "p")))).
  reflexivity.
Defined.

(** ** Synthesis of a clause *)

Lemma is_model_keys_named (keys : list string) :
  is_model_keys keys = Ok true ->
  forall v, In v keys -> is_variable v = Ok true.
Proof.
  induction keys as [| k keys IH]; intros H v Hv; [destruct Hv |].
  simpl in H. destruct (is_variable k) as [[|] | e] eqn:Hk; try discriminate.
  destruct Hv as [<- | Hv]; [assumption | now apply IH].
Qed.

(** X6: for a non-empty model [m], [synthesize_for_model(m)] returns a
    formula that, among the models over the variables of [m], [evaluate]
    makes [True] in [m] and in no other. *)
Theorem synthesize_for_model_singles_out (m : Model) :
  m <> [] -> NoDup (dict_keys m) -> is_model m = Ok true ->
  exists f,
    synthesize_for_model m = Ok f /\
    forall m' : Model,
      dict_keys m' = dict_keys m ->
      exists b, evaluate f m' = Ok b /\ (b = true <-> m' = m).
Proof.
  intros Hne Hnd Hm.
  pose proof (is_model_keys_named _ Hm) as Hnamed.
  exists (clause m). split.
  - now apply (synthesize_for_model_clause (dict_keys m)).
  - intros m' Hk. exists (agree m m'). split.
    + rewrite <- (clause_truth (dict_keys m) Hnamed m m') by auto.
      apply evaluate_truth.
      * now apply (is_model_over (dict_keys m)).
      * now apply (clause_wf (dict_keys m)).
      * rewrite Hk. now apply clause_covered.
    + rewrite (agree_iff_eq (dict_keys m) Hnd m m') by auto.
      split; congruence.
Qed.

Lemma synthesize_for_model_singles_out_witness :
  exists f,
    synthesize_for_model [("p", true); ("q", false)] = Ok f /\
    forall m' : Model,
      dict_keys m' = dict_keys [("p", true); ("q", false)] ->
      exists b, evaluate f m' = Ok b /\
                (b = true <-> m' = [("p", true); ("q", false)]).
Proof.
  apply (synthesize_for_model_singles_out [("p", true); ("q", false)]).
  - discriminate.
  - repeat constructor; simpl; intuition discriminate.
  - reflexivity.
Defined.

(** ** Inference rules as formulas *)

Lemma encode_find_variables (assumed : list Formula) (c : Formula) :
  forall acc,
    find_variables (encode_assumptions assumed c) acc
    = find_variables c (fold_left (fun s f => find_variables f s) assumed acc).
Proof.
  induction assumed as [| a rest IH]; intros acc; [reflexivity |].
  destruct rest as [| b rest]; [reflexivity |].
  change (encode_assumptions (a :: b :: rest) c)
    with (implies a (encode_assumptions (b :: rest) c)).
  cbn [implies find_variables]. rewrite IH. reflexivity.
Qed.

Lemma encode_cons (a : Formula) (rest : list Formula) (c : Formula) :
  feq (encode_assumptions (a :: rest) c)
      (implies a (encode_assumptions rest c))
  /\ encode_assumptions (a :: rest) c = implies a (encode_assumptions rest c).
Proof. destruct rest; split; reflexivity. Qed.

Lemma encode_step (a : Formula) (rest : list Formula) (c : Formula) :
  encode_assumptions (a :: rest) c = implies a (encode_assumptions rest c).
Proof. now destruct rest. Qed.

Lemma encode_wf (assumed : list Formula) (c : Formula) :
  forallb wf assumed = true -> wf c = true ->
  wf (encode_assumptions assumed c) = true.
Proof.
  induction assumed as [| a rest IH]; intros Ha Hc; [assumption |].
  rewrite encode_step. simpl in Ha. apply andb_true_iff in Ha.
  destruct Ha as [Ha Hrest]. cbn [implies wf]. rewrite Ha, IH by assumption.
  reflexivity.
Qed.

Lemma encode_truth (assumed : list Formula) (c : Formula) (model : Model) :
  truth (encode_assumptions assumed c) model
  = negb (forallb (fun a => truth a model) assumed) || truth c model.
Proof.
  induction assumed as [| a rest IH]; [reflexivity |].
  rewrite encode_step. cbn [implies truth forallb]. rewrite IH.
  unfold binary_truth. cbn [String.eqb Ascii.eqb Bool.eqb].
  destruct (truth a model); reflexivity.
Qed.

Lemma encode_covered (assumed : list Formula) (c : Formula)
      (keys : list string) :
  covered (encode_assumptions assumed c) keys ->
  (forall a, In a assumed -> covered a keys) /\ covered c keys.
Proof.
  induction assumed as [| a rest IH]; intros H; [split; [intros a [] | exact H] |].
  rewrite encode_step in H. destruct H as [Ha Hrest].
  destruct (IH Hrest) as [Hall Hc]. split; [| assumption].
  intros x [<- | Hx]; [assumption | now apply Hall].
Qed.

Lemma rule_wf_encode (rule : InferenceRule) :
  rule_wf rule = true -> wf (encode_as_formula rule) = true.
Proof.
  unfold rule_wf. intros H. apply andb_true_iff in H. now apply encode_wf.
Qed.

Lemma encode_variables (rule : InferenceRule) :
  variables (encode_as_formula rule) = InferenceRule_variables rule.
Proof. apply encode_find_variables. Qed.

Lemma parse_prefix_of_repr (f : Formula) :
  wf f = true -> parse_prefix (repr f) = Ok (Some f, ""%string).
Proof.
  intros Hwf. unfold parse_prefix. apply parse_prefix_repr; [assumption | lia].
Qed.

Lemma assumptions_loop (model : Model) (assumed : list Formula) :
  is_model model = Ok true ->
  (forall a, In a assumed -> wf a = true /\ covered a (dict_keys model)) ->
  forall flag : bool,
    for_each
      (fun assump false_flag =>
         p <- parse_prefix (repr assump) ;;
         match fst p with
         | Some assump =>
             to_check <- evaluate assump model ;;
             Ok (if negb to_check then true else false_flag)
         | None => Raise AttributeError
         end) assumed flag
    = Ok (negb (forallb (fun a => truth a model) assumed) || flag).
Proof.
  intros Hm. induction assumed as [| a rest IH]; intros Hall flag;
    [reflexivity |].
  destruct (Hall a (or_introl eq_refl)) as [Hwf Hcov].
  cbn [for_each forallb]. rewrite parse_prefix_of_repr by assumption.
  cbn [Py.bind fst]. rewrite (evaluate_truth model Hm a Hwf Hcov).
  cbn [Py.bind]. rewrite IH by (intros x Hx; apply Hall; now right).
  f_equal. destruct (truth a model), flag,
    (forallb (fun a0 => truth a0 model) rest); reflexivity.
Qed.

Lemma evaluate_inference_truth (rule : InferenceRule) (model : Model) :
  rule_wf rule = true -> is_model model = Ok true ->
  covered (encode_as_formula rule) (dict_keys model) ->
  evaluate_inference rule model = Ok (truth (encode_as_formula rule) model).
Proof.
  intros Hwf Hm Hcov. unfold rule_wf in Hwf. apply andb_true_iff in Hwf.
  destruct Hwf as [Has Hc]. rewrite forallb_forall in Has.
  destruct (encode_covered _ _ _ Hcov) as [Hcas Hcc].
  unfold evaluate_inference. rewrite Hm. cbn [Py.bind Py.assert].
  rewrite assumptions_loop by (try assumption; intros a Ha; split; auto).
  cbn [Py.bind]. rewrite parse_prefix_of_repr by assumption. cbn [Py.bind].
  rewrite (evaluate_truth model Hm _ Hc Hcc). cbn [Py.bind].
  unfold encode_as_formula. rewrite encode_truth.
  destruct (truth (conclusion rule) model),
    (forallb (fun a => truth a model) (assumptions rule)); reflexivity.
Qed.

(** X7: a rule holds in a model exactly when the chain of implications
    that encodes it is true there: [evaluate_inference(rule, model)] and
    [evaluate(encode_as_formula(rule), model)] return the same value. *)
Theorem evaluate_inference_encoding (rule : InferenceRule) (model : Model) :
  rule_wf rule = true -> is_model model = Ok true ->
  issubset (InferenceRule_variables rule) (dict_keys model) = true ->
  exists b, evaluate_inference rule model = Ok b /\
            evaluate (encode_as_formula rule) model = Ok b.
Proof.
  intros Hwf Hm Hsub. rewrite <- encode_variables in Hsub.
  pose proof (rule_wf_encode rule Hwf) as Hwe.
  exists (truth (encode_as_formula rule) model). split.
  - apply evaluate_inference_truth; try assumption.
    now apply issubset_covered.
  - now apply evaluate_covered.
Qed.

Lemma evaluate_inference_encoding_witness :
  exists b,
    evaluate_inference
      (mkInferenceRule [Leaf "p"; Binary "->" (Leaf "p") (Leaf "q")] (Leaf "q"))
      [("p", true); ("q", false)] = Ok b /\
    evaluate
      (encode_as_formula
         (mkInferenceRule [Leaf "p"; Binary "->" (Leaf "p") (Leaf "q")]
                          (Leaf "q")))
      [("p", true); ("q", false)] = Ok b.
Proof.
  apply (evaluate_inference_encoding
           (mkInferenceRule [Leaf "p"; Binary "->" (Leaf "p") (Leaf "q")]
                            (Leaf "q"))
           [("p", true); ("q", false)]); reflexivity.
Defined.

Lemma holds_in_all_truth (rule : InferenceRule) (models : list Model) :
  rule_wf rule = true ->
  (forall m, In m models ->
             is_model m = Ok true /\
             covered (encode_as_formula rule) (dict_keys m)) ->
  holds_in_all rule models
  = Ok (forallb (truth (encode_as_formula rule)) models).
Proof.
  intros Hwf. induction models as [| m ms IH]; intros Hall; [reflexivity |].
  destruct (Hall m (or_introl eq_refl)) as [Hm Hcov].
  cbn [holds_in_all forallb].
  rewrite evaluate_inference_truth by assumption. cbn [Py.bind].
  destruct (truth (encode_as_formula rule) m); cbn [negb andb];
    [| reflexivity].
  apply IH. intros x Hx. apply Hall. now right.
Qed.

Lemma is_sound_inference_tautology (rule : InferenceRule) :
  rule_wf rule = true ->
  is_sound_inference rule = is_tautology (encode_as_formula rule).
Proof.
  intros Hwf. unfold is_sound_inference.
  destruct (assumptions rule) as [| a rest] eqn:Has.
  - cbn. unfold encode_as_formula. now rewrite Has.
  - replace (len (a :: rest) =? 0)%Z with false
      by (symmetry; apply Z.eqb_neq; unfold len; simpl; lia).
    rewrite <- encode_variables.
    pose proof (rule_wf_encode rule Hwf) as Hwe.
    rewrite is_tautology_truth by assumption.
    rewrite all_models_variables. cbn [Py.bind].
    apply holds_in_all_truth; [assumption |].
    intros m Hin. destruct (model_of_variables _ m Hwe Hin) as [Hm Hsub].
    split; [assumption | now apply issubset_covered].
Qed.

(** X8: a rule is sound exactly when the chain of implications that
    encodes it is a tautology: [is_sound_inference(rule)] and
    [is_tautology(encode_as_formula(rule))] return the same value. *)
Theorem is_sound_inference_encoding (rule : InferenceRule) :
  rule_wf rule = true ->
  is_sound_inference rule = is_tautology (encode_as_formula rule).
Proof. apply is_sound_inference_tautology. Qed.

Lemma is_sound_inference_encoding_witness :
  is_sound_inference
    (mkInferenceRule [Leaf "p"; Binary "->" (Leaf "p") (Leaf "q")] (Leaf "q"))
  = is_tautology
      (encode_as_formula
         (mkInferenceRule [Leaf "p"; Binary "->" (Leaf "p") (Leaf "q")]
                          (Leaf "q"))).
Proof.
  apply (is_sound_inference_encoding
           (mkInferenceRule [Leaf "p"; Binary "->" (Leaf "p") (Leaf "q")]
                            (Leaf "q"))).
  reflexivity.
Defined.

(** ** Specialization maps *)

Lemma dict_get_set {V : Type} (d : dict V) (k : string) (v : V) (k' : string) :
  dict_get (dict_set d k v) k'
  = if String.eqb k k' then Some v else dict_get d k'.
Proof.
  induction d as [| [k0 v0] d IH]; simpl; [reflexivity |].
  destruct (String.eqb_spec k0 k) as [-> | Hne]; simpl.
  - destruct (String.eqb k k'); reflexivity.
  - rewrite IH. destruct (String.eqb_spec k0 k') as [-> | Hne'];
      [| reflexivity].
    destruct (String.eqb_spec k k') as [-> | _]; [contradiction | reflexivity].
Qed.

Lemma dict_keys_set {V : Type} (d : dict V) (k : string) (v : V) (x : string) :
  In x (dict_keys (dict_set d k v)) <-> x = k \/ In x (dict_keys d).
Proof.
  induction d as [| [k0 v0] d IH]; simpl; [intuition |].
  destruct (String.eqb_spec k0 k) as [-> | Hne]; simpl; [intuition |].
  rewrite IH. intuition.
Qed.

Lemma dict_set_NoDup {V : Type} (d : dict V) (k : string) (v : V) :
  NoDup (dict_keys d) -> NoDup (dict_keys (dict_set d k v)).
Proof.
  induction d as [| [k0 v0] d IH]; simpl; intros Hnd.
  - constructor; [intros [] | constructor].
  - inversion Hnd as [| ? ? Hnotin Hnd']; subst.
    destruct (String.eqb_spec k0 k) as [-> | Hne]; simpl.
    + now constructor.
    + constructor; [| now apply IH].
      intros Hin. apply dict_keys_set in Hin. destruct Hin; congruence.
Qed.

Lemma dict_mem_get {V : Type} (d : dict V) (k : string) :
  dict_mem d k = true <-> In k (dict_keys d).
Proof.
  unfold dict_mem. destruct (dict_get d k) eqn:E.
  - split; [intros _; now apply (dict_get_Some_In d k v) | reflexivity].
  - split; [discriminate |]. intros H.
    now apply dict_get_None_not_In in E.
Qed.

Lemma dict_get_not_In {V : Type} (d : dict V) (k : string) :
  ~ In k (dict_keys d) -> dict_get d k = None.
Proof.
  intros H. destruct (dict_get d k) eqn:E; [| reflexivity].
  exfalso. now apply H, (dict_get_Some_In d k v).
Qed.

Lemma dict_get_In {V : Type} (d : dict V) (k : string) (v : V) :
  dict_get d k = Some v -> In (k, v) d.
Proof.
  induction d as [| [k0 v0] d IH]; simpl; [discriminate |].
  destruct (String.eqb_spec k0 k) as [-> | Hne].
  - intros H. injection H as ->. now left.
  - intros H. right. now apply IH.
Qed.

(** The first loop of [merge_specialization_maps] succeeds when the values
    of the common keys are equal, and then holds the first map's items on
    top of what it started from. *)
Lemma merge_first_get (items : list (string * Formula)) (m2 : SpecializationMap) :
  NoDup (dict_keys items) ->
  forall acc r,
    merge_first items m2 acc = Some r ->
    (forall k, dict_get r k = match dict_get items k with
                              | Some v => Some v
                              | None => dict_get acc k
                              end) /\
    (NoDup (dict_keys acc) -> NoDup (dict_keys r)).
Proof.
  induction items as [| [var v1] rest IH]; intros Hnd acc r Hr.
  - simpl in Hr. injection Hr as <-. split; [reflexivity | tauto].
  - inversion Hnd as [| ? ? Hnotin Hnd']; subst.
    assert (Hrec : merge_first rest m2 (dict_set acc var v1) = Some r).
    { simpl in Hr. destruct (dict_get m2 var) as [v2 |]; [| exact Hr].
      destruct (Formula_eq v1 v2); [exact Hr | discriminate]. }
    destruct (IH Hnd' _ _ Hrec) as [Hget Hnodup]. split.
    + intros k. rewrite Hget. simpl. rewrite dict_get_set.
      destruct (String.eqb_spec var k) as [<- | Hne]; [| reflexivity].
      now rewrite (dict_get_not_In rest var).
    + intros Hacc. now apply Hnodup, dict_set_NoDup.
Qed.

Lemma merge_first_agree (items : list (string * Formula)) (m2 : SpecializationMap) :
  forall acc r,
    merge_first items m2 acc = Some r ->
    forall k v1 v2, In (k, v1) items -> dict_get m2 k = Some v2 ->
                    Formula_eq v1 v2 = true.
Proof.
  induction items as [| [var v] rest IH]; intros acc r Hr k v1 v2 Hin Hk;
    [destruct Hin |].
  simpl in Hr. destruct Hin as [Heq | Hin].
  - injection Heq as -> ->. rewrite Hk in Hr.
    destruct (Formula_eq v1 v2); [reflexivity | discriminate].
  - destruct (dict_get m2 var) as [v2' |].
    + destruct (Formula_eq v v2'); [| discriminate]. now apply (IH _ _ Hr k).
    + now apply (IH _ _ Hr k).
Qed.

Lemma merge_first_Some (items : list (string * Formula)) (m2 : SpecializationMap) :
  (forall k v1 v2, In (k, v1) items -> dict_get m2 k = Some v2 ->
                   Formula_eq v1 v2 = true) ->
  forall acc, exists r, merge_first items m2 acc = Some r.
Proof.
  induction items as [| [var v1] rest IH]; intros H acc; [now eexists |].
  simpl. destruct (dict_get m2 var) as [v2 |] eqn:E.
  - rewrite (H var v1 v2 (or_introl eq_refl) E).
    apply IH. intros k a b Hin. apply H. now right.
  - apply IH. intros k a b Hin. apply H. now right.
Qed.

Lemma merge_first_None (items : list (string * Formula)) (m2 : SpecializationMap) :
  forall acc,
    merge_first items m2 acc = None ->
    exists k v1 v2, In (k, v1) items /\ dict_get m2 k = Some v2 /\
                    Formula_eq v1 v2 = false.
Proof.
  induction items as [| [var v1] rest IH]; intros acc H; [discriminate |].
  simpl in H. destruct (dict_get m2 var) as [v2 |] eqn:E.
  - destruct (Formula_eq v1 v2) eqn:Heq.
    + destruct (IH _ H) as [k [a [b [Hin Hrest]]]].
      exists k, a, b. split; [now right | exact Hrest].
    + exists var, v1, v2. split; [now left | split; assumption].
  - destruct (IH _ H) as [k [a [b [Hin Hrest]]]].
    exists k, a, b. split; [now right | exact Hrest].
Qed.

Lemma merge_second_get (items : list (string * Formula)) (m1 : SpecializationMap) :
  NoDup (dict_keys items) ->
  forall acc,
    (forall k, dict_get (merge_second items m1 acc) k
               = match dict_get items k with
                 | Some v => if dict_mem m1 k then dict_get acc k else Some v
                 | None => dict_get acc k
                 end) /\
    (NoDup (dict_keys acc) -> NoDup (dict_keys (merge_second items m1 acc))).
Proof.
  induction items as [| [var v2] rest IH]; intros Hnd acc.
  - split; [reflexivity | tauto].
  - inversion Hnd as [| ? ? Hnotin Hnd']; subst. simpl.
    destruct (dict_mem m1 var) eqn:Hmem.
    + destruct (IH Hnd' acc) as [Hget Hnodup]. split; [| exact Hnodup].
      intros k. rewrite Hget.
      destruct (String.eqb_spec var k) as [<- | Hne]; [| reflexivity].
      now rewrite (dict_get_not_In rest var), Hmem.
    + destruct (IH Hnd' (dict_set acc var v2)) as [Hget Hnodup]. split.
      * intros k. rewrite Hget, dict_get_set.
        destruct (String.eqb_spec var k) as [<- | Hne]; [| reflexivity].
        now rewrite (dict_get_not_In rest var), Hmem.
      * intros Hacc. now apply Hnodup, dict_set_NoDup.
Qed.

(** Keys that are variable names. *)
Lemma assert_variable_keys_iff {V : Type} (m : dict V) :
  assert_variable_keys m = Ok tt <->
  (forall k, In k (dict_keys m) -> is_variable k = Ok true).
Proof.
  unfold assert_variable_keys. split.
  - induction (dict_keys m) as [| k keys IH]; intros H x Hx; [destruct Hx |].
    simpl in H. destruct (is_variable k) as [[|] | e] eqn:Hk; try discriminate.
    destruct Hx as [<- | Hx]; [assumption | now apply IH].
  - apply assert_all_variables.
Qed.

Lemma assert_variable_keys_cases {V : Type} (m : dict V) :
  assert_variable_keys m = Ok tt \/
  exists e, assert_variable_keys m = Raise e.
Proof.
  destruct (assert_variable_keys m) as [[] | e]; [now left | right; now exists e].
Qed.

(** What [merge_specialization_maps] returns on two maps: the union when
    the values of the common keys are equal. *)
Lemma merge_maps_get (m1 m2 m : SpecializationMap) :
  NoDup (dict_keys m1) -> NoDup (dict_keys m2) ->
  merge_specialization_maps (Some m1) (Some m2) = Ok (Some m) ->
  (forall k, dict_get m k = match dict_get m1 k with
                            | Some v => Some v
                            | None => dict_get m2 k
                            end) /\
  NoDup (dict_keys m) /\
  (forall k v1 v2, dict_get m1 k = Some v1 -> dict_get m2 k = Some v2 ->
                   Formula_eq v1 v2 = true).
Proof.
  intros Hnd1 Hnd2 H. unfold merge_specialization_maps in H.
  destruct (assert_variable_keys m1) as [[] |]; [| discriminate].
  destruct (assert_variable_keys m2) as [[] |]; [| discriminate].
  cbn [Py.bind] in H.
  destruct (merge_first m1 m2 []) as [r |] eqn:Hr; [| discriminate].
  injection H as <-.
  destruct (merge_first_get m1 m2 Hnd1 [] r Hr) as [Hget1 Hnodup1].
  destruct (merge_second_get m2 m1 Hnd2 r) as [Hget2 Hnodup2].
  split; [| split].
  - intros k. rewrite Hget2, Hget1. unfold dict_mem.
    destruct (dict_get m1 k); destruct (dict_get m2 k); reflexivity.
  - apply Hnodup2, Hnodup1. constructor.
  - intros k v1 v2 H1 H2.
    apply (merge_first_agree m1 m2 [] r Hr k v1 v2); [| assumption].
    now apply dict_get_In.
Qed.

Lemma merge_maps_Some (m1 m2 : SpecializationMap) :
  assert_variable_keys m1 = Ok tt -> assert_variable_keys m2 = Ok tt ->
  (forall k v1 v2, In (k, v1) m1 -> dict_get m2 k = Some v2 ->
                   Formula_eq v1 v2 = true) ->
  exists m, merge_specialization_maps (Some m1) (Some m2) = Ok (Some m).
Proof.
  intros H1 H2 Hagree. unfold merge_specialization_maps. rewrite H1, H2.
  cbn [Py.bind].
  destruct (merge_first_Some m1 m2 Hagree []) as [r ->]. now eexists.
Qed.

Lemma dict_keys_get {V : Type} (d : dict V) (k : string) :
  In k (dict_keys d) <-> exists v, dict_get d k = Some v.
Proof.
  split.
  - intros H. destruct (dict_get d k) eqn:E; [now eexists |].
    now apply dict_get_None_not_In in E.
  - intros [v H]. now apply (dict_get_Some_In d k v).
Qed.

Lemma merge_maps_keys (m1 m2 m : SpecializationMap) :
  NoDup (dict_keys m1) -> NoDup (dict_keys m2) ->
  merge_specialization_maps (Some m1) (Some m2) = Ok (Some m) ->
  forall k, In k (dict_keys m) <-> In k (dict_keys m1) \/ In k (dict_keys m2).
Proof.
  intros Hnd1 Hnd2 H k.
  destruct (merge_maps_get m1 m2 m Hnd1 Hnd2 H) as [Hget _].
  rewrite !dict_keys_get, Hget.
  destruct (dict_get m1 k) as [v1 |]; destruct (dict_get m2 k) as [v2 |];
    split; try (intros [v Hv]); try (intros [[v Hv] | [v Hv]]);
    try discriminate; eauto.
Qed.

(** X9: on two maps with variable names as keys,
    [merge_specialization_maps] returns [None] exactly when some common key
    has different values in the two maps: it returns [None] only then, and
    when it returns a map every common key has equal values.  The map it
    returns gives every key of either map its value, the first map's for a
    common key. *)
Theorem merge_specialization_maps_union (m1 m2 : SpecializationMap) :
  NoDup (dict_keys m1) -> NoDup (dict_keys m2) ->
  assert_variable_keys m1 = Ok tt -> assert_variable_keys m2 = Ok tt ->
  exists r,
    merge_specialization_maps (Some m1) (Some m2) = Ok r /\
    match r with
    | Some m =>
        (forall k v1 v2,
            dict_get m1 k = Some v1 -> dict_get m2 k = Some v2 ->
            Formula_eq v1 v2 = true) /\
        (forall k, dict_get m k = match dict_get m1 k with
                                  | Some v => Some v
                                  | None => dict_get m2 k
                                  end)
    | None =>
        exists k v1 v2, dict_get m1 k = Some v1 /\ dict_get m2 k = Some v2 /\
                        Formula_eq v1 v2 = false
    end.
Proof.
  intros Hnd1 Hnd2 Hk1 Hk2.
  destruct (merge_specialization_maps (Some m1) (Some m2)) as [[m |] | e] eqn:H.
  - exists (Some m). split; [reflexivity |].
    destruct (merge_maps_get m1 m2 m Hnd1 Hnd2 H) as [Hget [_ Hagree]].
    split; assumption.
  - exists None. split; [reflexivity |].
    unfold merge_specialization_maps in H. rewrite Hk1, Hk2 in H.
    cbn [Py.bind] in H.
    destruct (merge_first m1 m2 []) as [r |] eqn:Hr; [discriminate |].
    destruct (merge_first_None m1 m2 [] Hr) as [k [v1 [v2 [Hin [Hget Hne]]]]].
    exists k, v1, v2. split; [now apply dict_get_In_NoDup | split; assumption].
  - unfold merge_specialization_maps in H. rewrite Hk1, Hk2 in H.
    cbn [Py.bind] in H. destruct (merge_first m1 m2 []); discriminate.
Qed.

Lemma merge_specialization_maps_union_witness :
  exists r,
    merge_specialization_maps
      (Some [("p", Leaf "x"); ("q", Leaf "y")])
      (Some [("q", Leaf "y"); ("r", Leaf "z")]) = Ok r /\
    match r with
    | Some m =>
        (forall k v1 v2,
            dict_get [("p", Leaf "x"); ("q", Leaf "y")] k = Some v1 ->
            dict_get [("q", Leaf "y"); ("r", Leaf "z")] k = Some v2 ->
            Formula_eq v1 v2 = true) /\
        (forall k, dict_get m k
                   = match dict_get [("p", Leaf "x"); ("q", Leaf "y")] k with
                     | Some v => Some v
                     | None => dict_get [("q", Leaf "y"); ("r", Leaf "z")] k
                     end)
    | None =>
        exists k v1 v2,
          dict_get [("p", Leaf "x"); ("q", Leaf "y")] k = Some v1 /\
          dict_get [("q", Leaf "y"); ("r", Leaf "z")] k = Some v2 /\
          Formula_eq v1 v2 = false
    end.
Proof.
  apply (merge_specialization_maps_union
           [("p", Leaf "x"); ("q", Leaf "y")]
           [("q", Leaf "y"); ("r", Leaf "z")]);
    try reflexivity;
    repeat constructor; simpl; intuition discriminate.
Defined.

(** ** Specializations of formulas *)

Lemma find_variables_In (f : Formula) :
  forall acc v, In v (find_variables f acc) <-> In v acc \/ In v (variables f).
Proof.
  unfold variables.
  induction f as [r | r a IHa | r a IHa b IHb]; simpl; intros acc v.
  - destruct (is_constant r); [simpl; tauto |].
    destruct (is_variable r) as [[|] |]; simpl; try tauto.
    rewrite !set_add_In. simpl. tauto.
  - apply IHa.
  - rewrite IHb, IHa, (IHb (find_variables a [])), (IHa []). simpl. tauto.
Qed.

Lemma wf_leaf_cases (r : string) :
  wf (Leaf r) = true ->
  (is_variable r = Ok true /\ is_constant r = false) \/
  (is_variable r = Ok false /\ is_constant r = true).
Proof.
  simpl. destruct (is_variable r) as [[|] |] eqn:Hv; try discriminate.
  - intros _. left. split; [reflexivity | now apply is_variable_not_constant].
  - simpl. intros ->. now right.
Qed.

Lemma unary_root_facts (r : string) :
  is_unary r = true ->
  r = "~"%string /\ is_variable r = Ok false /\ is_constant r = false.
Proof.
  unfold is_unary. intros H. apply String.eqb_eq in H. subst. now repeat split.
Qed.

Lemma binary_root_facts (r : string) :
  is_binary r = true ->
  is_variable r = Ok false /\ is_constant r = false /\ is_unary r = false.
Proof.
  intros H.
  destruct (is_binary_cases r H) as [-> | [-> | [-> | [-> | [-> | [-> | ->]]]]]];
    now repeat split.
Qed.

Lemma no_operator_key {V : Type} (m : dict V) (r : string) :
  assert_variable_keys m = Ok tt -> is_variable r = Ok false ->
  dict_get m r = None.
Proof.
  intros Hm Hr. apply dict_get_not_In. intros Hin.
  rewrite (proj1 (assert_variable_keys_iff m) Hm r Hin) in Hr. discriminate.
Qed.

Lemma substitute_leaf_constant (r : string) (m : dict Formula) :
  assert_variable_keys m = Ok tt -> is_variable r = Ok false ->
  substitute_variables_rec (Leaf r) m = Leaf r.
Proof. intros Hm Hr. simpl. now rewrite (no_operator_key m r). Qed.

Lemma substitute_unary (r : string) (a : Formula) (m : dict Formula) :
  assert_variable_keys m = Ok tt -> is_unary r = true ->
  substitute_variables_rec (Unary r a) m = Unary r (substitute_variables_rec a m).
Proof.
  intros Hm Hr. destruct (unary_root_facts r Hr) as [_ [Hv _]].
  simpl. now rewrite (no_operator_key m r).
Qed.

Lemma substitute_binary (r : string) (a b : Formula) (m : dict Formula) :
  assert_variable_keys m = Ok tt -> is_binary r = true ->
  substitute_variables_rec (Binary r a b) m
  = Binary r (substitute_variables_rec a m) (substitute_variables_rec b m).
Proof.
  intros Hm Hr. destruct (binary_root_facts r Hr) as [Hv _].
  simpl. now rewrite (no_operator_key m r).
Qed.

Lemma fsm_variable (r : string) (general spec : Formula) :
  root general = r -> is_variable r = Ok true ->
  formula_specialization_map general spec = Ok (Some [(r, spec)]).
Proof.
  intros <- Hv. destruct general; simpl in *; rewrite Hv; reflexivity.
Qed.

Lemma fsm_constant (r : string) (spec : Formula) :
  is_variable r = Ok false -> is_constant r = true ->
  formula_specialization_map (Leaf r) spec
  = Ok (if String.eqb r (root spec) then Some [] else None).
Proof.
  intros Hv Hc. simpl. rewrite Hv, Hc. simpl.
  destruct (String.eqb r (root spec)); reflexivity.
Qed.

Lemma fsm_unary (r : string) (a spec : Formula) :
  is_unary r = true ->
  formula_specialization_map (Unary r a) spec
  = if String.eqb r (root spec) then
      match spec with
      | Unary _ s1 => formula_specialization_map a s1
      | _ => Raise AttributeError
      end
    else Ok None.
Proof.
  intros Hr. destruct (unary_root_facts r Hr) as [-> _].
  cbn [formula_specialization_map root]. cbn [is_variable Py.bind].
  change (is_constant "~") with false. cbn [andb].
  destruct (String.eqb "~" (root spec)); reflexivity.
Qed.

Lemma fsm_binary (r : string) (a b spec : Formula) :
  is_binary r = true ->
  formula_specialization_map (Binary r a b) spec
  = if String.eqb r (root spec) then
      match spec with
      | Binary _ s1 s2 =>
          first <- formula_specialization_map a s1 ;;
          secd <- formula_specialization_map b s2 ;;
          merge_specialization_maps first secd
      | _ => Raise AttributeError
      end
    else Ok None.
Proof.
  intros Hr. destruct (binary_root_facts r Hr) as [Hv [Hc Hu]].
  cbn [formula_specialization_map root]. rewrite Hv, Hc, Hu, Hr.
  cbn [Py.bind andb].
  destruct (String.eqb r (root spec)); reflexivity.
Qed.

Lemma merge_Some_inv (o1 o2 : option SpecializationMap) (m : SpecializationMap) :
  merge_specialization_maps o1 o2 = Ok (Some m) ->
  exists m1 m2, o1 = Some m1 /\ o2 = Some m2.
Proof.
  unfold merge_specialization_maps. intros H.
  destruct o1 as [m1 |]; destruct o2 as [m2 |]; [now eauto | | |];
    exfalso; repeat (destruct (assert_variable_keys _) as [[] |]; simpl in H);
    discriminate.
Qed.

(** A formula that has the root of a formula the constructor accepts has,
    when the constructor accepted it too, the same shape. *)
Lemma fsm_binary_inv (r : string) (a b spec : Formula) (m : SpecializationMap) :
  is_binary r = true ->
  formula_specialization_map (Binary r a b) spec = Ok (Some m) ->
  exists s1 s2 m1 m2,
    spec = Binary r s1 s2 /\
    formula_specialization_map a s1 = Ok (Some m1) /\
    formula_specialization_map b s2 = Ok (Some m2) /\
    merge_specialization_maps (Some m1) (Some m2) = Ok (Some m).
Proof.
  intros Hr H. rewrite fsm_binary in H by assumption.
  destruct (String.eqb_spec r (root spec)) as [Heq | Hne]; [| discriminate].
  destruct spec as [r' | r' s1 | r' s1 s2]; try discriminate.
  simpl in Heq. subst r'.
  destruct (formula_specialization_map a s1) as [o1 | e1] eqn:H1;
    [| discriminate].
  destruct (formula_specialization_map b s2) as [o2 | e2] eqn:H2;
    [| discriminate].
  cbn [Py.bind] in H.
  destruct (merge_Some_inv o1 o2 m H) as [m1 [m2 [-> ->]]].
  now exists s1, s2, m1, m2.
Qed.

Lemma fsm_unary_inv (r : string) (a spec : Formula) (m : SpecializationMap) :
  is_unary r = true ->
  formula_specialization_map (Unary r a) spec = Ok (Some m) ->
  exists s1, spec = Unary r s1 /\ formula_specialization_map a s1 = Ok (Some m).
Proof.
  intros Hr H. rewrite fsm_unary in H by assumption.
  destruct (String.eqb_spec r (root spec)) as [Heq | Hne]; [| discriminate].
  destruct spec as [r' | r' s1 | r' s1 s2]; try discriminate.
  simpl in Heq. subst r'. now exists s1.
Qed.

(** The keys of the map computed for a formula are its variables. *)
Lemma fsm_keys (general : Formula) :
  wf general = true ->
  forall spec m,
    formula_specialization_map general spec = Ok (Some m) ->
    NoDup (dict_keys m) /\
    (forall k, In k (dict_keys m) <-> In k (variables general)).
Proof.
  induction general as [r | r a IHa | r a IHa b IHb]; intros Hwf spec m H.
  - destruct (wf_leaf_cases r Hwf) as [[Hv Hc] | [Hv Hc]].
    + rewrite (fsm_variable r (Leaf r) spec eq_refl Hv) in H.
      injection H as <-. unfold variables. simpl. rewrite Hc, Hv. simpl.
      split; [repeat constructor; intros [] | tauto].
    + rewrite fsm_constant in H by assumption.
      destruct (String.eqb r (root spec)); [| discriminate].
      injection H as <-. unfold variables. simpl. rewrite Hc.
      split; [constructor | tauto].
  - simpl in Hwf. apply andb_true_iff in Hwf. destruct Hwf as [Hr Ha].
    destruct (fsm_unary_inv r a spec m Hr H) as [s1 [-> Hs1]].
    now apply (IHa Ha s1 m).
  - simpl in Hwf. apply andb_true_iff in Hwf. destruct Hwf as [Hwf Hb].
    apply andb_true_iff in Hwf. destruct Hwf as [Hr Ha].
    destruct (fsm_binary_inv r a b spec m Hr H)
      as [s1 [s2 [m1 [m2 [-> [H1 [H2 Hmerge]]]]]]].
    destruct (IHa Ha s1 m1 H1) as [Hnd1 Hk1].
    destruct (IHb Hb s2 m2 H2) as [Hnd2 Hk2].
    destruct (merge_maps_get m1 m2 m Hnd1 Hnd2 Hmerge) as [_ [Hnd _]].
    split; [assumption |]. intros k.
    rewrite (merge_maps_keys m1 m2 m Hnd1 Hnd2 Hmerge), Hk1, Hk2.
    unfold variables at 3. simpl. rewrite find_variables_In. tauto.
Qed.

Lemma fsm_variable_keys (general spec : Formula) (m : SpecializationMap) :
  wf general = true ->
  formula_specialization_map general spec = Ok (Some m) ->
  assert_variable_keys m = Ok tt.
Proof.
  intros Hwf H. apply assert_variable_keys_iff. intros k Hk.
  apply (formula_variables_named general).
  now apply (proj2 (fsm_keys general Hwf spec m H)).
Qed.

(** A map whose values are the images of its keys under [m]. *)
Definition image_of (m acc : SpecializationMap) : Prop :=
  NoDup (dict_keys acc) /\ assert_variable_keys acc = Ok tt /\
  forall k v, dict_get acc k = Some v -> v = substitute_variables_rec (Leaf k) m.

Lemma merge_image (m m1 m2 : SpecializationMap) :
  image_of m m1 -> image_of m m2 ->
  exists m', merge_specialization_maps (Some m1) (Some m2) = Ok (Some m') /\
             image_of m m' /\
             forall k, In k (dict_keys m') <->
                       In k (dict_keys m1) \/ In k (dict_keys m2).
Proof.
  intros [Hnd1 [Hk1 Hv1]] [Hnd2 [Hk2 Hv2]].
  destruct (merge_maps_Some m1 m2 Hk1 Hk2) as [m' Hm'].
  { intros k v1 v2 Hin Hget. apply (dict_get_In_NoDup m1 k v1 Hnd1) in Hin.
    rewrite (Hv1 k v1 Hin), (Hv2 k v2 Hget). apply Formula_eq_refl. }
  exists m'. split; [assumption |].
  pose proof (merge_maps_keys m1 m2 m' Hnd1 Hnd2 Hm') as Hkeys.
  destruct (merge_maps_get m1 m2 m' Hnd1 Hnd2 Hm') as [Hget [Hnd _]].
  split; [| assumption]. split; [assumption | split].
  - apply assert_variable_keys_iff. intros k Hk. apply Hkeys in Hk.
    destruct Hk as [Hk | Hk];
      [now apply (proj1 (assert_variable_keys_iff m1) Hk1)
      | now apply (proj1 (assert_variable_keys_iff m2) Hk2)].
  - intros k v Hk. rewrite Hget in Hk.
    destruct (dict_get m1 k) as [v1 |] eqn:E1.
    + injection Hk as <-. now apply Hv1.
    + now apply Hv2.
Qed.

(** The map computed for a formula and its image under [m] sends every
    variable of the formula to its image. *)
Lemma fsm_complete (m : SpecializationMap) :
  assert_variable_keys m = Ok tt ->
  forall general,
    wf general = true ->
    exists m',
      formula_specialization_map general (substitute_variables_rec general m)
      = Ok (Some m') /\
      image_of m m' /\
      (forall k, In k (dict_keys m') <-> In k (variables general)).
Proof.
  intros Hm. induction general as [r | r a IHa | r a IHa b IHb]; intros Hwf.
  - destruct (wf_leaf_cases r Hwf) as [[Hv Hc] | [Hv Hc]].
    + exists [(r, substitute_variables_rec (Leaf r) m)]. split; [| split].
      * now apply fsm_variable.
      * split; [repeat constructor; intros [] | split].
        -- apply assert_variable_keys_iff. now intros k [<- | []].
        -- intros k v. simpl. destruct (String.eqb_spec r k) as [<- | Hne];
             [| discriminate]. now intros [= <-].
      * intros k. unfold variables. simpl. rewrite Hc, Hv. simpl. tauto.
    + exists []. split; [| split].
      * rewrite substitute_leaf_constant by assumption.
        rewrite fsm_constant by assumption. simpl.
        now rewrite String.eqb_refl.
      * split; [constructor | split; [reflexivity | discriminate]].
      * intros k. unfold variables. simpl. rewrite Hc. tauto.
  - simpl in Hwf. apply andb_true_iff in Hwf. destruct Hwf as [Hr Ha].
    destruct (IHa Ha) as [m' [Hm' Himage]]. exists m'. split; [| exact Himage].
    rewrite substitute_unary, fsm_unary by assumption.
    simpl. now rewrite String.eqb_refl.
  - simpl in Hwf. apply andb_true_iff in Hwf. destruct Hwf as [Hwf Hb].
    apply andb_true_iff in Hwf. destruct Hwf as [Hr Ha].
    destruct (IHa Ha) as [m1 [H1 [Hi1 Hk1]]].
    destruct (IHb Hb) as [m2 [H2 [Hi2 Hk2]]].
    destruct (merge_image m m1 m2 Hi1 Hi2) as [m' [Hm' [Hi Hk]]].
    exists m'. split; [| split; [assumption |]].
    + rewrite substitute_binary, fsm_binary by assumption.
      simpl. rewrite String.eqb_refl, H1. cbn [Py.bind]. rewrite H2.
      cbn [Py.bind]. exact Hm'.
    + intros k. rewrite Hk, Hk1, Hk2. unfold variables at 3. simpl.
      rewrite find_variables_In. tauto.
Qed.

Lemma feq_unary (r : string) (a a' : Formula) :
  feq a a' -> feq (Unary r a) (Unary r a').
Proof. unfold feq. simpl. now intros ->. Qed.

Lemma feq_binary (r : string) (a a' b b' : Formula) :
  feq a a' -> feq b b' -> feq (Binary r a b) (Binary r a' b').
Proof. unfold feq. simpl. now intros -> ->. Qed.

(** Substitution only looks at the images of the variables of the
    formula. *)
Lemma substitute_feq_ext (f : Formula) (m m' : SpecializationMap) :
  wf f = true ->
  assert_variable_keys m = Ok tt -> assert_variable_keys m' = Ok tt ->
  (forall v, In v (variables f) ->
             feq (substitute_variables_rec (Leaf v) m)
                 (substitute_variables_rec (Leaf v) m')) ->
  feq (substitute_variables_rec f m) (substitute_variables_rec f m').
Proof.
  intros Hwf Hm Hm'.
  induction f as [r | r a IHa | r a IHa b IHb]; intros Hv.
  - destruct (wf_leaf_cases r Hwf) as [[Hvar Hc] | [Hvar Hc]].
    + apply Hv. unfold variables. simpl. rewrite Hc, Hvar. now left.
    + rewrite !substitute_leaf_constant by assumption. reflexivity.
  - simpl in Hwf. apply andb_true_iff in Hwf. destruct Hwf as [Hr Ha].
    rewrite !substitute_unary by assumption. apply feq_unary.
    now apply IHa.
  - simpl in Hwf. apply andb_true_iff in Hwf. destruct Hwf as [Hwf Hb].
    apply andb_true_iff in Hwf. destruct Hwf as [Hr Ha].
    rewrite !substitute_binary by assumption. apply feq_binary.
    + apply IHa; [assumption |]. intros v Hin. apply Hv.
      unfold variables. simpl. apply find_variables_In. now left.
    + apply IHb; [assumption |]. intros v Hin. apply Hv.
      unfold variables. simpl. apply find_variables_In. now right.
Qed.

(** Substituting the computed map in the general formula gives the
    specialization back. *)
Lemma fsm_sound (general : Formula) :
  wf general = true ->
  forall spec m,
    wf spec = true ->
    formula_specialization_map general spec = Ok (Some m) ->
    feq (substitute_variables_rec general m) spec.
Proof.
  induction general as [r | r a IHa | r a IHa b IHb]; intros Hwf spec m Hws H.
  - destruct (wf_leaf_cases r Hwf) as [[Hv Hc] | [Hv Hc]].
    + rewrite (fsm_variable r (Leaf r) spec eq_refl Hv) in H.
      injection H as <-. simpl. now rewrite String.eqb_refl.
    + rewrite fsm_constant in H by assumption.
      destruct (String.eqb_spec r (root spec)) as [Heq | Hne]; [| discriminate].
      injection H as <-. simpl.
      destruct spec as [r' | r' s1 | r' s1 s2]; simpl in Heq; subst r'.
      * reflexivity.
      * simpl in Hws. apply andb_true_iff in Hws. destruct Hws as [Hu _].
        destruct (unary_root_facts r Hu) as [_ [_ Hc']]. congruence.
      * simpl in Hws. apply andb_true_iff in Hws. destruct Hws as [Hws _].
        apply andb_true_iff in Hws. destruct Hws as [Hb _].
        destruct (binary_root_facts r Hb) as [_ [Hc' _]]. congruence.
  - pose proof (fsm_variable_keys _ _ _ Hwf H) as Hkeys.
    simpl in Hwf. apply andb_true_iff in Hwf. destruct Hwf as [Hr Ha].
    destruct (fsm_unary_inv r a spec m Hr H) as [s1 [-> Hs1]].
    simpl in Hws. apply andb_true_iff in Hws. destruct Hws as [_ Hws].
    rewrite substitute_unary by assumption. apply feq_unary.
    now apply IHa.
  - pose proof (fsm_variable_keys _ _ _ Hwf H) as Hkeys.
    simpl in Hwf. apply andb_true_iff in Hwf. destruct Hwf as [Hwf Hb].
    apply andb_true_iff in Hwf. destruct Hwf as [Hr Ha].
    destruct (fsm_binary_inv r a b spec m Hr H)
      as [s1 [s2 [m1 [m2 [-> [H1 [H2 Hmerge]]]]]]].
    simpl in Hws. apply andb_true_iff in Hws. destruct Hws as [Hws Hws2].
    apply andb_true_iff in Hws. destruct Hws as [_ Hws1].
    destruct (fsm_keys a Ha s1 m1 H1) as [Hnd1 Hk1].
    destruct (fsm_keys b Hb s2 m2 H2) as [Hnd2 Hk2].
    destruct (merge_maps_get m1 m2 m Hnd1 Hnd2 Hmerge) as [Hget [_ Hagree]].
    rewrite substitute_binary by assumption. apply feq_binary.
    + apply (feq_trans _ (substitute_variables_rec a m1)); [| now apply IHa].
      apply substitute_feq_ext; try assumption;
        [now apply (fsm_variable_keys a s1) |].
      intros v Hv. apply Hk1, dict_keys_get in Hv. destruct Hv as [x Hx].
      simpl. rewrite Hget, Hx. reflexivity.
    + apply (feq_trans _ (substitute_variables_rec b m2)); [| now apply IHb].
      apply substitute_feq_ext; try assumption;
        [now apply (fsm_variable_keys b s2) |].
      intros v Hv. apply Hk2, dict_keys_get in Hv. destruct Hv as [y Hy].
      simpl. rewrite Hget, Hy.
      destruct (dict_get m1 v) as [x |] eqn:Hx; [| reflexivity].
      apply Formula_eq_feq. now apply (Hagree v).
Qed.

(** ** Specializations of rules *)

Lemma specialize_inv (rule : InferenceRule) (m : SpecializationMap)
      (r' : InferenceRule) :
  specialize rule m = Ok r' ->
  assert_variable_keys m = Ok tt /\
  r' = mkInferenceRule
         (map (fun a => substitute_variables_rec a m) (assumptions rule))
         (substitute_variables_rec (conclusion rule) m).
Proof.
  unfold specialize. destruct (assert_variable_keys m) as [[] | e];
    [| discriminate].
  cbn [Py.bind]. intros H. injection H as <-. now split.
Qed.

Lemma image_of_nil (m : SpecializationMap) : image_of m [].
Proof. split; [constructor | split; [reflexivity | discriminate]]. Qed.

Lemma loop_complete (m : SpecializationMap) :
  assert_variable_keys m = Ok tt ->
  forall gs acc,
    forallb wf gs = true -> image_of m acc ->
    exists acc',
      specialization_map_loop
        gs (map (fun a => substitute_variables_rec a m) gs) (Some acc)
      = Ok (Some acc') /\
      image_of m acc' /\
      (forall k, In k (dict_keys acc') <->
                 In k (dict_keys acc) \/
                 exists g, In g gs /\ In k (variables g)).
Proof.
  intros Hm. induction gs as [| g gs IH]; intros acc Hwf Hacc.
  - exists acc. split; [reflexivity | split; [assumption |]].
    intros k. split; [tauto | intros [H | [g [[] _]]]; assumption].
  - simpl in Hwf. apply andb_true_iff in Hwf. destruct Hwf as [Hg Hgs].
    destruct (fsm_complete m Hm g Hg) as [to_add [Hfsm [Himage Hkeys]]].
    destruct (merge_image m acc to_add Hacc Himage) as [acc1 [Hmerge [Hi1 Hk1]]].
    destruct (IH acc1 Hgs Hi1) as [acc' [Hloop [Hi' Hk']]].
    exists acc'. split; [| split; [assumption |]].
    + cbn [map specialization_map_loop]. rewrite Hfsm. cbn [Py.bind].
      rewrite Hmerge. cbn [Py.bind]. exact Hloop.
    + intros k. rewrite Hk', Hk1, Hkeys. split.
      * intros [[H | H] | [g' [Hin H]]]; [now left | right | right].
        -- exists g. split; [now left | assumption].
        -- exists g'. split; [now right | assumption].
      * intros [H | [g' [[<- | Hin] H]]]; [tauto | tauto |].
        right. now exists g'.
Qed.

Lemma fold_find_variables_In (gs : list Formula) :
  forall acc k,
    In k (fold_left (fun s f => find_variables f s) gs acc) <->
    In k acc \/ exists g, In g gs /\ In k (variables g).
Proof.
  induction gs as [| g gs IH]; intros acc k; simpl.
  - split; [tauto | intros [H | [g [[] _]]]; assumption].
  - rewrite IH, find_variables_In. split.
    + intros [[H | H] | [g' [Hin H]]]; [now left | right | right].
      * exists g. split; [now left | assumption].
      * exists g'. split; [now right | assumption].
    + intros [H | [g' [[<- | Hin] H]]]; [tauto | tauto |].
      right. now exists g'.
Qed.

Lemma rule_variables_In (rule : InferenceRule) (k : string) :
  In k (InferenceRule_variables rule) <->
  (exists g, In g (assumptions rule) /\ In k (variables g)) \/
  In k (variables (conclusion rule)).
Proof.
  unfold InferenceRule_variables.
  rewrite find_variables_In, fold_find_variables_In. simpl. tauto.
Qed.

Lemma specialization_map_complete
      (rule : InferenceRule) (m : SpecializationMap) (r' : InferenceRule) :
  rule_wf rule = true -> specialize rule m = Ok r' ->
  is_specialization_of r' rule = Ok true /\
  exists m',
    specialization_map rule r' = Ok (Some m') /\
    forall k,
      dict_get m' k
      = if str_mem k (InferenceRule_variables rule)
        then Some (substitute_variables_rec (Leaf k) m) else None.
Proof.
  intros Hwf Hspec. destruct (specialize_inv _ _ _ Hspec) as [Hm ->].
  unfold rule_wf in Hwf. apply andb_true_iff in Hwf. destruct Hwf as [Has Hc].
  destruct (loop_complete m Hm (assumptions rule) [] Has (image_of_nil m))
    as [acc [Hloop [Hacc Hkacc]]].
  destruct (fsm_complete m Hm (conclusion rule) Hc) as [to_add [Hfsm [Hi Hk]]].
  destruct (merge_image m acc to_add Hacc Hi) as [m' [Hmerge [Hi' Hk']]].
  assert (Hmap : specialization_map rule
                   (mkInferenceRule
                      (map (fun a => substitute_variables_rec a m)
                           (assumptions rule))
                      (substitute_variables_rec (conclusion rule) m))
                 = Ok (Some m')).
  { unfold specialization_map. cbn [assumptions conclusion].
    rewrite length_map, Nat.eqb_refl. cbn [negb].
    unfold SpecializationMap, dict in Hloop |- *. rewrite Hloop. cbn [Py.bind]. rewrite Hfsm. cbn [Py.bind]. exact Hmerge. }
  split.
  - unfold is_specialization_of. now rewrite Hmap.
  - exists m'. split; [exact Hmap |]. intros k.
    destruct Hi' as [_ [_ Hval]].
    destruct (str_mem k (InferenceRule_variables rule)) eqn:Hmem.
    + apply str_mem_In, rule_variables_In in Hmem.
      assert (Hin : In k (dict_keys m')).
      { apply Hk'. rewrite Hkacc, Hk. simpl. tauto. }
      apply dict_keys_get in Hin. destruct Hin as [v Hv].
      rewrite Hv. f_equal. now apply Hval.
    + apply dict_get_not_In. intros Hin. apply Hk' in Hin.
      rewrite Hkacc, Hk in Hin. simpl in Hin.
      assert (In k (InferenceRule_variables rule))
        by (apply rule_variables_In; tauto).
      apply str_mem_In in H. congruence.
Qed.

(** X10: a rule specialised by a map is recognised as a specialization of
    the rule, and the map [specialization_map] computes sends every variable
    of the rule, and nothing else, to what the given map substitutes for
    it. *)
Theorem specialize_is_specialization
        (rule : InferenceRule) (m : SpecializationMap) (r' : InferenceRule) :
  rule_wf rule = true -> specialize rule m = Ok r' ->
  is_specialization_of r' rule = Ok true /\
  exists m',
    specialization_map rule r' = Ok (Some m') /\
    forall k,
      dict_get m' k
      = if str_mem k (InferenceRule_variables rule)
        then Some (substitute_variables_rec (Leaf k) m) else None.
Proof. apply specialization_map_complete. Qed.

Lemma specialize_is_specialization_witness :
  is_specialization_of
    (mkInferenceRule [Unary "~" (Leaf "x"); Binary "->" (Unary "~" (Leaf "x")) (Leaf "T")]
                     (Leaf "T"))
    (mkInferenceRule [Leaf "p"; Binary "->" (Leaf "p") (Leaf "q")] (Leaf "q"))
  = Ok true /\
  exists m',
    specialization_map
      (mkInferenceRule [Leaf "p"; Binary "->" (Leaf "p") (Leaf "q")] (Leaf "q"))
      (mkInferenceRule [Unary "~" (Leaf "x"); Binary "->" (Unary "~" (Leaf "x")) (Leaf "T")]
                       (Leaf "T"))
    = Ok (Some m') /\
    forall k,
      dict_get m' k
      = if str_mem k (InferenceRule_variables
                        (mkInferenceRule
                           [Leaf "p"; Binary "->" (Leaf "p") (Leaf "q")]
                           (Leaf "q")))
        then Some (substitute_variables_rec
                     (Leaf k)
                     [("q", Leaf "T"); ("p", Unary "~" (Leaf "x"));
                      ("r", Leaf "y")])
        else None.
Proof.
  apply (specialize_is_specialization
           (mkInferenceRule [Leaf "p"; Binary "->" (Leaf "p") (Leaf "q")]
                            (Leaf "q"))
           [("q", Leaf "T"); ("p", Unary "~" (Leaf "x")); ("r", Leaf "y")]);
    reflexivity.
Defined.

(** A map that has every item of another. *)
Definition extends (a b : SpecializationMap) : Prop :=
  forall k v, dict_get a k = Some v -> dict_get b k = Some v.

Lemma merge_variable_keys (m1 m2 m : SpecializationMap) :
  NoDup (dict_keys m1) -> NoDup (dict_keys m2) ->
  merge_specialization_maps (Some m1) (Some m2) = Ok (Some m) ->
  assert_variable_keys m = Ok tt.
Proof.
  intros Hnd1 Hnd2 H.
  pose proof (merge_maps_keys m1 m2 m Hnd1 Hnd2 H) as Hkeys.
  unfold merge_specialization_maps in H.
  destruct (assert_variable_keys m1) as [[] |] eqn:H1; [| discriminate].
  destruct (assert_variable_keys m2) as [[] |] eqn:H2; [| discriminate].
  apply assert_variable_keys_iff. intros k Hk. apply Hkeys in Hk.
  destruct Hk as [Hk | Hk];
    [now apply (proj1 (assert_variable_keys_iff m1) H1)
    | now apply (proj1 (assert_variable_keys_iff m2) H2)].
Qed.

Lemma merge_step_sound (g s : Formula) (acc to_add acc1 : SpecializationMap) :
  wf g = true -> wf s = true -> NoDup (dict_keys acc) ->
  formula_specialization_map g s = Ok (Some to_add) ->
  merge_specialization_maps (Some acc) (Some to_add) = Ok (Some acc1) ->
  NoDup (dict_keys acc1) /\ extends acc acc1 /\
  assert_variable_keys acc1 = Ok tt /\
  forall final,
    assert_variable_keys final = Ok tt -> extends acc1 final ->
    feq (substitute_variables_rec g final) s.
Proof.
  intros Hg Hs Hnd Hfsm Hmerge.
  destruct (fsm_keys g Hg s to_add Hfsm) as [Hnd2 Hkeys].
  destruct (merge_maps_get acc to_add acc1 Hnd Hnd2 Hmerge)
    as [Hget [Hnd1 Hagree]].
  split; [assumption | split; [| split]].
  - intros k v Hk. now rewrite Hget, Hk.
  - now apply (merge_variable_keys acc to_add).
  - intros final Hfinal Hext.
    apply (feq_trans _ (substitute_variables_rec g to_add));
      [| now apply fsm_sound].
    apply substitute_feq_ext; try assumption;
      [now apply (fsm_variable_keys g s) |].
    intros v Hv. apply Hkeys, dict_keys_get in Hv. destruct Hv as [y Hy].
    simpl. rewrite Hy.
    assert (H1 : exists x, dict_get acc1 v = Some x /\ feq x y).
    { rewrite Hget. destruct (dict_get acc v) as [x |] eqn:Hx.
      - exists x. split; [reflexivity |].
        apply Formula_eq_feq. now apply (Hagree v).
      - exists y. split; [assumption | reflexivity]. }
    destruct H1 as [x [Hx Hxy]]. now rewrite (Hext v x Hx).
Qed.

Lemma loop_None (gs ss : list Formula) (m : SpecializationMap) :
  specialization_map_loop gs ss None <> Ok (Some m).
Proof.
  revert ss. induction gs as [| g gs IH]; intros ss H; [discriminate |].
  destruct ss as [| s ss]; [discriminate |].
  cbn [specialization_map_loop] in H.
  destruct (formula_specialization_map g s) as [to_add | e]; [| discriminate].
  cbn [Py.bind] in H.
  destruct (merge_specialization_maps None to_add) as [o | e] eqn:Hm;
    [| discriminate].
  cbn [Py.bind] in H. destruct o as [x |]; [| now apply (IH ss)].
  destruct (merge_Some_inv _ _ _ Hm) as [m1 [m2 [Habs _]]]. discriminate.
Qed.

Lemma loop_sound (gs : list Formula) :
  forall ss acc acc',
    forallb wf gs = true -> forallb wf ss = true ->
    List.length gs = List.length ss -> NoDup (dict_keys acc) ->
    specialization_map_loop gs ss (Some acc) = Ok (Some acc') ->
    NoDup (dict_keys acc') /\ extends acc acc' /\
    forall final,
      assert_variable_keys final = Ok tt -> extends acc' final ->
      Formulas_eq (map (fun a => substitute_variables_rec a final) gs) ss = true.
Proof.
  induction gs as [| g gs IH]; intros ss acc acc' Hgs Hss Hlen Hnd H.
  - destruct ss; [| discriminate]. injection H as <-.
    split; [assumption | split; [now intros k v | reflexivity]].
  - destruct ss as [| s ss]; [discriminate |].
    simpl in Hgs, Hss. apply andb_true_iff in Hgs, Hss.
    destruct Hgs as [Hg Hgs]. destruct Hss as [Hs Hss].
    cbn [specialization_map_loop] in H.
    destruct (formula_specialization_map g s) as [to_add | e] eqn:Hfsm;
      [| discriminate].
    cbn [Py.bind] in H.
    destruct (merge_specialization_maps (Some acc) to_add) as [o | e] eqn:Hm;
      [| discriminate].
    cbn [Py.bind] in H.
    destruct o as [acc1 |]; [| now apply loop_None in H].
    destruct (merge_Some_inv _ _ _ Hm) as [m1 [m2 [_ ->]]].
    destruct (merge_step_sound g s acc m2 acc1 Hg Hs Hnd Hfsm Hm)
      as [Hnd1 [Hext1 [_ Hfeq]]].
    destruct (IH ss acc1 acc' Hgs Hss) as [Hnd' [Hext' Hall]];
      [simpl in Hlen; lia | assumption | assumption |].
    split; [assumption | split].
    + intros k v Hk. now apply Hext', Hext1.
    + intros final Hfinal Hext. cbn [map Formulas_eq].
      rewrite (Hall final Hfinal Hext), andb_true_r.
      apply Formula_eq_feq, Hfeq; [assumption |].
      intros k v Hk. now apply Hext, Hext'.
Qed.

(** X11: when [specialization_map] returns a map, specialising the general
    rule by that map gives the specialization back: a rule that
    [is_specialization_of] accepts is an instance of the general rule. *)
Theorem specialization_map_sound
        (general spec : InferenceRule) (m : SpecializationMap) :
  rule_wf general = true -> rule_wf spec = true ->
  specialization_map general spec = Ok (Some m) ->
  exists r', specialize general m = Ok r' /\ InferenceRule_eq r' spec = true.
Proof.
  intros Hg Hs H. unfold rule_wf in Hg, Hs.
  apply andb_true_iff in Hg, Hs.
  destruct Hg as [Hgas Hgc]. destruct Hs as [Hsas Hsc].
  unfold specialization_map in H.
  destruct (Nat.eqb_spec (List.length (assumptions general))
                         (List.length (assumptions spec))) as [Hlen | Hne];
    [| discriminate].
  cbn [negb] in H.
  destruct (specialization_map_loop (assumptions general) (assumptions spec)
                                    (Some [])) as [o | e] eqn:Hloop;
    [| discriminate].
  cbn [Py.bind] in H.
  destruct (formula_specialization_map (conclusion general) (conclusion spec))
    as [to_add | e] eqn:Hfsm; [| discriminate].
  cbn [Py.bind] in H.
  destruct (merge_Some_inv _ _ _ H) as [acc [t [-> ->]]].
  destruct (loop_sound _ _ [] acc Hgas Hsas Hlen (NoDup_nil _) Hloop)
    as [Hnd [_ Hall]].
  destruct (merge_step_sound _ _ acc t m Hgc Hsc Hnd Hfsm H)
    as [_ [Hext [Hkeys Hfeq]]].
  eexists. split.
  - unfold specialize. rewrite Hkeys. reflexivity.
  - unfold InferenceRule_eq. cbn [assumptions conclusion].
    rewrite (Hall m Hkeys Hext). apply Formula_eq_feq, Hfeq; [assumption |].
    now intros k v.
Qed.

Lemma specialization_map_sound_witness :
  exists r',
    specialize
      (mkInferenceRule [Leaf "p"; Binary "->" (Leaf "p") (Leaf "q")] (Leaf "q"))
      [("p", Unary "~" (Leaf "x")); ("q", Leaf "T")] = Ok r' /\
    InferenceRule_eq r'
      (mkInferenceRule
         [Unary "~" (Leaf "x"); Binary "->" (Unary "~" (Leaf "x")) (Leaf "T")]
         (Leaf "T")) = true.
Proof.
  apply (specialization_map_sound
           (mkInferenceRule [Leaf "p"; Binary "->" (Leaf "p") (Leaf "q")]
                            (Leaf "q"))
           (mkInferenceRule
              [Unary "~" (Leaf "x");
               Binary "->" (Unary "~" (Leaf "x")) (Leaf "T")]
              (Leaf "T"))
           [("p", Unary "~" (Leaf "x")); ("q", Leaf "T")]); reflexivity.
Defined.

(** ** Proofs built from proofs *)

Lemma substitute_ext (f : Formula) (m m' : SpecializationMap) :
  wf f = true ->
  assert_variable_keys m = Ok tt -> assert_variable_keys m' = Ok tt ->
  (forall v, In v (variables f) ->
             substitute_variables_rec (Leaf v) m
             = substitute_variables_rec (Leaf v) m') ->
  substitute_variables_rec f m = substitute_variables_rec f m'.
Proof.
  intros Hwf Hm Hm'.
  induction f as [r | r a IHa | r a IHa b IHb]; intros Hv.
  - destruct (wf_leaf_cases r Hwf) as [[Hvar Hc] | [Hvar Hc]].
    + apply Hv. unfold variables. simpl. rewrite Hc, Hvar. now left.
    + now rewrite !substitute_leaf_constant by assumption.
  - simpl in Hwf. apply andb_true_iff in Hwf. destruct Hwf as [Hr Ha].
    rewrite !substitute_unary by assumption. f_equal. now apply IHa.
  - simpl in Hwf. apply andb_true_iff in Hwf. destruct Hwf as [Hwf Hb].
    apply andb_true_iff in Hwf. destruct Hwf as [Hr Ha].
    rewrite !substitute_binary by assumption. f_equal.
    + apply IHa; [assumption |]. intros v Hin. apply Hv.
      unfold variables. simpl. apply find_variables_In. now left.
    + apply IHb; [assumption |]. intros v Hin. apply Hv.
      unfold variables. simpl. apply find_variables_In. now right.
Qed.

(** Substituting a map whose values are images under [m] is substituting
    [m], on a formula whose variables are keys of the map. *)
Lemma substitute_image (f : Formula) (m m' : SpecializationMap) :
  wf f = true -> assert_variable_keys m = Ok tt -> image_of m m' ->
  (forall v, In v (variables f) -> In v (dict_keys m')) ->
  substitute_variables_rec f m' = substitute_variables_rec f m.
Proof.
  intros Hwf Hm [_ [Hm' Hval]] Hkeys.
  apply substitute_ext; try assumption.
  intros v Hv. apply Hkeys, dict_keys_get in Hv. destruct Hv as [x Hx].
  simpl. rewrite Hx. now apply Hval.
Qed.

Lemma prove_corollary_instance
      (assumed : list Formula) (A C : Formula) (p : Proof)
      (cond : InferenceRule) (g1 g2 : Formula) (m : SpecializationMap) :
  proves assumed A p ->
  In cond AXIOMATIC_SYSTEM ->
  cond = mkInferenceRule [] (implies g1 g2) ->
  wf g1 = true -> wf g2 = true ->
  issubset (variables g1) (variables g2) = true ->
  specialize cond m = Ok (mkInferenceRule [] (implies A C)) ->
  exists p', prove_corollary p C cond = Ok p' /\ proves assumed C p'.
Proof.
  intros Hp Hin Hcond Hg1 Hg2 Hsub Hspec.
  assert (Hrule : rule_wf cond = true)
    by (subst cond; unfold rule_wf; simpl; now rewrite Hg1, Hg2).
  destruct (specialization_map_complete cond m _ Hrule Hspec) as [His _].
  destruct (specialize_inv _ _ _ Hspec) as [Hm Heq].
  subst cond. cbn [assumptions conclusion map] in Heq.
  unfold implies in Heq at 2. rewrite substitute_binary in Heq by trivial.
  injection Heq as HA HC.
  destruct (fsm_complete m Hm g2 Hg2) as [m2 [Hfsm [Himage Hkeys]]].
  rewrite <- HC in Hfsm.
  eapply (prove_corollary_proves assumed A C p
            (mkInferenceRule [] (implies g1 g2)) "->" g1 g2 m2);
    try eassumption; try reflexivity.
  - unfold specialize. destruct Himage as [_ [-> _]]. reflexivity.
  - cbn [conclusion]. unfold implies at 1.
    rewrite substitute_binary by (trivial; now destruct Himage as [_ [? _]]).
    rewrite HA, HC. unfold implies. f_equal.
    + apply substitute_image; try assumption. intros v Hv.
      apply Hkeys. revert v Hv. now apply issubset_In.
    + apply substitute_image; try assumption. intros v Hv. now apply Hkeys.
Qed.

(** X12: when the implication of the consequent by the conclusion of a
    proof is an instance [conditional.specialize(m)] of an assumptionless
    rule of the axiomatic system, [prove_corollary] returns a valid proof of
    the consequent from the same assumptions. *)
Theorem prove_corollary_valid
        (assumed : list Formula) (A C : Formula) (p : Proof)
        (conditional : InferenceRule) (m : SpecializationMap) :
  proves assumed A p ->
  In conditional AXIOMATIC_SYSTEM ->
  specialize conditional m = Ok (mkInferenceRule [] (implies A C)) ->
  exists p',
    prove_corollary p C conditional = Ok p' /\
    is_valid p' = Ok true /\
    statement p' = mkInferenceRule assumed C.
Proof.
  intros Hp Hin Hspec.
  assert (H : exists p', prove_corollary p C conditional = Ok p' /\
                         proves assumed C p').
  { unfold AXIOMATIC_SYSTEM in Hin. cbn [In] in Hin.
    destruct Hin as [<- | [<- | [<- | [<- | [<- | [<- | [<- | [<- | [<- | []]]]]]]]]];
      [destruct (specialize_inv _ _ _ Hspec) as [_ Habs]; discriminate | ..];
      (eapply prove_corollary_instance;
       [exact Hp | unfold AXIOMATIC_SYSTEM; cbn [In]; tauto | reflexivity
       | reflexivity | reflexivity | reflexivity | exact Hspec]). }
  destruct H as [p' [Hrun Hproves]]. exists p'.
  split; [assumption | split].
  - exact (proves_valid _ _ _ Hproves).
  - exact (proj1 Hproves).
Qed.

Lemma prove_corollary_valid_witness :
  exists p',
    prove_corollary
      (mkProof (mkInferenceRule [Leaf "x"] (Leaf "x")) AXIOMATIC_SYSTEM
               [AssumptionLine (Leaf "x")])
      (Binary "->" (Leaf "y") (Leaf "x")) I1 = Ok p' /\
    is_valid p' = Ok true /\
    statement p'
    = mkInferenceRule [Leaf "x"] (Binary "->" (Leaf "y") (Leaf "x")).
Proof.
  apply (prove_corollary_valid
           [Leaf "x"] (Leaf "x") (Binary "->" (Leaf "y") (Leaf "x"))
           (mkProof (mkInferenceRule [Leaf "x"] (Leaf "x")) AXIOMATIC_SYSTEM
                    [AssumptionLine (Leaf "x")])
           I1 [("q", Leaf "x"); ("p", Leaf "y")]).
  - now apply single_assumption_proves.
  - unfold AXIOMATIC_SYSTEM. simpl. tauto.
  - reflexivity.
Defined.

Lemma combine_proofs_instance
      (assumed : list Formula) (A B C : Formula) (p1 p2 : Proof)
      (dc : InferenceRule) (g1 g2 g3 : Formula) (m : SpecializationMap) :
  proves assumed A p1 -> proves assumed B p2 ->
  In dc AXIOMATIC_SYSTEM ->
  dc = mkInferenceRule [] (implies g1 (implies g2 g3)) ->
  wf g1 = true -> wf g2 = true -> wf g3 = true ->
  issubset (variables g2) (variables g1 ++ variables g3) = true ->
  specialize dc m = Ok (mkInferenceRule [] (implies A (implies B C))) ->
  exists p', combine_proofs p1 p2 C dc = Ok p' /\ proves assumed C p'.
Proof.
  intros Hp1 Hp2 Hin Hdc Hg1 Hg2 Hg3 Hsub Hspec.
  assert (Hrule : rule_wf dc = true)
    by (subst dc; unfold rule_wf; simpl; now rewrite Hg1, Hg2, Hg3).
  destruct (specialization_map_complete dc m _ Hrule Hspec) as [His _].
  destruct (specialize_inv _ _ _ Hspec) as [Hm Heq].
  subst dc. cbn [assumptions conclusion map] in Heq.
  unfold implies in Heq at 3 4. rewrite !substitute_binary in Heq by trivial.
  injection Heq as HA HB HC.
  destruct (fsm_complete m Hm g1 Hg1) as [ma [Hfa [Hia Hka]]].
  destruct (fsm_complete m Hm g3 Hg3) as [mc [Hfc [Hic Hkc]]].
  destruct (merge_image m ma mc Hia Hic) as [mm [Hmerge [Him Hkm]]].
  rewrite <- HA in Hfa. rewrite <- HC in Hfc.
  assert (Hmm : assert_variable_keys mm = Ok tt) by now destruct Him as [_ [? _]].
  eapply (combine_proofs_proves assumed A B C p1 p2
            (mkInferenceRule [] (implies g1 (implies g2 g3)))
            "->" "->" g1 g2 g3 (Some ma) (Some mc) (Some mm));
    try eassumption; try reflexivity.
  - unfold specialize_opt, specialize. rewrite Hmm. reflexivity.
  - cbn [conclusion]. unfold implies at 1 2.
    rewrite !substitute_binary by trivial.
    rewrite HA, HB, HC. unfold implies. f_equal; [| f_equal].
    + apply substitute_image; try assumption. intros v Hv.
      apply Hkm. left. now apply Hka.
    + apply substitute_image; try assumption. intros v Hv.
      apply Hkm. rewrite Hka, Hkc. apply in_app_iff.
      revert v Hv. now apply issubset_In.
    + apply substitute_image; try assumption. intros v Hv.
      apply Hkm. right. now apply Hkc.
Qed.

(** X13: when the implication of the consequent by the conclusions of two
    proofs, from the same assumptions, is an instance
    [double_conditional.specialize(m)] of one of the rules [D], [I2], [N],
    [NI] and [R] of the axiomatic system, [combine_proofs] returns a valid
    proof of the consequent from these assumptions. *)
Theorem combine_proofs_valid
        (assumed : list Formula) (A B C : Formula) (p1 p2 : Proof)
        (double_conditional : InferenceRule) (m : SpecializationMap) :
  proves assumed A p1 -> proves assumed B p2 ->
  In double_conditional [D; I2; N; NI; R] ->
  specialize double_conditional m
  = Ok (mkInferenceRule [] (implies A (implies B C))) ->
  exists p',
    combine_proofs p1 p2 C double_conditional = Ok p' /\
    is_valid p' = Ok true /\
    statement p' = mkInferenceRule assumed C.
Proof.
  intros Hp1 Hp2 Hin Hspec.
  assert (H : exists p', combine_proofs p1 p2 C double_conditional = Ok p' /\
                         proves assumed C p').
  { cbn [In] in Hin.
    destruct Hin as [<- | [<- | [<- | [<- | [<- | []]]]]];
      (eapply combine_proofs_instance;
       [exact Hp1 | exact Hp2 | unfold AXIOMATIC_SYSTEM; cbn [In]; tauto
       | reflexivity | reflexivity | reflexivity | reflexivity | reflexivity
       | exact Hspec]). }
  destruct H as [p' [Hrun Hproves]]. exists p'.
  split; [assumption | split].
  - exact (proves_valid _ _ _ Hproves).
  - exact (proj1 Hproves).
Qed.

Lemma combine_proofs_valid_witness :
  exists p',
    combine_proofs
      (mkProof (mkInferenceRule [Leaf "x"; Unary "~" (Leaf "y")] (Leaf "x"))
               AXIOMATIC_SYSTEM [AssumptionLine (Leaf "x")])
      (mkProof (mkInferenceRule [Leaf "x"; Unary "~" (Leaf "y")]
                                (Unary "~" (Leaf "y")))
               AXIOMATIC_SYSTEM [AssumptionLine (Unary "~" (Leaf "y"))])
      (Unary "~" (Binary "->" (Leaf "x") (Leaf "y"))) NI = Ok p' /\
    is_valid p' = Ok true /\
    statement p'
    = mkInferenceRule [Leaf "x"; Unary "~" (Leaf "y")]
                      (Unary "~" (Binary "->" (Leaf "x") (Leaf "y"))).
Proof.
  apply (combine_proofs_valid
           [Leaf "x"; Unary "~" (Leaf "y")] (Leaf "x") (Unary "~" (Leaf "y"))
           (Unary "~" (Binary "->" (Leaf "x") (Leaf "y")))
           _ _ NI [("p", Leaf "x"); ("q", Leaf "y")]).
  - now apply single_assumption_proves.
  - now apply single_assumption_proves.
  - simpl. tauto.
  - reflexivity.
Defined.

(** X14: the deduction theorem.  From a proof of [c], by the axiomatic
    system, from assumptions that end with [phi] and otherwise differ from
    [phi], [remove_assumption] returns a valid proof of [(phi->c)] from the
    assumptions without [phi]. *)
Theorem remove_assumption_deduction
        (assumed : list Formula) (phi c : Formula) (p : Proof) :
  proves (assumed ++ [phi]) c p ->
  (forall a, In a assumed -> Formula_eq a phi = false) ->
  exists p',
    remove_assumption p = Ok p' /\
    is_valid p' = Ok true /\
    statement p' = mkInferenceRule assumed (Binary "->" phi c).
Proof.
  intros Hp Hother.
  destruct (remove_assumption_proves assumed phi c p Hp Hother)
    as [p' [Hrun Hproves]].
  exists p'. split; [assumption | split].
  - exact (proves_valid _ _ _ Hproves).
  - exact (proj1 Hproves).
Qed.

Lemma remove_assumption_deduction_witness :
  exists p',
    remove_assumption
      (mkProof (mkInferenceRule ([Leaf "x"] ++ [Leaf "y"]) (Leaf "x"))
               AXIOMATIC_SYSTEM [AssumptionLine (Leaf "x")]) = Ok p' /\
    is_valid p' = Ok true /\
    statement p'
    = mkInferenceRule [Leaf "x"] (Binary "->" (Leaf "y") (Leaf "x")).
Proof.
  apply (remove_assumption_deduction [Leaf "x"] (Leaf "y") (Leaf "x")).
  - now apply single_assumption_proves.
  - intros a [<- | []]. reflexivity.
Defined.

Lemma proof_from_inconsistency_proves
      (assumed : list Formula) (a c : Formula) (pa pn : Proof) :
  proves assumed a pa -> proves assumed (negation a) pn ->
  exists p', proof_from_inconsistency pa pn c = Ok p' /\ proves assumed c p'.
Proof.
  intros Hpa Hpn.
  destruct (combine_proofs_instance assumed (negation a) a c pn pa I2
              (negation (Leaf "p")) (Leaf "p") (Leaf "q")
              [("p", a); ("q", c)] Hpn Hpa)
    as [p' [Hrun Hproves]];
    try reflexivity; [unfold AXIOMATIC_SYSTEM; simpl; tauto |].
  exists p'. split; [| exact Hproves].
  pose proof (proves_valid _ _ _ Hpa) as Hva.
  pose proof (proves_valid _ _ _ Hpn) as Hvn.
  destruct Hpa as [Hsta [Haxa _]]. destruct Hpn as [Hstn [Haxn _]].
  unfold proof_from_inconsistency. rewrite Hva, Hvn. cbn [Py.bind assert].
  rewrite Hsta, Hstn. cbn [assumptions conclusion].
  rewrite Formulas_eq_refl, Formula_eq_refl, (axiomatic_rules_eq _ _ Haxa Haxn).
  cbn [Py.bind assert]. exact Hrun.
Qed.

(** X15: from proofs, by the axiomatic system and from the same
    assumptions, of a formula and of its negation,
    [proof_from_inconsistency] returns a valid proof of any given
    conclusion from these assumptions. *)
Theorem proof_from_inconsistency_valid
        (assumed : list Formula) (a c : Formula) (pa pn : Proof) :
  proves assumed a pa -> proves assumed (Unary "~" a) pn ->
  exists p',
    proof_from_inconsistency pa pn c = Ok p' /\
    is_valid p' = Ok true /\
    statement p' = mkInferenceRule assumed c.
Proof.
  intros Hpa Hpn.
  destruct (proof_from_inconsistency_proves assumed a c pa pn Hpa Hpn)
    as [p' [Hrun Hproves]].
  exists p'. split; [assumption | split].
  - exact (proves_valid _ _ _ Hproves).
  - exact (proj1 Hproves).
Qed.

Lemma proof_from_inconsistency_valid_witness :
  exists p',
    proof_from_inconsistency
      (mkProof (mkInferenceRule [Leaf "x"; Unary "~" (Leaf "x")] (Leaf "x"))
               AXIOMATIC_SYSTEM [AssumptionLine (Leaf "x")])
      (mkProof (mkInferenceRule [Leaf "x"; Unary "~" (Leaf "x")]
                                (Unary "~" (Leaf "x")))
               AXIOMATIC_SYSTEM [AssumptionLine (Unary "~" (Leaf "x"))])
      (Leaf "y") = Ok p' /\
    is_valid p' = Ok true /\
    statement p' = mkInferenceRule [Leaf "x"; Unary "~" (Leaf "x")] (Leaf "y").
Proof.
  apply (proof_from_inconsistency_valid
           [Leaf "x"; Unary "~" (Leaf "x")] (Leaf "x") (Leaf "y")).
  - now apply single_assumption_proves.
  - now apply single_assumption_proves.
Defined.

(** X16: from proofs of the same conclusion, by the axiomatic system, one
    from assumptions ending with [x] and one from the same assumptions
    ending with [~x] instead, [reduce_assumption] returns a valid proof of
    the conclusion from the common assumptions, when none of these equals
    [x] or [~x]. *)
Theorem reduce_assumption_valid
        (assumed : list Formula) (x c : Formula) (pa pn : Proof) :
  proves (assumed ++ [x]) c pa ->
  proves (assumed ++ [Unary "~" x]) c pn ->
  (forall a, In a assumed ->
             Formula_eq a x = false /\ Formula_eq a (Unary "~" x) = false) ->
  exists p',
    reduce_assumption pa pn = Ok p' /\
    is_valid p' = Ok true /\
    statement p' = mkInferenceRule assumed c.
Proof.
  intros Hpa Hpn Hother.
  destruct (reduce_assumption_proves assumed x c pa pn Hpa Hpn Hother)
    as [p' [Hrun Hproves]].
  exists p'. split; [assumption | split].
  - exact (proves_valid _ _ _ Hproves).
  - exact (proj1 Hproves).
Qed.

Lemma reduce_assumption_valid_witness :
  exists p',
    reduce_assumption
      (mkProof (mkInferenceRule ([Leaf "y"] ++ [Leaf "x"]) (Leaf "y"))
               AXIOMATIC_SYSTEM [AssumptionLine (Leaf "y")])
      (mkProof (mkInferenceRule ([Leaf "y"] ++ [Unary "~" (Leaf "x")]) (Leaf "y"))
               AXIOMATIC_SYSTEM [AssumptionLine (Leaf "y")]) = Ok p' /\
    is_valid p' = Ok true /\
    statement p' = mkInferenceRule [Leaf "y"] (Leaf "y").
Proof.
  apply (reduce_assumption_valid [Leaf "y"] (Leaf "x") (Leaf "y")).
  - now apply single_assumption_proves.
  - now apply single_assumption_proves.
  - intros a [<- | []]. split; reflexivity.
Defined.

(** ** Proofs from models *)

Lemma is_model_named (model : Model) :
  is_model model = Ok true ->
  forall v, In v (dict_keys model) -> is_variable v = Ok true.
Proof. apply is_model_keys_named. Qed.

Lemma formulae_capturing_model_eq (model : Model) :
  is_model model = Ok true ->
  formulae_capturing_model model
  = Ok (map (fun v => literal (v, match dict_get model v with
                                  | Some b => b
                                  | None => false
                                  end))
            (sorted (dict_keys model))).
Proof.
  intros Hm. unfold formulae_capturing_model. rewrite Hm. cbn [Py.bind assert].
  apply map_result_ext. intros v Hv. apply (proj1 (sorted_In _ _)) in Hv.
  apply dict_keys_get in Hv.
  destruct Hv as [b Hb]. unfold dict_getitem. rewrite Hb. cbn [Py.bind].
  now rewrite literal_capture.
Qed.

(** X17: [formulae_capturing_model] of a model returns one formula for
    each variable the model assigns, and [evaluate] returns [True] for each
    of them in the model. *)
Theorem formulae_capturing_model_hold (model : Model) :
  is_model model = Ok true ->
  exists fs,
    formulae_capturing_model model = Ok fs /\
    List.length fs = List.length model /\
    forall f, In f fs -> evaluate f model = Ok true.
Proof.
  intros Hm. eexists. split; [now apply formulae_capturing_model_eq |].
  split.
  - rewrite length_map, sorted_length. unfold dict_keys. apply length_map.
  - intros f Hf. apply in_map_iff in Hf. destruct Hf as [v [<- Hv]].
    apply (proj1 (sorted_In _ _)) in Hv.
    pose proof (is_model_named model Hm v Hv) as Hvar.
    destruct (proj1 (dict_keys_get model v) Hv) as [b Hb]. rewrite Hb.
    rewrite (evaluate_truth model Hm).
    + f_equal. rewrite (literal_truth v b b model Hvar Hb). now destruct b.
    + now apply literal_wf.
    + destruct b; simpl; now right.
Qed.

Lemma formulae_capturing_model_hold_witness :
  exists fs,
    formulae_capturing_model [("q", false); ("p", true)] = Ok fs /\
    List.length fs = List.length [("q", false); ("p", true)] /\
    forall f, In f fs -> evaluate f [("q", false); ("p", true)] = Ok true.
Proof.
  apply (formulae_capturing_model_hold [("q", false); ("p", true)]).
  reflexivity.
Defined.

Lemma operators_issubset_implicational (f : Formula) :
  wf f = true -> issubset (operators f) ["->"; "~"]%string = true ->
  implicational f = true.
Proof.
  intros Hwf Hops. apply (operators_implicational f Hwf []). intros x Hx.
  revert x Hx. now apply issubset_In.
Qed.

(** X18: for a formula over ['->'] and ['~'] and a model, with its
    variables in sorted order, that assigns the variables of the formula,
    [prove_in_model] returns a valid proof, from the formulae that capture
    the model, of the formula when [evaluate] gives [True] and of its
    negation otherwise. *)
Theorem prove_in_model_valid (f : Formula) (model : Model) :
  wf f = true -> issubset (operators f) ["->"; "~"]%string = true ->
  ordered_model model ->
  issubset (variables f) (dict_keys model) = true ->
  exists p e fs,
    prove_in_model f model = Ok p /\
    is_valid p = Ok true /\
    evaluate f model = Ok e /\
    formulae_capturing_model model = Ok fs /\
    statement p = mkInferenceRule fs (if e then f else Unary "~" f).
Proof.
  intros Hwf Hops Hm Hsub.
  pose proof (operators_issubset_implicational f Hwf Hops) as Himp.
  pose proof (proj1 (issubset_covered f _ Hwf) Hsub) as Hcov.
  destruct (prove_in_model_rec_proves model Hm (size f) f (le_n _) Himp Hcov)
    as [p [Hrun Hproves]].
  exists p, (truth f model), (map literal model).
  split; [exact Hrun | split; [| split; [| split]]].
  - exact (proves_valid _ _ _ Hproves).
  - apply evaluate_truth; try assumption. now apply is_model_ordered.
  - now apply formulae_capturing_model_literals.
  - exact (proj1 Hproves).
Qed.

Lemma prove_in_model_valid_witness :
  exists p e fs,
    prove_in_model (Binary "->" (Leaf "p") (Leaf "q"))
                   [("p", true); ("q", false)] = Ok p /\
    is_valid p = Ok true /\
    evaluate (Binary "->" (Leaf "p") (Leaf "q")) [("p", true); ("q", false)]
    = Ok e /\
    formulae_capturing_model [("p", true); ("q", false)] = Ok fs /\
    statement p
    = mkInferenceRule fs (if e then Binary "->" (Leaf "p") (Leaf "q")
                          else Unary "~" (Binary "->" (Leaf "p") (Leaf "q"))).
Proof.
  apply (prove_in_model_valid (Binary "->" (Leaf "p") (Leaf "q"))
                              [("p", true); ("q", false)]);
    try reflexivity.
  split; [| split; [| reflexivity]].
  - repeat constructor; simpl; intuition discriminate.
  - intros v [<- | [<- | []]]; reflexivity.
Defined.

(** X19: for a tautology over ['->'] and ['~'] and a model that assigns,
    in sorted order, the first of its sorted variables, [prove_tautology]
    returns a valid proof of the tautology from the formulae that capture
    the model. *)
Theorem prove_tautology_from_model
        (phi : Formula) (model : Model) (rest : list string) :
  wf phi = true -> issubset (operators phi) ["->"; "~"]%string = true ->
  is_tautology phi = Ok true ->
  ordered_model model ->
  sorted (variables phi) = dict_keys model ++ rest ->
  exists p fs,
    prove_tautology phi model = Ok p /\
    is_valid p = Ok true /\
    formulae_capturing_model model = Ok fs /\
    statement p = mkInferenceRule fs phi.
Proof.
  intros Hwf Hops Ht Hm HS.
  pose proof (operators_issubset_implicational phi Hwf Hops) as Himp.
  destruct (prove_tautology_rec_proves phi Himp Ht rest
              (List.length (variables phi)) model Hm HS)
    as [p [Hrun Hproves]].
  { rewrite <- (sorted_length (variables phi)), HS, length_app. lia. }
  exists p, (map literal model).
  split; [exact Hrun | split; [| split]].
  - exact (proves_valid _ _ _ Hproves).
  - now apply formulae_capturing_model_literals.
  - exact (proj1 Hproves).
Qed.

Lemma prove_tautology_from_model_witness :
  exists p fs,
    prove_tautology (Binary "->" (Leaf "q") (Binary "->" (Leaf "p") (Leaf "q")))
                    [("p", false)] = Ok p /\
    is_valid p = Ok true /\
    formulae_capturing_model [("p", false)] = Ok fs /\
    statement p
    = mkInferenceRule
        fs (Binary "->" (Leaf "q") (Binary "->" (Leaf "p") (Leaf "q"))).
Proof.
  apply (prove_tautology_from_model
           (Binary "->" (Leaf "q") (Binary "->" (Leaf "p") (Leaf "q")))
           [("p", false)] ["q"%string]);
    try reflexivity.
  split; [| split; [| reflexivity]].
  - repeat constructor; simpl; intuition discriminate.
  - intros v [<- | []]; reflexivity.
Defined.

(** ** Proofs of sound rules *)

Lemma combine_proofs_last
      (assumed : list Formula) (A B C : Formula)
      (p1 p2 p' : Proof) (dc : InferenceRule) (r0 r1 : string)
      (g1 g2 g3 : Formula) (m1 m2 m : option SpecializationMap)
      (sp : InferenceRule) :
  proves assumed A p1 ->
  proves assumed B p2 ->
  conclusion dc = Binary r0 g1 (Binary r1 g2 g3) ->
  is_specialization_of
    (mkInferenceRule [] (implies A (implies B C))) dc = Ok true ->
  formula_specialization_map g1 A = Ok m1 ->
  formula_specialization_map g3 C = Ok m2 ->
  merge_specialization_maps m1 m2 = Ok m ->
  specialize_opt dc m = Ok sp ->
  conclusion sp = implies A (implies B C) ->
  combine_proofs p1 p2 C dc = Ok p' ->
  exists prev idxs, lines p' = prev ++ [RuleLine C MP idxs].
Proof.
  intros Hp1 Hp2 Hconcl Hspec Hm1 Hm2 Hm Hsp Hspc H.
  pose proof (proves_valid _ _ _ Hp1) as Hvalid1.
  pose proof (proves_valid _ _ _ Hp2) as Hvalid2.
  destruct Hp1 as [Hst1 [Hax1 _]]. destruct Hp2 as [Hst2 [Hax2 _]].
  unfold combine_proofs in H. rewrite Hvalid1, Hvalid2 in H.
  cbn [Py.bind assert] in H.
  rewrite Hst1, Hst2 in H. cbn [conclusion assumptions] in H.
  rewrite Formulas_eq_refl, (axiomatic_rules_eq _ _ Hax1 Hax2), Hspec in H.
  cbn [Py.bind assert] in H.
  rewrite Hconcl in H. cbn [first second Py.bind] in H.
  rewrite Hm1 in H. cbn [Py.bind] in H. rewrite Hm2 in H. cbn [Py.bind] in H.
  rewrite Hm in H. cbn [Py.bind] in H. rewrite Hsp in H. cbn [Py.bind] in H.
  rewrite Hspc in H. unfold implies in H. cbn [second Py.bind] in H.
  injection H as <-. cbn [lines]. eexists. eexists. reflexivity.
Qed.

Lemma reduce_assumption_last
      (assumed : list Formula) (x c : Formula) (pa pn p' : Proof) :
  proves (assumed ++ [x]) c pa ->
  proves (assumed ++ [negation x]) c pn ->
  (forall a, In a assumed ->
             Formula_eq a x = false /\ Formula_eq a (negation x) = false) ->
  reduce_assumption pa pn = Ok p' ->
  exists prev idxs, lines p' = prev ++ [RuleLine c MP idxs].
Proof.
  intros Hpa Hpn Hother H.
  destruct (remove_assumption_proves assumed x c pa Hpa) as [ra [Hra Hpra]];
    [intros a Ha; now apply Hother |].
  destruct (remove_assumption_proves assumed (negation x) c pn Hpn)
    as [rn [Hrn Hprn]]; [intros a Ha; now apply Hother |].
  pose proof (proves_valid _ _ _ Hpa) as Hva.
  pose proof (proves_valid _ _ _ Hpn) as Hvn.
  destruct Hpa as [Hsta [Haxa _]]. destruct Hpn as [Hstn [Haxn _]].
  unfold reduce_assumption in H. rewrite Hva, Hvn in H.
  cbn [Py.bind assert] in H.
  rewrite Hsta, Hstn in H. cbn [assumptions conclusion] in H.
  rewrite Formula_eq_refl in H. cbn [Py.bind assert] in H.
  assert (Hpos : forall y, (0 <? len (assumed ++ [y]))%Z = true).
  { intros y. apply Z.ltb_lt. rewrite len_app_one. lia. }
  rewrite !Hpos in H. cbn [Py.bind assert] in H.
  unfold all_but_last in H. rewrite !removelast_last, Formulas_eq_refl in H.
  cbn [Py.bind assert] in H. rewrite !getitem_last in H. cbn [Py.bind] in H.
  rewrite Formula_eq_refl, (axiomatic_rules_eq _ _ Haxa Haxn) in H.
  cbn [Py.bind assert] in H. rewrite Hra, Hrn in H. cbn [Py.bind] in H.
  eapply (combine_proofs_last assumed (implies x c) (implies (negation x) c) c
            ra rn p' R);
    try exact Hpra; try exact Hprn; try exact H.
  - reflexivity.
  - unfold is_specialization_of, specialization_map. cbn -[Formula_eq].
    rewrite !Formula_eq_refl. cbn -[Formula_eq].
    rewrite ?Formula_eq_refl. reflexivity.
  - reflexivity.
  - reflexivity.
  - cbn -[Formula_eq]. rewrite Formula_eq_refl. reflexivity.
  - reflexivity.
  - reflexivity.
Qed.

Lemma implicational_variables (f : Formula) :
  implicational f = true -> variables f <> [].
Proof.
  intros H Hnil.
  assert (Hex : exists v, In v (variables f)).
  { clear Hnil. induction f as [r | r a IHa | r a IHa b IHb].
    - exists r. simpl in H. unfold variables. simpl.
      destruct (is_variable r) as [[|] |] eqn:Hv; try discriminate.
      rewrite (is_variable_not_constant r Hv). now left.
    - simpl in H. apply andb_true_iff in H. now apply IHa.
    - simpl in H. apply andb_true_iff in H. destruct H as [H _].
      apply andb_true_iff in H. destruct (IHa (proj2 H)) as [v Hv].
      exists v. unfold variables. simpl. apply find_variables_incl. exact Hv. }
  destruct Hex as [v Hv]. rewrite Hnil in Hv. destruct Hv.
Qed.

Lemma set_difference_empty (s : list string) : set_difference s [] = s.
Proof.
  unfold set_difference. induction s as [| y l IH]; [reflexivity |].
  cbn [filter]. change (str_mem y []) with false. cbn [negb]. now rewrite IH.
Qed.

(** The proof [prove_tautology] returns from no assumptions, and its last
    line. *)
Lemma prove_tautology_ends (phi : Formula) :
  implicational phi = true -> is_tautology phi = Ok true ->
  exists p prev idxs,
    prove_tautology phi [] = Ok p /\ proves [] phi p /\
    lines p = prev ++ [RuleLine phi MP idxs].
Proof.
  intros Himp Ht.
  pose proof (implicational_wf phi Himp) as Hwf.
  pose proof (implicational_operators phi Himp [] eq_refl) as Hops.
  destruct (prove_tautology_rec_proves phi Himp Ht (sorted (variables phi))
              (List.length (variables phi)) [])
    as [p [Hrun Hproves]];
    [split; [constructor | split; [intros v [] | reflexivity]]
    | reflexivity | now rewrite sorted_length |].
  exists p.
  assert (Hends : exists prev idxs, lines p = prev ++ [RuleLine phi MP idxs]).
  { unfold prove_tautology in Hrun.
    destruct (sorted (variables phi)) as [| var rest] eqn:HS.
    { exfalso. apply (implicational_variables phi Himp).
      apply length_zero_iff_nil. rewrite <- sorted_length, HS. reflexivity. }
    assert (Hlen : List.length (variables phi) = S (List.length rest))
      by (rewrite <- sorted_length, HS; reflexivity).
    assert (Hin : In var (variables phi))
      by (apply (proj1 (sorted_In _ _)); rewrite HS; now left).
    assert (Hvar : is_variable var = Ok true)
      by now apply (formula_variables_named phi).
    assert (Hnd : NoDup (var :: rest))
      by (rewrite <- HS; apply sorted_NoDup, formula_variables_NoDup).
    assert (Hnext : forall b, ordered_model [(var, b)]).
    { intros b. split; [| split; [| reflexivity]].
      - repeat constructor. intros [].
      - now intros v [<- | []]. }
    rewrite Hlen in Hrun. cbn [prove_tautology_rec] in Hrun.
    rewrite Ht in Hrun. cbn [Py.bind assert] in Hrun.
    unfold operators in Hrun. rewrite Hops in Hrun. cbn [Py.bind assert] in Hrun.
    change (is_model []) with (Ok true : result bool) in Hrun.
    cbn [Py.bind assert List.length prefix firstn sorted dict_keys map strings_eq]
      in Hrun.
    rewrite set_difference_empty in Hrun.
    rewrite Hlen, HS in Hrun.
    cbn [Nat.eqb first_unassigned str_mem existsb negb dict_set] in Hrun.
    destruct (prove_tautology_rec_proves phi Himp Ht rest (List.length rest)
                [(var, true)] (Hnext true)) as [pa [Hreca Hpa]];
      [rewrite HS; reflexivity | lia |].
    destruct (prove_tautology_rec_proves phi Himp Ht rest (List.length rest)
                [(var, false)] (Hnext false)) as [pn [Hrecn Hpn]];
      [rewrite HS; reflexivity | lia |].
    rewrite Hreca in Hrun. cbn [Py.bind] in Hrun.
    rewrite Hrecn in Hrun. cbn [Py.bind] in Hrun.
    apply (reduce_assumption_last [] (Leaf var) phi pa pn p Hpa Hpn);
      [intros a [] | exact Hrun]. }
  destruct Hends as [prev [idxs Hlines]].
  exists prev, idxs. split; [exact Hrun | split; [exact Hproves | exact Hlines]].
Qed.

Lemma forallb_models_same (f : Formula) (vars vars' : list string) :
  NoDup vars' -> covered f vars' ->
  (forall v, In v vars -> is_variable v = Ok true) ->
  (forall v, In v vars' -> In v vars) ->
  forallb (truth f) (models_over vars') = true ->
  forallb (truth f) (models_over vars) = true.
Proof.
  intros Hnd Hcov Hnamed Hincl H. rewrite forallb_forall in *.
  intros m Hm. destruct (models_over_model vars m Hnamed Hm) as [_ Hkeys].
  destruct (model_restriction vars' m Hnd) as [m' [Hin Heq]];
    [rewrite Hkeys; exact Hincl |].
  rewrite <- (Heq f Hcov). now apply H.
Qed.

Lemma first_counterexample_find (f : Formula) (models : list Model) :
  (forall m, In m models -> evaluate f m = Ok (truth f m)) ->
  first_counterexample f models
  = Ok (List.find (fun m => negb (truth f m)) models).
Proof.
  induction models as [| m ms IH]; intros H; [reflexivity |].
  cbn [first_counterexample List.find]. rewrite (H m (or_introl eq_refl)).
  cbn [Py.bind]. destruct (negb (truth f m)); [reflexivity |].
  apply IH. intros x Hx. apply H. now right.
Qed.

Lemma find_none_forallb {A : Type} (p : A -> bool) (l : list A) :
  List.find (fun x => negb (p x)) l = None -> forallb p l = true.
Proof.
  induction l as [| x l IH]; [reflexivity |]. simpl.
  destruct (p x); simpl; [exact IH | discriminate].
Qed.

Lemma sorted_variables_facts (f : Formula) :
  wf f = true ->
  NoDup (sorted (variables f)) /\
  (forall v, In v (sorted (variables f)) -> is_variable v = Ok true) /\
  covered f (sorted (variables f)).
Proof.
  intros Hwf. split; [| split].
  - apply sorted_NoDup, formula_variables_NoDup.
  - intros v Hv. apply (formula_variables_named f).
    now apply (proj1 (sorted_In _ _)).
  - apply (covered_incl f (variables f)); [| now apply find_variables_covered].
    intros v Hv. now apply (proj2 (sorted_In _ _)).
Qed.

Lemma proof_or_counterexample_cases (f : Formula) :
  implicational f = true ->
  (exists p prev idxs,
      proof_or_counterexample f = Ok (AProof p) /\
      is_tautology f = Ok true /\ proves [] f p /\
      lines p = prev ++ [RuleLine f MP idxs]) \/
  (exists m,
      proof_or_counterexample f = Ok (AModel m) /\
      is_tautology f = Ok false /\
      is_model m = Ok true /\ dict_keys m = sorted (variables f) /\
      truth f m = false).
Proof.
  intros Himp.
  pose proof (implicational_wf f Himp) as Hwf.
  pose proof (implicational_operators f Himp [] eq_refl) as Hops.
  destruct (sorted_variables_facts f Hwf) as [HndS [HnamedS HcovS]].
  assert (Hrun : proof_or_counterexample f
                 = match List.find (fun m => negb (truth f m))
                              (models_over (sorted (variables f))) with
                   | Some model => Ok (AModel model)
                   | None => p <- prove_tautology f [] ;; Ok (AProof p)
                   end).
  { unfold proof_or_counterexample, operators. rewrite Hops.
    cbn [Py.bind assert]. rewrite (all_models_eq _ HndS HnamedS).
    cbn [Py.bind]. fold (models_over (sorted (variables f))).
    rewrite first_counterexample_find; [reflexivity |].
    intros m Hm. destruct (models_over_model _ m HnamedS Hm) as [Hmodel Hkeys].
    apply evaluate_truth; try assumption. now rewrite Hkeys. }
  rewrite Hrun.
  destruct (List.find (fun m => negb (truth f m))
                 (models_over (sorted (variables f)))) as [m |] eqn:Hfind.
  - right. exists m. apply find_some in Hfind. destruct Hfind as [Hin Hfalse].
    destruct (models_over_model _ m HnamedS Hin) as [Hmodel Hkeys].
    apply negb_true_iff in Hfalse.
    split; [reflexivity | split; [| split; [exact Hmodel | split; [exact Hkeys | exact Hfalse]]]].
    rewrite is_tautology_truth by assumption. f_equal.
    apply not_true_is_false. intros Hall.
    assert (Habs : forallb (truth f) (models_over (sorted (variables f))) = true).
    { apply (forallb_models_same f _ (variables f));
        [apply formula_variables_NoDup | now apply find_variables_covered
        | assumption | | assumption].
      intros v Hv. now apply (proj2 (sorted_In _ _)). }
    rewrite forallb_forall in Habs. rewrite (Habs m Hin) in Hfalse.
    discriminate.
  - left. apply find_none_forallb in Hfind.
    assert (Ht : is_tautology f = Ok true).
    { rewrite is_tautology_truth by assumption. f_equal.
      apply (forallb_models_same f _ (sorted (variables f)));
        try assumption; [apply formula_variables_named |].
      intros v Hv. now apply (proj1 (sorted_In _ _)). }
    destruct (prove_tautology_ends f Himp Ht)
      as [p [prev [idxs [Hp [Hproves Hlines]]]]].
    exists p, prev, idxs. rewrite Hp.
    split; [reflexivity | split; [exact Ht | split; [exact Hproves | exact Hlines]]].
Qed.

(** X20: for a formula over ['->'] and ['~'], [proof_or_counterexample]
    returns a valid assumptionless proof of the formula when it is a
    tautology, and otherwise a model in which [evaluate] gives [False]. *)
Theorem proof_or_counterexample_correct (f : Formula) :
  wf f = true -> issubset (operators f) ["->"; "~"]%string = true ->
  exists r,
    proof_or_counterexample f = Ok r /\
    match r with
    | AProof p =>
        is_tautology f = Ok true /\ is_valid p = Ok true /\
        statement p = mkInferenceRule [] f
    | AModel model =>
        is_tautology f = Ok false /\ evaluate f model = Ok false
    end.
Proof.
  intros Hwf Hops.
  pose proof (operators_issubset_implicational f Hwf Hops) as Himp.
  destruct (proof_or_counterexample_cases f Himp)
    as [[p [prev [idxs [Hrun [Ht [Hproves _]]]]]]
       | [m [Hrun [Ht [Hm [Hkeys Hfalse]]]]]].
  - exists (AProof p). split; [assumption | split; [assumption | split]].
    + exact (proves_valid _ _ _ Hproves).
    + exact (proj1 Hproves).
  - exists (AModel m). split; [assumption | split; [assumption |]].
    rewrite <- Hfalse. apply evaluate_truth; try assumption.
    rewrite Hkeys. now apply sorted_variables_facts.
Qed.

Lemma proof_or_counterexample_correct_witness :
  exists r,
    proof_or_counterexample (Binary "->" (Leaf "p") (Leaf "q")) = Ok r /\
    match r with
    | AProof p =>
        is_tautology (Binary "->" (Leaf "p") (Leaf "q")) = Ok true /\
        is_valid p = Ok true /\
        statement p = mkInferenceRule [] (Binary "->" (Leaf "p") (Leaf "q"))
    | AModel model =>
        is_tautology (Binary "->" (Leaf "p") (Leaf "q")) = Ok false /\
        evaluate (Binary "->" (Leaf "p") (Leaf "q")) model = Ok false
    end.
Proof.
  apply (proof_or_counterexample_correct (Binary "->" (Leaf "p") (Leaf "q")));
    reflexivity.
Defined.

Lemma line_ok_weaken (assumed : list Formula) (lines_ : list Line) (n : nat)
      (l : Line) :
  line_ok [] lines_ n l -> line_ok assumed lines_ n l.
Proof.
  intros H.
  destruct H as [f Hin | f rule Hin Hspec
                 | f i j li lj u v Hi Hj Hni Hnj Hf Hfeq1 Hfeq2].
  - discriminate.
  - now apply ok_axiom.
  - now apply (ok_modus_ponens _ _ _ f i j li lj u v).
Qed.

Lemma derivation_weaken (assumed : list Formula) (lines_ : list Line) :
  derivation [] lines_ -> derivation assumed lines_.
Proof. intros H n l Hn. apply line_ok_weaken. now apply H. Qed.

Lemma implicational_encode (todo : list Formula) (c : Formula) :
  forallb implicational todo = true -> implicational c = true ->
  implicational (encode_assumptions todo c) = true.
Proof.
  induction todo as [| a rest IH]; intros Htodo Hc; [assumption |].
  rewrite encode_step. simpl in Htodo. apply andb_true_iff in Htodo.
  destruct Htodo as [Ha Hrest]. cbn [implies implicational].
  rewrite Ha, IH by assumption. reflexivity.
Qed.

Lemma for_each_assert {A : Type} (p : A -> bool) (l : list A) :
  forallb p l = true -> for_each (fun x _ => assert (p x)) l tt = Ok tt.
Proof.
  induction l as [| x l IH]; intros H; [reflexivity |].
  simpl in H. apply andb_true_iff in H. destruct H as [Hx Hl].
  cbn [for_each]. rewrite Hx. cbn [Py.bind assert]. now apply IH.
Qed.

(** The loop of [prove_sound_inference] detaches the assumptions one by
    one, by Modus Ponens. *)
Lemma sound_inference_loop (assumed : list Formula) (c : Formula)
      (proof_t : Proof) :
  forall (todo : list Formula) (k : nat) (prev : list Line) (idxs : list Z),
    (forall a, In a todo -> Formula_in a assumed = true) ->
    derivation assumed
               (prev ++ [RuleLine (encode_assumptions todo c) MP idxs]) ->
    S (List.length prev) = (List.length (lines proof_t) + 2 * k)%nat ->
    exists prev' idxs',
      for_each (sound_inference_step proof_t)
               (combine (map Z.of_nat (seq k (List.length todo))) todo)
               (encode_assumptions todo c,
                prev ++ [RuleLine (encode_assumptions todo c) MP idxs])
      = Ok (c, prev' ++ [RuleLine c MP idxs']) /\
      derivation assumed (prev' ++ [RuleLine c MP idxs']).
Proof.
  induction todo as [| a rest IH]; intros k prev idxs Hin Hder Hlen.
  - exists prev, idxs. split; [reflexivity | exact Hder].
  - set (last_ := RuleLine (encode_assumptions (a :: rest) c) MP idxs) in *.
    set (mp := RuleLine (encode_assumptions rest c) MP
                 [(len (lines proof_t) - 1 + 2 * Z.of_nat k + 1)%Z;
                  (len (lines proof_t) - 1 + 2 * Z.of_nat k)%Z]).
    assert (Hd1 : derivation assumed ((prev ++ [last_]) ++ [AssumptionLine a])).
    { apply derivation_snoc; [exact Hder |].
      apply ok_assumption, Hin. now left. }
    assert (Hd2 : derivation assumed
                    (((prev ++ [last_]) ++ [AssumptionLine a]) ++ [mp])).
    { apply derivation_snoc; [exact Hd1 |]. subst mp.
      rewrite !length_app. cbn [List.length]. unfold len.
      replace (Z.of_nat (List.length (lines proof_t)) - 1 + 2 * Z.of_nat k + 1)%Z
        with (Z.of_nat (S (List.length prev))) by lia.
      replace (Z.of_nat (List.length (lines proof_t)) - 1 + 2 * Z.of_nat k)%Z
        with (Z.of_nat (List.length prev)) by lia.
      apply (ok_modus_ponens _ _ _ (encode_assumptions rest c)
               (S (List.length prev)) (List.length prev)
               (AssumptionLine a) last_ a (encode_assumptions rest c));
        try lia.
      - rewrite <- !app_assoc. cbn [app]. now apply nth_error_at1.
      - rewrite <- !app_assoc. cbn [app]. now apply nth_error_at.
      - subst last_. cbn [formula]. now rewrite encode_step.
      - reflexivity.
      - reflexivity. }
    destruct (IH (S k) ((prev ++ [last_]) ++ [AssumptionLine a])
                 [(len (lines proof_t) - 1 + 2 * Z.of_nat k + 1)%Z;
                  (len (lines proof_t) - 1 + 2 * Z.of_nat k)%Z])
      as [prev' [idxs' [Hrun Hder']]].
    + intros x Hx. apply Hin. now right.
    + exact Hd2.
    + rewrite !length_app. cbn [List.length]. lia.
    + exists prev', idxs'. split; [| exact Hder'].
      cbn [List.length seq map combine for_each].
      unfold sound_inference_step at 1. rewrite encode_step at 1.
      cbn [implies second Py.bind]. exact Hrun.
Qed.

Lemma prove_sound_inference_proves (rule : InferenceRule) :
  forallb implicational (assumptions rule) = true ->
  implicational (conclusion rule) = true ->
  is_sound_inference rule = Ok true ->
  exists p,
    prove_sound_inference rule = Ok p /\
    proves (assumptions rule) (conclusion rule) p /\
    rules p = AXIOMATIC_SYSTEM.
Proof.
  intros Has Hc Hsound.
  assert (Hwf : rule_wf rule = true).
  { unfold rule_wf. rewrite (implicational_wf _ Hc), andb_true_r.
    rewrite forallb_forall in *. intros a Ha. now apply implicational_wf, Has. }
  pose proof (implicational_encode _ _ Has Hc) as Himp.
  fold (encode_as_formula rule) in Himp.
  rewrite (is_sound_inference_tautology rule Hwf) in Hsound.
  destruct (prove_tautology_ends _ Himp Hsound)
    as [pt [prev [idxs [Hpt [Hproves Hlines]]]]].
  destruct Hproves as [_ [_ [Hder _]]].
  destruct (sound_inference_loop (assumptions rule) (conclusion rule) pt
              (assumptions rule) 0 prev idxs)
    as [prev' [idxs' [Hrun Hder']]].
  - intros a Ha. unfold Formula_in. apply existsb_exists.
    exists a. split; [assumption | apply Formula_eq_refl].
  - fold (encode_as_formula rule). rewrite <- Hlines.
    now apply derivation_weaken.
  - rewrite Hlines, length_app. cbn [List.length]. lia.
  - exists (mkProof rule AXIOMATIC_SYSTEM (prev' ++ [RuleLine (conclusion rule) MP idxs'])).
    split; [| split; [| reflexivity]].
    + unfold prove_sound_inference.
      rewrite (is_sound_inference_tautology rule Hwf), Hsound.
      cbn [Py.bind assert].
      rewrite for_each_assert.
      2:{ rewrite forallb_app. cbn [forallb]. unfold operators.
          rewrite (implicational_operators _ Hc [] eq_refl), andb_true_r.
          rewrite forallb_forall in *. intros a Ha.
          now apply (implicational_operators a (Has a Ha) []). }
      cbn [Py.bind]. rewrite Hpt. cbn [Py.bind]. unfold range.
      rewrite Hlines. fold (encode_as_formula rule) in Hrun.
      rewrite Hrun. reflexivity.
    + split; [now destruct rule | split; [apply axiomatic_system_axiomatic |]].
      split; [exact Hder' |]. eexists. eexists. split; reflexivity.
Qed.

(** X21: for a sound rule whose formulas are over ['->'] and ['~'],
    [prove_sound_inference] returns a valid proof of the rule by the
    axiomatic system. *)
Theorem prove_sound_inference_valid (rule : InferenceRule) :
  rule_wf rule = true ->
  forallb (fun f => issubset (operators f) ["->"; "~"]%string)
          (assumptions rule ++ [conclusion rule]) = true ->
  is_sound_inference rule = Ok true ->
  exists p,
    prove_sound_inference rule = Ok p /\
    is_valid p = Ok true /\
    statement p = rule /\ rules p = AXIOMATIC_SYSTEM.
Proof.
  intros Hwf Hops Hsound.
  unfold rule_wf in Hwf. apply andb_true_iff in Hwf. destruct Hwf as [Hwas Hwc].
  rewrite forallb_app in Hops. apply andb_true_iff in Hops.
  destruct Hops as [Hoas Hoc]. cbn [forallb] in Hoc.
  rewrite andb_true_r in Hoc. rewrite forallb_forall in Hwas, Hoas.
  destruct (prove_sound_inference_proves rule) as [p [Hrun [Hproves Hrules]]].
  - apply forallb_forall. intros a Ha.
    apply operators_issubset_implicational; auto.
  - now apply operators_issubset_implicational.
  - assumption.
  - exists p. split; [assumption | split; [| split; [| assumption]]].
    + exact (proves_valid _ _ _ Hproves).
    + rewrite (proj1 Hproves). now destruct rule.
Qed.

Lemma prove_sound_inference_valid_witness :
  exists p,
    prove_sound_inference
      (mkInferenceRule [Leaf "p"; Binary "->" (Leaf "p") (Leaf "q")] (Leaf "q"))
    = Ok p /\
    is_valid p = Ok true /\
    statement p
    = mkInferenceRule [Leaf "p"; Binary "->" (Leaf "p") (Leaf "q")] (Leaf "q") /\
    rules p = AXIOMATIC_SYSTEM.
Proof.
  apply (prove_sound_inference_valid
           (mkInferenceRule [Leaf "p"; Binary "->" (Leaf "p") (Leaf "q")]
                            (Leaf "q")));
    reflexivity.
Defined.

(** X22: for formulae over ['->'] and ['~'], [model_or_inconsistency]
    returns either a valid proof of ['~(p->p)'] from the formulae, or a
    model in which [evaluate] gives [True] for each of them. *)
Theorem model_or_inconsistency_correct (formulae : list Formula) :
  forallb wf formulae = true ->
  forallb (fun f => issubset (operators f) ["->"; "~"]%string) formulae = true ->
  exists r,
    model_or_inconsistency formulae = Ok r /\
    match r with
    | AProof p =>
        is_valid p = Ok true /\
        statement p
        = mkInferenceRule formulae
                          (Unary "~" (Binary "->" (Leaf "p") (Leaf "p")))
    | AModel model => forall f, In f formulae -> evaluate f model = Ok true
    end.
Proof.
  intros Hwf Hops.
  set (goal := Unary "~" (Binary "->" (Leaf "p") (Leaf "p"))).
  set (rule := mkInferenceRule formulae goal).
  assert (Hparse : parse "~(p->p)" = Ok (Some goal)) by (vm_compute; reflexivity).
  assert (Has : forallb implicational formulae = true).
  { rewrite forallb_forall in *. intros a Ha.
    apply operators_issubset_implicational; auto. }
  assert (Hrwf : rule_wf rule = true)
    by (unfold rule_wf; cbn [rule assumptions conclusion]; now rewrite Hwf).
  pose proof (implicational_encode formulae goal Has eq_refl) as Himp.
  unfold model_or_inconsistency. rewrite (for_each_assert _ _ Hops).
  cbn [Py.bind]. rewrite Hparse. cbn [Py.bind]. fold rule.
  rewrite (is_sound_inference_tautology rule Hrwf).
  destruct (proof_or_counterexample_cases (encode_as_formula rule) Himp)
    as [[p0 [prev [idxs [Hrun [Ht _]]]]]
       | [m [Hrun [Ht [Hm [Hkeys Hfalse]]]]]].
  - rewrite Ht. cbn [Py.bind].
    destruct (prove_sound_inference_proves rule Has eq_refl)
      as [p [Hp [Hproves _]]];
      [now rewrite (is_sound_inference_tautology rule Hrwf) |].
    exists (AProof p). rewrite Hp. split; [reflexivity | split].
    + exact (proves_valid _ _ _ Hproves).
    + exact (proj1 Hproves).
  - rewrite Ht. cbn [Py.bind]. exists (AModel m). split; [exact Hrun |].
    intros f Hf. unfold encode_as_formula in Hfalse.
    rewrite encode_truth in Hfalse. cbn [rule assumptions conclusion] in Hfalse.
    apply orb_false_iff in Hfalse. destruct Hfalse as [Hall _].
    apply negb_false_iff in Hall. rewrite forallb_forall in Hall, Hwf.
    rewrite <- (Hall f Hf). apply evaluate_truth; auto.
    assert (Hcov : covered (encode_as_formula rule) (dict_keys m)).
    { rewrite Hkeys. apply sorted_variables_facts.
      now apply implicational_wf. }
    now apply (proj1 (encode_covered _ _ _ Hcov)).
Qed.

Lemma model_or_inconsistency_correct_witness :
  exists r,
    model_or_inconsistency [Leaf "x"; Unary "~" (Leaf "y")] = Ok r /\
    match r with
    | AProof p =>
        is_valid p = Ok true /\
        statement p
        = mkInferenceRule [Leaf "x"; Unary "~" (Leaf "y")]
                          (Unary "~" (Binary "->" (Leaf "p") (Leaf "p")))
    | AModel model =>
        forall f, In f [Leaf "x"; Unary "~" (Leaf "y")] ->
                  evaluate f model = Ok true
    end.
Proof.
  apply (model_or_inconsistency_correct [Leaf "x"; Unary "~" (Leaf "y")]);
    reflexivity.
Defined.

(** ** Equality and substitution *)

Lemma repr_injective (f g : Formula) :
  wf f = true -> wf g = true -> repr f = repr g -> f = g.
Proof.
  intros Hf Hg Heq. pose proof (parse_repr f Hf) as Hpf.
  rewrite Heq, (parse_repr g Hg) in Hpf. now injection Hpf.
Qed.

(** X23: two formulas the constructor accepts are equal for [__eq__],
    which compares their string representations, exactly when they are the
    same tree. *)
Theorem Formula_eq_structural (f g : Formula) :
  wf f = true -> wf g = true -> (Formula_eq f g = true <-> f = g).
Proof.
  intros Hf Hg. split.
  - intros H. apply Formula_eq_feq in H. now apply repr_injective.
  - intros ->. apply Formula_eq_refl.
Qed.

Lemma Formula_eq_structural_witness :
  Formula_eq (Binary "->" (Leaf "p") (Unary "~" (Leaf "q12")))
             (Binary "->" (Leaf "p") (Unary "~" (Leaf "q12"))) = true
  <-> Binary "->" (Leaf "p") (Unary "~" (Leaf "q12"))
      = Binary "->" (Leaf "p") (Unary "~" (Leaf "q12")).
Proof.
  apply (Formula_eq_structural
           (Binary "->" (Leaf "p") (Unary "~" (Leaf "q12")))
           (Binary "->" (Leaf "p") (Unary "~" (Leaf "q12")))); reflexivity.
Defined.

Lemma dict_get_updated (m : dict Formula) (model : Model) :
  forall (acc : Model) (k : string),
    NoDup (dict_keys m) ->
    dict_get (fold_left (fun d kv => dict_set d (fst kv) (truth (snd kv) model))
                        m acc) k
    = match dict_get m k with
      | Some g => Some (truth g model)
      | None => dict_get acc k
      end.
Proof.
  induction m as [| [k0 g0] m IH]; intros acc k Hnd; [reflexivity |].
  inversion Hnd as [| ? ? Hnotin Hnd']; subst.
  cbn [fold_left fst snd]. rewrite IH by assumption. simpl.
  rewrite dict_get_set.
  destruct (String.eqb_spec k0 k) as [<- | Hne]; [| reflexivity].
  now rewrite (dict_get_not_In m k0).
Qed.

Lemma dict_keys_updated (m : dict Formula) (model : Model) :
  forall (acc : Model) (k : string),
    In k (dict_keys (fold_left
                       (fun d kv => dict_set d (fst kv) (truth (snd kv) model))
                       m acc))
    <-> In k (dict_keys m) \/ In k (dict_keys acc).
Proof.
  induction m as [| [k0 g0] m IH]; intros acc k; [simpl; tauto |].
  cbn [fold_left fst snd]. rewrite IH, dict_keys_set. simpl.
  split; intros H; intuition (subst; auto).
Qed.

(** The truth value of a substituted formula is the truth value of the
    formula in the model that gives each key of the map the truth value of
    its formula. *)
Lemma truth_substitute (m : dict Formula) (model model' : Model) :
  assert_variable_keys m = Ok tt ->
  (forall k, dict_get model' k = match dict_get m k with
                                 | Some g => Some (truth g model)
                                 | None => dict_get model k
                                 end) ->
  forall f, wf f = true ->
            truth (substitute_variables_rec f m) model = truth f model'.
Proof.
  intros Hm Hget. induction f as [r | r a IHa | r a IHa b IHb]; intros Hwf.
  - destruct (wf_leaf_cases r Hwf) as [[Hv Hc] | [Hv Hc]].
    + cbn [substitute_variables_rec root truth]. rewrite Hc, Hget.
      destruct (dict_get m r) as [g |]; [reflexivity |].
      cbn [truth]. now rewrite Hc.
    + rewrite substitute_leaf_constant by assumption.
      cbn [truth]. now rewrite Hc.
  - simpl in Hwf. apply andb_true_iff in Hwf. destruct Hwf as [Hr Ha].
    rewrite substitute_unary by assumption. cbn [truth]. now rewrite IHa.
  - simpl in Hwf. apply andb_true_iff in Hwf. destruct Hwf as [Hwf Hb].
    apply andb_true_iff in Hwf. destruct Hwf as [Hr Ha].
    rewrite substitute_binary by assumption. cbn [truth].
    now rewrite IHa, IHb.
Qed.

Lemma substitute_wf (m : dict Formula) :
  assert_variable_keys m = Ok tt ->
  (forall k g, dict_get m k = Some g -> wf g = true) ->
  forall f, wf f = true -> wf (substitute_variables_rec f m) = true.
Proof.
  intros Hm Hvals. induction f as [r | r a IHa | r a IHa b IHb]; intros Hwf.
  - cbn [substitute_variables_rec root].
    destruct (dict_get m r) as [g |] eqn:Hg; [now apply (Hvals r) | assumption].
  - pose proof Hwf as Hwf'. simpl in Hwf. apply andb_true_iff in Hwf.
    destruct Hwf as [Hr Ha]. rewrite substitute_unary by assumption.
    simpl. now rewrite Hr, IHa.
  - pose proof Hwf as Hwf'. simpl in Hwf. apply andb_true_iff in Hwf.
    destruct Hwf as [Hwf Hb]. apply andb_true_iff in Hwf.
    destruct Hwf as [Hr Ha]. rewrite substitute_binary by assumption.
    simpl. now rewrite Hr, IHa, IHb.
Qed.

Lemma substitute_covered (m : dict Formula) (keys : list string) :
  assert_variable_keys m = Ok tt ->
  (forall k g, dict_get m k = Some g -> covered g keys) ->
  forall f, wf f = true ->
            (forall v, In v (variables f) -> dict_get m v = None -> In v keys) ->
            covered (substitute_variables_rec f m) keys.
Proof.
  intros Hm Hvals. induction f as [r | r a IHa | r a IHa b IHb]; intros Hwf Hv.
  - cbn [substitute_variables_rec root].
    destruct (dict_get m r) as [g |] eqn:Hg; [now apply (Hvals r) |].
    destruct (wf_leaf_cases r Hwf) as [[Hvar Hc] | [Hvar Hc]].
    + right. apply Hv; [| assumption]. unfold variables. simpl.
      rewrite Hc, Hvar. now left.
    + now left.
  - simpl in Hwf. apply andb_true_iff in Hwf. destruct Hwf as [Hr Ha].
    rewrite substitute_unary by assumption. cbn [covered]. now apply IHa.
  - simpl in Hwf. apply andb_true_iff in Hwf. destruct Hwf as [Hwf Hb].
    apply andb_true_iff in Hwf. destruct Hwf as [Hr Ha].
    rewrite substitute_binary by assumption. cbn [covered]. split.
    + apply IHa; [assumption |]. intros v Hin. apply Hv.
      unfold variables. simpl. apply find_variables_In. now left.
    + apply IHb; [assumption |]. intros v Hin. apply Hv.
      unfold variables. simpl. apply find_variables_In. now right.
Qed.

(** X24: the substitution lemma.  In a model that assigns the variables of
    the formulas of the map and the other variables of the formula,
    [evaluate] gives the substituted formula the value it gives the
    formula in the model updated with, for each key of the map, the value
    of its formula. *)
Theorem substitute_variables_evaluate
        (f : Formula) (m : dict Formula) (model : Model) :
  wf f = true ->
  NoDup (dict_keys m) ->
  (forall k g, In (k, g) m ->
               wf g = true /\ issubset (variables g) (dict_keys model) = true) ->
  (forall v, In v (variables f) ->
             In v (dict_keys m) \/ In v (dict_keys model)) ->
  is_model model = Ok true ->
  assert_variable_keys m = Ok tt ->
  exists f' b,
    substitute_variables f m = Ok f' /\
    evaluate f' model = Ok b /\
    evaluate f (fold_left
                  (fun d kv => dict_set d (fst kv) (truth (snd kv) model))
                  m model) = Ok b.
Proof.
  intros Hwf Hnd Hvals Hvars Hmodel Hm.
  set (model' := fold_left
                   (fun d kv => dict_set d (fst kv) (truth (snd kv) model))
                   m model).
  assert (Hget : forall k, dict_get model' k
                           = match dict_get m k with
                             | Some g => Some (truth g model)
                             | None => dict_get model k
                             end)
    by (intros k; now apply dict_get_updated).
  assert (Hval : forall k g, dict_get m k = Some g ->
                             wf g = true /\ covered g (dict_keys model)).
  { intros k g Hg. apply dict_get_In in Hg.
    destruct (Hvals k g Hg) as [Hwg Hsub].
    split; [assumption | now apply issubset_covered]. }
  exists (substitute_variables_rec f m), (truth f model'). split; [| split].
  - unfold substitute_variables. now rewrite Hm.
  - rewrite <- (truth_substitute m model model' Hm Hget f Hwf).
    apply evaluate_truth; [assumption | |].
    + apply substitute_wf; try assumption. intros k g Hg. now apply (Hval k g).
    + apply substitute_covered; try assumption.
      * intros k g Hg. now apply (Hval k g).
      * intros v Hv Hnone. destruct (Hvars v Hv) as [Hin | Hin]; [| assumption].
        apply dict_keys_get in Hin. destruct Hin as [g Hg]. congruence.
  - apply evaluate_truth; [| assumption |].
    + unfold is_model. apply is_model_keys_true. intros v Hv.
      apply dict_keys_updated in Hv. destruct Hv as [Hv | Hv].
      * now apply (proj1 (assert_variable_keys_iff m) Hm).
      * now apply (is_model_named model).
    + apply (covered_incl f (variables f));
        [| now apply find_variables_covered].
      intros v Hv. apply dict_keys_updated. now apply Hvars.
Qed.

Lemma substitute_variables_evaluate_witness :
  exists f' b,
    substitute_variables (Binary "|" (Binary "->" (Leaf "p") (Leaf "p")) (Leaf "z"))
                         [("p", Binary "&" (Leaf "q") (Leaf "r"))] = Ok f' /\
    evaluate f' [("q", true); ("r", false); ("z", false)] = Ok b /\
    evaluate (Binary "|" (Binary "->" (Leaf "p") (Leaf "p")) (Leaf "z"))
             (fold_left
                (fun d kv =>
                   dict_set d (fst kv)
                            (truth (snd kv)
                                   [("q", true); ("r", false); ("z", false)]))
                [("p", Binary "&" (Leaf "q") (Leaf "r"))]
                [("q", true); ("r", false); ("z", false)]) = Ok b.
Proof.
  apply (substitute_variables_evaluate
           (Binary "|" (Binary "->" (Leaf "p") (Leaf "p")) (Leaf "z"))
           [("p", Binary "&" (Leaf "q") (Leaf "r"))]
           [("q", true); ("r", false); ("z", false)]);
    try reflexivity.
  - repeat constructor. intros [].
  - intros k g [[= <- <-] | []]. split; reflexivity.
  - intros v Hv. vm_compute in Hv.
    destruct Hv as [<- | [<- | []]]; simpl; tauto.
Defined.


(** ** Substitution of operators *)

Lemma variable_not_operator (r : string) :
  is_variable r = Ok true ->
  is_constant r = false /\ is_unary r = false /\ is_binary r = false.
Proof.
  intros Hv. split; [now apply is_variable_not_constant | split].
  - destruct (is_unary r) eqn:E; [| reflexivity].
    destruct (unary_root_facts r E) as [_ [H _]]. congruence.
  - destruct (is_binary r) eqn:E; [| reflexivity].
    destruct (binary_root_facts r E) as [H _]. congruence.
Qed.

Lemma constant_not_operator (r : string) :
  is_constant r = true -> is_unary r = false /\ is_binary r = false.
Proof.
  unfold is_constant. intros H. apply orb_true_iff in H.
  destruct H as [H | H]; apply String.eqb_eq in H; subst; now split.
Qed.

Lemma substitute_operators_step (f : Formula) (m : dict Formula) :
  assert_operator_keys m = Ok tt ->
  substitute_operators f m
  = if is_constant (root f) && dict_mem m (root f) then dict_getitem m (root f)
    else if is_unary (root f) then
      match f with
      | Unary r a =>
          if dict_mem m r then
            g <- dict_getitem m r ;;
            p <- substitute_operators a m ;;
            substitute_variables g [("p"%string, p)]
          else
            p <- substitute_operators a m ;; Ok (Unary r p)
      | _ => Raise AttributeError
      end
    else if is_binary (root f) then
      match f with
      | Binary r a b =>
          if dict_mem m r then
            g <- dict_getitem m r ;;
            p <- substitute_operators a m ;;
            q <- substitute_operators b m ;;
            substitute_variables g [("p"%string, p); ("q"%string, q)]
          else
            p <- substitute_operators a m ;;
            q <- substitute_operators b m ;;
            Ok (Binary r p q)
      | _ => Raise AttributeError
      end
    else Ok f.
Proof.
  intros Hm. destruct f; cbn [substitute_operators]; rewrite Hm; reflexivity.
Qed.

Lemma substitute_operators_truth (m : dict Formula) :
  assert_operator_keys m = Ok tt ->
  (forall op g, dict_get m op = Some g -> wf g = true /\ same_table op g) ->
  forall f,
    wf f = true ->
    exists f',
      substitute_operators f m = Ok f' /\ wf f' = true /\
      forall model, truth f' model = truth f model.
Proof.
  intros Hm Hvals.
  induction f as [r | r a IHa | r a IHa b IHb]; intros Hwf;
    rewrite substitute_operators_step by assumption; cbn [root].
  - destruct (wf_leaf_cases r Hwf) as [[Hv Hc] | [Hv Hc]].
    + destruct (variable_not_operator r Hv) as [_ [Hu Hb]].
      rewrite Hc, Hu, Hb. cbn [andb]. exists (Leaf r). now repeat split.
    + destruct (constant_not_operator r Hc) as [Hu Hb]. rewrite Hc. cbn [andb].
      unfold dict_mem, dict_getitem.
      destruct (dict_get m r) as [g |] eqn:Hg.
      * destruct (Hvals r g Hg) as [Hwg Htable]. unfold same_table in Htable.
        rewrite Hc in Htable. exists g. split; [reflexivity | split].
        -- assumption.
        -- intros model. rewrite Htable. cbn [truth]. now rewrite Hc.
      * rewrite Hu, Hb. exists (Leaf r). now repeat split.
  - simpl in Hwf. apply andb_true_iff in Hwf. destruct Hwf as [Hr Ha].
    destruct (unary_root_facts r Hr) as [_ [_ Hc]]. rewrite Hc, Hr. cbn [andb].
    destruct (IHa Ha) as [a' [Hrun [Hwa Hta]]]. rewrite Hrun.
    unfold dict_mem, dict_getitem. destruct (dict_get m r) as [g |] eqn:Hg.
    + destruct (Hvals r g Hg) as [Hwg Htable]. unfold same_table in Htable.
      rewrite Hc, Hr in Htable. cbn [Py.bind].
      exists (substitute_variables_rec g [("p"%string, a')]).
      split; [reflexivity | split].
      * apply substitute_wf; try reflexivity; [| assumption].
        intros k x Hk. cbn [dict_get] in Hk.
        destruct (String.eqb "p" k); [| discriminate].
        now injection Hk as <-.
      * intros model.
        rewrite (truth_substitute [("p"%string, a')] model
                   (("p"%string, truth a' model) :: model));
          try reflexivity; try assumption.
        -- rewrite Htable, Hta. reflexivity.
        -- intros k. cbn [dict_get]. destruct (String.eqb "p" k); reflexivity.
    + cbn [Py.bind]. exists (Unary r a'). split; [reflexivity | split].
      * simpl. now rewrite Hr, Hwa.
      * intros model. cbn [truth]. now rewrite Hta.
  - simpl in Hwf. apply andb_true_iff in Hwf. destruct Hwf as [Hwf Hb].
    apply andb_true_iff in Hwf. destruct Hwf as [Hr Ha].
    destruct (binary_root_facts r Hr) as [_ [Hc Hu]]. rewrite Hc, Hu, Hr.
    cbn [andb].
    destruct (IHa Ha) as [a' [Hruna [Hwa Hta]]].
    destruct (IHb Hb) as [b' [Hrunb [Hwb Htb]]]. rewrite Hruna, Hrunb.
    unfold dict_mem, dict_getitem. destruct (dict_get m r) as [g |] eqn:Hg.
    + destruct (Hvals r g Hg) as [Hwg Htable]. unfold same_table in Htable.
      rewrite Hc, Hu in Htable. cbn [Py.bind].
      exists (substitute_variables_rec g [("p"%string, a'); ("q"%string, b')]).
      split; [reflexivity | split].
      * apply substitute_wf; try reflexivity; [| assumption].
        intros k x Hk. cbn [dict_get] in Hk.
        destruct (String.eqb "p" k); [now injection Hk as <- |].
        destruct (String.eqb "q" k); [now injection Hk as <- | discriminate].
      * intros model.
        rewrite (truth_substitute [("p"%string, a'); ("q"%string, b')] model
                   (("p"%string, truth a' model)
                      :: ("q"%string, truth b' model) :: model));
          try reflexivity; try assumption.
        -- rewrite Htable, Hta, Htb. reflexivity.
        -- intros k. cbn [dict_get]. destruct (String.eqb "p" k); [reflexivity |].
           destruct (String.eqb "q" k); reflexivity.
    + cbn [Py.bind]. exists (Binary r a' b'). split; [reflexivity | split].
      * simpl. now rewrite Hr, Hwa, Hwb.
      * intros model. cbn [truth]. now rewrite Hta, Htb.
Qed.

(** X25: when the formula the map gives for each constant or operator has
    its truth table, ['p'] and ['q'] standing for the operands,
    [substitute_operators] returns a formula to which [evaluate] gives, in
    every model that assigns the variables of both, the value of the given
    formula. *)
Theorem substitute_operators_preserves (f : Formula) (m : dict Formula) :
  wf f = true ->
  assert_operator_keys m = Ok tt ->
  (forall op g, dict_get m op = Some g -> wf g = true /\ same_table op g) ->
  exists f',
    substitute_operators f m = Ok f' /\
    forall model,
      is_model model = Ok true ->
      issubset (variables f) (dict_keys model) = true ->
      issubset (variables f') (dict_keys model) = true ->
      evaluate f' model = evaluate f model.
Proof.
  intros Hwf Hm Hvals.
  destruct (substitute_operators_truth m Hm Hvals f Hwf) as [f' [Hrun [Hwf' Ht]]].
  exists f'. split; [assumption |]. intros model Hmodel Hsub Hsub'.
  rewrite !evaluate_covered by assumption. now rewrite Ht.
Qed.

Lemma substitute_operators_preserves_witness :
  exists f',
    substitute_operators
      (Binary "&" (Binary "&" (Leaf "x") (Leaf "y")) (Unary "~" (Leaf "z")))
      [("&", Unary "~" (Binary "|" (Unary "~" (Leaf "p")) (Unary "~" (Leaf "q"))))]
    = Ok f' /\
    forall model,
      is_model model = Ok true ->
      issubset
        (variables
           (Binary "&" (Binary "&" (Leaf "x") (Leaf "y")) (Unary "~" (Leaf "z"))))
        (dict_keys model) = true ->
      issubset (variables f') (dict_keys model) = true ->
      evaluate f' model
      = evaluate
          (Binary "&" (Binary "&" (Leaf "x") (Leaf "y")) (Unary "~" (Leaf "z")))
          model.
Proof.
  apply (substitute_operators_preserves
           (Binary "&" (Binary "&" (Leaf "x") (Leaf "y")) (Unary "~" (Leaf "z")))
           [("&", Unary "~" (Binary "|" (Unary "~" (Leaf "p"))
                                    (Unary "~" (Leaf "q"))))]);
    try reflexivity.
  intros op g Hg. cbn [dict_get] in Hg.
  destruct (String.eqb_spec "&" op) as [<- | _]; [| discriminate].
  injection Hg as <-. split; [reflexivity |].
  intros model x y. destruct x, y; reflexivity.
Defined.


(** ** Proofs by contradiction *)

Lemma is_line_valid_rules (st : InferenceRule) (rs rs' : list InferenceRule)
      (ls : list Line) (i : nat) (l : Line) :
  nth_error ls i = Some l -> cites rs' l = true ->
  is_line_valid (mkProof st rs ls) (Z.of_nat i) = Ok true ->
  is_line_valid (mkProof st rs' ls) (Z.of_nat i) = Ok true.
Proof.
  intros Hl Hc H.
  rewrite (is_line_valid_at (mkProof st rs ls) i l Hl) in H.
  rewrite (is_line_valid_at (mkProof st rs' ls) i l Hl).
  destruct l as [f | f rule idxs]; [exact H |].
  cbn [rules lines statement] in *. cbn [cites] in Hc. rewrite Hc. cbn [negb].
  destruct (negb (InferenceRule_in rule rs)); [discriminate | exact H].
Qed.

Lemma is_valid_rules (st : InferenceRule) (rs rs' : list InferenceRule)
      (ls : list Line) :
  forallb (cites rs') ls = true ->
  is_valid (mkProof st rs ls) = Ok true ->
  is_valid (mkProof st rs' ls) = Ok true.
Proof.
  intros Hc H. apply is_valid_true in H. apply is_valid_true.
  cbn [lines statement] in *. destruct H as [Hlines Hlast].
  split; [| exact Hlast]. intros i Hi.
  destruct (nth_error ls i) as [l |] eqn:Hl;
    [| apply nth_error_None in Hl; lia].
  apply (is_line_valid_rules st rs rs' ls i l Hl); [| now apply Hlines].
  rewrite forallb_forall in Hc. apply Hc. now apply (nth_error_In ls i).
Qed.

Lemma forallb_snoc {A : Type} (p : A -> bool) (l : list A) (x : A) :
  forallb p (l ++ [x]) = forallb p l && p x.
Proof. rewrite forallb_app. simpl. now rewrite andb_true_r. Qed.

Ltac bind_inv H :=
  repeat match type of H with
         | Py.bind ?c _ = Ok _ =>
             let E := fresh "E" in
             destruct c eqn:E; cbn [Py.bind] in H; [| discriminate H]
         end.

Lemma remove_assumption_step_cites
      (allowed : list InferenceRule) (proof : Proof) (wa : Formula)
      (index : Z) (line : Line) (state state' : list Line * list Z) :
  InferenceRule_in I0 allowed = true -> InferenceRule_in I1 allowed = true ->
  InferenceRule_in D allowed = true -> InferenceRule_in MP allowed = true ->
  forallb (cites allowed) (fst state) = true -> cites allowed line = true ->
  remove_assumption_step proof wa index line state = Ok state' ->
  forallb (cites allowed) (fst state') = true.
Proof.
  intros H0 H1 HD HMP Hst Hline H. destruct state as [my_lines mp].
  cbn [fst] in Hst. unfold remove_assumption_step in H.
  destruct (Formula_eq (formula line) wa).
  - injection H as <-. cbn [fst].
    destruct (negb (index =? 0)%Z); [| assumption].
    rewrite forallb_snoc, Hst. cbn [cites andb]. exact H0.
  - assert (Hdirect :
              forall s,
                Ok (((my_lines ++ [line]) ++
                     [RuleLine (implies (formula line) (implies wa (formula line)))
                               I1 []]) ++
                    [RuleLine (implies wa (formula line)) MP
                       [(len ((my_lines ++ [line]) ++
                              [RuleLine (implies (formula line)
                                                 (implies wa (formula line)))
                                        I1 []]) - 2)%Z;
                        (len ((my_lines ++ [line]) ++
                              [RuleLine (implies (formula line)
                                                 (implies wa (formula line)))
                                        I1 []]) - 1)%Z]],
                    (mp ++ [len ((my_lines ++ [line]) ++
                                 [RuleLine (implies (formula line)
                                                    (implies wa (formula line)))
                                           I1 []])])) = Ok s ->
                forallb (cites allowed) (fst s) = true).
    { intros s Hs. injection Hs as <-. cbn [fst].
      rewrite !forallb_snoc, Hst, Hline. cbn [cites andb]. now rewrite H1, HMP. }
    destruct line as [f | f rule idxs]; [now apply Hdirect |].
    destruct idxs as [| i0 idxs]; [now apply Hdirect |].
    bind_inv H. injection H as <-. cbn [fst].
    rewrite !forallb_snoc, Hst. cbn [cites andb]. now rewrite HD, HMP.
Qed.

Lemma remove_assumption_loop_cites
      (allowed : list InferenceRule) (proof : Proof) (wa : Formula) :
  InferenceRule_in I0 allowed = true -> InferenceRule_in I1 allowed = true ->
  InferenceRule_in D allowed = true -> InferenceRule_in MP allowed = true ->
  forall (indexed : list (Z * Line)) (state state' : list Line * list Z),
    (forall i l, In (i, l) indexed -> cites allowed l = true) ->
    forallb (cites allowed) (fst state) = true ->
    remove_assumption_loop proof wa indexed state = Ok state' ->
    forallb (cites allowed) (fst state') = true.
Proof.
  intros H0 H1 HD HMP.
  induction indexed as [| [i l] rest IH]; intros state state' Hall Hst H.
  - injection H as <-. exact Hst.
  - cbn [remove_assumption_loop] in H. bind_inv H.
    apply (IH _ _ (fun j x Hx => Hall j x (or_intror Hx))) in H; [exact H |].
    apply (remove_assumption_step_cites allowed proof wa i l state);
      try assumption.
    apply (Hall i l). now left.
Qed.

Lemma remove_assumption_cites (allowed : list InferenceRule) (p p' : Proof) :
  InferenceRule_in I0 allowed = true -> InferenceRule_in I1 allowed = true ->
  InferenceRule_in D allowed = true -> InferenceRule_in MP allowed = true ->
  forallb (cites allowed) (lines p) = true ->
  remove_assumption p = Ok p' ->
  forallb (cites allowed) (lines p') = true.
Proof.
  intros H0 H1 HD HMP Hlines H. unfold remove_assumption in H.
  bind_inv H. injection H as <-. cbn [lines].
  match goal with
  | E : remove_assumption_loop _ _ _ _ = Ok _ |- _ =>
      apply (remove_assumption_loop_cites allowed _ _ H0 H1 HD HMP _ _ _) in E
  end.
  - assumption.
  - intros i l Hin. apply in_combine_r in Hin.
    rewrite forallb_forall in Hlines. now apply Hlines.
  - cbn [fst forallb cites]. now rewrite H0.
Qed.

Lemma all_but_last_by_index (l : list Formula) (x : Formula) :
  map snd
      (filter (fun ia : Z * Formula => negb (fst ia =? len (l ++ [x]) - 1)%Z)
              (combine (range (List.length (l ++ [x]))) (l ++ [x])))
  = l.
Proof.
  unfold range. rewrite len_app_one.
  replace (Z.of_nat (S (List.length l)) - 1)%Z
    with (Z.of_nat (0 + List.length l)) by lia.
  generalize 0%nat as k. induction l as [| a l IH]; intros k.
  - cbn. replace (Z.of_nat k =? Z.of_nat (k + 0))%Z with true
      by (symmetry; apply Z.eqb_eq; lia). reflexivity.
  - cbn [List.length app seq map combine filter fst].
    replace (Z.of_nat k =? Z.of_nat (k + S (List.length l)))%Z with false
      by (symmetry; apply Z.eqb_neq; lia).
    cbn [negb map snd]. f_equal.
    replace (k + S (List.length l))%nat with (S k + List.length l)%nat by lia.
    apply IH.
Qed.

(** X26: from a proof of ['~(p->p)'], by the axiomatic system, whose
    assumptions end with [~f] and otherwise differ from [~f], and whose
    lines cite only [MP], [I0], [I1], [D], [N] and [NI] (the rules the
    returned proof declares), [prove_by_contradiction] returns a valid proof
    of [f] from the assumptions without [~f]. *)
Theorem prove_by_contradiction_valid
        (assumed : list Formula) (f : Formula) (p : Proof) :
  proves (assumed ++ [Unary "~" f])
         (Unary "~" (Binary "->" (Leaf "p") (Leaf "p"))) p ->
  (forall a, In a assumed -> Formula_eq a (Unary "~" f) = false) ->
  forallb (cites [MP; I0; I1; D; N; NI]) (lines p) = true ->
  exists p',
    prove_by_contradiction p = Ok p' /\
    is_valid p' = Ok true /\
    statement p' = mkInferenceRule assumed f /\
    rules p' = [MP; I0; I1; D; N; NI].
Proof.
  intros Hp Hother Hcites.
  set (i0 := Binary "->" (Leaf "p") (Leaf "p")) in *.
  set (goal := Unary "~" i0) in *.
  assert (Hparse : parse "~(p->p)" = Ok (Some goal)) by (vm_compute; reflexivity).
  destruct (remove_assumption_proves assumed (Unary "~" f) goal p Hp Hother)
    as [wp [Hwp Hproves]].
  pose proof (remove_assumption_cites [MP; I0; I1; D; N; NI] p wp
                eq_refl eq_refl eq_refl eq_refl Hcites Hwp) as Hcwp.
  pose proof (proves_valid _ _ _ Hp) as Hvalid.
  destruct Hp as [Hst [Hax _]].
  destruct Hproves as [Hstw [_ [Hderw [prev [last [Hlw Hlastw]]]]]].
  set (first_part := implies i0 f).
  set (scd_part := implies (implies (Unary "~" f) goal) first_part).
  set (n := List.length prev).
  set (l1 := RuleLine scd_part N []).
  set (l2 := RuleLine first_part MP [Z.of_nat n; Z.of_nat (S n)]).
  set (l3 := RuleLine i0 I0 []).
  set (l4 := RuleLine f MP [Z.of_nat (S (S (S n))); Z.of_nat (S (S n))]).
  set (final := (((lines wp ++ [l1]) ++ [l2]) ++ [l3]) ++ [l4]).
  assert (Hrun : prove_by_contradiction p
                 = Ok (mkProof (mkInferenceRule assumed f)
                               [MP; I0; I1; D; N; NI] final)).
  { unfold prove_by_contradiction. rewrite Hvalid. cbn [Py.bind assert].
    rewrite Hparse. cbn [Py.bind]. rewrite Hst. cbn [assumptions conclusion].
    rewrite Formula_eq_refl. cbn [Py.bind assert].
    replace (0 <? len (assumed ++ [Unary "~" f]))%Z with true
      by (symmetry; apply Z.ltb_lt; rewrite len_app_one; lia).
    cbn [Py.bind assert]. rewrite getitem_last. cbn [Py.bind root].
    cbn [String.eqb Ascii.eqb Bool.eqb Py.bind assert].
    rewrite (axiomatic_rules_shape _ Hax). cbn [Py.bind assert].
    rewrite Hwp. cbn [Py.bind]. rewrite Hstw.
    subst final l1 l2 l3 l4 scd_part first_part goal.
    cbn [conclusion implies second first Py.bind].
    rewrite all_but_last_by_index.
    rewrite !len_app_one, Hlw, !length_app. cbn [List.length]. fold n.
    repeat f_equal; lia. }
  exists (mkProof (mkInferenceRule assumed f) [MP; I0; I1; D; N; NI] final).
  split; [exact Hrun | split; [| split; reflexivity]].
  apply (is_valid_rules _ AXIOMATIC_SYSTEM).
  { subst final. rewrite !forallb_snoc, Hcwp. reflexivity. }
  apply (proves_valid assumed f).
  assert (Hlen : List.length (lines wp) = S n)
    by (rewrite Hlw, length_app; cbn [List.length]; lia).
  assert (Hd1 : derivation assumed (lines wp ++ [l1])).
  { apply derivation_snoc; [assumption |]. apply ok_axiom.
    - unfold AXIOMATIC_SYSTEM. simpl. tauto.
    - apply (specialization_map_complete N [("q"%string, f); ("p"%string, i0)]);
        reflexivity. }
  assert (Hd2 : derivation assumed ((lines wp ++ [l1]) ++ [l2])).
  { apply derivation_snoc; [assumption |].
    rewrite length_app, Hlen. cbn [List.length].
    apply (ok_modus_ponens _ _ _ first_part n (S n) last l1
                           (implies (Unary "~" f) goal) first_part);
      try lia; try reflexivity.
    - rewrite Hlw, <- !app_assoc. cbn [app]. now apply nth_error_at.
    - rewrite Hlw, <- !app_assoc. cbn [app]. now apply nth_error_at1.
    - exact Hlastw. }
  assert (Hd3 : derivation assumed (((lines wp ++ [l1]) ++ [l2]) ++ [l3])).
  { apply derivation_snoc; [assumption |]. apply ok_axiom.
    - unfold AXIOMATIC_SYSTEM. simpl. tauto.
    - apply I0_instance. }
  split; [reflexivity | split; [apply axiomatic_system_axiomatic | split]].
  - cbn [lines]. subst final. apply derivation_snoc; [assumption |].
    rewrite !length_app, Hlen. cbn [List.length].
    replace (S n + 1 + 1 + 1)%nat with (S (S (S (S n)))) by lia.
    apply (ok_modus_ponens _ _ _ f (S (S (S n))) (S (S n)) l3 l2 i0 f);
      try lia; try reflexivity.
    + rewrite Hlw, <- !app_assoc. cbn [app].
      replace (prev ++ last :: l1 :: l2 :: l3 :: [l4])
        with ((prev ++ [last; l1; l2]) ++ l3 :: [l4])
        by (rewrite <- app_assoc; reflexivity).
      apply nth_error_at. rewrite length_app. cbn [List.length]. lia.
    + rewrite Hlw, <- !app_assoc. cbn [app].
      replace (prev ++ last :: l1 :: l2 :: l3 :: [l4])
        with ((prev ++ [last; l1]) ++ l2 :: l3 :: [l4])
        by (rewrite <- app_assoc; reflexivity).
      apply nth_error_at. rewrite length_app. cbn [List.length]. lia.
  - cbn [lines]. subst final. eexists. eexists. split; reflexivity.
Qed.

Lemma prove_by_contradiction_valid_witness :
  exists p',
    prove_by_contradiction
      (mkProof
         (mkInferenceRule
            ([] ++ [Unary "~" (Binary "->" (Leaf "p") (Leaf "p"))])
            (Unary "~" (Binary "->" (Leaf "p") (Leaf "p"))))
         AXIOMATIC_SYSTEM
         [AssumptionLine (Unary "~" (Binary "->" (Leaf "p") (Leaf "p")))])
    = Ok p' /\
    is_valid p' = Ok true /\
    statement p' = mkInferenceRule [] (Binary "->" (Leaf "p") (Leaf "p")) /\
    rules p' = [MP; I0; I1; D; N; NI].
Proof.
  apply (prove_by_contradiction_valid [] (Binary "->" (Leaf "p") (Leaf "p"))).
  - now apply single_assumption_proves.
  - intros a [].
  - reflexivity.
Defined.


End PropositionalProperties.

(* ================================================================== *)
(** * Further properties of the first-order code *)
(* ================================================================== *)

Section FirstOrderProperties.
Local Open Scope list_scope.


(** ** Equality and parsing *)

(** X27: two terms, or two formulas, that the constructors accept are
    equal for [__eq__], which compares their string representations,
    exactly when they are the same tree. *)
Theorem first_order_eq_structural :
  (forall s t : Term,
      Term_wf s = true -> Term_wf t = true -> (Term_eq s t = true <-> s = t))
  /\ (forall f g : Formula,
         wf f = true -> wf g = true -> (Formula_eq f g = true <-> f = g)).
Proof.
  split.
  - intros s t Hs Ht. unfold Term_eq. rewrite String.eqb_eq. split.
    + intros Heq. pose proof (Term_parse_repr s Hs) as Hp.
      rewrite Heq, (Term_parse_repr t Ht) in Hp. now injection Hp.
    + now intros ->.
  - intros f g Hf Hg. unfold Formula_eq. rewrite String.eqb_eq. split.
    + intros Heq. pose proof (fo_parse_repr f Hf) as Hp.
      rewrite Heq, (fo_parse_repr g Hg) in Hp. now injection Hp.
    + now intros ->.
Qed.

Lemma first_order_eq_structural_witness :
  (Term_eq (TApp "f" [TLeaf "x"; TLeaf "0"]) (TApp "f" [TLeaf "x"; TLeaf "0"])
   = true
   <-> TApp "f" [TLeaf "x"; TLeaf "0"] = TApp "f" [TLeaf "x"; TLeaf "0"])
  /\ (Formula_eq (Quantifier "A" "x" (Relation "R" [TLeaf "x"]))
                 (Quantifier "A" "x" (Relation "R" [TLeaf "x"])) = true
      <-> Quantifier "A" "x" (Relation "R" [TLeaf "x"])
          = Quantifier "A" "x" (Relation "R" [TLeaf "x"])).
Proof.
  split.
  - apply (proj1 first_order_eq_structural); reflexivity.
  - apply (proj2 first_order_eq_structural); reflexivity.
Defined.




(** ** Variables and substitution *)

(** A computation that adds the names in [names] to a set. *)
Definition collects (run : list string -> result (list string))
           (names : list string) : Prop :=
  forall acc, exists vs,
    run acc = Ok vs /\ forall x, In x vs <-> In x acc \/ In x names.

Lemma Term_helper_variables_collects (t : Term) :
  Term_wf t = true ->
  exists names,
    (forall x, In x names -> is_variable x = Ok true) /\
    collects (Term_helper_variables t) names.
Proof.
  induction t as [r | r args IH] using Term_induction; intros Hwf.
  - cbn [Term_wf] in Hwf.
    destruct (is_constant r) as [c |] eqn:Hc; [| discriminate].
    destruct (is_variable r) as [v |] eqn:Hv; [| discriminate].
    destruct c.
    + exists []. split; [intros x [] |]. intros acc. exists acc. split.
      * cbn [Term_helper_variables Term_root]. now rewrite Hc.
      * intros x. simpl. tauto.
    + simpl in Hwf. subst v. exists [r]. split; [now intros x [<- | []] |].
      intros acc. exists (set_add r acc). split.
      * cbn [Term_helper_variables Term_root]. rewrite Hc. cbn [Py.bind].
        now rewrite Hv.
      * intros x. rewrite set_add_In. simpl. intuition.
  - cbn [Term_wf] in Hwf.
    destruct (is_constant r) as [[|] |] eqn:Hc; try discriminate.
    destruct (is_variable r) as [[|] |] eqn:Hv; try discriminate.
    destruct (is_function r) as [[|] |] eqn:Hf; try discriminate.
    apply andb_true_iff in Hwf. destruct Hwf as [_ Hargs].
    assert (Hloop : exists names,
               (forall x, In x names -> is_variable x = Ok true) /\
               collects (for_each (fun arg s => Term_helper_variables arg s) args)
                        names).
    { clear Hc Hv Hf. induction args as [| a args IHargs].
      - exists []. split; [intros x [] |]. intros acc. exists acc.
        split; [reflexivity | intros x; simpl; tauto].
      - inversion IH as [| ? ? Ha Hrest]; subst.
        simpl in Hargs. apply andb_true_iff in Hargs. destruct Hargs as [Hwa Hwr].
        destruct (Ha Hwa) as [na [Hna Hca]].
        destruct (IHargs Hrest Hwr) as [nr [Hnr Hcr]].
        exists (na ++ nr). split.
        + intros x Hx. apply in_app_iff in Hx. destruct Hx; auto.
        + intros acc. destruct (Hca acc) as [v1 [H1 Hin1]].
          destruct (Hcr v1) as [v2 [H2 Hin2]]. exists v2. split.
          * cbn [for_each]. rewrite H1. exact H2.
          * intros x. rewrite Hin2, Hin1, in_app_iff. tauto. }
    destruct Hloop as [names [Hnamed Hcol]]. exists names.
    split; [assumption |]. intros acc. destruct (Hcol acc) as [vs [Hrun Hin]].
    exists vs. split; [| assumption].
    cbn [Term_helper_variables Term_root]. rewrite Hc. cbn [Py.bind].
    rewrite Hv. cbn [Py.bind]. exact Hrun.
Qed.

Lemma set_union_In (s t : list string) (x : string) :
  In x (set_union s t) <-> In x s \/ In x t.
Proof.
  unfold set_union. revert s. induction t as [| y t IH]; intros s; simpl.
  - tauto.
  - rewrite IH, set_add_In. intuition.
Qed.

Lemma fold_set_add_In (l acc : list string) (x : string) :
  In x (fold_left (fun s var => set_add var s) l acc) <-> In x acc \/ In x l.
Proof.
  revert acc. induction l as [| y l IH]; intros acc; simpl.
  - tauto.
  - rewrite IH, set_add_In. intuition.
Qed.

Lemma first_order_set_difference_In (s t : list string) (x : string) :
  In x (set_difference s t) <-> In x s /\ ~ In x t.
Proof.
  unfold set_difference. rewrite filter_In. split; intros [Hs Ht].
  - split; [assumption |]. intros Hin. apply str_mem_In in Hin.
    rewrite Hin in Ht. discriminate.
  - split; [assumption |]. destruct (str_mem x t) eqn:E; [| reflexivity].
    apply str_mem_In in E. contradiction.
Qed.

Lemma Term_variables_names (t : Term) (names : list string) :
  collects (Term_helper_variables t) names ->
  exists vs, Term_variables t = Ok vs /\ forall x, In x vs <-> In x names.
Proof.
  intros H. destruct (H []) as [vs [Hrun Hin]]. exists vs.
  split; [exact Hrun |]. intros x. rewrite Hin. simpl. tauto.
Qed.

Lemma terms_collect (args : list Term) :
  forallb Term_wf args = true ->
  exists names,
    (forall x, In x names -> is_variable x = Ok true) /\
    collects (for_each (fun arg s => Term_helper_variables arg s) args) names /\
    collects (for_each (fun arg values =>
                          vs <- Term_variables arg ;; Ok (set_union values vs))
                       args) names.
Proof.
  induction args as [| a args IH]; intros Hwf.
  - exists []. split; [intros x [] |].
    split; intros acc; exists acc; (split; [reflexivity | intros x; simpl; tauto]).
  - simpl in Hwf. apply andb_true_iff in Hwf. destruct Hwf as [Hwa Hwr].
    destruct (Term_helper_variables_collects a Hwa) as [na [Hna Hca]].
    destruct (IH Hwr) as [nr [Hnr [Hcr Hfr]]].
    exists (na ++ nr). split; [| split].
    + intros x Hx. apply in_app_iff in Hx. destruct Hx; auto.
    + intros acc. destruct (Hca acc) as [v1 [H1 Hin1]].
      destruct (Hcr v1) as [v2 [H2 Hin2]]. exists v2. split.
      * cbn [for_each]. rewrite H1. exact H2.
      * intros x. rewrite Hin2, Hin1, in_app_iff. tauto.
    + intros acc. destruct (Term_variables_names a na Hca) as [va [Hva Hina]].
      destruct (Hfr (set_union acc va)) as [v2 [H2 Hin2]]. exists v2. split.
      * cbn [for_each]. rewrite Hva. cbn [Py.bind]. exact H2.
      * intros x. rewrite Hin2, set_union_In, Hina, in_app_iff. tauto.
Qed.

Lemma variable_nonempty (x : string) :
  is_variable x = Ok true -> x <> ""%string.
Proof. intros H ->. discriminate. Qed.

Lemma characters_nonempty (s x : string) :
  In x (characters s) -> x <> ""%string.
Proof.
  induction s as [| c s IH]; simpl; [tauto |].
  intros [<- | H]; [discriminate | now apply IH].
Qed.

(** The variables and the free variables of a formula. *)
Lemma formula_variables_collects (f : Formula) :
  wf f = true ->
  exists names fv,
    collects (helper_variables f) names /\
    (forall x, In x names -> x <> ""%string) /\
    free_variables f = Ok fv /\
    (forall x, In x fv -> In x names).
Proof.
  induction f as [r args | r a IHa | r a IHa b IHb | r x a IHa]; intros Hwf.
  - destruct (wf_relation r args Hwf) as [Hargs Hshape].
    destruct (terms_collect args Hargs) as [names [Hnamed [Hcol Hfree]]].
    destruct Hshape as [[-> [a [b ->]]] | [Heq Hrel]].
    + simpl in Hargs. apply andb_true_iff in Hargs. destruct Hargs as [Hwa Hwb].
      apply andb_true_iff in Hwb. destruct Hwb as [Hwb _].
      destruct (Term_helper_variables_collects a Hwa) as [na [Hna Hca]].
      destruct (Term_helper_variables_collects b Hwb) as [nb [Hnb Hcb]].
      destruct (Term_variables_names a na Hca) as [va [Hva Hina]].
      destruct (Term_variables_names b nb Hcb) as [vb [Hvb Hinb]].
      exists (na ++ nb), (set_union va vb). split; [| split; [| split]].
      * intros acc. destruct (Hca acc) as [v1 [H1 Hin1]].
        destruct (Hcb v1) as [v2 [H2 Hin2]]. exists v2. split.
        -- cbn [helper_variables for_each]. rewrite H1. cbn [Py.bind].
           rewrite H2. reflexivity.
        -- intros x. rewrite Hin2, Hin1, in_app_iff. tauto.
      * intros x Hx. apply variable_nonempty. apply in_app_iff in Hx.
        destruct Hx; auto.
      * cbn [free_variables]. change (is_equality "=") with true. cbn iota.
        change (getitem [a; b] 0%Z) with (Ok a).
        change (getitem [a; b] 1%Z) with (Ok b).
        cbn [Py.bind]. rewrite Hva. cbn [Py.bind]. rewrite Hvb. reflexivity.
      * intros x Hx. apply set_union_In in Hx. apply in_app_iff.
        rewrite <- Hina, <- Hinb. exact Hx.
    + destruct (Hfree []) as [fv [Hfv Hinfv]].
      exists names, fv. split; [| split; [| split]].
      * exact Hcol.
      * intros x Hx. now apply variable_nonempty, Hnamed.
      * cbn [free_variables]. rewrite Heq. exact Hfv.
      * intros x Hx. apply Hinfv in Hx. simpl in Hx. tauto.
  - simpl in Hwf. apply andb_true_iff in Hwf. destruct Hwf as [_ Ha].
    destruct (IHa Ha) as [names [fv [Hcol [Hne [Hfv Hsub]]]]].
    exists names, fv. now repeat split.
  - simpl in Hwf. apply andb_true_iff in Hwf. destruct Hwf as [Hwf Hb].
    apply andb_true_iff in Hwf. destruct Hwf as [_ Ha].
    destruct (IHa Ha) as [na [fa [Hca [Hnea [Hfa Hsa]]]]].
    destruct (IHb Hb) as [nb [fb [Hcb [Hneb [Hfb Hsb]]]]].
    exists (na ++ nb), (set_union fa fb). split; [| split; [| split]].
    + intros acc. destruct (Hca acc) as [v1 [H1 Hin1]].
      destruct (Hcb v1) as [v2 [H2 Hin2]]. exists v2. split.
      * cbn [helper_variables]. rewrite H1. exact H2.
      * intros y. rewrite Hin2, Hin1, in_app_iff. tauto.
    + intros y Hy. apply in_app_iff in Hy. destruct Hy; auto.
    + cbn [free_variables]. rewrite Hfa. cbn [Py.bind]. rewrite Hfb. reflexivity.
    + intros y Hy. apply set_union_In in Hy. apply in_app_iff.
      destruct Hy; auto.
  - destruct (wf_quantifier r x a Hwf) as [_ [_ Ha]].
    destruct (IHa Ha) as [na [fa [Hca [Hnea [Hfa Hsa]]]]].
    exists (characters x ++ na),
      (set_difference fa (fold_left (fun s var => set_add var s)
                                    (characters x) [])).
    split; [| split; [| split]].
    + intros acc.
      destruct (Hca (fold_left (fun s var => set_add var s) (characters x) acc))
        as [vs [Hrun Hin]].
      exists vs. split; [exact Hrun |].
      intros y. rewrite Hin, fold_set_add_In, in_app_iff. tauto.
    + intros y Hy. apply in_app_iff in Hy.
      destruct Hy as [Hy | Hy]; [now apply (characters_nonempty x) | auto].
    + cbn [free_variables]. rewrite Hfa. reflexivity.
    + intros y Hy. apply first_order_set_difference_In in Hy.
      apply in_app_iff. right. now apply Hsa.
Qed.

(** X29: for a formula the constructor accepts, [free_variables] and
    [variables] return, and every free variable is among the variables. *)
Theorem free_variables_among_variables (f : Formula) :
  wf f = true ->
  exists fv vs,
    free_variables f = Ok fv /\ variables f = Ok vs /\
    forall x, In x fv -> In x vs.
Proof.
  intros Hwf.
  destruct (formula_variables_collects f Hwf) as [names [fv [Hcol [_ [Hfv Hsub]]]]].
  destruct (Hcol []) as [vs [Hrun Hin]].
  exists fv, vs. split; [assumption | split; [exact Hrun |]].
  intros x Hx. apply Hin. right. now apply Hsub.
Qed.

Lemma free_variables_among_variables_witness :
  exists fv vs,
    free_variables (Binary "&" (Quantifier "A" "x" (Relation "R" [TLeaf "x"; TLeaf "y"]))
                           (Relation "=" [TLeaf "x"; TLeaf "c"])) = Ok fv /\
    variables (Binary "&" (Quantifier "A" "x" (Relation "R" [TLeaf "x"; TLeaf "y"]))
                      (Relation "=" [TLeaf "x"; TLeaf "c"])) = Ok vs /\
    forall x, In x fv -> In x vs.
Proof.
  apply (free_variables_among_variables
           (Binary "&" (Quantifier "A" "x" (Relation "R" [TLeaf "x"; TLeaf "y"]))
                   (Relation "=" [TLeaf "x"; TLeaf "c"]))).
  reflexivity.
Defined.


Lemma restrict_loop (free : list string) (m : dict Term) (vars : list string) :
  forall (nd0 : dict Term) (fb0 : list string) (nd : dict Term) (fb : list string),
    fold_left (fun state var => restrict_step free m var state) vars (nd0, fb0)
    = (nd, fb) ->
    (forall k, In k (dict_keys nd) -> In k (dict_keys nd0) \/ In k (dict_keys m)) /\
    (forall y, In y fb <-> In y fb0 \/ (In y vars /\ ~ In y free)).
Proof.
  induction vars as [| v vars IH]; intros nd0 fb0 nd fb Hrun.
  - simpl in Hrun. injection Hrun as <- <-. split; [tauto |].
    intros y. simpl. tauto.
  - cbn [fold_left] in Hrun. unfold restrict_step at 2 in Hrun.
    apply IH in Hrun. destruct Hrun as [Hkeys Hfb]. split.
    + intros k Hk. apply Hkeys in Hk. destruct Hk as [Hk | Hk]; [| tauto].
      destruct (str_mem v free); [| tauto].
      destruct (dict_get m v) as [t |] eqn:Hget; [| tauto].
      apply dict_keys_set in Hk. destruct Hk as [-> | Hk]; [| tauto].
      right. apply dict_keys_get. eauto.
    + intros y. rewrite Hfb. destruct (str_mem v free) eqn:Hmem; cbn [negb].
      * apply str_mem_In in Hmem. simpl. split; [tauto |].
        intros [H | [[<- | H] Hn]]; tauto.
      * assert (Hv : ~ In v free).
        { intros H. apply str_mem_In in H. rewrite H in Hmem. discriminate. }
        rewrite set_add_In. simpl. split; [| tauto].
        intros [[<- | H] | H]; tauto.
Qed.

Lemma keep_constants_keys (items : list (string * Term)) :
  (forall k, In k (dict_keys items) -> exists c, is_constant k = Ok c) ->
  forall nd0 : dict Term,
  exists nd,
    keep_constants items nd0 = Ok nd /\
    forall k, In k (dict_keys nd) -> In k (dict_keys nd0) \/ In k (dict_keys items).
Proof.
  induction items as [| [val t] items IH]; intros Hkeys nd0.
  - exists nd0. split; [reflexivity | tauto].
  - destruct (Hkeys val (or_introl eq_refl)) as [c Hc].
    destruct (IH (fun k Hk => Hkeys k (or_intror Hk))
                 (if c then dict_set nd0 val t else nd0)) as [nd [Hrun Hin]].
    exists nd. split.
    + cbn [keep_constants]. rewrite Hc. exact Hrun.
    + intros k Hk. apply Hin in Hk. simpl. destruct Hk as [Hk | Hk]; [| tauto].
      destruct c; [| tauto].
      apply dict_keys_set in Hk. destruct Hk as [-> | Hk]; tauto.
Qed.

(** The name check of the first loop of the assertions. *)
Definition name_ok (element_name : string) : result unit :=
  c <- is_constant element_name ;;
  if c then Ok tt else (v <- is_variable element_name ;; assert v).

Lemma names_loop (keys : list string) :
  for_each (fun element_name _ => name_ok element_name) keys tt = Ok tt <->
  forall k, In k keys -> name_ok k = Ok tt.
Proof.
  induction keys as [| k keys IH]; cbn [for_each].
  - split; [intros _ k [] | reflexivity].
  - destruct (name_ok k) as [[] | e] eqn:Hk; cbn [Py.bind].
    + rewrite IH. split.
      * intros H y [<- | Hy]; auto.
      * intros H y Hy. apply H. now right.
    + split; [discriminate |]. intros H.
      rewrite (H k (or_introl eq_refl)) in Hk. discriminate.
Qed.

Lemma forbidden_loop (l : list string) :
  for_each (fun variable _ => v <- is_variable variable ;; assert v) l tt = Ok tt
  <-> forall y, In y l -> is_variable y = Ok true.
Proof.
  induction l as [| x l IH]; cbn [for_each].
  - split; [intros _ y [] | reflexivity].
  - destruct (is_variable x) as [[|] | e] eqn:Hx; cbn [Py.bind Py.assert].
    + rewrite IH. split.
      * intros H y [<- | Hy]; auto.
      * intros H y Hy. apply H. now right.
    + split; [discriminate |]. intros H.
      rewrite (H x (or_introl eq_refl)) in Hx. discriminate.
    + split; [discriminate |]. intros H.
      rewrite (H x (or_introl eq_refl)) in Hx. discriminate.
Qed.

Lemma forbidden_loop_raises (l : list string) (c : string) :
  (forall y, In y l -> y <> ""%string) ->
  In c l -> is_variable c = Ok false ->
  for_each (fun variable _ => v <- is_variable variable ;; assert v) l tt
  = Raise AssertionError.
Proof.
  induction l as [| x l IH]; intros Hne Hin Hc; [destruct Hin |].
  cbn [for_each].
  assert (Hx : exists b, is_variable x = Ok b).
  { destruct x as [| a w]; [now destruct (Hne "" (or_introl eq_refl)) |].
    simpl. eauto. }
  destruct Hx as [[|] Hx]; rewrite Hx; cbn [Py.bind Py.assert].
  - destruct Hin as [-> | Hin]; [rewrite Hx in Hc; discriminate |].
    apply IH; auto. intros y Hy. apply Hne. now right.
  - reflexivity.
Qed.

Lemma assert_substitution_inv (m : dict Term) (forb : list string) :
  assert_substitution m forb = Ok tt <->
  (forall k, In k (dict_keys m) -> name_ok k = Ok tt) /\
  (forall y, In y forb -> is_variable y = Ok true).
Proof.
  unfold assert_substitution. fold name_ok.
  change (fun (element_name : string) (_ : unit) =>
            c <- is_constant element_name ;;
            (if c then Ok tt else v <- is_variable element_name ;; assert v))
    with (fun (element_name : string) (_ : unit) => name_ok element_name).
  rewrite <- names_loop, <- forbidden_loop.
  destruct (for_each (fun element_name _ => name_ok element_name)
                     (dict_keys m) tt) as [[] | e]; cbn [Py.bind].
  - tauto.
  - split; [discriminate | intros [H _]; discriminate].
Qed.

Lemma name_ok_constant (k : string) :
  name_ok k = Ok tt -> exists c, is_constant k = Ok c.
Proof.
  unfold name_ok. destruct (is_constant k) as [c | e]; [eauto | discriminate].
Qed.

(** X30: [Formula.substitute] raises [AssertionError] on every
    quantification whose variable name has a character that is not itself a
    variable name, whatever the substitution: the loop over the variables
    of the formula puts that character among the forbidden variables, and
    the call on the predicate asserts that these are variable names. *)
Theorem substitute_rejects_bound_name
        (r x : string) (a : Formula) (c : string)
        (m : dict Term) (forb : list string) :
  wf (Quantifier r x a) = true ->
  In c (characters x) ->
  is_variable c = Ok false ->
  assert_substitution m forb = Ok tt ->
  substitute (Quantifier r x a) m forb = Raise AssertionError.
Proof.
  intros Hwf Hc Hnv Hassert.
  destruct (wf_quantifier r x a Hwf) as [Hr [_ Ha]].
  destruct (formula_variables_collects (Quantifier r x a) Hwf)
    as [names [fv [Hcol [Hne [Hfv _]]]]].
  destruct (Hcol []) as [vs [Hvs Hinvs]].
  assert (Hfree : ~ In c fv).
  { cbn [free_variables] in Hfv.
    destruct (free_variables a) as [goods |]; [| discriminate].
    injection Hfv as <-. intros H.
    apply first_order_set_difference_In in H. destruct H as [_ H]. apply H.
    apply fold_set_add_In. now right. }
  assert (Hcvs : In c vs).
  { destruct (formula_variables_collects a Ha) as [na [fa [Hca _]]].
    cbn [helper_variables] in Hvs.
    destruct (Hca (fold_left (fun s var => set_add var s) (characters x) []))
      as [vs' [Hvs' Hin']].
    rewrite Hvs' in Hvs. injection Hvs as <-.
    apply Hin'. left. apply fold_set_add_In. now right. }
  pose proof (proj1 (assert_substitution_inv m forb) Hassert) as [Hkeys Hforb].
  cbn [substitute]. rewrite Hassert. cbn [Py.bind root].
  assert (Hroot : (c0 <- is_constant r ;;
                   v <- (if c0 then Ok true else is_variable r) ;;
                   (if v then Ok true else is_function r)) = Ok false).
  { destruct Hr as [-> | ->]; reflexivity. }
  destruct (is_constant r) as [c0 |]; [| discriminate]. cbn [Py.bind] in *.
  destruct (if c0 then Ok true else is_variable r) as [v |]; [| discriminate].
  cbn [Py.bind] in *.
  destruct (if v then Ok true else is_function r) as [fn |]; [| discriminate].
  injection Hroot as ->.
  fold (variables (Quantifier r x a)). unfold variables at 1.
  rewrite Hfv. cbn [Py.bind]. rewrite Hvs. cbn [Py.bind].
  destruct (fold_left (fun state var => restrict_step fv m var state) vs ([], forb))
    as [nd fb] eqn:Hloop.
  apply restrict_loop in Hloop. destruct Hloop as [Hnd Hfb].
  destruct (keep_constants_keys m (fun k Hk => name_ok_constant k (Hkeys k Hk)) nd)
    as [nd' [Hkeep Hnd']].
  rewrite Hkeep. cbn [Py.bind].
  assert (Hfail : assert_substitution nd' fb = Raise AssertionError).
  { unfold assert_substitution.
    assert (Hnames : forall k, In k (dict_keys nd') -> name_ok k = Ok tt).
    { intros k Hk. apply Hkeys. apply Hnd' in Hk. destruct Hk as [Hk | Hk]; [| assumption].
      apply Hnd in Hk. destruct Hk as [[] | Hk]. assumption. }
    apply names_loop in Hnames. unfold name_ok in Hnames. rewrite Hnames.
    cbn [Py.bind]. apply (forbidden_loop_raises fb c).
    - intros y Hy. apply Hfb in Hy. destruct Hy as [Hy | [Hy _]].
      + now apply variable_nonempty, Hforb.
      + apply Hinvs in Hy. destruct Hy as [[] | Hy]. now apply Hne.
    - apply Hfb. right. split; assumption.
    - assumption. }
  destruct a; cbn [substitute]; rewrite Hfail; reflexivity.
Qed.

Lemma substitute_rejects_bound_name_witness :
  substitute (Quantifier "A" "x1" (Relation "R" [TLeaf "x1"; TLeaf "c"]))
             [("c", TLeaf "d")] ["z"]
  = Raise AssertionError.
Proof.
  apply (substitute_rejects_bound_name
           "A" "x1" (Relation "R" [TLeaf "x1"; TLeaf "c"]) "1"
           [("c", TLeaf "d")] ["z"]).
  - reflexivity.
  - simpl. right. left. reflexivity.
  - reflexivity.
  - reflexivity.
Defined.


End FirstOrderProperties.
